(** * EventCycle logic simulator: a shallow embedding of [src/src.py]

    The Python module defines 2/3-valued gate evaluators, a netlist
    ([Gate], [Circuit]) and five schedulers that share one external
    contract ([simulate_vector]).  Every function below is a transcription
    of the Python function of the same name.

    Conventions of the embedding
    - logic values and the logic model are Python strings, so they are
      [string] here and [==] is [String.eqb];
    - a Python list indexed by a net id is a [list] read with stdpp's
      lookup; an index out of range raises [IndexError] (net ids are
      never negative, so Python's negative indexing does not arise);
    - dictionaries keyed by net id or gate id are [gmap]s;
    - an exception aborts the call: the outcome [Raise e] carries no
      successor state (the circuit builder is the exception, see
      [add_gate], whose partial effects are observable);
    - [while] loops whose queue can grow take a [fuel : nat]: running out
      of it is the outcome [OutOfFuel];
    - gate objects are compared by identity in Python ([g not in queue]);
      [Circuit.add_gate] gives every gate the id [len(self.gates)], so
      identity is equality of gate ids, which is what the model tests. *)

From Stdlib Require Import ZArith Ascii.
From stdpp Require Import base option list gmap strings sorting.

Local Open Scope string_scope.
Local Open Scope list_scope.

(** ** Outcomes of a call *)

Inductive exn : Type :=
  | IndexError
  | KeyError
  | ValueError (msg : string).

Inductive result (A : Type) : Type :=
  | Ok (a : A)
  | Raise (e : exn)
  | OutOfFuel.
Arguments Ok {A} a.
Arguments Raise {A} e.
Arguments OutOfFuel {A}.

Definition result_bind {A B : Type} (f : A → result B) (m : result A) : result B :=
  match m with
  | Ok a => f a
  | Raise e => Raise e
  | OutOfFuel => OutOfFuel
  end.

#[global] Instance result_mbind : MBind result := @result_bind.
#[global] Instance result_mret : MRet result := @Ok.

(** [l[i]] on a Python list. *)
Definition list_get {A : Type} (l : list A) (i : nat) : result A :=
  match l !! i with
  | Some x => Ok x
  | None => Raise IndexError
  end.

(** [l[i] = x] on a Python list. *)
Definition list_set {A : Type} (l : list A) (i : nat) (x : A) : result (list A) :=
  if decide (i < length l) then Ok (<[i:=x]> l) else Raise IndexError.

(** ** Logic values *)

Definition LOGIC_ZERO : string := "0".
Definition LOGIC_ONE : string := "1".
Definition LOGIC_U : string := "U".
Definition LOGIC_X : string := "X".

(** ** Logic primitives *)

Fixpoint logic_and (inputs : list nat) (values : list string) (logic_model : string)
  : result string :=
  match inputs with
  | [] => Ok LOGIC_ONE
  | i :: rest =>
      val ← list_get values i;
      if val =? LOGIC_ZERO then Ok LOGIC_ZERO
      else if (logic_model =? "3val") && (val =? LOGIC_U) then Ok LOGIC_U
      else logic_and rest values logic_model
  end.

Fixpoint logic_or (inputs : list nat) (values : list string) (logic_model : string)
  : result string :=
  match inputs with
  | [] => Ok LOGIC_ZERO
  | i :: rest =>
      val ← list_get values i;
      if val =? LOGIC_ONE then Ok LOGIC_ONE
      else if (logic_model =? "3val") && (val =? LOGIC_U) then Ok LOGIC_U
      else logic_or rest values logic_model
  end.

Definition logic_not_single (val : string) (logic_model : string) : string :=
  if (logic_model =? "3val") && (val =? LOGIC_U) then LOGIC_U
  else if val =? LOGIC_ZERO then LOGIC_ONE
  else if val =? LOGIC_ONE then LOGIC_ZERO
  else LOGIC_X.

Definition logic_not (input_idx : nat) (values : list string) (logic_model : string)
  : result string :=
  val ← list_get values input_idx;
  if (logic_model =? "3val") && (val =? LOGIC_U) then Ok LOGIC_U
  else if val =? LOGIC_ZERO then Ok LOGIC_ONE
  else if val =? LOGIC_ONE then Ok LOGIC_ZERO
  else Ok LOGIC_X.

Definition logic_nand (inputs : list nat) (values : list string) (logic_model : string)
  : result string :=
  andv ← logic_and inputs values logic_model;
  if andv =? LOGIC_U then Ok LOGIC_U
  else Ok (logic_not_single andv logic_model).

Definition logic_nor (inputs : list nat) (values : list string) (logic_model : string)
  : result string :=
  orv ← logic_or inputs values logic_model;
  if orv =? LOGIC_U then Ok LOGIC_U
  else Ok (logic_not_single orv logic_model).

(** The loop of [logic_xor], with the running count [ones]. *)
Fixpoint logic_xor_loop (inputs : list nat) (values : list string) (ones : nat)
  : result string :=
  match inputs with
  | [] => Ok (if Nat.eqb (ones mod 2) 1 then LOGIC_ONE else LOGIC_ZERO)
  | i :: rest =>
      val ← list_get values i;
      if val =? LOGIC_U then Ok LOGIC_U
      else if val =? LOGIC_ONE then logic_xor_loop rest values (ones + 1)
      else logic_xor_loop rest values ones
  end.

Definition logic_xor (inputs : list nat) (values : list string) (logic_model : string)
  : result string :=
  logic_xor_loop inputs values 0.

Definition logic_xnor (inputs : list nat) (values : list string) (logic_model : string)
  : result string :=
  xorv ← logic_xor inputs values logic_model;
  if xorv =? LOGIC_U then Ok LOGIC_U
  else Ok (logic_not_single xorv logic_model).

(** The dispatch table.  [logic_not] takes one net id where the others
    take a list, so the table's entries are tagged. *)
Inductive logic_fn : Type :=
  | FnList (f : list nat → list string → string → result string)
  | FnSingle (f : nat → list string → string → result string).

Definition GATE_FUNCS (ty : string) : option logic_fn :=
  if ty =? "AND" then Some (FnList logic_and)
  else if ty =? "OR" then Some (FnList logic_or)
  else if ty =? "NOT" then Some (FnSingle logic_not)
  else if ty =? "NAND" then Some (FnList logic_nand)
  else if ty =? "NOR" then Some (FnList logic_nor)
  else if ty =? "XOR" then Some (FnList logic_xor)
  else if ty =? "XNOR" then Some (FnList logic_xnor)
  else None.

(** ** Gates *)

(** [str.upper] on ASCII text. *)
Definition upper_ascii (c : ascii) : ascii :=
  let n := nat_of_ascii c in
  if (97 <=? n)%nat && (n <=? 122)%nat then ascii_of_nat (n - 32) else c.

Fixpoint upper (s : string) : string :=
  match s with
  | EmptyString => EmptyString
  | String c rest => String (upper_ascii c) (upper rest)
  end.

Record Gate : Type := mkGate {
  gate_id : nat;
  gate_type : string;
  gate_inputs : list nat;
  gate_output : nat
}.

#[global] Instance Gate_eq_dec : EqDecision Gate.
Proof. solve_decision. Defined.

(** [Gate.__init__] *)
Definition Gate_init (gid : nat) (gtype : string) (inputs : list nat) (output : nat)
  : result Gate :=
  let ty := upper gtype in
  match GATE_FUNCS ty with
  | Some _ => Ok (mkGate gid ty inputs output)
  | None => Raise (ValueError ("Unsupported gate type: " +:+ ty))
  end.

(** [Gate.simulate] *)
Definition simulate (g : Gate) (net_values : list string) (logic_model : string)
  : result string :=
  if gate_type g =? "NOT" then
    i ← list_get (gate_inputs g) 0;
    logic_not i net_values logic_model
  else
    match GATE_FUNCS (gate_type g) with
    | Some (FnList func) => func (gate_inputs g) net_values logic_model
    | Some (FnSingle func) =>
        i ← list_get (gate_inputs g) 0; func i net_values logic_model
    | None => Raise KeyError
    end.

(** [g in queue] for a queue of gates. *)
Definition gate_in (g : Gate) (queue : list Gate) : bool :=
  existsb (λ h, Nat.eqb (gate_id h) (gate_id g)) queue.

(** ** Circuits *)

Record Circuit : Type := mkCircuit {
  net_id_map : gmap string nat;
  net_names : list string;
  next_net_id : nat;
  gates : list Gate;
  primary_inputs : list nat;
  primary_outputs : list nat;
  fanout : gmap nat (list Gate)
}.

(** [Circuit.__init__] *)
Definition Circuit_init : Circuit :=
  mkCircuit ∅ [] 0 [] [] [] ∅.

(** [self.fanout[net]] on the [defaultdict(list)].  A read of a net
    that has no entry yields the empty list; the dictionary then also
    stores that empty list under the net, and every later read of the
    net returns it, as the read of the missing entry did.  The code reads
    the dictionary by [fanout[net]] only, so [fanout] stands for it up to
    such empty entries. *)
Definition fanout_of (c : Circuit) (net : nat) : list Gate :=
  default [] (fanout c !! net).

Definition add_net (name : string) (c : Circuit) : Circuit * nat :=
  match net_id_map c !! name with
  | Some id => (c, id)
  | None =>
      (mkCircuit (<[name := next_net_id c]> (net_id_map c))
                 (net_names c ++ [name])
                 (next_net_id c + 1)
                 (gates c) (primary_inputs c) (primary_outputs c) (fanout c),
       next_net_id c)
  end.

(** [[self.add_net(n) for n in names]] *)
Fixpoint add_nets (names : list string) (c : Circuit) : Circuit * list nat :=
  match names with
  | [] => (c, [])
  | n :: rest =>
      let '(c1, id) := add_net n c in
      let '(c2, ids) := add_nets rest c1 in
      (c2, id :: ids)
  end.

(** [for net in input_ids: self.fanout[net].append(gate)] *)
Fixpoint fanout_append (input_ids : list nat) (gate : Gate) (fo : gmap nat (list Gate))
  : gmap nat (list Gate) :=
  match input_ids with
  | [] => fo
  | net :: rest =>
      fanout_append rest gate (<[net := default [] (fo !! net) ++ [gate]]> fo)
  end.

(** [Circuit.add_gate]: the circuit after the call and the call's
    outcome.  The nets are created before [Gate(...)] can raise. *)
Definition add_gate (gtype : string) (input_names : list string) (output_name : string)
    (c : Circuit) : Circuit * result Gate :=
  let '(c1, input_ids) := add_nets input_names c in
  let '(c2, out_id) := add_net output_name c1 in
  match Gate_init (length (gates c2)) gtype input_ids out_id with
  | Ok gate =>
      (mkCircuit (net_id_map c2) (net_names c2) (next_net_id c2)
                 (gates c2 ++ [gate]) (primary_inputs c2) (primary_outputs c2)
                 (fanout_append input_ids gate (fanout c2)),
       Ok gate)
  | Raise e => (c2, Raise e)
  | OutOfFuel => (c2, OutOfFuel)
  end.

Definition set_primary_inputs (input_names : list string) (c : Circuit) : Circuit :=
  let '(c1, ids) := add_nets input_names c in
  mkCircuit (net_id_map c1) (net_names c1) (next_net_id c1) (gates c1)
            ids (primary_outputs c1) (fanout c1).

Definition set_primary_outputs (output_names : list string) (c : Circuit) : Circuit :=
  let '(c1, ids) := add_nets output_names c in
  mkCircuit (net_id_map c1) (net_names c1) (next_net_id c1) (gates c1)
            (primary_inputs c1) ids (fanout c1).

Definition get_net_name (c : Circuit) (net : nat) : result string :=
  list_get (net_names c) net.

Definition get_gate_by_output (c : Circuit) (net : nat) : list Gate :=
  filter (λ g, gate_output g = net) (gates c).

(** [{nid: net_values[nid] for nid in primary_outputs}]; a net id listed
    twice is read twice with the same value, so the order of the inserts
    does not show. *)
Fixpoint snapshot (outs : list nat) (net_values : list string)
  : result (gmap nat string) :=
  match outs with
  | [] => Ok ∅
  | nid :: rest =>
      v ← list_get net_values nid;
      m ← snapshot rest net_values;
      Ok (<[nid := v]> m)
  end.

(** ** Hazard detection

    The closing loop of [simulate_vector] is the same text in the four
    delay-aware simulators:
    [for net in range(self.num_nets): if change_count[net] > 1: ...]. *)

Fixpoint hazard_loop (nets : list nat) (change_count : list nat)
    (old_values net_values : list string) : result (list (nat * string)) :=
  match nets with
  | [] => Ok []
  | net :: rest =>
      n ← list_get change_count net;
      if (1 <? n)%nat then
        o ← list_get old_values net;
        v ← list_get net_values net;
        hazards ← hazard_loop rest change_count old_values net_values;
        Ok ((net, if o =? v then "static" else "dynamic") :: hazards)
      else hazard_loop rest change_count old_values net_values
  end.

Definition detect_hazards (num_nets : nat) (change_count : list nat)
    (old_values net_values : list string) : result (list (nat * string)) :=
  hazard_loop (seq 0 num_nets) change_count old_values net_values.

(** [if new_val != net_values[net]: net_values[net] = new_val;
    change_count[net] += 1]: the commit step of the event consumers. *)
Definition commit (net : nat) (new_val : string) (net_values : list string)
    (change_count : list nat) : result (list string * list nat) :=
  cur ← list_get net_values net;
  if negb (new_val =? cur) then
    nv ← list_set net_values net new_val;
    n ← list_get change_count net;
    cc ← list_set change_count net (n + 1);
    Ok (nv, cc)
  else Ok (net_values, change_count).

(** A pending net event, [{'net': net, 'value': value}]. *)
Record net_event : Type := mkEv { ev_net : nat; ev_value : string }.

(** ** Two-List simulator *)

Module TwoList.

Record Sim : Type := mkSim {
  circuit : Circuit;
  logic_model : string;
  num_nets : nat;
  net_values : list string;
  net_mark : list bool;
  gate_sim_count : nat;
  output_log : list (gmap nat string);
  intermediate_log : list (nat * gmap nat string)
}.

(** [TwoListSimulator.__init__] *)
Definition init (c : Circuit) (lm : string) : Sim :=
  let n := next_net_id c in
  mkSim c lm n
        (replicate n (if lm =? "3val" then LOGIC_U else LOGIC_ZERO))
        (if lm =? "2val" then replicate n true else replicate n false)
        0 [] [].

(** The loop over [primary_inputs] that fills the event queue.  The
    default of [input_vector.get] reads [net_values[net]] whether or not
    the key is present; [net_mark[net]] is read only when the value is
    unchanged ([or] short-circuits). *)
Fixpoint scan_inputs (pis : list nat) (input_vector : gmap nat string) (lm : string)
    (net_values : list string) (event_queue : list net_event) (net_mark : list bool)
  : result (list net_event * list bool) :=
  match pis with
  | [] => Ok (event_queue, net_mark)
  | net :: rest =>
      cur ← list_get net_values net;
      let val := default cur (input_vector !! net) in
      if lm =? "2val" then
        fire ← (if negb (val =? cur) then Ok true else list_get net_mark net);
        if fire : bool then
          nm ← list_set net_mark net false;
          scan_inputs rest input_vector lm net_values (event_queue ++ [mkEv net val]) nm
        else scan_inputs rest input_vector lm net_values event_queue net_mark
      else if negb (val =? cur) then
        scan_inputs rest input_vector lm net_values (event_queue ++ [mkEv net val]) net_mark
      else scan_inputs rest input_vector lm net_values event_queue net_mark
  end.

(** [for g in fanout[net_id]: if g not in gate_queue: gate_queue.append(g)] *)
Fixpoint schedule_fanout (fo : list Gate) (gate_queue : list Gate) : list Gate :=
  match fo with
  | [] => gate_queue
  | g :: rest =>
      schedule_fanout rest (if gate_in g gate_queue then gate_queue else gate_queue ++ [g])
  end.

(** The event drain phase.  Nothing is appended to the event queue
    while it is drained, so the loop is a recursion on the queue. *)
Fixpoint drain_events (c : Circuit) (event_queue : list net_event)
    (net_values : list string) (change_count : list nat) (gate_queue : list Gate)
  : result (list string * list nat * list Gate) :=
  match event_queue with
  | [] => Ok (net_values, change_count, gate_queue)
  | ev :: rest =>
      '(nv, cc) ← commit (ev_net ev) (ev_value ev) net_values change_count;
      drain_events c rest nv cc (schedule_fanout (fanout_of c (ev_net ev)) gate_queue)
  end.

(** The gate phase: the gate queue only shrinks. *)
Fixpoint gate_phase (lm : string) (gate_queue : list Gate) (net_values : list string)
    (gate_sim_count : nat) (event_queue : list net_event)
  : result (nat * list net_event) :=
  match gate_queue with
  | [] => Ok (gate_sim_count, event_queue)
  | g :: rest =>
      new_val ← simulate g net_values lm;
      cur ← list_get net_values (gate_output g);
      gate_phase lm rest net_values (gate_sim_count + 1)
                 (if negb (new_val =? cur)
                  then event_queue ++ [mkEv (gate_output g) new_val]
                  else event_queue)
  end.

(** The outer [while event_queue:] loop.  The gate queue is empty at
    the head of every iteration, since the gate phase drains it. *)
Fixpoint settle (fuel : nat) (s : Sim) (event_queue : list net_event)
    (change_count : list nat) (time_unit : nat) : result (Sim * list nat) :=
  match event_queue with
  | [] => Ok (s, change_count)
  | _ :: _ =>
      match fuel with
      | O => OutOfFuel
      | S fuel' =>
          '(nv, cc, gq) ← drain_events (circuit s) event_queue (net_values s)
                                       change_count [];
          match gq with
          | [] =>
              settle fuel'
                (mkSim (circuit s) (logic_model s) (num_nets s) nv (net_mark s)
                       (gate_sim_count s) (output_log s) (intermediate_log s))
                [] cc time_unit
          | _ :: _ =>
              snap ← snapshot (primary_outputs (circuit s)) nv;
              '(cnt, evq) ← gate_phase (logic_model s) gq nv (gate_sim_count s) [];
              settle fuel'
                (mkSim (circuit s) (logic_model s) (num_nets s) nv (net_mark s)
                       cnt (output_log s) (intermediate_log s ++ [(time_unit, snap)]))
                evq cc (time_unit + 1)
          end
      end
  end.

(** [simulate_vector] up to the end of the settling loop: the
    simulator and the call's [change_count]. *)
Definition simulate_core (fuel : nat) (s : Sim) (input_vector : gmap nat string)
  : result (Sim * list nat) :=
  '(evq, nm) ← scan_inputs (primary_inputs (circuit s)) input_vector (logic_model s)
                            (net_values s) [] (net_mark s);
  settle fuel
    (mkSim (circuit s) (logic_model s) (num_nets s) (net_values s) nm
           (gate_sim_count s) (output_log s) (intermediate_log s))
    evq (replicate (num_nets s) 0) 0.

(** [TwoListSimulator.simulate_vector] *)
Definition simulate_vector (fuel : nat) (s : Sim) (input_vector : gmap nat string)
  : result (Sim * list (nat * string)) :=
  let old_values := net_values s in
  '(s1, cc) ← simulate_core fuel s input_vector;
  snap ← snapshot (primary_outputs (circuit s1)) (net_values s1);
  hazards ← detect_hazards (num_nets s1) cc old_values (net_values s1);
  Ok (mkSim (circuit s1) (logic_model s1) (num_nets s1) (net_values s1) (net_mark s1)
            (gate_sim_count s1) (output_log s1 ++ [snap]) (intermediate_log s1),
      hazards).

End TwoList.

(** ** Single-List (event) simulator *)

Module SingleListEvent.

Record Sim : Type := mkSim {
  circuit : Circuit;
  logic_model : string;
  num_nets : nat;
  net_values : list string;
  net_mark : list bool;
  gate_sim_count : nat;
  output_log : list (gmap nat string);
  intermediate_log : list (nat * gmap nat string)
}.

(** An element of the single queue: an event record or [MARKER]. *)
Inductive item : Type :=
  | Event (ev : net_event)
  | Marker.

(** [SingleListEventSimulator.__init__] *)
Definition init (c : Circuit) (lm : string) : Sim :=
  let n := next_net_id c in
  mkSim c lm n
        (replicate n (if lm =? "3val" then LOGIC_U else LOGIC_ZERO))
        (if lm =? "2val" then replicate n true else replicate n false)
        0 [] [].

Fixpoint scan_inputs (pis : list nat) (input_vector : gmap nat string) (lm : string)
    (net_values : list string) (event_queue : list item) (net_mark : list bool)
  : result (list item * list bool) :=
  match pis with
  | [] => Ok (event_queue, net_mark)
  | net :: rest =>
      cur ← list_get net_values net;
      let val := default cur (input_vector !! net) in
      if lm =? "2val" then
        fire ← (if negb (val =? cur) then Ok true else list_get net_mark net);
        if fire : bool then
          nm ← list_set net_mark net false;
          scan_inputs rest input_vector lm net_values
                      (event_queue ++ [Event (mkEv net val)]) nm
        else scan_inputs rest input_vector lm net_values event_queue net_mark
      else if negb (val =? cur) then
        scan_inputs rest input_vector lm net_values
                    (event_queue ++ [Event (mkEv net val)]) net_mark
      else scan_inputs rest input_vector lm net_values event_queue net_mark
  end.

(** [any((e.get('net')==out_net and e.get('value')==new_out)
         for e in event_queue if 'net' in e)] *)
Definition pending (out_net : nat) (new_out : string) (event_queue : list item) : bool :=
  existsb (λ e, match e with
                | Event ev => Nat.eqb (ev_net ev) out_net && (ev_value ev =? new_out)
                | Marker => false
                end) event_queue.

(** [for g in fanout[net_id]:] evaluate at once and queue the change. *)
Fixpoint simulate_fanout (lm : string) (fo : list Gate) (net_values : list string)
    (gate_sim_count : nat) (event_queue : list item) : result (nat * list item) :=
  match fo with
  | [] => Ok (gate_sim_count, event_queue)
  | g :: rest =>
      new_out ← simulate g net_values lm;
      cur ← list_get net_values (gate_output g);
      simulate_fanout lm rest net_values (gate_sim_count + 1)
        (if negb (new_out =? cur) && negb (pending (gate_output g) new_out event_queue)
         then event_queue ++ [Event (mkEv (gate_output g) new_out)]
         else event_queue)
  end.

(** The [while event_queue:] loop. *)
Fixpoint process (fuel : nat) (s : Sim) (event_queue : list item)
    (change_count : list nat) (time_unit : nat) : result (Sim * list nat) :=
  match event_queue with
  | [] => Ok (s, change_count)
  | ev :: queue =>
      match fuel with
      | O => OutOfFuel
      | S fuel' =>
          match ev with
          | Marker =>
              snap ← snapshot (primary_outputs (circuit s)) (net_values s);
              process fuel'
                (mkSim (circuit s) (logic_model s) (num_nets s) (net_values s)
                       (net_mark s) (gate_sim_count s) (output_log s)
                       (intermediate_log s ++ [(time_unit, snap)]))
                (match queue with [] => [] | _ :: _ => queue ++ [Marker] end)
                change_count (time_unit + 1)
          | Event e =>
              '(nv, cc) ← commit (ev_net e) (ev_value e) (net_values s) change_count;
              '(cnt, evq) ← simulate_fanout (logic_model s)
                               (fanout_of (circuit s) (ev_net e)) nv
                               (gate_sim_count s) queue;
              process fuel'
                (mkSim (circuit s) (logic_model s) (num_nets s) nv (net_mark s)
                       cnt (output_log s) (intermediate_log s))
                evq cc time_unit
          end
      end
  end.

Definition simulate_core (fuel : nat) (s : Sim) (input_vector : gmap nat string)
  : result (Sim * list nat) :=
  '(evq, nm) ← scan_inputs (primary_inputs (circuit s)) input_vector (logic_model s)
                            (net_values s) [] (net_mark s);
  process fuel
    (mkSim (circuit s) (logic_model s) (num_nets s) (net_values s) nm
           (gate_sim_count s) (output_log s) (intermediate_log s))
    (evq ++ [Marker]) (replicate (num_nets s) 0) 0.

(** [SingleListEventSimulator.simulate_vector] *)
Definition simulate_vector (fuel : nat) (s : Sim) (input_vector : gmap nat string)
  : result (Sim * list (nat * string)) :=
  let old_values := net_values s in
  '(s1, cc) ← simulate_core fuel s input_vector;
  snap ← snapshot (primary_outputs (circuit s1)) (net_values s1);
  hazards ← detect_hazards (num_nets s1) cc old_values (net_values s1);
  Ok (mkSim (circuit s1) (logic_model s1) (num_nets s1) (net_values s1) (net_mark s1)
            (gate_sim_count s1) (output_log s1 ++ [snap]) (intermediate_log s1),
      hazards).

End SingleListEvent.

(** ** Single-List (gate) simulator *)

Module SingleListGate.

Record Sim : Type := mkSim {
  circuit : Circuit;
  logic_model : string;
  num_nets : nat;
  net_values : list string;
  gate_sim_count : nat;
  output_log : list (gmap nat string);
  intermediate_log : list (nat * gmap nat string)
}.

(** An element of the single queue: a gate or [MARKER]. *)
Inductive item : Type :=
  | QGate (g : Gate)
  | Marker.

(** [SingleListGateSimulator.__init__] *)
Definition init (c : Circuit) (lm : string) : Sim :=
  let n := next_net_id c in
  mkSim c lm n (replicate n (if lm =? "3val" then LOGIC_U else LOGIC_ZERO)) 0 [] [].

(** The first loop: changed inputs are stored at once. *)
Fixpoint scan_inputs (pis : list nat) (input_vector : gmap nat string)
    (net_values : list string) (changed_inputs : list nat)
  : result (list string * list nat) :=
  match pis with
  | [] => Ok (net_values, changed_inputs)
  | net :: rest =>
      cur ← list_get net_values net;
      let val := default cur (input_vector !! net) in
      if negb (val =? cur) then
        nv ← list_set net_values net val;
        scan_inputs rest input_vector nv (changed_inputs ++ [net])
      else scan_inputs rest input_vector net_values changed_inputs
  end.

(** [for net in changed_inputs: for g in fanout[net]: gate_queue.append(g)] *)
Definition initial_queue (c : Circuit) (changed_inputs : list nat) : list item :=
  flat_map (λ net, map QGate (fanout_of c net)) changed_inputs.

(** [temp_net_values[k] = v] on the insertion-ordered dict. *)
Fixpoint dict_set (d : list (nat * string)) (k : nat) (v : string) : list (nat * string) :=
  match d with
  | [] => [(k, v)]
  | (k', v') :: rest =>
      if Nat.eqb k' k then (k, v) :: rest else (k', v') :: dict_set rest k v
  end.

(** The commit at a marker: [for net, val in temp_net_values.items()]. *)
Fixpoint commit_all (temp : list (nat * string)) (net_values : list string)
    (change_count : list nat) : result (list string * list nat) :=
  match temp with
  | [] => Ok (net_values, change_count)
  | (net, val) :: rest =>
      '(nv, cc) ← commit net val net_values change_count;
      commit_all rest nv cc
  end.

(** [for h in fanout[out_net]: if h not in flagged_next: ...] *)
Fixpoint enqueue_fanout (fo : list Gate) (gate_queue : list item) (flagged_next : gset nat)
  : list item * gset nat :=
  match fo with
  | [] => (gate_queue, flagged_next)
  | h :: rest =>
      if bool_decide (gate_id h ∈ flagged_next)
      then enqueue_fanout rest gate_queue flagged_next
      else enqueue_fanout rest (gate_queue ++ [QGate h]) ({[gate_id h]} ∪ flagged_next)
  end.

(** The [while gate_queue:] loop, with the test [if 'marker' in elem:]
    read as telling the marker from a gate.  On a gate the test itself
    raises [TypeError]: the loop as the method runs it is
    [SingleListGateSimulator.process] below, and this one is the loop its
    returning runs are compared with. *)
Fixpoint process (fuel : nat) (s : Sim) (gate_queue : list item)
    (temp_net_values : list (nat * string)) (flagged_next : gset nat)
    (change_count : list nat) (time_unit : nat) : result (Sim * list nat) :=
  match gate_queue with
  | [] => Ok (s, change_count)
  | elem :: queue =>
      match fuel with
      | O => OutOfFuel
      | S fuel' =>
          match elem with
          | Marker =>
              '(nv, cc) ← commit_all temp_net_values (net_values s) change_count;
              snap ← snapshot (primary_outputs (circuit s)) nv;
              let s' := mkSim (circuit s) (logic_model s) (num_nets s) nv
                              (gate_sim_count s) (output_log s)
                              (intermediate_log s ++ [(time_unit, snap)]) in
              match queue with
              | [] => process fuel' s' [] [] flagged_next cc (time_unit + 1)
              | _ :: _ => process fuel' s' (queue ++ [Marker]) [] ∅ cc (time_unit + 1)
              end
          | QGate g =>
              new_val ← simulate g (net_values s) (logic_model s);
              cur ← list_get (net_values s) (gate_output g);
              let s' := mkSim (circuit s) (logic_model s) (num_nets s) (net_values s)
                              (gate_sim_count s + 1) (output_log s)
                              (intermediate_log s) in
              if negb (new_val =? cur) then
                let '(gq, fl) := enqueue_fanout (fanout_of (circuit s) (gate_output g))
                                                queue flagged_next in
                process fuel' s' gq (dict_set temp_net_values (gate_output g) new_val)
                        fl change_count time_unit
              else process fuel' s' queue temp_net_values flagged_next change_count time_unit
          end
      end
  end.

Definition simulate_core (fuel : nat) (s : Sim) (input_vector : gmap nat string)
  : result (Sim * list nat) :=
  '(nv, changed_inputs) ← scan_inputs (primary_inputs (circuit s)) input_vector
                                       (net_values s) [];
  process fuel
    (mkSim (circuit s) (logic_model s) (num_nets s) nv
           (gate_sim_count s) (output_log s) (intermediate_log s))
    (initial_queue (circuit s) changed_inputs ++ [Marker]) [] ∅
    (replicate (num_nets s) 0) 0.

(** [SingleListGateSimulator.simulate_vector] *)
Definition simulate_vector (fuel : nat) (s : Sim) (input_vector : gmap nat string)
  : result (Sim * list (nat * string)) :=
  let old_values := net_values s in
  '(s1, cc) ← simulate_core fuel s input_vector;
  snap ← snapshot (primary_outputs (circuit s1)) (net_values s1);
  hazards ← detect_hazards (num_nets s1) cc old_values (net_values s1);
  Ok (mkSim (circuit s1) (logic_model s1) (num_nets s1) (net_values s1)
            (gate_sim_count s1) (output_log s1 ++ [snap]) (intermediate_log s1),
      hazards).

End SingleListGate.

(** ** Zero-Delay (levelized) simulator *)

Module ZeroDelay.

Record Sim : Type := mkSim {
  circuit : Circuit;
  logic_model : string;
  net_values : list string;
  num_nets : nat;
  output_log : list (gmap nat string);
  gate_sim_count : nat;
  intermediate_log : list (nat * gmap nat string);
  levels : gmap nat nat;
  max_level : nat
}.

(** [d[k]] on a dictionary whose keys are [0 .. len-1]
    ([level_queues]); a missing key raises [KeyError]. *)
Definition bucket_get {A : Type} (d : list A) (k : nat) : result A :=
  match d !! k with
  | Some x => Ok x
  | None => Raise KeyError
  end.

(** [d[k]] on a [gmap]-modelled dictionary. *)
Definition dict_get {V : Type} (d : gmap nat V) (k : nat) : result V :=
  match d !! k with
  | Some x => Ok x
  | None => Raise KeyError
  end.

(** The number of times [indeg[g] += 1] runs for [g]: once per driver
    gate of each entry of [g.inputs]. *)
Definition drivers (c : Circuit) (g : Gate) : Z :=
  Z.of_nat (sum_list (map (λ net, length (get_gate_by_output c net)) (gate_inputs g))).

(** [indeg] after the two loops that fill it; the dictionary is keyed
    by gate, here by gate id. *)
Definition indeg_init (c : Circuit) : gmap nat Z :=
  fold_left (λ indeg g, <[gate_id g := drivers c g]> indeg) (gates c) ∅.

(** [for g in gates: if indeg[g] == 0: levels[g.id] = 0; queue.append(g)] *)
Fixpoint seed (gs : list Gate) (indeg : gmap nat Z) (levels : gmap nat nat)
    (queue : list Gate) : result (gmap nat nat * list Gate) :=
  match gs with
  | [] => Ok (levels, queue)
  | g :: rest =>
      n ← dict_get indeg (gate_id g);
      if (n =? 0)%Z then seed rest indeg (<[gate_id g := 0]> levels) (queue ++ [g])
      else seed rest indeg levels queue
  end.

(** [for h in fanout[out_net]: indeg[h] -= 1; if indeg[h] == 0: ...] *)
Fixpoint relax (fo : list Gate) (lvl : nat) (indeg : gmap nat Z)
    (levels : gmap nat nat) (queue : list Gate)
  : result (gmap nat Z * gmap nat nat * list Gate) :=
  match fo with
  | [] => Ok (indeg, levels, queue)
  | h :: rest =>
      n ← dict_get indeg (gate_id h);
      let indeg' := <[gate_id h := (n - 1)%Z]> indeg in
      if (n - 1 =? 0)%Z
      then relax rest lvl indeg' (<[gate_id h := lvl + 1]> levels) (queue ++ [h])
      else relax rest lvl indeg' levels queue
  end.

(** The [while queue:] loop of the constructor. *)
Fixpoint levelize (fuel : nat) (c : Circuit) (queue : list Gate) (indeg : gmap nat Z)
    (levels : gmap nat nat) (max_level : nat) : result (gmap nat nat * nat) :=
  match queue with
  | [] => Ok (levels, max_level)
  | g :: queue' =>
      match fuel with
      | O => OutOfFuel
      | S fuel' =>
          lvl ← dict_get levels (gate_id g);
          '(indeg', levels', queue'') ←
            relax (fanout_of c (gate_output g)) lvl indeg levels queue';
          levelize fuel' c queue'' indeg' levels' (max_level `max` lvl)
      end
  end.

(** [ZeroDelaySimulator.__init__]: the net values are [LOGIC_ZERO]
    whatever [logic_model] is. *)
Definition init (fuel : nat) (c : Circuit) (lm : string) : result Sim :=
  '(levels0, queue) ← seed (gates c) (indeg_init c) ∅ [];
  '(levels, max_level) ← levelize fuel c queue (indeg_init c) levels0 0;
  Ok (mkSim c lm (replicate (next_net_id c) LOGIC_ZERO) (next_net_id c)
            [] 0 [] levels max_level).

(** [self.levels.get(g.id, 0)] *)
Definition level_of (levels : gmap nat nat) (g : Gate) : nat :=
  default 0 (levels !! gate_id g).

(** [if g not in level_queues[lvl]: level_queues[lvl].append(g)] *)
Definition bucket_add (g : Gate) (lvl : nat) (level_queues : list (list Gate))
  : result (list (list Gate)) :=
  q ← bucket_get level_queues lvl;
  Ok (if gate_in g q then level_queues else <[lvl := q ++ [g]]> level_queues).

(** [for g in fanout[net]:] of the input scan. *)
Fixpoint schedule (levels : gmap nat nat) (fo : list Gate)
    (level_queues : list (list Gate)) : result (list (list Gate)) :=
  match fo with
  | [] => Ok level_queues
  | g :: rest =>
      lq ← bucket_add g (level_of levels g) level_queues;
      schedule levels rest lq
  end.

Fixpoint scan_inputs (c : Circuit) (levels : gmap nat nat) (pis : list nat)
    (input_vector : gmap nat string) (net_values : list string)
    (level_queues : list (list Gate)) : result (list string * list (list Gate)) :=
  match pis with
  | [] => Ok (net_values, level_queues)
  | net :: rest =>
      cur ← list_get net_values net;
      let new_val := default cur (input_vector !! net) in
      if negb (new_val =? cur) then
        nv ← list_set net_values net new_val;
        lq ← schedule levels (fanout_of c net) level_queues;
        scan_inputs c levels rest input_vector nv lq
      else scan_inputs c levels rest input_vector net_values level_queues
  end.

(** [for h in fanout[g.output]:] of the level sweep. *)
Fixpoint propagate (levels : gmap nat nat) (fo : list Gate) (lvl : nat)
    (level_queues : list (list Gate)) (iteration : bool)
  : result (list (list Gate) * bool) :=
  match fo with
  | [] => Ok (level_queues, iteration)
  | h :: rest =>
      let h_lvl := level_of levels h in
      lq ← bucket_add h h_lvl level_queues;
      propagate levels rest lvl lq (if (h_lvl <? lvl)%nat then true else iteration)
  end.

(** The state the sweep threads through its loops. *)
Record sweep : Type := mkSweep {
  sw_values : list string;
  sw_queues : list (list Gate);
  sw_iteration : bool;
  sw_count : nat
}.

(** [while level_queues[lvl]:] *)
Fixpoint drain_level (fuel : nat) (c : Circuit) (lm : string) (levels : gmap nat nat)
    (lvl : nat) (st : sweep) : result sweep :=
  q ← bucket_get (sw_queues st) lvl;
  match q with
  | [] => Ok st
  | g :: q' =>
      match fuel with
      | O => OutOfFuel
      | S fuel' =>
          let lq := <[lvl := q']> (sw_queues st) in
          new_val ← simulate g (sw_values st) lm;
          cur ← list_get (sw_values st) (gate_output g);
          if negb (new_val =? cur) then
            nv ← list_set (sw_values st) (gate_output g) new_val;
            '(lq', it) ← propagate levels (fanout_of c (gate_output g)) lvl lq
                                   (sw_iteration st);
            drain_level fuel' c lm levels lvl (mkSweep nv lq' it (sw_count st + 1))
          else
            drain_level fuel' c lm levels lvl
                        (mkSweep (sw_values st) lq (sw_iteration st) (sw_count st + 1))
      end
  end.

(** [for lvl in range(self.max_level+1):] *)
Fixpoint sweep_levels (fuel : nat) (c : Circuit) (lm : string) (levels : gmap nat nat)
    (lvls : list nat) (st : sweep) : result sweep :=
  match lvls with
  | [] => Ok st
  | lvl :: rest =>
      st' ← drain_level fuel c lm levels lvl st;
      sweep_levels fuel c lm levels rest st'
  end.

(** [while iteration and pass_num < 2:], with [remaining = 2 - pass_num]. *)
Fixpoint passes (remaining : nat) (fuel : nat) (c : Circuit) (lm : string)
    (levels : gmap nat nat) (max_level : nat) (st : sweep) : result sweep :=
  match remaining with
  | O => Ok st
  | S remaining' =>
      if sw_iteration st then
        st' ← sweep_levels fuel c lm levels (seq 0 (max_level + 1))
                (mkSweep (sw_values st) (sw_queues st) false (sw_count st));
        passes remaining' fuel c lm levels max_level st'
      else Ok st
  end.

(** [ZeroDelaySimulator.simulate_vector] *)
Definition simulate_vector (fuel : nat) (s : Sim) (input_vector : gmap nat string)
  : result (Sim * list (nat * string)) :=
  let hazards : list (nat * string) := [] in
  '(nv, lq) ← scan_inputs (circuit s) (levels s) (primary_inputs (circuit s))
                          input_vector (net_values s)
                          (replicate (max_level s + 1) []);
  st ← passes 2 fuel (circuit s) (logic_model s) (levels s) (max_level s)
              (mkSweep nv lq true (gate_sim_count s));
  snap ← snapshot (primary_outputs (circuit s)) (sw_values st);
  Ok (mkSim (circuit s) (logic_model s) (sw_values st) (num_nets s)
            (output_log s ++ [snap]) (sw_count st) (intermediate_log s)
            (levels s) (max_level s),
      hazards).

End ZeroDelay.

(** ** Threaded (stack-based) simulator

    The two stacks are Python lists used with [append] and [pop]; here
    the top of a stack is the head of the list.  The event stack holds
    [NetEventTask]s and the gate stack [GateTask]s only, so each is a
    list of the task's payload.  A [NetEventTask] counts its change in
    the [change_count] of the call that created it; both stacks are empty
    when a call returns, so along returning calls that is the current
    call's [change_count]. *)

Module Threaded.

Record Sim : Type := mkSim {
  circuit : Circuit;
  logic_model : string;
  num_nets : nat;
  net_values : list string;
  event_stack : list net_event;
  gate_stack : list Gate;
  gate_sim_count : nat;
  output_log : list (gmap nat string)
}.

(** [ThreadedSimulator.__init__] *)
Definition init (c : Circuit) (lm : string) : Sim :=
  let n := next_net_id c in
  mkSim c lm n (replicate n (if lm =? "3val" then LOGIC_U else LOGIC_ZERO))
        [] [] 0 [].

Fixpoint scan_inputs (pis : list nat) (input_vector : gmap nat string)
    (net_values : list string) (event_stack : list net_event)
  : result (list net_event) :=
  match pis with
  | [] => Ok event_stack
  | net :: rest =>
      cur ← list_get net_values net;
      let new_val := default cur (input_vector !! net) in
      scan_inputs rest input_vector net_values
        (if negb (new_val =? cur) then mkEv net new_val :: event_stack else event_stack)
  end.

(** [for g in fanout[net_id]: gate_stack.append(GateTask(sim, g))] *)
Definition push_fanout (fo : list Gate) (gate_stack : list Gate) : list Gate :=
  fold_left (λ st g, g :: st) fo gate_stack.

(** [while self.event_stack or self.gate_stack:] *)
Fixpoint process (fuel : nat) (s : Sim) (change_count : list nat)
  : result (Sim * list nat) :=
  match event_stack s, gate_stack s with
  | [], [] => Ok (s, change_count)
  | ev :: es, gs =>
      match fuel with
      | O => OutOfFuel
      | S fuel' =>
          '(nv, cc) ← commit (ev_net ev) (ev_value ev) (net_values s) change_count;
          process fuel'
            (mkSim (circuit s) (logic_model s) (num_nets s) nv es
                   (push_fanout (fanout_of (circuit s) (ev_net ev)) gs)
                   (gate_sim_count s) (output_log s))
            cc
      end
  | [], g :: gs =>
      match fuel with
      | O => OutOfFuel
      | S fuel' =>
          new_val ← simulate g (net_values s) (logic_model s);
          cur ← list_get (net_values s) (gate_output g);
          process fuel'
            (mkSim (circuit s) (logic_model s) (num_nets s) (net_values s)
                   (if negb (new_val =? cur) then [mkEv (gate_output g) new_val] else [])
                   gs (gate_sim_count s + 1) (output_log s))
            change_count
      end
  end.

Definition simulate_core (fuel : nat) (s : Sim) (input_vector : gmap nat string)
  : result (Sim * list nat) :=
  es ← scan_inputs (primary_inputs (circuit s)) input_vector (net_values s)
                   (event_stack s);
  process fuel
    (mkSim (circuit s) (logic_model s) (num_nets s) (net_values s) es
           (gate_stack s) (gate_sim_count s) (output_log s))
    (replicate (num_nets s) 0).

(** [ThreadedSimulator.simulate_vector] *)
Definition simulate_vector (fuel : nat) (s : Sim) (input_vector : gmap nat string)
  : result (Sim * list (nat * string)) :=
  let old_values := net_values s in
  '(s1, cc) ← simulate_core fuel s input_vector;
  snap ← snapshot (primary_outputs (circuit s1)) (net_values s1);
  hazards ← detect_hazards (num_nets s1) cc old_values (net_values s1);
  Ok (mkSim (circuit s1) (logic_model s1) (num_nets s1) (net_values s1)
            (event_stack s1) (gate_stack s1) (gate_sim_count s1)
            (output_log s1 ++ [snap]),
      hazards).

End Threaded.

(** ** Running a simulator over a sequence of vectors

    [for vec in vectors: hazards = sim.simulate_vector(vec)], collecting
    the hazard lists; the run stops at the first call that does not
    return. *)

Fixpoint run_vectors {S : Type}
    (simulate_vector : S → gmap nat string → result (S * list (nat * string)))
    (s : S) (vectors : list (gmap nat string))
  : result (S * list (list (nat * string))) :=
  match vectors with
  | [] => Ok (s, [])
  | vec :: rest =>
      '(s1, hazards) ← simulate_vector s vec;
      '(s2, hs) ← run_vectors simulate_vector s1 rest;
      Ok (s2, hazards :: hs)
  end.

(** [sim.output_log[-1]] after a run, as the driver reads it. *)
Definition final_outputs {S : Type} (output_log : S → list (gmap nat string))
    (r : result (S * list (list (nat * string)))) : result (gmap nat string) :=
  '(s, _) ← r;
  match last (output_log s) with
  | Some m => Ok m
  | None => Raise IndexError
  end.

(** ** Function-level evaluation (reference semantics)

    The specification compares the simulators with "the function-level
    evaluation of [the] defining gates in topological order".  These
    definitions follow that sentence, not the simulators: the supplied
    vector is written to the primary inputs, and every gate is then
    evaluated once, in an order in which the drivers of a gate's inputs
    come before the gate, each result being stored on the gate's output. *)

(** Every driver of every input of [g] is among [seen]. *)
Definition drivers_seen (c : Circuit) (seen : list Gate) (g : Gate) : bool :=
  forallb (λ net, forallb (λ d, gate_in d seen) (get_gate_by_output c net))
          (gate_inputs g).

Fixpoint drivers_first (c : Circuit) (seen order : list Gate) : bool :=
  match order with
  | [] => true
  | g :: rest => drivers_seen c seen g && drivers_first c (seen ++ [g]) rest
  end.

(** [order] lists each gate of the circuit once, drivers first. *)
Definition topological_order (c : Circuit) (order : list Gate) : bool :=
  Nat.eqb (length order) (length (gates c))
  && forallb (λ g, gate_in g order) (gates c)
  && drivers_first c [] order.

Fixpoint reference_inputs (pis : list nat) (input_vector : gmap nat string)
    (values : list string) : result (list string) :=
  match pis with
  | [] => Ok values
  | net :: rest =>
      cur ← list_get values net;
      nv ← list_set values net (default cur (input_vector !! net));
      reference_inputs rest input_vector nv
  end.

Fixpoint reference_gates (order : list Gate) (values : list string) (lm : string)
  : result (list string) :=
  match order with
  | [] => Ok values
  | g :: rest =>
      v ← simulate g values lm;
      nv ← list_set values (gate_output g) v;
      reference_gates rest nv lm
  end.

Definition function_level (c : Circuit) (order : list Gate) (lm : string)
    (values : list string) (input_vector : gmap nat string)
  : result (gmap nat string) :=
  nv ← reference_inputs (primary_inputs c) input_vector values;
  nv' ← reference_gates order nv lm;
  snapshot (primary_outputs c) nv'.

(** ** Example circuits *)

(** Inputs [A]; output [Y]; [NOT(A) -> Y]. *)
Definition not_circuit : Circuit :=
  (add_gate "NOT" ["A"] "Y"
     (set_primary_outputs ["Y"] (set_primary_inputs ["A"] Circuit_init))).1.

(** Inputs [A]; output [Y]; [AND(A) -> X], [NOT(X) -> Y]. *)
Definition chain_circuit : Circuit :=
  (add_gate "NOT" ["X"] "Y"
     (add_gate "AND" ["A"] "X"
        (set_primary_outputs ["Y"] (set_primary_inputs ["A"] Circuit_init))).1).1.

(** Inputs [A]; output [Y]; [NOT(A) -> N], [AND(A, N) -> Y]: the
    textbook static hazard. *)
Definition hazard_circuit : Circuit :=
  (add_gate "AND" ["A"; "N"] "Y"
     (add_gate "NOT" ["A"] "N"
        (set_primary_outputs ["Y"] (set_primary_inputs ["A"] Circuit_init))).1).1.

(** The vectors [{A: 0}], [{A: 1}] for [hazard_circuit], and the
    Single-List-Event run over them. *)
Definition hazard_vectors : list (gmap nat string) :=
  [{[0 := "0"]}; {[0 := "1"]}].

Definition single_list_event_hazard_run
  : result (SingleListEvent.Sim * list (list (nat * string))) :=
  run_vectors (SingleListEvent.simulate_vector 10)
              (SingleListEvent.init hazard_circuit "2val") hazard_vectors.

(** Inputs [EN]; output [B]; [NAND(EN, A) -> B], [AND(B) -> A]: a
    two-gate feedback loop that oscillates while [EN] is 1.
    Net ids: [EN] 0, [B] 1, [A] 2. *)
Definition loop_circuit : Circuit :=
  (add_gate "AND" ["B"] "A"
     (add_gate "NAND" ["EN"; "A"] "B"
        (set_primary_outputs ["B"] (set_primary_inputs ["EN"] Circuit_init))).1).1.

Definition g_nand : Gate := mkGate 0 "NAND" [0; 2] 1.
Definition g_and : Gate := mkGate 1 "AND" [1] 2.

(** [ZeroDelaySimulator(loop_circuit, '2val')]: no gate of the loop ever
    reaches in-degree 0, so [levels] stays empty and every gate sits at
    the default level 0. *)
Definition loop_sim : ZeroDelay.Sim :=
  ZeroDelay.mkSim loop_circuit "2val" ["0"; "0"; "0"] 3 [] 0 [] ∅ 0.

(** ** Specification-side predicates *)

(** The names a build call has to create: those not yet known, in the
    order of their first mention. *)
Fixpoint missing_nets (names : list string) (known : gset string) : list string :=
  match names with
  | [] => []
  | n :: rest =>
      if bool_decide (n ∈ known) then missing_nets rest known
      else n :: missing_nets rest ({[n]} ∪ known)
  end.

(** What the hazard pass owes its caller: [hazards] names exactly the
    nets below [num_nets] whose change count exceeds 1, and tags each by
    comparing the value before the call with the value after it. *)
Definition hazards_of (num_nets : nat) (change_count : list nat)
    (old_values net_values : list string) (hazards : list (nat * string)) : Prop :=
  (∀ net, (∃ kind, (net, kind) ∈ hazards)
          ↔ net < num_nets ∧ ∃ n, change_count !! net = Some n ∧ 1 < n)
  ∧ (∀ net kind, (net, kind) ∈ hazards →
       ∃ o v, old_values !! net = Some o ∧ net_values !! net = Some v
              ∧ (kind = "static" ↔ o = v) ∧ (kind = "dynamic" ↔ o ≠ v)).

(** A value of 2-valued logic. *)
Definition binary (v : string) : Prop := v = LOGIC_ZERO ∨ v = LOGIC_ONE.

(** Every value a vector supplies is 0 or 1. *)
Definition binary_vector (input_vector : gmap nat string) : Prop :=
  map_Forall (λ _ v, binary v) input_vector.

(** Every value of every logged output map is 0 or 1. *)
Definition binary_log (output_log : list (gmap nat string)) : Prop :=
  Forall (map_Forall (λ _ v, binary v)) output_log.

(** 2-valued mode and values in {0, 1}, in the state and in the log. *)
Definition two_list_binary (s : TwoList.Sim) : Prop :=
  TwoList.logic_model s = "2val"
  ∧ Forall binary (TwoList.net_values s)
  ∧ binary_log (TwoList.output_log s).

(** The value an element of the single queue carries, if any, is 0 or 1. *)
Definition binary_item (e : SingleListEvent.item) : Prop :=
  match e with
  | SingleListEvent.Event ev => binary (ev_value ev)
  | SingleListEvent.Marker => True
  end.

Definition single_list_event_binary (s : SingleListEvent.Sim) : Prop :=
  SingleListEvent.logic_model s = "2val"
  ∧ Forall binary (SingleListEvent.net_values s)
  ∧ binary_log (SingleListEvent.output_log s).

Definition single_list_gate_binary (s : SingleListGate.Sim) : Prop :=
  SingleListGate.logic_model s = "2val"
  ∧ Forall binary (SingleListGate.net_values s)
  ∧ binary_log (SingleListGate.output_log s).

Definition zero_delay_binary (s : ZeroDelay.Sim) : Prop :=
  ZeroDelay.logic_model s = "2val"
  ∧ Forall binary (ZeroDelay.net_values s)
  ∧ binary_log (ZeroDelay.output_log s).

Definition threaded_binary (s : Threaded.Sim) : Prop :=
  Threaded.logic_model s = "2val"
  ∧ Threaded.event_stack s = [] ∧ Threaded.gate_stack s = []
  ∧ Forall binary (Threaded.net_values s)
  ∧ binary_log (Threaded.output_log s).

(** * Invariants, measures and the queue test *)

(** ** What the logic loops stop on *)

(** The values on which the loop of [logic_and] returns early: 0, and U
    in 3-valued mode. *)
Definition and_stops (logic_model val : string) : Prop :=
  val = LOGIC_ZERO ∨ (logic_model = "3val" ∧ val = LOGIC_U).

(** The values on which the loop of [logic_or] returns early: 1, and U
    in 3-valued mode. *)
Definition or_stops (logic_model val : string) : Prop :=
  val = LOGIC_ONE ∨ (logic_model = "3val" ∧ val = LOGIC_U).

(** The number of inputs that hold 1. *)
Definition ones_of (inputs : list nat) (values : list string) : nat :=
  length (filter (λ i, values !! i = Some LOGIC_ONE) inputs).

(** ** Circuits made with the builder *)

(** The circuits a program reaches from [Circuit()] through the builder's
    methods.  A failed [add_gate] counts: the caller may catch the
    [ValueError] and go on with the circuit as the call left it. *)
Inductive built : Circuit → Prop :=
  | built_init : built Circuit_init
  | built_add_net name c : built c → built (add_net name c).1
  | built_add_gate gtype input_names output_name c :
      built c → built (add_gate gtype input_names output_name c).1
  | built_set_primary_inputs names c : built c → built (set_primary_inputs names c)
  | built_set_primary_outputs names c : built c → built (set_primary_outputs names c).

(** The two directions of the net table agree and the ids are dense. *)
Definition names_agree (c : Circuit) : Prop :=
  length (net_names c) = next_net_id c
  ∧ ∀ name id, net_id_map c !! name = Some id ↔ net_names c !! id = Some name.

(** The gates that read [net], once per occurrence of [net] among
    their inputs, in the order of the gates list. *)
Definition readers (c : Circuit) (net : nat) : list Gate :=
  flat_map (λ g, (λ _, g) <$> filter (λ n, n = net) (gate_inputs g)) (gates c).

(** Every net id the circuit mentions is a net of the circuit, and
    every gate has a supported type. *)
Definition nets_in_range (c : Circuit) : Prop :=
  Forall (λ net, net < next_net_id c) (primary_inputs c)
  ∧ Forall (λ net, net < next_net_id c) (primary_outputs c)
  ∧ Forall (λ g, Forall (λ net, net < next_net_id c) (gate_inputs g)
                 ∧ gate_output g < next_net_id c
                 ∧ is_Some (GATE_FUNCS (gate_type g))) (gates c).

(** ** Quiet vectors *)

(** The vector changes no primary input: every primary input is a net
    with a stored value, and the vector either has no entry for it or
    supplies that value. *)
Definition quiet (pis : list nat) (input_vector : gmap nat string)
    (net_values : list string) : Prop :=
  Forall (λ net, ∃ cur, net_values !! net = Some cur
                        ∧ default cur (input_vector !! net) = cur) pis.

(** The simulator after a call that only logs: [snap] is appended to
    the output log and, in the Single-List-Event simulator, with time 0
    to the intermediate log. *)
Definition two_list_logged (s : TwoList.Sim) (snap : gmap nat string) : TwoList.Sim :=
  TwoList.mkSim (TwoList.circuit s) (TwoList.logic_model s) (TwoList.num_nets s)
    (TwoList.net_values s) (TwoList.net_mark s) (TwoList.gate_sim_count s)
    (TwoList.output_log s ++ [snap]) (TwoList.intermediate_log s).

Definition single_list_event_logged (s : SingleListEvent.Sim) (snap : gmap nat string)
  : SingleListEvent.Sim :=
  SingleListEvent.mkSim (SingleListEvent.circuit s) (SingleListEvent.logic_model s)
    (SingleListEvent.num_nets s) (SingleListEvent.net_values s)
    (SingleListEvent.net_mark s) (SingleListEvent.gate_sim_count s)
    (SingleListEvent.output_log s ++ [snap])
    (SingleListEvent.intermediate_log s ++ [(0, snap)]).

Definition zero_delay_logged (s : ZeroDelay.Sim) (snap : gmap nat string)
  : ZeroDelay.Sim :=
  ZeroDelay.mkSim (ZeroDelay.circuit s) (ZeroDelay.logic_model s)
    (ZeroDelay.net_values s) (ZeroDelay.num_nets s)
    (ZeroDelay.output_log s ++ [snap]) (ZeroDelay.gate_sim_count s)
    (ZeroDelay.intermediate_log s) (ZeroDelay.levels s) (ZeroDelay.max_level s).

Definition threaded_logged (s : Threaded.Sim) (snap : gmap nat string) : Threaded.Sim :=
  Threaded.mkSim (Threaded.circuit s) (Threaded.logic_model s) (Threaded.num_nets s)
    (Threaded.net_values s) [] [] (Threaded.gate_sim_count s)
    (Threaded.output_log s ++ [snap]).

(** ** Measures of the levelization loop *)

(** The gates of [gs] whose in-degree entry is positive, and those whose
    entry is zero. *)
Fixpoint positives (indeg : gmap nat Z) (gs : list Gate) : nat :=
  match gs with
  | [] => 0
  | g :: rest =>
      (if bool_decide (0 < default 0 (indeg !! gate_id g))%Z then 1 else 0)
      + positives indeg rest
  end.

Fixpoint zeros (indeg : gmap nat Z) (gs : list Gate) : nat :=
  match gs with
  | [] => 0
  | g :: rest =>
      (if bool_decide (default 0 (indeg !! gate_id g) = 0)%Z then 1 else 0)
      + zeros indeg rest
  end.

(** Every recorded level is at most [max_level], or belongs to a gate
    still waiting in the queue. *)
Definition levels_bounded (levels : gmap nat nat) (max_level : nat) (queue : list Gate)
  : Prop :=
  ∀ id lvl, levels !! id = Some lvl →
            lvl <= max_level ∨ ∃ g, g ∈ queue ∧ gate_id g = id.

(** ** Calls that do not raise *)

(** The call returns or runs on; it does not raise. *)
Definition no_raise {A : Type} (r : result A) : Prop :=
  match r with
  | Raise _ => False
  | _ => True
  end.

(** A gate a simulator over [n] nets can evaluate: its nets are among
    the [n], its type is supported, and a NOT has an input to read. *)
Definition gate_ok (n : nat) (g : Gate) : Prop :=
  Forall (λ net, net < n) (gate_inputs g)
  ∧ gate_output g < n
  ∧ is_Some (GATE_FUNCS (gate_type g))
  ∧ (gate_type g = "NOT" → gate_inputs g ≠ []).

(** A circuit a simulator over [n] nets can run. *)
Definition circuit_ok (c : Circuit) (n : nat) : Prop :=
  Forall (λ net, net < n) (primary_inputs c)
  ∧ Forall (λ net, net < n) (primary_outputs c)
  ∧ ∀ net g, g ∈ fanout_of c net → gate_ok n g.

Definition two_list_ok (s : TwoList.Sim) : Prop :=
  length (TwoList.net_values s) = TwoList.num_nets s
  ∧ length (TwoList.net_mark s) = TwoList.num_nets s
  ∧ circuit_ok (TwoList.circuit s) (TwoList.num_nets s).

Definition single_list_event_ok (s : SingleListEvent.Sim) : Prop :=
  length (SingleListEvent.net_values s) = SingleListEvent.num_nets s
  ∧ length (SingleListEvent.net_mark s) = SingleListEvent.num_nets s
  ∧ circuit_ok (SingleListEvent.circuit s) (SingleListEvent.num_nets s).

(** The levels index the buckets [0 .. max_level]. *)
Definition zero_delay_ok (s : ZeroDelay.Sim) : Prop :=
  length (ZeroDelay.net_values s) = ZeroDelay.num_nets s
  ∧ circuit_ok (ZeroDelay.circuit s) (ZeroDelay.num_nets s)
  ∧ ∀ g, ZeroDelay.level_of (ZeroDelay.levels s) g <= ZeroDelay.max_level s.

(** The tasks left on the stacks are over nets and gates of the circuit. *)
Definition threaded_ok (s : Threaded.Sim) : Prop :=
  length (Threaded.net_values s) = Threaded.num_nets s
  ∧ circuit_ok (Threaded.circuit s) (Threaded.num_nets s)
  ∧ Forall (λ ev, ev_net ev < Threaded.num_nets s) (Threaded.event_stack s)
  ∧ Forall (gate_ok (Threaded.num_nets s)) (Threaded.gate_stack s).

Definition event_item_ok (n : nat) (it : SingleListEvent.item) : Prop :=
  match it with
  | SingleListEvent.Event ev => ev_net ev < n
  | SingleListEvent.Marker => True
  end.

(** The state of a level sweep over [n] nets and [m] buckets. *)
Definition sweep_ok (n m : nat) (st : ZeroDelay.sweep) : Prop :=
  length (ZeroDelay.sw_values st) = n
  ∧ length (ZeroDelay.sw_queues st) = m
  ∧ Forall (Forall (gate_ok n)) (ZeroDelay.sw_queues st).

(** Every NOT gate of the circuit has an input to negate. *)
Definition not_gates_have_input (c : Circuit) : Prop :=
  Forall (λ g, gate_type g = "NOT" → gate_inputs g ≠ []) (gates c).

(** The levels strictly increase along every fanout edge: each gate
    reading the output of [g] has a higher level than [g]. *)
Definition levels_increase (c : Circuit) (levels : gmap nat nat) : Prop :=
  Forall (λ g, Forall (λ h, ZeroDelay.level_of levels g < ZeroDelay.level_of levels h)
                      (fanout_of c (gate_output g)))
         (gates c).

(** Every gate waiting in bucket [i] is a gate of the circuit with
    level [i]. *)
Definition buckets_levelled (c : Circuit) (levels : gmap nat nat)
    (level_queues : list (list Gate)) : Prop :=
  ∀ i q g, level_queues !! i = Some q → g ∈ q →
           ZeroDelay.level_of levels g = i ∧ g ∈ gates c.

(** ** Stable states *)

(** The output net of the gate holds what the gate evaluates to. *)
Definition stable_gate (lm : string) (net_values : list string) (g : Gate) : Prop :=
  ∃ v, simulate g net_values lm = Ok v ∧ net_values !! gate_output g = Some v.

(** Every gate of the circuit is at rest. *)
Definition stable (c : Circuit) (lm : string) (net_values : list string) : Prop :=
  Forall (stable_gate lm net_values) (gates c).

(** No net is the output of two gates. *)
Definition single_driver (c : Circuit) : Prop :=
  NoDup (gate_output <$> gates c).

(** No gate drives a primary input. *)
Definition inputs_undriven (c : Circuit) : Prop :=
  Forall (λ g, gate_output g ∉ primary_inputs c) (gates c).

(** The value of [net] once the events of the queue are committed in
    order, starting from [cur]. *)
Fixpoint pending_value (event_queue : list net_event) (net : nat) (cur : option string)
  : option string :=
  match event_queue with
  | [] => cur
  | ev :: rest =>
      pending_value rest net
        (if decide (ev_net ev = net) then Some (ev_value ev) else cur)
  end.

(** Every gate is at rest once the pending events are committed, as far
    as the net values of the moment tell: the loop invariant of the
    event-driven simulators. *)
Definition settling (c : Circuit) (lm : string) (net_values : list string)
    (event_queue : list net_event) : Prop :=
  ∀ g, g ∈ gates c →
       ∃ v, simulate g net_values lm = Ok v
            ∧ pending_value event_queue (gate_output g) (net_values !! gate_output g)
              = Some v.

(** The invariant of the Threaded loop: a gate of the circuit waits on
    the gate stack or is at rest once the pending events are committed. *)
Definition threaded_settling (c : Circuit) (lm : string) (net_values : list string)
    (event_stack : list net_event) (gate_stack : list Gate) : Prop :=
  ∀ g, g ∈ gates c →
       gate_in g gate_stack = true
       ∨ ∃ v, simulate g net_values lm = Ok v
              ∧ pending_value event_stack (gate_output g) (net_values !! gate_output g)
                = Some v.

(** The gate waits in one of the level buckets. *)
Definition queued (level_queues : list (list Gate)) (g : Gate) : Prop :=
  ∃ i q, level_queues !! i = Some q ∧ g ∈ q.

(** The invariant of the level sweep: a gate of the circuit waits in a
    bucket or is at rest. *)
Definition zero_delay_settling (c : Circuit) (lm : string) (net_values : list string)
    (level_queues : list (list Gate)) : Prop :=
  ∀ g, g ∈ gates c → queued level_queues g ∨ stable_gate lm net_values g.

(** ** Settled example states

    [hazard_circuit] at rest with [A = 0] ([N = 1], [Y = 0]), as a
    Two-List and as a Threaded simulator; [chain_circuit] at rest with
    [A = 0] ([X = 0], [Y = 1]) as a Zero-Delay simulator with the levels
    its constructor computes. *)

Definition two_list_settled : TwoList.Sim :=
  TwoList.mkSim hazard_circuit "2val" 3 ["0"; "0"; "1"] [false; false; false] 0 [] [].

Definition threaded_settled : Threaded.Sim :=
  Threaded.mkSim hazard_circuit "3val" 3 ["0"; "0"; "1"] [] [] 0 [].

Definition zero_delay_settled : ZeroDelay.Sim :=
  ZeroDelay.mkSim chain_circuit "2val" ["0"; "1"; "0"] 3 [] 0 [] {[0 := 0; 1 := 1]} 1.

(** ** What a call leaves of the circuit

    A call writes no field of the circuit; its reads of [fanout] may
    leave empty entries behind.  What can be read from the circuit is
    the same before and after: the nets, the gates, the primary inputs
    and outputs, and the fanout of every net. *)
Definition same_circuit (c c' : Circuit) : Prop :=
  net_id_map c' = net_id_map c
  ∧ net_names c' = net_names c
  ∧ next_net_id c' = next_net_id c
  ∧ gates c' = gates c
  ∧ primary_inputs c' = primary_inputs c
  ∧ primary_outputs c' = primary_outputs c
  ∧ ∀ net, fanout_of c' net = fanout_of c net.

(** ** A circuit with two hazards

    Inputs [A]; outputs [Y], [Z]; [NOT(A) -> N], [AND(A, N) -> Y],
    [AND(A, N) -> Z].  Net ids: [A] 0, [Y] 1, [Z] 2, [N] 3.  Raising [A]
    makes [Y] and [Z] change twice each. *)
Definition two_hazard_circuit : Circuit :=
  (add_gate "AND" ["A"; "N"] "Z"
     (add_gate "AND" ["A"; "N"] "Y"
        (add_gate "NOT" ["A"] "N"
           (set_primary_outputs ["Y"; "Z"]
              (set_primary_inputs ["A"] Circuit_init))).1).1).1.

(** ** The queue test of the Single-List (gate) simulator

    The loop of [SingleListGateSimulator.simulate_vector] opens with
    [if 'marker' in elem:] on every element it takes from the queue.  On
    the marker, a dictionary, this is a key test.  On a gate it is an
    [in] test against a [Gate] object, and [Gate] defines none of
    [__contains__], [__iter__] and [__getitem__]: Python raises
    [TypeError] there, before the gate is evaluated.  The module below
    transcribes the method with that test in place; the scan of the
    primary inputs, the first queue and the commit at a marker are those
    of [SingleListGate], whose [process] is the loop as it would run if
    the test told gates from markers. *)

Module SingleListGateSimulator.

(** A call ends as the other simulators' calls do, or in the
    [TypeError] of the queue test. *)
Inductive outcome (A : Type) : Type :=
  | Completed (r : result A)
  | TypeError.
Arguments Completed {A} r.
Arguments TypeError {A}.

(** Sequencing: go on after a step that returned. *)
Definition and_then {A B : Type} (r : result A) (k : A → outcome B) : outcome B :=
  match r with
  | Ok a => k a
  | Raise e => Completed (Raise e)
  | OutOfFuel => Completed OutOfFuel
  end.

(** ['marker' in elem] *)
Definition marker_in (elem : SingleListGate.item) : outcome bool :=
  match elem with
  | SingleListGate.Marker => Completed (Ok true)
  | SingleListGate.QGate _ => TypeError
  end.

(** The [while gate_queue:] loop.  The statements that follow the test
    for an element that is no marker are never reached: the only other
    elements are gates. *)
Fixpoint process (fuel : nat) (s : SingleListGate.Sim)
    (gate_queue : list SingleListGate.item) (temp_net_values : list (nat * string))
    (flagged_next : gset nat) (change_count : list nat) (time_unit : nat)
  : outcome (SingleListGate.Sim * list nat) :=
  match gate_queue with
  | [] => Completed (Ok (s, change_count))
  | elem :: queue =>
      match fuel with
      | O => Completed OutOfFuel
      | S fuel' =>
          match marker_in elem with
          | TypeError => TypeError
          | Completed _ =>
              and_then (SingleListGate.commit_all temp_net_values
                          (SingleListGate.net_values s) change_count)
                (λ '(nv, cc),
                 and_then (snapshot (primary_outputs (SingleListGate.circuit s)) nv)
                   (λ snap,
                    let s' :=
                      SingleListGate.mkSim
                        (SingleListGate.circuit s) (SingleListGate.logic_model s)
                        (SingleListGate.num_nets s) nv
                        (SingleListGate.gate_sim_count s) (SingleListGate.output_log s)
                        (SingleListGate.intermediate_log s ++ [(time_unit, snap)]) in
                    match queue with
                    | [] => process fuel' s' [] [] flagged_next cc (time_unit + 1)
                    | _ :: _ =>
                        process fuel' s' (queue ++ [SingleListGate.Marker]) [] ∅ cc
                                (time_unit + 1)
                    end))
          end
      end
  end.

(** [simulate_vector] up to the end of the loop: the simulator and the
    call's [change_count]. *)
Definition simulate_core (fuel : nat) (s : SingleListGate.Sim)
    (input_vector : gmap nat string) : outcome (SingleListGate.Sim * list nat) :=
  and_then (SingleListGate.scan_inputs (primary_inputs (SingleListGate.circuit s))
              input_vector (SingleListGate.net_values s) [])
    (λ '(nv, changed_inputs),
     process fuel
       (SingleListGate.mkSim
          (SingleListGate.circuit s) (SingleListGate.logic_model s)
          (SingleListGate.num_nets s) nv
          (SingleListGate.gate_sim_count s) (SingleListGate.output_log s)
          (SingleListGate.intermediate_log s))
       (SingleListGate.initial_queue (SingleListGate.circuit s) changed_inputs
        ++ [SingleListGate.Marker])
       [] ∅ (replicate (SingleListGate.num_nets s) 0) 0).

(** [SingleListGateSimulator.simulate_vector] *)
Definition simulate_vector (fuel : nat) (s : SingleListGate.Sim)
    (input_vector : gmap nat string)
  : outcome (SingleListGate.Sim * list (nat * string)) :=
  let old_values := SingleListGate.net_values s in
  and_then (SingleListGate.scan_inputs (primary_inputs (SingleListGate.circuit s))
              input_vector (SingleListGate.net_values s) [])
    (λ '(nv, changed_inputs),
     match process fuel
             (SingleListGate.mkSim
                (SingleListGate.circuit s) (SingleListGate.logic_model s)
                (SingleListGate.num_nets s) nv
                (SingleListGate.gate_sim_count s) (SingleListGate.output_log s)
                (SingleListGate.intermediate_log s))
             (SingleListGate.initial_queue (SingleListGate.circuit s) changed_inputs
              ++ [SingleListGate.Marker])
             [] ∅ (replicate (SingleListGate.num_nets s) 0) 0 with
     | TypeError => TypeError
     | Completed r =>
         Completed
           ('(s1, cc) ← r;
            snap ← snapshot (primary_outputs (SingleListGate.circuit s1))
                            (SingleListGate.net_values s1);
            hazards ← detect_hazards (SingleListGate.num_nets s1) cc old_values
                                     (SingleListGate.net_values s1);
            Ok (SingleListGate.mkSim
                  (SingleListGate.circuit s1) (SingleListGate.logic_model s1)
                  (SingleListGate.num_nets s1) (SingleListGate.net_values s1)
                  (SingleListGate.gate_sim_count s1)
                  (SingleListGate.output_log s1 ++ [snap])
                  (SingleListGate.intermediate_log s1),
                hazards))
     end).

(** [for vec in vectors: hazards = sim.simulate_vector(vec)], as
    [run_vectors] has it for the other simulators: the run stops at the
    first call that does not return, with that call's outcome. *)
Fixpoint run_vectors (fuel : nat) (s : SingleListGate.Sim)
    (vectors : list (gmap nat string))
  : outcome (SingleListGate.Sim * list (list (nat * string))) :=
  match vectors with
  | [] => Completed (Ok (s, []))
  | vec :: rest =>
      match simulate_vector fuel s vec with
      | TypeError => TypeError
      | Completed r =>
          and_then r
            (λ '(s1, hazards),
             match run_vectors fuel s1 rest with
             | TypeError => TypeError
             | Completed r2 => Completed ('(s2, hs) ← r2; Ok (s2, hazards :: hs))
             end)
      end
  end.

End SingleListGateSimulator.

(** * Properties *)

#[local] Set Warnings "-clear-no-such-hyp".

(** ** Outcomes *)

Lemma bind_Ok {A B : Type} (m : result A) (f : A → result B) (b : B) :
  m ≫= f = Ok b ↔ ∃ a, m = Ok a ∧ f a = Ok b.
Proof.
  destruct m as [a| |]; simpl; split.
  - intros H. by exists a.
  - by intros (a' & [= ->] & H).
  - done.
  - by intros (? & ? & ?).
  - done.
  - by intros (? & ? & ?).
Qed.

Lemma list_get_Ok {A : Type} (l : list A) (i : nat) (x : A) :
  list_get l i = Ok x ↔ l !! i = Some x.
Proof. unfold list_get. destruct (l !! i); split; congruence. Qed.

Lemma list_set_Ok {A : Type} (l l' : list A) (i : nat) (x : A) :
  list_set l i x = Ok l' ↔ i < length l ∧ l' = <[i:=x]> l.
Proof.
  unfold list_set. case_decide; split; intros; destruct_and?; try congruence; try lia.
  by simplify_eq.
Qed.

(** Invert a hypothesis [m ≫= f = Ok b] and the accessors inside it. *)
Ltac inv_ok :=
  repeat match goal with
  | H : _ ≫= _ = Ok _ |- _ => apply bind_Ok in H; destruct H as (? & ? & H)
  | H : list_get _ _ = Ok _ |- _ => apply list_get_Ok in H
  | H : list_set _ _ _ = Ok _ |- _ => apply list_set_Ok in H; destruct H as [? ->]
  | H : Ok _ = Ok _ |- _ => injection H as H; subst
  | H : Raise _ = Ok _ |- _ => discriminate H
  | H : OutOfFuel = Ok _ |- _ => discriminate H
  | H : (let '(_, _) := ?p in _) = Ok _ |- _ => destruct p
  end.

(** ** Logic primitives *)

(** C2.  The claim: in 3-valued mode [logic_and] returns 0 as soon as
    some input holds 0, and [logic_or] returns 1 as soon as some input
    holds 1, whatever the order of the inputs.  The loops return at the
    first 0 (resp. 1) or at the first U, whichever comes first: with the
    U on the first input and the controlling value on the second the
    result is U; with the inputs swapped it is the controlling value. *)
Theorem logic_and_or_unknown_first :
  logic_and [0; 1] ["U"; "0"] "3val" = Ok "U"
  ∧ logic_or [0; 1] ["U"; "1"] "3val" = Ok "U"
  ∧ logic_and [1; 0] ["U"; "0"] "3val" = Ok "0"
  ∧ logic_or [1; 0] ["U"; "1"] "3val" = Ok "1".
Proof. repeat split. Qed.

(** ** Constructors *)

Lemma zero_delay_init_values fuel c lm s :
  ZeroDelay.init fuel c lm = Ok s →
  ZeroDelay.net_values s = replicate (next_net_id c) "0".
Proof. unfold ZeroDelay.init. intros H. inv_ok. done. Qed.

(** C3.  The claim: each of the five constructors fills [net_values]
    with U for ['3val'] and with 0 for ['2val'].  Four constructors do;
    [ZeroDelaySimulator] writes 0 in both modes, here on the one-gate
    circuit [NOT(A) -> Y]. *)
Theorem init_net_values_zero_delay_ignores_model :
  (∀ c, TwoList.net_values (TwoList.init c "3val") = replicate (next_net_id c) "U"
        ∧ TwoList.net_values (TwoList.init c "2val") = replicate (next_net_id c) "0")
  ∧ (∀ c, SingleListEvent.net_values (SingleListEvent.init c "3val")
            = replicate (next_net_id c) "U"
        ∧ SingleListEvent.net_values (SingleListEvent.init c "2val")
            = replicate (next_net_id c) "0")
  ∧ (∀ c, SingleListGate.net_values (SingleListGate.init c "3val")
            = replicate (next_net_id c) "U"
        ∧ SingleListGate.net_values (SingleListGate.init c "2val")
            = replicate (next_net_id c) "0")
  ∧ (∀ c, Threaded.net_values (Threaded.init c "3val") = replicate (next_net_id c) "U"
        ∧ Threaded.net_values (Threaded.init c "2val") = replicate (next_net_id c) "0")
  ∧ (∃ s, ZeroDelay.init 1 not_circuit "3val" = Ok s
          ∧ ZeroDelay.net_values s = ["0"; "0"]).
Proof.
  repeat split.
  eexists. split; [vm_compute; reflexivity | reflexivity].
Qed.

(** ** Circuit builder *)

Lemma add_net_frame name c :
  gates (add_net name c).1 = gates c
  ∧ fanout (add_net name c).1 = fanout c
  ∧ primary_inputs (add_net name c).1 = primary_inputs c
  ∧ primary_outputs (add_net name c).1 = primary_outputs c.
Proof. unfold add_net. by destruct (net_id_map c !! name). Qed.

Lemma add_net_nets name c :
  net_names (add_net name c).1
    = net_names c ++ missing_nets [name] (dom (net_id_map c))
  ∧ next_net_id (add_net name c).1
    = next_net_id c + length (missing_nets [name] (dom (net_id_map c)))
  ∧ dom (net_id_map (add_net name c).1) = {[name]} ∪ dom (net_id_map c)
  ∧ net_id_map c ⊆ net_id_map (add_net name c).1.
Proof.
  unfold add_net. simpl.
  destruct (net_id_map c !! name) as [id|] eqn:E; simpl.
  - rewrite bool_decide_eq_true_2 by (apply elem_of_dom; eauto).
    rewrite app_nil_r, Nat.add_0_r. repeat split; try done.
    apply elem_of_dom_2 in E. set_solver.
  - rewrite bool_decide_eq_false_2 by (by apply not_elem_of_dom).
    simpl. repeat split; try done.
    + by rewrite dom_insert_L.
    + by apply insert_subseteq.
Qed.

Lemma missing_nets_app names1 names2 known :
  missing_nets (names1 ++ names2) known
  = missing_nets names1 known
    ++ missing_nets names2 (list_to_set names1 ∪ known).
Proof.
  revert known. induction names1 as [|n names1 IH]; intros known; simpl.
  - f_equal. set_solver.
  - case_bool_decide as Hn.
    + rewrite IH. do 2 f_equal. set_solver.
    + simpl. rewrite IH. do 3 f_equal. set_solver.
Qed.

Lemma add_nets_frame names c :
  gates (add_nets names c).1 = gates c
  ∧ fanout (add_nets names c).1 = fanout c
  ∧ primary_inputs (add_nets names c).1 = primary_inputs c
  ∧ primary_outputs (add_nets names c).1 = primary_outputs c.
Proof.
  revert c. induction names as [|n names IH]; intros c; simpl; [done|].
  pose proof (add_net_frame n c) as Hn.
  destruct (add_net n c) as [c1 id]. specialize (IH c1).
  destruct (add_nets names c1) as [c2 ids]. simpl in *.
  destruct_and!. repeat split; congruence.
Qed.

Lemma add_nets_nets names c :
  net_names (add_nets names c).1
    = net_names c ++ missing_nets names (dom (net_id_map c))
  ∧ next_net_id (add_nets names c).1
    = next_net_id c + length (missing_nets names (dom (net_id_map c)))
  ∧ dom (net_id_map (add_nets names c).1) = list_to_set names ∪ dom (net_id_map c)
  ∧ net_id_map c ⊆ net_id_map (add_nets names c).1.
Proof.
  revert c. induction names as [|n names IH]; intros c.
  - simpl. rewrite app_nil_r, Nat.add_0_r. repeat split; try done. set_solver.
  - change (n :: names) with ([n] ++ names) at 2 4.
    rewrite missing_nets_app. simpl add_nets.
    pose proof (add_net_nets n c) as (Hn1 & Hn2 & Hn3 & Hn4).
    destruct (add_net n c) as [c1 id]. specialize (IH c1).
    destruct (add_nets names c1) as [c2 ids]. simpl in *.
    destruct IH as (IH1 & IH2 & IH3 & IH4).
    rewrite IH1, IH2, IH3, Hn1, Hn2, Hn3, length_app.
    replace ({[n]} ∪ ∅ ∪ dom (net_id_map c)) with ({[n]} ∪ dom (net_id_map c))
      by set_solver.
    repeat split.
    + by rewrite <- app_assoc.
    + lia.
    + set_solver.
    + by etrans.
Qed.

Lemma add_nets_length names c : length (add_nets names c).2 = length names.
Proof.
  revert c. induction names as [|n names IH]; intros c; simpl; [done|].
  destruct (add_net n c) as [c1 id]. specialize (IH c1).
  destruct (add_nets names c1) as [c2 ids]. simpl in *. by rewrite IH.
Qed.

(** C8, the claim at a concrete call: [add_gate('NOT', ['A','B'], 'Y')]
    and [add_gate('NOT', [], 'Y')] both return a gate and append it. *)
Lemma add_gate_not_two_inputs_accepted :
  ∃ c g, add_gate "NOT" ["A"; "B"] "Y" Circuit_init = (c, Ok g)
         ∧ gates c = [g] ∧ gate_type g = "NOT" ∧ length (gate_inputs g) = 2
    ∧ ∃ c' g', add_gate "NOT" [] "Y" Circuit_init = (c', Ok g')
         ∧ gates c' = [g'] ∧ gate_type g' = "NOT" ∧ length (gate_inputs g') = 0.
Proof.
  do 2 eexists. split; [vm_compute; reflexivity|].
  repeat split.
  do 2 eexists. split; [vm_compute; reflexivity|]. done.
Qed.

(** C8, amended.  [add_gate] with type NOT checks no arity: for every
    list of input names the call returns a gate of type NOT with that
    many inputs and appends it to [gates]. *)
Theorem add_gate_not_any_arity (input_names : list string) (output_name : string)
    (c : Circuit) :
  ∃ c' g, add_gate "NOT" input_names output_name c = (c', Ok g)
          ∧ gates c' = gates c ++ [g]
          ∧ gate_id g = length (gates c)
          ∧ gate_type g = "NOT"
          ∧ length (gate_inputs g) = length input_names.
Proof.
  unfold add_gate.
  pose proof (add_nets_frame input_names c) as (Hg & _).
  pose proof (add_nets_length input_names c) as Hlen.
  destruct (add_nets input_names c) as [c1 input_ids].
  pose proof (add_net_frame output_name c1) as (Hg' & _).
  destruct (add_net output_name c1) as [c2 out_id]. simpl in *.
  do 2 eexists. split; [reflexivity|]. simpl. rewrite Hg', Hg. done.
Qed.

(** C9.  With an unsupported type [add_gate] raises [ValueError] after
    the nets are created: the missing names among the inputs and the
    output are appended to [net_names] in order of first mention,
    [next_net_id] advances by their number, all the names are keys of
    [net_id_map] and no earlier key changes; [gates] and [fanout] are as
    before the call. *)
Theorem add_gate_unsupported_not_atomic (gtype : string) (input_names : list string)
    (output_name : string) (c : Circuit) :
  GATE_FUNCS (upper gtype) = None →
  let names := input_names ++ [output_name] in
  let missing := missing_nets names (dom (net_id_map c)) in
  ∃ c' msg,
    add_gate gtype input_names output_name c = (c', Raise (ValueError msg))
    ∧ net_names c' = net_names c ++ missing
    ∧ next_net_id c' = next_net_id c + length missing
    ∧ dom (net_id_map c') = list_to_set names ∪ dom (net_id_map c)
    ∧ net_id_map c ⊆ net_id_map c'
    ∧ gates c' = gates c
    ∧ fanout c' = fanout c.
Proof.
  intros Hty names missing. subst names missing. unfold add_gate.
  rewrite missing_nets_app.
  pose proof (add_nets_frame input_names c) as (Hg1 & Hf1 & _).
  pose proof (add_nets_nets input_names c) as (Hn1 & Hi1 & Hd1 & Hs1).
  destruct (add_nets input_names c) as [c1 input_ids].
  pose proof (add_net_frame output_name c1) as (Hg2 & Hf2 & _).
  pose proof (add_net_nets output_name c1) as (Hn2 & Hi2 & Hd2 & Hs2).
  destruct (add_net output_name c1) as [c2 out_id]. simpl in *.
  unfold Gate_init. rewrite Hty.
  do 2 eexists. split; [reflexivity|].
  rewrite Hn2, Hi2, Hd2, Hn1, Hi1, Hd1, Hg2, Hg1, Hf2, Hf1, length_app.
  simpl. split; [by rewrite <- app_assoc|]. split; [lia|]. split.
  { rewrite list_to_set_app_L. set_solver. }
  split; [by etrans | done].
Qed.

(** [add_gate('BUF', ['A','B','A'], 'Y')] on a circuit that knows [A]. *)
Lemma add_gate_unsupported_not_atomic_witness :
  ∃ c' msg,
    add_gate "BUF" ["A"; "B"; "A"] "Y" (set_primary_inputs ["A"] Circuit_init)
      = (c', Raise (ValueError msg))
    ∧ net_names c' = ["A"; "B"; "Y"]
    ∧ next_net_id c' = 3
    ∧ gates c' = []
    ∧ fanout c' = ∅.
Proof.
  destruct (add_gate_unsupported_not_atomic "BUF" ["A"; "B"; "A"] "Y"
              (set_primary_inputs ["A"] Circuit_init) eq_refl)
    as (c' & msg & H & Hn & Hi & _ & _ & Hg & Hf).
  exists c', msg. split; [exact H|].
  split; [rewrite Hn; vm_compute; reflexivity|].
  split; [rewrite Hi; vm_compute; reflexivity|].
  split; [exact Hg | exact Hf].
Defined.

(** ** Zero-Delay on a feedback loop *)

Lemma loop_drain_diverges fuel :
  ∀ it n,
    ZeroDelay.drain_level fuel loop_circuit "2val" ∅ 0
      (ZeroDelay.mkSweep ["1"; "0"; "0"] [[g_nand]] it n) = OutOfFuel
    ∧ ZeroDelay.drain_level fuel loop_circuit "2val" ∅ 0
        (ZeroDelay.mkSweep ["1"; "1"; "0"] [[g_and]] it n) = OutOfFuel
    ∧ ZeroDelay.drain_level fuel loop_circuit "2val" ∅ 0
        (ZeroDelay.mkSweep ["1"; "1"; "1"] [[g_nand]] it n) = OutOfFuel
    ∧ ZeroDelay.drain_level fuel loop_circuit "2val" ∅ 0
        (ZeroDelay.mkSweep ["1"; "0"; "1"] [[g_and]] it n) = OutOfFuel.
Proof.
  induction fuel as [|fuel IH]; intros it n; [done|].
  destruct (IH it (n + 1)) as (H1 & H2 & H3 & H4).
  repeat split.
  - etrans; [|exact H2]. reflexivity.
  - etrans; [|exact H3]. reflexivity.
  - etrans; [|exact H4]. reflexivity.
  - etrans; [|exact H1]. reflexivity.
Qed.

Lemma loop_passes_diverge fuel :
  ZeroDelay.passes 2 fuel loop_circuit "2val" ∅ 0
    (ZeroDelay.mkSweep ["1"; "0"; "0"] [[g_nand]] true 0) = OutOfFuel.
Proof.
  pose proof (loop_drain_diverges fuel false 0) as (H & _).
  cbn -[ZeroDelay.drain_level] in *. by rewrite H.
Qed.

(** C5.  The claim: [ZeroDelaySimulator.simulate_vector] returns on
    every circuit, two-gate feedback loops included.  On [loop_circuit]
    both gates sit at level 0; raising [EN] makes the [while
    level_queues[0]:] loop re-queue them in turn for ever, inside the
    first pass: no amount of fuel lets the call return. *)
Theorem zero_delay_hangs_on_two_gate_loop :
  ZeroDelay.init 0 loop_circuit "2val" = Ok loop_sim
  ∧ ∀ fuel, ZeroDelay.simulate_vector fuel loop_sim {[0 := "1"]} = OutOfFuel.
Proof.
  split; [vm_compute; reflexivity|].
  intros fuel. unfold ZeroDelay.simulate_vector.
  replace (ZeroDelay.scan_inputs _ _ _ _ _ _)
    with (Ok (["1"; "0"; "0"], [[g_nand]])) by (vm_compute; reflexivity).
  cbn [mbind result_mbind result_bind].
  match goal with
  | |- context [ZeroDelay.passes ?a ?b ?c ?d ?e ?f ?g] =>
      change (ZeroDelay.passes a b c d e f g)
        with (ZeroDelay.passes 2 fuel loop_circuit "2val" ∅ 0
                (ZeroDelay.mkSweep ["1"; "0"; "0"] [[g_nand]] true 0))
  end.
  by rewrite loop_passes_diverge.
Qed.

(** ** Zero-Delay reports nothing *)

Lemma zero_delay_call_silent fuel s vec s' hazards :
  ZeroDelay.simulate_vector fuel s vec = Ok (s', hazards) →
  hazards = [] ∧ ZeroDelay.intermediate_log s' = ZeroDelay.intermediate_log s.
Proof.
  unfold ZeroDelay.simulate_vector. intros H. inv_ok. done.
Qed.

Lemma zero_delay_run_silent fuel vectors : ∀ s s' hs,
  run_vectors (ZeroDelay.simulate_vector fuel) s vectors = Ok (s', hs) →
  Forall (λ hazards, hazards = []) hs
  ∧ ZeroDelay.intermediate_log s' = ZeroDelay.intermediate_log s.
Proof.
  induction vectors as [|vec vectors IH]; intros s s' hs H; simpl in H.
  - inv_ok. by split.
  - inv_ok.
    match goal with H1 : ZeroDelay.simulate_vector _ _ _ = _ |- _ =>
      apply zero_delay_call_silent in H1 as [-> Hlog] end.
    match goal with H1 : run_vectors _ _ _ = _ |- _ =>
      apply IH in H1 as [Hall Hlog'] end.
    split; [by constructor | congruence].
Qed.

Lemma zero_delay_init_log fuel c lm s :
  ZeroDelay.init fuel c lm = Ok s → ZeroDelay.intermediate_log s = [].
Proof. unfold ZeroDelay.init. intros H. inv_ok. done. Qed.

(** C6.  On every circuit and for every sequence of vectors, each
    [simulate_vector] call of a Zero-Delay simulator that returns gives
    an empty hazard list, and [intermediate_log] is still empty after
    the last call. *)
Theorem zero_delay_no_hazards_no_intermediate_log (fuel fuel' : nat) (c : Circuit)
    (lm : string) (vectors : list (gmap nat string)) (s0 s : ZeroDelay.Sim)
    (hs : list (list (nat * string))) :
  ZeroDelay.init fuel c lm = Ok s0 →
  run_vectors (ZeroDelay.simulate_vector fuel') s0 vectors = Ok (s, hs) →
  length hs = length vectors
  ∧ Forall (λ hazards, hazards = []) hs
  ∧ ZeroDelay.intermediate_log s = [].
Proof.
  intros Hinit Hrun. split.
  - clear Hinit. revert s0 s hs Hrun.
    induction vectors as [|v vectors IH]; intros s0 s hs H; simpl in H; inv_ok; [done|].
    simpl. f_equal. eauto.
  - apply zero_delay_run_silent in Hrun as [Hall Hlog].
    split; [done|]. rewrite Hlog. by eapply zero_delay_init_log.
Qed.

(** ** Hazard detection *)

Lemma hazard_loop_elem nets cc old new : ∀ hazards,
  hazard_loop nets cc old new = Ok hazards →
  ∀ net kind, (net, kind) ∈ hazards ↔
    net ∈ nets ∧ ∃ n o v, cc !! net = Some n ∧ 1 < n
      ∧ old !! net = Some o ∧ new !! net = Some v
      ∧ kind = (if o =? v then "static" else "dynamic").
Proof.
  induction nets as [|a nets IH]; intros hazards H net kind; simpl in H.
  - inv_ok. split; [by intros ?%elem_of_nil | by intros [?%elem_of_nil _]].
  - apply bind_Ok in H as (n & Hn & H). inv_ok.
    destruct (1 <? n)%nat eqn:E.
    + inv_ok. rename x into o, x0 into v, x1 into hz.
      match goal with H1 : hazard_loop _ _ _ _ = _ |- _ => specialize (IH _ H1 net kind) end.
      apply Nat.ltb_lt in E.
      rewrite elem_of_cons, IH, elem_of_cons. split.
      * intros [[= -> ->]|(? & ?)]; [|by eauto]. split; [by left|]. by exists n, o, v.
      * intros ([->|Hin] & n' & o' & v' & ? & ? & ? & ? & ->).
        -- left. by simplify_eq.
        -- right. split; [done|]. by exists n', o', v'.
    + apply Nat.ltb_ge in E. specialize (IH _ H net kind).
      rewrite IH, elem_of_cons. split; [naive_solver|].
      intros ([->|Hin] & n' & o' & v' & ? & ? & ? & ? & ->).
      * simplify_eq. lia.
      * split; [done|]. by exists n', o', v'.
Qed.

Lemma detect_hazards_spec num_nets cc old new hazards :
  detect_hazards num_nets cc old new = Ok hazards →
  hazards_of num_nets cc old new hazards.
Proof.
  intros H. pose proof (hazard_loop_elem _ _ _ _ _ H) as Hel. split.
  - intros net. split.
    + intros [kind (Hin & n & o & v & ? & ? & _)%Hel].
      apply elem_of_seq in Hin. split; [lia | by exists n].
    + intros (Hlt & n & Hn & Hgt).
      (* the loop read [old] and [new] at [net] when it met it *)
      assert (∃ o v, old !! net = Some o ∧ new !! net = Some v) as (o & v & Ho & Hv).
      { unfold detect_hazards in H. clear Hel.
        assert (net ∈ seq 0 num_nets) as Hin by (apply elem_of_seq; lia).
        revert hazards H. induction (seq 0 num_nets) as [|a l IH]; intros hazards H;
          [by apply elem_of_nil in Hin|].
        simpl in H. apply bind_Ok in H as (n' & Hn' & H). inv_ok.
        apply elem_of_cons in Hin as [->|Hin].
        - simplify_eq. rewrite (proj2 (Nat.ltb_lt 1 n)) in H by done. inv_ok. eauto.
        - destruct (1 <? n')%nat; inv_ok; eauto. }
      exists (if o =? v then "static" else "dynamic"). apply Hel.
      split; [apply elem_of_seq; lia|]. by exists n, o, v.
  - intros net kind (_ & n & o & v & _ & _ & Ho & Hv & ->)%Hel.
    exists o, v. split; [done|]. split; [done|].
    destruct (String.eqb_spec o v); split; split; congruence.
Qed.

(** ** The settling loops keep the simulator's static fields *)

Lemma two_list_settle_frame fuel : ∀ s evq cc t s' cc',
  TwoList.settle fuel s evq cc t = Ok (s', cc') →
  TwoList.num_nets s' = TwoList.num_nets s
  ∧ TwoList.circuit s' = TwoList.circuit s
  ∧ TwoList.logic_model s' = TwoList.logic_model s.
Proof.
  induction fuel as [|fuel IH]; intros s evq cc t s' cc' H;
    destruct evq as [|ev evq]; simpl in H; inv_ok; try done.
  destruct l as [|g gq]; inv_ok.
  - match goal with H1 : TwoList.settle _ _ _ _ _ = _ |- _ => by apply IH in H1 end.
  - match goal with H1 : TwoList.settle _ _ _ _ _ = _ |- _ => by apply IH in H1 end.
Qed.

Lemma single_list_event_process_frame fuel : ∀ s evq cc t s' cc',
  SingleListEvent.process fuel s evq cc t = Ok (s', cc') →
  SingleListEvent.num_nets s' = SingleListEvent.num_nets s
  ∧ SingleListEvent.circuit s' = SingleListEvent.circuit s
  ∧ SingleListEvent.logic_model s' = SingleListEvent.logic_model s.
Proof.
  induction fuel as [|fuel IH]; intros s evq cc t s' cc' H;
    destruct evq as [|ev evq]; simpl in H; inv_ok; try done.
  destruct ev; inv_ok;
    match goal with H1 : SingleListEvent.process _ _ _ _ _ = _ |- _ =>
      by apply IH in H1 end.
Qed.

Lemma single_list_gate_process_frame fuel : ∀ s gq temp fl cc t s' cc',
  SingleListGate.process fuel s gq temp fl cc t = Ok (s', cc') →
  SingleListGate.num_nets s' = SingleListGate.num_nets s
  ∧ SingleListGate.circuit s' = SingleListGate.circuit s
  ∧ SingleListGate.logic_model s' = SingleListGate.logic_model s.
Proof.
  induction fuel as [|fuel IH]; intros s gq temp fl cc t s' cc' H;
    destruct gq as [|elem gq]; simpl in H; inv_ok; try done.
  destruct elem as [g|]; inv_ok.
  - destruct (negb _); [destruct (SingleListGate.enqueue_fanout _ _ _)|];
      by apply IH in H.
  - destruct gq; by apply IH in H.
Qed.

Lemma threaded_process_frame fuel : ∀ s cc s' cc',
  Threaded.process fuel s cc = Ok (s', cc') →
  Threaded.num_nets s' = Threaded.num_nets s
  ∧ Threaded.circuit s' = Threaded.circuit s
  ∧ Threaded.logic_model s' = Threaded.logic_model s
  ∧ Threaded.event_stack s' = [] ∧ Threaded.gate_stack s' = [].
Proof.
  induction fuel as [|fuel IH]; intros s cc s' cc' H; simpl in H;
    destruct (Threaded.event_stack s) as [|ev es] eqn:Ee;
    destruct (Threaded.gate_stack s) as [|g gs] eqn:Eg; inv_ok; try done;
    match goal with H1 : Threaded.process _ _ _ = _ |- _ => by apply IH in H1 end.
Qed.

(** Apart from the [TypeError], the method runs as [SingleListGate]
    has it: a call that returns is a returning call of
    [SingleListGate.simulate_vector], with the same result.  What is
    proved of the returning calls of the latter therefore holds of the
    method. *)
Lemma single_list_gate_process_refines fuel : ∀ s gq temp fl cc t r,
  SingleListGateSimulator.process fuel s gq temp fl cc t
  = SingleListGateSimulator.Completed (Ok r) →
  SingleListGate.process fuel s gq temp fl cc t = Ok r.
Proof.
  induction fuel as [|fuel IH]; intros s gq temp fl cc t r H;
    destruct gq as [|[g|] gq]; cbn [SingleListGateSimulator.process
      SingleListGateSimulator.marker_in] in H; try done;
    try (by injection H as <-).
  cbn [SingleListGate.process].
  destruct (SingleListGate.commit_all temp (SingleListGate.net_values s) cc)
    as [[nv cc1]| |]; cbn [SingleListGateSimulator.and_then] in H; try done.
  cbn [mbind result_mbind result_bind].
  destruct (snapshot (primary_outputs (SingleListGate.circuit s)) nv) as [snap| |];
    cbn [SingleListGateSimulator.and_then] in H; try done.
  cbn [mbind result_mbind result_bind]. destruct gq; by apply IH.
Qed.

Lemma single_list_gate_call_refines fuel s vec r :
  SingleListGateSimulator.simulate_vector fuel s vec
  = SingleListGateSimulator.Completed (Ok r) →
  SingleListGate.simulate_vector fuel s vec = Ok r.
Proof.
  unfold SingleListGateSimulator.simulate_vector, SingleListGate.simulate_vector,
    SingleListGate.simulate_core. intros H.
  destruct (SingleListGate.scan_inputs _ _ _ _) as [[nv changed]| |];
    cbn [SingleListGateSimulator.and_then] in H; try done.
  cbn [mbind result_mbind result_bind].
  destruct (SingleListGateSimulator.process _ _ _ _ _ _ _) as [[[s1 cc]| |]|] eqn:Hp;
    try done.
  apply single_list_gate_process_refines in Hp. rewrite Hp. by injection H.
Qed.

Lemma single_list_gate_run_refines fuel : ∀ vectors s r,
  SingleListGateSimulator.run_vectors fuel s vectors
  = SingleListGateSimulator.Completed (Ok r) →
  run_vectors (SingleListGate.simulate_vector fuel) s vectors = Ok r.
Proof.
  induction vectors as [|vec vectors IH]; intros s r H;
    cbn [SingleListGateSimulator.run_vectors run_vectors] in *.
  { by injection H as <-. }
  destruct (SingleListGateSimulator.simulate_vector fuel s vec)
    as [[[s1 hazards]| |]|] eqn:Hcall;
    cbn [SingleListGateSimulator.and_then] in H; try done.
  apply single_list_gate_call_refines in Hcall. rewrite Hcall.
  cbn [mbind result_mbind result_bind].
  destruct (SingleListGateSimulator.run_vectors fuel s1 vectors)
    as [[[s2 hs]| |]|] eqn:Hrun; try done.
  rewrite (IH _ _ Hrun). cbn [mbind result_mbind result_bind] in *.
  by injection H as <-.
Qed.

(** C7.  In the Two-List, both Single-List and the Threaded simulator
    a net is in the returned hazard list exactly when its entry of the
    call's [change_count] exceeds 1; its tag is ['static'] exactly when
    its value after the call equals its value before the call and
    ['dynamic'] exactly when it differs.  (The Threaded simulator is
    taken with empty stacks, as the constructor and every returning call
    leave them; the Single-List-Gate simulator is taken as the method
    runs, a call that ends in the [TypeError] of its queue test
    returning no list.) *)
Theorem hazards_flag_multiple_changes (fuel : nat) (vec : gmap nat string) :
  (∀ s s' hazards,
     TwoList.simulate_vector fuel s vec = Ok (s', hazards) →
     ∃ s1 change_count,
       TwoList.simulate_core fuel s vec = Ok (s1, change_count)
       ∧ TwoList.net_values s' = TwoList.net_values s1
       ∧ hazards_of (TwoList.num_nets s) change_count
                    (TwoList.net_values s) (TwoList.net_values s') hazards)
  ∧ (∀ s s' hazards,
     SingleListEvent.simulate_vector fuel s vec = Ok (s', hazards) →
     ∃ s1 change_count,
       SingleListEvent.simulate_core fuel s vec = Ok (s1, change_count)
       ∧ SingleListEvent.net_values s' = SingleListEvent.net_values s1
       ∧ hazards_of (SingleListEvent.num_nets s) change_count
                    (SingleListEvent.net_values s) (SingleListEvent.net_values s')
                    hazards)
  ∧ (∀ s s' hazards,
     SingleListGateSimulator.simulate_vector fuel s vec
     = SingleListGateSimulator.Completed (Ok (s', hazards)) →
     ∃ s1 change_count,
       SingleListGateSimulator.simulate_core fuel s vec
       = SingleListGateSimulator.Completed (Ok (s1, change_count))
       ∧ SingleListGate.net_values s' = SingleListGate.net_values s1
       ∧ hazards_of (SingleListGate.num_nets s) change_count
                    (SingleListGate.net_values s) (SingleListGate.net_values s')
                    hazards)
  ∧ (∀ s s' hazards,
     Threaded.event_stack s = [] → Threaded.gate_stack s = [] →
     Threaded.simulate_vector fuel s vec = Ok (s', hazards) →
     ∃ s1 change_count,
       Threaded.simulate_core fuel s vec = Ok (s1, change_count)
       ∧ Threaded.net_values s' = Threaded.net_values s1
       ∧ hazards_of (Threaded.num_nets s) change_count
                    (Threaded.net_values s) (Threaded.net_values s') hazards).
Proof.
  repeat split.
  - intros s s' hazards H. unfold TwoList.simulate_vector in H.
    apply bind_Ok in H as ([s1 cc] & Hcore & H). inv_ok.
    exists s1, cc. split; [done|]. split; [done|]. simpl.
    match goal with H1 : detect_hazards _ _ _ _ = _ |- _ =>
      apply detect_hazards_spec in H1; revert H1 end.
    unfold TwoList.simulate_core in Hcore. inv_ok.
    apply two_list_settle_frame in Hcore as (-> & _). exact id.
  - intros s s' hazards H. unfold SingleListEvent.simulate_vector in H.
    apply bind_Ok in H as ([s1 cc] & Hcore & H). inv_ok.
    exists s1, cc. split; [done|]. split; [done|]. simpl.
    match goal with H1 : detect_hazards _ _ _ _ = _ |- _ =>
      apply detect_hazards_spec in H1; revert H1 end.
    unfold SingleListEvent.simulate_core in Hcore. inv_ok.
    apply single_list_event_process_frame in Hcore as (-> & _). exact id.
  - intros s s' hazards H.
    unfold SingleListGateSimulator.simulate_vector in H.
    unfold SingleListGateSimulator.simulate_core.
    destruct (SingleListGate.scan_inputs _ _ _ _) as [[nv changed]| |];
      cbn [SingleListGateSimulator.and_then] in *; try done.
    destruct (SingleListGateSimulator.process _ _ _ _ _ _ _)
      as [[[s1 cc]| |]|] eqn:Hcore; try done.
    injection H as H. cbn [mbind result_mbind result_bind] in H. inv_ok.
    exists s1, cc. split; [done|]. split; [done|]. simpl.
    match goal with H1 : detect_hazards _ _ _ _ = _ |- _ =>
      apply detect_hazards_spec in H1; revert H1 end.
    apply single_list_gate_process_refines in Hcore.
    apply single_list_gate_process_frame in Hcore as (-> & _). exact id.
  - intros s s' hazards _ _ H. unfold Threaded.simulate_vector in H.
    apply bind_Ok in H as ([s1 cc] & Hcore & H). inv_ok.
    exists s1, cc. split; [done|]. split; [done|]. simpl.
    match goal with H1 : detect_hazards _ _ _ _ = _ |- _ =>
      apply detect_hazards_spec in H1; revert H1 end.
    unfold Threaded.simulate_core in Hcore. inv_ok.
    apply threaded_process_frame in Hcore as (-> & _). exact id.
Qed.

(** ** The simulators against function-level evaluation *)

(** C1.  The claim: on an acyclic circuit every simulator leaves on each
    primary output the function-level value, so all five agree.
    Evaluated on three acyclic circuits: a fresh 2-valued simulator given
    [{A: 0}] on [NOT(A) -> Y] ends with [Y = 1] in the two simulators
    with mark flags and with [Y = 0] in the other three, and Zero-Delay
    does the same in 3-valued mode; behind an unchanged first gate the
    Two-List simulator leaves [Y = 0] too; and from a settled state the
    Single-List-Event simulator ends on [Y = 1] for [AND(A, NOT A)]. *)
Theorem simulators_miss_function_level :
  (* NOT(A) -> Y, fresh 2-valued simulators, first vector {A: 0} *)
  topological_order not_circuit (gates not_circuit) = true
  ∧ function_level not_circuit (gates not_circuit) "2val" ["0"; "0"] {[0 := "0"]}
    = Ok {[1 := "1"]}
  ∧ final_outputs TwoList.output_log
      (run_vectors (TwoList.simulate_vector 10) (TwoList.init not_circuit "2val")
                   [{[0 := "0"]}]) = Ok {[1 := "1"]}
  ∧ final_outputs SingleListEvent.output_log
      (run_vectors (SingleListEvent.simulate_vector 10)
                   (SingleListEvent.init not_circuit "2val") [{[0 := "0"]}])
    = Ok {[1 := "1"]}
  ∧ final_outputs SingleListGate.output_log
      (run_vectors (SingleListGate.simulate_vector 10)
                   (SingleListGate.init not_circuit "2val") [{[0 := "0"]}])
    = Ok {[1 := "0"]}
  ∧ final_outputs ZeroDelay.output_log
      (s ← ZeroDelay.init 10 not_circuit "2val";
       run_vectors (ZeroDelay.simulate_vector 10) s [{[0 := "0"]}])
    = Ok {[1 := "0"]}
  ∧ final_outputs Threaded.output_log
      (run_vectors (Threaded.simulate_vector 10) (Threaded.init not_circuit "2val")
                   [{[0 := "0"]}]) = Ok {[1 := "0"]}
  (* the same circuit and vector, 3-valued *)
  ∧ function_level not_circuit (gates not_circuit) "3val" ["U"; "U"] {[0 := "0"]}
    = Ok {[1 := "1"]}
  ∧ final_outputs ZeroDelay.output_log
      (s ← ZeroDelay.init 10 not_circuit "3val";
       run_vectors (ZeroDelay.simulate_vector 10) s [{[0 := "0"]}])
    = Ok {[1 := "0"]}
  (* AND(A) -> X, NOT(X) -> Y, first vector {A: 0} *)
  ∧ topological_order chain_circuit (gates chain_circuit) = true
  ∧ function_level chain_circuit (gates chain_circuit) "2val" ["0"; "0"; "0"]
                   {[0 := "0"]} = Ok {[1 := "1"]}
  ∧ final_outputs TwoList.output_log
      (run_vectors (TwoList.simulate_vector 10) (TwoList.init chain_circuit "2val")
                   [{[0 := "0"]}]) = Ok {[1 := "0"]}
  (* NOT(A) -> N, AND(A, N) -> Y, vectors {A: 0} then {A: 1} *)
  ∧ topological_order hazard_circuit (gates hazard_circuit) = true
  ∧ function_level hazard_circuit (gates hazard_circuit) "2val" ["0"; "0"; "1"]
                   {[0 := "1"]} = Ok {[1 := "0"]}
  ∧ final_outputs TwoList.output_log
      (run_vectors (TwoList.simulate_vector 10) (TwoList.init hazard_circuit "2val")
                   [{[0 := "0"]}; {[0 := "1"]}]) = Ok {[1 := "0"]}
  ∧ final_outputs SingleListEvent.output_log
      (run_vectors (SingleListEvent.simulate_vector 10)
                   (SingleListEvent.init hazard_circuit "2val")
                   [{[0 := "0"]}; {[0 := "1"]}]) = Ok {[1 := "1"]}.
Proof. repeat split; vm_compute; reflexivity. Qed.


(** ** Mark flags and the first call *)

(** C4.  The claim: in every simulator the first 2-valued call evaluates
    every gate reachable from the primary inputs and commits its output,
    also when the inputs are given their stored values.  Evaluated on
    two circuits with the vector [{A: 0}] on a fresh simulator.  The
    gate of [NOT(A) -> Y] reads the primary input [A] and yields 1 on
    the stored values, yet the call evaluates no gate in the
    Single-List-Gate, Zero-Delay and Threaded simulators, which have no
    mark flags, and [Y] keeps the value 0.  In the Two-List and the
    Single-List-Event simulator the marks reach the gates that read a
    primary input only: on [AND(A) -> X], [NOT(X) -> Y] one of the two
    gates is evaluated, and [Y], reachable from [A] through [X], keeps
    the value 0 where its gate yields 1. *)
Theorem first_call_leaves_reachable_gates :
  (* NOT(A) -> Y *)
  primary_inputs not_circuit = [0]
  ∧ fanout_of not_circuit 0 = [mkGate 0 "NOT" [0] 1]
  ∧ simulate (mkGate 0 "NOT" [0] 1) ["0"; "0"] "2val" = Ok "1"
  ∧ (∃ s hazards,
       SingleListGateSimulator.simulate_vector 10 (SingleListGate.init not_circuit "2val")
                                               {[0 := "0"]}
       = SingleListGateSimulator.Completed (Ok (s, hazards))
       ∧ SingleListGate.gate_sim_count s = 0
       ∧ SingleListGate.net_values s = ["0"; "0"])
  ∧ (∃ s0 s hazards,
       ZeroDelay.init 10 not_circuit "2val" = Ok s0
       ∧ ZeroDelay.simulate_vector 10 s0 {[0 := "0"]} = Ok (s, hazards)
       ∧ ZeroDelay.gate_sim_count s = 0
       ∧ ZeroDelay.net_values s = ["0"; "0"])
  ∧ (∃ s hazards,
       Threaded.simulate_vector 10 (Threaded.init not_circuit "2val") {[0 := "0"]}
         = Ok (s, hazards)
       ∧ Threaded.gate_sim_count s = 0
       ∧ Threaded.net_values s = ["0"; "0"])
  (* AND(A) -> X, NOT(X) -> Y *)
  ∧ primary_inputs chain_circuit = [0]
  ∧ fanout_of chain_circuit 0 = [mkGate 0 "AND" [0] 2]
  ∧ fanout_of chain_circuit 2 = [mkGate 1 "NOT" [2] 1]
  ∧ simulate (mkGate 1 "NOT" [2] 1) ["0"; "0"; "0"] "2val" = Ok "1"
  ∧ (∃ s hazards,
       TwoList.simulate_vector 10 (TwoList.init chain_circuit "2val") {[0 := "0"]}
         = Ok (s, hazards)
       ∧ TwoList.gate_sim_count s = 1
       ∧ TwoList.net_values s = ["0"; "0"; "0"])
  ∧ (∃ s hazards,
       SingleListEvent.simulate_vector 10 (SingleListEvent.init chain_circuit "2val")
                                       {[0 := "0"]} = Ok (s, hazards)
       ∧ SingleListEvent.gate_sim_count s = 1
       ∧ SingleListEvent.net_values s = ["0"; "0"; "0"]).
Proof.
  split; [vm_compute; reflexivity|].
  split; [vm_compute; reflexivity|].
  split; [vm_compute; reflexivity|].
  split; [do 2 eexists; split; [vm_compute; reflexivity | done]|].
  split; [do 3 eexists; split; [vm_compute; reflexivity|];
          split; [vm_compute; reflexivity | done]|].
  split; [do 2 eexists; split; [vm_compute; reflexivity | done]|].
  split; [vm_compute; reflexivity|].
  split; [vm_compute; reflexivity|].
  split; [vm_compute; reflexivity|].
  split; [vm_compute; reflexivity|].
  split; [do 2 eexists; split; [vm_compute; reflexivity | done]|].
  do 2 eexists; split; [vm_compute; reflexivity | done].
Qed.

Lemma two_list_scan_marked vec nv : ∀ pis evq nm,
  Forall (λ net, net < length nv) pis →
  length nm = length nv →
  Forall (λ ev, ev_net ev < length nv) evq →
  (∀ net, net ∈ pis →
     nm !! net = Some true
     ∨ ((∃ cur, nv !! net = Some cur ∧ mkEv net (default cur (vec !! net)) ∈ evq)
        ∧ nm !! net = Some false)) →
  ∃ evq' nm',
    TwoList.scan_inputs pis vec "2val" nv evq nm = Ok (evq', nm')
    ∧ Forall (λ ev, ev_net ev < length nv) evq'
    ∧ (∀ ev, ev ∈ evq → ev ∈ evq')
    ∧ (∀ net, nm !! net = Some false → nm' !! net = Some false)
    ∧ (∀ net, net ∈ pis →
         (∃ cur, nv !! net = Some cur ∧ mkEv net (default cur (vec !! net)) ∈ evq')
         ∧ nm' !! net = Some false).
Proof.
  induction pis as [|net pis IH]; intros evq nm Hpis Hlen Hevq Hmark.
  { exists evq, nm. split; [done|]. split; [done|]. split; [done|]. split; [done|]. by intros n ?%elem_of_nil. }
  apply Forall_cons in Hpis as [Hnet Hpis].
  destruct (lookup_lt_is_Some_2 nv net Hnet) as [cur Hcur].
  assert (net < length nm) as Hnet' by lia.
  destruct (lookup_lt_is_Some_2 nm net Hnet') as [m Hm].
  cbn [TwoList.scan_inputs]. rewrite (proj2 (list_get_Ok nv net cur) Hcur).
  cbn [mbind result_mbind result_bind]. change ("2val" =? "2val") with true. cbv iota.
  set (val := default cur (vec !! net)).
  assert (∀ fire, (if negb (val =? cur) then Ok true else list_get nm net) = Ok fire →
                  fire = false → m = false ∧ val = cur) as Hfire.
  { intros fire. destruct (String.eqb_spec val cur); simpl.
    - unfold list_get. rewrite Hm. by intros [= ->] ->.
    - by intros [= <-]. }
  destruct (if negb (val =? cur) then Ok true else list_get nm net)
    as [fire| |] eqn:Efire.
  2,3: destruct (negb (val =? cur)); [done|]; unfold list_get in Efire;
       by rewrite Hm in Efire.
  cbn [mbind result_mbind result_bind]. destruct fire.
  - unfold list_set. rewrite decide_True by done.
    cbn [mbind result_mbind result_bind].
    destruct (IH (evq ++ [mkEv net val]) (<[net:=false]> nm)) as
      (evq' & nm' & Hscan & Hlt & Hsub & Hfalse & Hall).
    + done.
    + by rewrite length_insert.
    + apply Forall_app. split; [done|]. by repeat constructor.
    + intros n Hn.
      destruct (decide (n = net)) as [->|Hne].
      * right. split; [|by apply list_lookup_insert_eq].
        exists cur. split; [done|]. apply elem_of_app. right. by apply list_elem_of_singleton.
      * rewrite list_lookup_insert_ne by done.
        destruct (Hmark n) as [?|[(cur' & ? & ?) ?]]; [by right|by left|].
        right. split; [|done]. exists cur'. split; [done|].
        apply elem_of_app. by left.
    + exists evq', nm'. split; [done|]. split; [done|]. split.
      { intros ev Hev. apply Hsub, elem_of_app. by left. }
      split.
      { intros n Hn. apply Hfalse. destruct (decide (n = net)) as [->|Hne].
        - by apply list_lookup_insert_eq.
        - by rewrite list_lookup_insert_ne. }
      intros n [->|Hn]%elem_of_cons; [|by apply Hall].
      split.
      * exists cur. split; [done|]. apply Hsub, elem_of_app. right.
        by apply list_elem_of_singleton.
      * by apply Hfalse, list_lookup_insert_eq.
  - destruct (Hfire false eq_refl eq_refl) as [-> Hval].
    destruct (IH evq nm) as (evq' & nm' & Hscan & Hlt & Hsub & Hfalse & Hall); try done.
    { intros n Hn. apply Hmark. by right. }
    exists evq', nm'. split; [done|]. split; [done|]. split; [done|]. split; [done|].
    intros n [->|Hn]%elem_of_cons; [|by apply Hall].
    destruct (Hmark net) as [?|[(cur' & ? & ?) ?]]; [by left|congruence|].
    split; [|by apply Hfalse]. exists cur'. split; [done|]. by apply Hsub.
Qed.

Lemma single_list_event_scan_marked vec nv : ∀ pis evq nm,
  Forall (λ net, net < length nv) pis →
  length nm = length nv →
  (∀ net, net ∈ pis →
     nm !! net = Some true
     ∨ ((∃ cur, nv !! net = Some cur
                ∧ SingleListEvent.Event (mkEv net (default cur (vec !! net))) ∈ evq)
        ∧ nm !! net = Some false)) →
  ∃ evq' nm',
    SingleListEvent.scan_inputs pis vec "2val" nv evq nm = Ok (evq', nm')
    ∧ (∀ ev, ev ∈ evq → ev ∈ evq')
    ∧ (∀ net, nm !! net = Some false → nm' !! net = Some false)
    ∧ (∀ net, net ∈ pis →
         (∃ cur, nv !! net = Some cur
                 ∧ SingleListEvent.Event (mkEv net (default cur (vec !! net))) ∈ evq')
         ∧ nm' !! net = Some false).
Proof.
  induction pis as [|net pis IH]; intros evq nm Hpis Hlen Hmark.
  { exists evq, nm. split; [done|]. split; [done|]. split; [done|].
    by intros n ?%elem_of_nil. }
  apply Forall_cons in Hpis as [Hnet Hpis].
  destruct (lookup_lt_is_Some_2 nv net Hnet) as [cur Hcur].
  assert (net < length nm) as Hnet' by lia.
  destruct (lookup_lt_is_Some_2 nm net Hnet') as [m Hm].
  cbn [SingleListEvent.scan_inputs]. rewrite (proj2 (list_get_Ok nv net cur) Hcur).
  cbn [mbind result_mbind result_bind]. change ("2val" =? "2val") with true. cbv iota.
  set (val := default cur (vec !! net)).
  assert (∀ fire, (if negb (val =? cur) then Ok true else list_get nm net) = Ok fire →
                  fire = false → m = false ∧ val = cur) as Hfire.
  { intros fire. destruct (String.eqb_spec val cur); simpl.
    - unfold list_get. rewrite Hm. by intros [= ->] ->.
    - by intros [= <-]. }
  destruct (if negb (val =? cur) then Ok true else list_get nm net)
    as [fire| |] eqn:Efire.
  2,3: destruct (negb (val =? cur)); [done|]; unfold list_get in Efire;
       by rewrite Hm in Efire.
  cbn [mbind result_mbind result_bind]. destruct fire.
  - unfold list_set. rewrite decide_True by done.
    cbn [mbind result_mbind result_bind].
    destruct (IH (evq ++ [SingleListEvent.Event (mkEv net val)]) (<[net:=false]> nm))
      as (evq' & nm' & Hscan & Hsub & Hfalse & Hall).
    + done.
    + by rewrite length_insert.
    + intros n Hn.
      destruct (decide (n = net)) as [->|Hne].
      * right. split; [|by apply list_lookup_insert_eq].
        exists cur. split; [done|]. apply elem_of_app. right.
        by apply list_elem_of_singleton.
      * rewrite list_lookup_insert_ne by done.
        destruct (Hmark n) as [?|[(cur' & ? & ?) ?]]; [by right|by left|].
        right. split; [|done]. exists cur'. split; [done|].
        apply elem_of_app. by left.
    + exists evq', nm'. split; [done|]. split.
      { intros ev Hev. apply Hsub, elem_of_app. by left. }
      split.
      { intros n Hn. apply Hfalse. destruct (decide (n = net)) as [->|Hne].
        - by apply list_lookup_insert_eq.
        - by rewrite list_lookup_insert_ne. }
      intros n [->|Hn]%elem_of_cons; [|by apply Hall].
      split.
      * exists cur. split; [done|]. apply Hsub, elem_of_app. right.
        by apply list_elem_of_singleton.
      * by apply Hfalse, list_lookup_insert_eq.
  - destruct (Hfire false eq_refl eq_refl) as [-> Hval].
    destruct (IH evq nm) as (evq' & nm' & Hscan & Hsub & Hfalse & Hall); try done.
    { intros n Hn. apply Hmark. by right. }
    exists evq', nm'. split; [done|]. split; [done|]. split; [done|].
    intros n [->|Hn]%elem_of_cons; [|by apply Hall].
    destruct (Hmark net) as [?|[(cur' & ? & ?) ?]]; [by left|congruence|].
    split; [|by apply Hfalse]. exists cur'. split; [done|]. by apply Hsub.
Qed.

(** Scheduling keeps what is queued and queues the whole fanout. *)
Lemma gate_in_app g q1 q2 : gate_in g (q1 ++ q2) = gate_in g q1 || gate_in g q2.
Proof. unfold gate_in. apply existsb_app. Qed.

Lemma schedule_fanout_queued fo : ∀ gq,
  (∀ g, gate_in g gq = true → gate_in g (TwoList.schedule_fanout fo gq) = true)
  ∧ (∀ g, g ∈ fo → gate_in g (TwoList.schedule_fanout fo gq) = true).
Proof.
  induction fo as [|h fo IH]; intros gq; simpl.
  { split; [done|]. by intros g ?%elem_of_nil. }
  set (gq' := if gate_in h gq then gq else gq ++ [h]).
  assert (∀ g, gate_in g gq = true → gate_in g gq' = true) as Hkeep.
  { intros g Hg. subst gq'. destruct (gate_in h gq); [done|].
    by rewrite gate_in_app, Hg. }
  assert (gate_in h gq' = true) as Hh.
  { subst gq'. destruct (gate_in h gq) eqn:E; [done|].
    rewrite gate_in_app. simpl. rewrite Nat.eqb_refl. by rewrite orb_true_r. }
  destruct (IH gq') as [IH1 IH2]. split.
  - intros g Hg. by apply IH1, Hkeep.
  - intros g [->|Hg]%elem_of_cons; [by apply IH1 | by apply IH2].
Qed.

Lemma commit_total net val nv cc :
  net < length nv → length cc = length nv →
  ∃ nv' cc', commit net val nv cc = Ok (nv', cc')
             ∧ length nv' = length nv ∧ length cc' = length nv.
Proof.
  intros Hnet Hlen. unfold commit.
  destruct (lookup_lt_is_Some_2 nv net Hnet) as [cur Hcur].
  rewrite (proj2 (list_get_Ok nv net cur) Hcur). cbn [mbind result_mbind result_bind].
  destruct (negb (val =? cur)); [|by eauto].
  unfold list_set at 2. rewrite decide_True by done. cbn [mbind result_mbind result_bind].
  assert (net < length cc) as Hnet' by lia.
  destruct (lookup_lt_is_Some_2 cc net Hnet') as [n Hn].
  rewrite (proj2 (list_get_Ok cc net n) Hn). cbn [mbind result_mbind result_bind].
  unfold list_set. rewrite decide_True by done. cbn [mbind result_mbind result_bind].
  do 2 eexists. split; [done|]. by rewrite !length_insert.
Qed.

Lemma drain_events_schedules c : ∀ evq nv cc gq,
  Forall (λ ev, ev_net ev < length nv) evq → length cc = length nv →
  ∃ nv' cc' gq',
    TwoList.drain_events c evq nv cc gq = Ok (nv', cc', gq')
    ∧ (∀ g, gate_in g gq = true → gate_in g gq' = true)
    ∧ (∀ ev g, ev ∈ evq → g ∈ fanout_of c (ev_net ev) → gate_in g gq' = true).
Proof.
  induction evq as [|ev evq IH]; intros nv cc gq Hevq Hlen; simpl.
  { do 3 eexists. split; [done|]. split; [done|]. by intros ev g ?%elem_of_nil. }
  apply Forall_cons in Hevq as [Hev Hevq].
  destruct (commit_total (ev_net ev) (ev_value ev) nv cc Hev Hlen)
    as (nv1 & cc1 & -> & Hl1 & Hl2).
  cbn [mbind result_mbind result_bind].
  destruct (schedule_fanout_queued (fanout_of c (ev_net ev)) gq) as [Hk Hf].
  destruct (IH nv1 cc1 (TwoList.schedule_fanout (fanout_of c (ev_net ev)) gq))
    as (nv' & cc' & gq' & -> & Hkeep & Hall).
  { by rewrite Hl1. }
  { congruence. }
  do 3 eexists. split; [done|]. split.
  - intros g Hg. by apply Hkeep, Hk.
  - intros e g [->|He]%elem_of_cons Hg; [by apply Hkeep, Hf | by eapply Hall].
Qed.

(** X27.  In the Two-List and the Single-List-Event simulator,
    in 2-valued mode, the first [simulate_vector] call queues an event for
    every primary input, carrying the supplied value (0 when the vector
    is silent), also when that value equals the stored 0, and clears the
    input's mark; in the Two-List simulator the first event drain then
    puts every gate that reads a primary input into the gate queue.  (The
    primary inputs are nets of the circuit.) *)
Theorem first_call_marks_raise_input_events (c : Circuit) (vec : gmap nat string) :
  Forall (λ net, net < next_net_id c) (primary_inputs c) →
  (∃ evq nm,
     TwoList.scan_inputs (primary_inputs c) vec "2val"
       (TwoList.net_values (TwoList.init c "2val")) []
       (TwoList.net_mark (TwoList.init c "2val")) = Ok (evq, nm)
     ∧ (∀ net, net ∈ primary_inputs c →
          mkEv net (default "0" (vec !! net)) ∈ evq ∧ nm !! net = Some false)
     ∧ ∃ nv cc gq,
         TwoList.drain_events c evq (TwoList.net_values (TwoList.init c "2val"))
                              (replicate (next_net_id c) 0) [] = Ok (nv, cc, gq)
         ∧ ∀ net g, net ∈ primary_inputs c → g ∈ fanout_of c net →
                    gate_in g gq = true)
  ∧ (∃ evq nm,
       SingleListEvent.scan_inputs (primary_inputs c) vec "2val"
         (SingleListEvent.net_values (SingleListEvent.init c "2val")) []
         (SingleListEvent.net_mark (SingleListEvent.init c "2val")) = Ok (evq, nm)
       ∧ ∀ net, net ∈ primary_inputs c →
           SingleListEvent.Event (mkEv net (default "0" (vec !! net))) ∈ evq
           ∧ nm !! net = Some false).
Proof.
  intros Hpis. simpl. set (n := next_net_id c) in *.
  assert (Forall (λ net, net < length (replicate n "0")) (primary_inputs c)) as Hpis'.
  { by rewrite length_replicate. }
  assert (∀ net, net ∈ primary_inputs c → replicate n true !! net = Some true) as Hm.
  { intros net Hnet. apply lookup_replicate_2.
    by apply (proj1 (Forall_forall _ _) Hpis). }
  assert (∀ net cur, replicate n "0" !! net = Some cur → cur = "0") as Hz.
  { by intros net cur [-> _]%lookup_replicate_1. }
  split.
  - destruct (two_list_scan_marked vec (replicate n "0") (primary_inputs c) []
                (replicate n true)) as (evq & nm & Hscan & Hlt & _ & _ & Hall).
    { done. } { by rewrite !length_replicate. } { constructor. }
    { intros net Hnet. left. by apply Hm. }
    exists evq, nm. split; [done|]. split.
    { intros net Hnet. destruct (Hall net Hnet) as [(cur & Hcur & Hev) Hmark].
      apply Hz in Hcur as ->. done. }
    destruct (drain_events_schedules c evq (replicate n "0") (replicate n 0) [])
      as (nv & cc & gq & Hdrain & _ & Hq).
    { done. } { by rewrite !length_replicate. }
    exists nv, cc, gq. split; [done|].
    intros net g Hnet Hg. destruct (Hall net Hnet) as [(cur & Hcur & Hev) _].
    by apply (Hq _ g Hev).
  - destruct (single_list_event_scan_marked vec (replicate n "0") (primary_inputs c) []
                (replicate n true)) as (evq & nm & Hscan & _ & _ & Hall).
    { done. } { by rewrite !length_replicate. }
    { intros net Hnet. left. by apply Hm. }
    exists evq, nm. split; [done|].
    intros net Hnet. destruct (Hall net Hnet) as [(cur & Hcur & Hev) Hmark].
    apply Hz in Hcur as ->. done.
Qed.

(** The first scan on [AND(A) -> X], [NOT(X) -> Y] with [{A: 0}]. *)
Lemma first_call_marks_raise_input_events_witness :
  ∃ evq nm,
    TwoList.scan_inputs (primary_inputs chain_circuit) {[0 := "0"]} "2val"
      (TwoList.net_values (TwoList.init chain_circuit "2val")) []
      (TwoList.net_mark (TwoList.init chain_circuit "2val")) = Ok (evq, nm)
    ∧ mkEv 0 "0" ∈ evq ∧ nm !! 0 = Some false.
Proof.
  assert (Forall (λ net, net < next_net_id chain_circuit)
                 (primary_inputs chain_circuit)) as H.
  { vm_compute. repeat constructor. }
  destruct (first_call_marks_raise_input_events chain_circuit {[0 := "0"]} H)
    as [(evq & nm & Hscan & Hall & _) _].
  exists evq, nm. split; [exact Hscan|].
  apply (Hall 0). vm_compute. constructor.
Defined.

(** ** 2-valued simulation never leaves {0, 1} *)

Lemma binary_zero : binary "0".
Proof. by left. Qed.

Lemma binary_one : binary "1".
Proof. by right. Qed.

Create HintDb binary.
#[local] Hint Resolve binary_zero binary_one : binary.

Lemma logic_and_binary inputs nv v :
  logic_and inputs nv "2val" = Ok v → binary v.
Proof.
  induction inputs as [|i inputs IH]; simpl; intros H; inv_ok; [by right|].
  destruct (_ =? LOGIC_ZERO); inv_ok; [by left | by apply IH].
Qed.

Lemma logic_or_binary inputs nv v :
  logic_or inputs nv "2val" = Ok v → binary v.
Proof.
  induction inputs as [|i inputs IH]; simpl; intros H; inv_ok; [by left|].
  destruct (_ =? LOGIC_ONE); inv_ok; [by right | by apply IH].
Qed.

Lemma logic_not_single_binary a : binary a → binary (logic_not_single a "2val").
Proof. intros [-> | ->]; [by right | by left]. Qed.

Lemma logic_not_binary i nv v :
  Forall binary nv → logic_not i nv "2val" = Ok v → binary v.
Proof.
  intros Hnv H. unfold logic_not in H. inv_ok.
  match goal with Hl : nv !! i = Some ?x |- _ =>
    destruct (proj1 (Forall_lookup _ _) Hnv _ _ Hl) as [-> | ->] end;
    simpl in H; inv_ok; auto with binary.
Qed.

Lemma logic_xor_loop_binary inputs nv : ∀ ones v,
  Forall binary nv → logic_xor_loop inputs nv ones = Ok v → binary v.
Proof.
  induction inputs as [|i inputs IH]; simpl; intros ones v Hnv H; inv_ok.
  - destruct (Nat.eqb _ _); auto with binary.
  - match goal with Hl : nv !! i = Some ?x |- _ =>
      destruct (proj1 (Forall_lookup _ _) Hnv _ _ Hl) as [-> | ->] end;
      simpl in H; eauto.
Qed.

Lemma simulate_binary g nv v :
  Forall binary nv → simulate g nv "2val" = Ok v → binary v.
Proof.
  intros Hnv. unfold simulate, GATE_FUNCS.
  destruct (gate_type g =? "NOT").
  { intros H. inv_ok. by eapply logic_not_binary. }
  destruct (gate_type g =? "AND"); [by apply logic_and_binary|].
  destruct (gate_type g =? "OR"); [by apply logic_or_binary|].
  destruct (gate_type g =? "NAND").
  { unfold logic_nand. intros H. inv_ok.
    match goal with Ha : logic_and _ _ _ = Ok ?a |- _ =>
      apply logic_and_binary in Ha as [-> | ->] end; simpl in H; inv_ok;
      auto with binary. }
  destruct (gate_type g =? "NOR").
  { unfold logic_nor. intros H. inv_ok.
    match goal with Ha : logic_or _ _ _ = Ok ?a |- _ =>
      apply logic_or_binary in Ha as [-> | ->] end; simpl in H; inv_ok;
      auto with binary. }
  destruct (gate_type g =? "XOR"); [by apply logic_xor_loop_binary|].
  destruct (gate_type g =? "XNOR"); [|done].
  unfold logic_xnor, logic_xor. intros H. inv_ok.
  match goal with Ha : logic_xor_loop _ _ _ = Ok ?a |- _ =>
    apply logic_xor_loop_binary in Ha as [-> | ->]; [| |done] end; simpl in H; inv_ok;
    auto with binary.
Qed.

Lemma commit_binary net val nv cc nv' cc' :
  binary val → Forall binary nv → commit net val nv cc = Ok (nv', cc') →
  Forall binary nv'.
Proof.
  intros Hval Hnv H. unfold commit in H. inv_ok.
  destruct (negb _); inv_ok; [|done]. by apply Forall_insert.
Qed.

Lemma snapshot_binary outs nv : ∀ m,
  Forall binary nv → snapshot outs nv = Ok m → map_Forall (λ _ v, binary v) m.
Proof.
  induction outs as [|nid outs IH]; simpl; intros m Hnv H; inv_ok.
  - apply map_Forall_empty.
  - apply map_Forall_insert_2; [|by eapply IH].
    by eapply (proj1 (Forall_lookup _ _) Hnv).
Qed.

(** The value a scan reads for a primary input. *)
Lemma supplied_binary (vec : gmap nat string) net cur :
  binary_vector vec → binary cur → binary (default cur (vec !! net)).
Proof.
  intros Hvec Hcur. destruct (vec !! net) as [v|] eqn:E; simpl; [|done].
  by apply (Hvec net v).
Qed.

Lemma run_vectors_invariant {S : Type}
    (simulate_vector : S → gmap nat string → result (S * list (nat * string)))
    (Inv : S → Prop) :
  (∀ s vec s' hazards,
     Inv s → binary_vector vec → simulate_vector s vec = Ok (s', hazards) → Inv s') →
  ∀ vectors s s' hs,
    Forall binary_vector vectors → Inv s →
    run_vectors simulate_vector s vectors = Ok (s', hs) → Inv s'.
Proof.
  intros Hstep. induction vectors as [|vec vectors IH]; intros s s' hs Hvs Hs H;
    simpl in H; inv_ok; [done|].
  apply Forall_cons in Hvs as [Hvec Hvs]. eauto.
Qed.

Lemma Forall_snoc {A : Type} (P : A → Prop) (l : list A) (x : A) :
  Forall P l → P x → Forall P (l ++ [x]).
Proof. intros Hl Hx. apply Forall_app. split; [done|]. by apply Forall_singleton. Qed.

(** *** Two-List *)

Lemma two_list_scan_binary vec lm nv : ∀ pis evq nm evq' nm',
  binary_vector vec → Forall binary nv →
  Forall (λ ev, binary (ev_value ev)) evq →
  TwoList.scan_inputs pis vec lm nv evq nm = Ok (evq', nm') →
  Forall (λ ev, binary (ev_value ev)) evq'.
Proof.
  intros pis evq nm evq' nm' Hvec Hnv. revert evq nm.
  induction pis as [|net pis IH]; intros evq nm Hevq H; simpl in H; inv_ok; [done|].
  match goal with Hl : nv !! net = Some ?x |- _ =>
    pose proof (proj1 (Forall_lookup _ _) Hnv _ _ Hl) as Hcur;
    pose proof (supplied_binary vec net x Hvec Hcur) as Hval end.
  assert (∀ q, Forall (λ ev, binary (ev_value ev)) q →
               Forall (λ ev, binary (ev_value ev))
                      (q ++ [mkEv net (default x (vec !! net))])) as Happ.
  { intros q Hq. by apply Forall_snoc. }
  destruct (lm =? "2val").
  - inv_ok. destruct x0; inv_ok; eauto.
  - destruct (negb _); eauto.
Qed.

Lemma two_list_drain_binary c : ∀ evq nv cc gq nv' cc' gq',
  Forall binary nv → Forall (λ ev, binary (ev_value ev)) evq →
  TwoList.drain_events c evq nv cc gq = Ok (nv', cc', gq') →
  Forall binary nv'.
Proof.
  induction evq as [|ev evq IH]; intros nv cc gq nv' cc' gq' Hnv Hevq H;
    simpl in H; inv_ok; [done|].
  apply Forall_cons in Hevq as [Hev Hevq].
  match goal with Hc : commit _ _ _ _ = _ |- _ =>
    apply commit_binary in Hc; [|done..] end.
  eauto.
Qed.

Lemma two_list_gate_phase_binary : ∀ gq nv cnt evq cnt' evq',
  Forall binary nv → Forall (λ ev, binary (ev_value ev)) evq →
  TwoList.gate_phase "2val" gq nv cnt evq = Ok (cnt', evq') →
  Forall (λ ev, binary (ev_value ev)) evq'.
Proof.
  induction gq as [|g gq IH]; intros nv cnt evq cnt' evq' Hnv Hevq H;
    simpl in H; inv_ok; [done|].
  match goal with Hs : simulate _ _ _ = _ |- _ =>
    apply simulate_binary in Hs; [|done] end.
  eapply IH; [done| |done].
  destruct (negb _); [|done]. by apply Forall_snoc.
Qed.

Lemma two_list_settle_binary fuel : ∀ s evq cc t s' cc',
  TwoList.logic_model s = "2val" →
  Forall binary (TwoList.net_values s) →
  Forall (λ ev, binary (ev_value ev)) evq →
  TwoList.settle fuel s evq cc t = Ok (s', cc') →
  Forall binary (TwoList.net_values s')
  ∧ TwoList.output_log s' = TwoList.output_log s.
Proof.
  induction fuel as [|fuel IH]; intros s evq cc t s' cc' Hlm Hnv Hevq H;
    destruct evq as [|ev evq]; cbn [TwoList.settle] in H; inv_ok; try done.
  match goal with Hd : TwoList.drain_events _ _ _ _ _ = _ |- _ =>
    apply two_list_drain_binary in Hd; [|done..] end.
  destruct l as [|g gq]; inv_ok.
  - apply IH in H; [done|done|done|constructor].
  - match goal with Hg : TwoList.gate_phase _ _ _ _ _ = _ |- _ =>
      rewrite Hlm in Hg; apply two_list_gate_phase_binary in Hg; [|done|constructor] end.
    apply IH in H; done.
Qed.

Lemma two_list_call_binary fuel s vec s' hazards :
  two_list_binary s → binary_vector vec →
  TwoList.simulate_vector fuel s vec = Ok (s', hazards) →
  two_list_binary s'.
Proof.
  intros (Hlm & Hnv & Hlog) Hvec H. unfold TwoList.simulate_vector in H.
  apply bind_Ok in H as ([s1 cc] & Hcore & H). inv_ok.
  unfold TwoList.simulate_core in Hcore. inv_ok.
  pose proof (two_list_settle_frame _ _ _ _ _ _ _ Hcore) as (_ & _ & Hlm').
  match goal with Hs : TwoList.scan_inputs _ _ _ _ _ _ = _ |- _ =>
    apply two_list_scan_binary in Hs; [|done|done|constructor] end.
  apply two_list_settle_binary in Hcore as [Hnv' Hlog']; [|done..].
  split; [by rewrite Hlm'|]. split; [done|]. simpl.
  apply Forall_snoc; [by rewrite Hlog'|]. by eapply snapshot_binary.
Qed.

(** *** Single-List (event) *)

Lemma single_list_event_scan_binary vec lm nv : ∀ pis evq nm evq' nm',
  binary_vector vec → Forall binary nv → Forall binary_item evq →
  SingleListEvent.scan_inputs pis vec lm nv evq nm = Ok (evq', nm') →
  Forall binary_item evq'.
Proof.
  intros pis evq nm evq' nm' Hvec Hnv. revert evq nm.
  induction pis as [|net pis IH]; intros evq nm Hevq H; simpl in H; inv_ok; [done|].
  match goal with Hl : nv !! net = Some ?x |- _ =>
    pose proof (proj1 (Forall_lookup _ _) Hnv _ _ Hl) as Hcur;
    pose proof (supplied_binary vec net x Hvec Hcur) as Hval end.
  assert (∀ q, Forall binary_item q →
               Forall binary_item
                 (q ++ [SingleListEvent.Event (mkEv net (default x (vec !! net)))]))
    as Happ.
  { intros q Hq. by apply Forall_snoc. }
  destruct (lm =? "2val").
  - inv_ok. destruct x0; inv_ok; eauto.
  - destruct (negb _); eauto.
Qed.

Lemma single_list_event_fanout_binary : ∀ fo nv cnt evq cnt' evq',
  Forall binary nv → Forall binary_item evq →
  SingleListEvent.simulate_fanout "2val" fo nv cnt evq = Ok (cnt', evq') →
  Forall binary_item evq'.
Proof.
  induction fo as [|g fo IH]; intros nv cnt evq cnt' evq' Hnv Hevq H;
    simpl in H; inv_ok; [done|].
  match goal with Hs : simulate _ _ _ = _ |- _ =>
    apply simulate_binary in Hs; [|done] end.
  eapply IH; [done| |done].
  destruct (_ && _); [|done]. by apply Forall_snoc.
Qed.

Lemma single_list_event_process_binary fuel : ∀ s evq cc t s' cc',
  SingleListEvent.logic_model s = "2val" →
  Forall binary (SingleListEvent.net_values s) →
  Forall binary_item evq →
  SingleListEvent.process fuel s evq cc t = Ok (s', cc') →
  Forall binary (SingleListEvent.net_values s')
  ∧ SingleListEvent.output_log s' = SingleListEvent.output_log s.
Proof.
  induction fuel as [|fuel IH]; intros s evq cc t s' cc' Hlm Hnv Hevq H;
    destruct evq as [|e evq]; cbn [SingleListEvent.process] in H; inv_ok; try done.
  apply Forall_cons in Hevq as [He Hevq].
  destruct e as [ev|]; inv_ok.
  - match goal with Hc : commit _ _ _ _ = _ |- _ =>
      apply commit_binary in Hc; [|done..] end.
    match goal with Hf : SingleListEvent.simulate_fanout _ _ _ _ _ = _ |- _ =>
      rewrite Hlm in Hf; apply single_list_event_fanout_binary in Hf; [|done..] end.
    apply IH in H; done.
  - apply IH in H; [done..|].
    destruct evq; [done|]. by apply Forall_snoc.
Qed.

Lemma single_list_event_call_binary fuel s vec s' hazards :
  single_list_event_binary s → binary_vector vec →
  SingleListEvent.simulate_vector fuel s vec = Ok (s', hazards) →
  single_list_event_binary s'.
Proof.
  intros (Hlm & Hnv & Hlog) Hvec H. unfold SingleListEvent.simulate_vector in H.
  apply bind_Ok in H as ([s1 cc] & Hcore & H). inv_ok.
  unfold SingleListEvent.simulate_core in Hcore. inv_ok.
  pose proof (single_list_event_process_frame _ _ _ _ _ _ _ Hcore) as (_ & _ & Hlm').
  match goal with Hs : SingleListEvent.scan_inputs _ _ _ _ _ _ = _ |- _ =>
    apply single_list_event_scan_binary in Hs; [|done|done|constructor] end.
  apply single_list_event_process_binary in Hcore as [Hnv' Hlog'];
    [|done|done|by apply Forall_snoc].
  split; [by rewrite Hlm'|]. split; [done|]. simpl.
  apply Forall_snoc; [by rewrite Hlog'|]. by eapply snapshot_binary.
Qed.

(** *** Single-List (gate) *)

Lemma single_list_gate_scan_binary vec : ∀ pis nv changed nv' changed',
  binary_vector vec → Forall binary nv →
  SingleListGate.scan_inputs pis vec nv changed = Ok (nv', changed') →
  Forall binary nv'.
Proof.
  induction pis as [|net pis IH]; intros nv changed nv' changed' Hvec Hnv H;
    simpl in H; inv_ok; [done|].
  match goal with Hl : nv !! net = Some ?x |- _ =>
    pose proof (proj1 (Forall_lookup _ _) Hnv _ _ Hl) as Hcur;
    pose proof (supplied_binary vec net x Hvec Hcur) as Hval end.
  destruct (negb _); inv_ok; [|by eauto].
  eapply IH; [done| |done]. by apply Forall_insert.
Qed.

Lemma dict_set_binary d k v :
  Forall (λ kv, binary kv.2) d → binary v →
  Forall (λ kv, binary kv.2) (SingleListGate.dict_set d k v).
Proof.
  intros Hd Hv. induction d as [|[k' v'] d IH]; simpl.
  - by apply Forall_singleton.
  - apply Forall_cons in Hd as [Hk Hd]. destruct (Nat.eqb k' k).
    + by constructor.
    + constructor; [done | by apply IH].
Qed.

Lemma commit_all_binary : ∀ temp nv cc nv' cc',
  Forall (λ kv, binary kv.2) temp → Forall binary nv →
  SingleListGate.commit_all temp nv cc = Ok (nv', cc') →
  Forall binary nv'.
Proof.
  induction temp as [|[net val] temp IH]; intros nv cc nv' cc' Htemp Hnv H;
    simpl in H; inv_ok; [done|].
  apply Forall_cons in Htemp as [Hval Htemp].
  match goal with Hc : commit _ _ _ _ = _ |- _ =>
    apply commit_binary in Hc; [|done..] end.
  eauto.
Qed.

Lemma single_list_gate_process_binary fuel : ∀ s gq temp fl cc t s' cc',
  SingleListGate.logic_model s = "2val" →
  Forall binary (SingleListGate.net_values s) →
  Forall (λ kv, binary kv.2) temp →
  SingleListGate.process fuel s gq temp fl cc t = Ok (s', cc') →
  Forall binary (SingleListGate.net_values s')
  ∧ SingleListGate.output_log s' = SingleListGate.output_log s.
Proof.
  induction fuel as [|fuel IH]; intros s gq temp fl cc t s' cc' Hlm Hnv Htemp H;
    destruct gq as [|elem gq]; cbn [SingleListGate.process] in H; inv_ok; try done.
  destruct elem as [g|]; inv_ok.
  - match goal with Hs : simulate _ _ _ = _ |- _ =>
      rewrite Hlm in Hs; apply simulate_binary in Hs; [|done] end.
    destruct (negb _).
    + destruct (SingleListGate.enqueue_fanout _ _ _) as [gq' fl'].
      apply IH in H; [done..|]. by apply dict_set_binary.
    + apply IH in H; done.
  - match goal with Hc : SingleListGate.commit_all _ _ _ = _ |- _ =>
      apply commit_all_binary in Hc; [|done..] end.
    destruct gq; apply IH in H; done.
Qed.

Lemma single_list_gate_call_binary fuel s vec s' hazards :
  single_list_gate_binary s → binary_vector vec →
  SingleListGate.simulate_vector fuel s vec = Ok (s', hazards) →
  single_list_gate_binary s'.
Proof.
  intros (Hlm & Hnv & Hlog) Hvec H. unfold SingleListGate.simulate_vector in H.
  apply bind_Ok in H as ([s1 cc] & Hcore & H). inv_ok.
  unfold SingleListGate.simulate_core in Hcore. inv_ok.
  pose proof (single_list_gate_process_frame _ _ _ _ _ _ _ _ _ Hcore) as (_ & _ & Hlm').
  match goal with Hs : SingleListGate.scan_inputs _ _ _ _ = _ |- _ =>
    apply single_list_gate_scan_binary in Hs; [|done..] end.
  apply single_list_gate_process_binary in Hcore as [Hnv' Hlog'];
    [|done|done|constructor].
  split; [by rewrite Hlm'|]. split; [done|]. simpl.
  apply Forall_snoc; [by rewrite Hlog'|]. by eapply snapshot_binary.
Qed.

(** *** Zero-Delay *)

Lemma zero_delay_scan_binary c levels vec : ∀ pis nv lq nv' lq',
  binary_vector vec → Forall binary nv →
  ZeroDelay.scan_inputs c levels pis vec nv lq = Ok (nv', lq') →
  Forall binary nv'.
Proof.
  induction pis as [|net pis IH]; intros nv lq nv' lq' Hvec Hnv H;
    simpl in H; inv_ok; [done|].
  match goal with Hl : nv !! net = Some ?x |- _ =>
    pose proof (proj1 (Forall_lookup _ _) Hnv _ _ Hl) as Hcur;
    pose proof (supplied_binary vec net x Hvec Hcur) as Hval end.
  destruct (negb _); inv_ok; [|by eauto].
  eapply IH; [done| |done]. by apply Forall_insert.
Qed.

Lemma zero_delay_drain_binary fuel c levels lvl : ∀ st st',
  Forall binary (ZeroDelay.sw_values st) →
  ZeroDelay.drain_level fuel c "2val" levels lvl st = Ok st' →
  Forall binary (ZeroDelay.sw_values st').
Proof.
  induction fuel as [|fuel IH]; intros st st' Hnv H;
    cbn [ZeroDelay.drain_level] in H; inv_ok.
  - match goal with q : list Gate |- _ => destruct q; inv_ok end. done.
  - match goal with q : list Gate |- _ => destruct q as [|g q]; inv_ok end; [done|].
    match goal with Hs : simulate _ _ _ = _ |- _ =>
      apply simulate_binary in Hs; [|done] end.
    destruct (negb _); inv_ok.
    + apply IH in H; [done|]. simpl. by apply Forall_insert.
    + apply IH in H; done.
Qed.

Lemma zero_delay_sweep_binary fuel c levels : ∀ lvls st st',
  Forall binary (ZeroDelay.sw_values st) →
  ZeroDelay.sweep_levels fuel c "2val" levels lvls st = Ok st' →
  Forall binary (ZeroDelay.sw_values st').
Proof.
  induction lvls as [|lvl lvls IH]; intros st st' Hnv H; simpl in H; inv_ok; [done|].
  match goal with Hd : ZeroDelay.drain_level _ _ _ _ _ _ = _ |- _ =>
    apply zero_delay_drain_binary in Hd; [|done] end.
  eauto.
Qed.

Lemma zero_delay_passes_binary fuel c levels max_level : ∀ remaining st st',
  Forall binary (ZeroDelay.sw_values st) →
  ZeroDelay.passes remaining fuel c "2val" levels max_level st = Ok st' →
  Forall binary (ZeroDelay.sw_values st').
Proof.
  induction remaining as [|remaining IH]; intros st st' Hnv H;
    cbn [ZeroDelay.passes] in H; inv_ok; [done|].
  destruct (ZeroDelay.sw_iteration st); inv_ok; [|done].
  match goal with Hs : ZeroDelay.sweep_levels _ _ _ _ _ _ = _ |- _ =>
    apply zero_delay_sweep_binary in Hs; [|done] end.
  eauto.
Qed.

Lemma zero_delay_call_binary fuel s vec s' hazards :
  zero_delay_binary s → binary_vector vec →
  ZeroDelay.simulate_vector fuel s vec = Ok (s', hazards) →
  zero_delay_binary s'.
Proof.
  intros (Hlm & Hnv & Hlog) Hvec H. unfold ZeroDelay.simulate_vector in H. inv_ok.
  match goal with Hs : ZeroDelay.scan_inputs _ _ _ _ _ _ = _ |- _ =>
    apply zero_delay_scan_binary in Hs; [|done..] end.
  match goal with Hp : ZeroDelay.passes _ _ _ _ _ _ _ = _ |- _ =>
    rewrite Hlm in Hp; apply zero_delay_passes_binary in Hp; [|done] end.
  split; [done|]. split; [done|]. simpl.
  apply Forall_snoc; [done|]. by eapply snapshot_binary.
Qed.

Lemma zero_delay_init_binary fuel c s :
  ZeroDelay.init fuel c "2val" = Ok s → zero_delay_binary s.
Proof.
  unfold ZeroDelay.init. intros H. inv_ok.
  split; [done|]. split; [|constructor]. simpl.
  apply Forall_replicate. by left.
Qed.

(** *** Threaded *)

Lemma threaded_scan_binary vec nv : ∀ pis es es',
  binary_vector vec → Forall binary nv →
  Forall (λ ev, binary (ev_value ev)) es →
  Threaded.scan_inputs pis vec nv es = Ok es' →
  Forall (λ ev, binary (ev_value ev)) es'.
Proof.
  induction pis as [|net pis IH]; intros es es' Hvec Hnv Hes H;
    simpl in H; inv_ok; [done|].
  match goal with Hl : nv !! net = Some ?x |- _ =>
    pose proof (proj1 (Forall_lookup _ _) Hnv _ _ Hl) as Hcur;
    pose proof (supplied_binary vec net x Hvec Hcur) as Hval end.
  eapply IH; [done..| |done].
  destruct (negb _); [by constructor | done].
Qed.

Lemma threaded_process_binary fuel : ∀ s cc s' cc',
  Threaded.logic_model s = "2val" →
  Forall binary (Threaded.net_values s) →
  Forall (λ ev, binary (ev_value ev)) (Threaded.event_stack s) →
  Threaded.process fuel s cc = Ok (s', cc') →
  Forall binary (Threaded.net_values s')
  ∧ Threaded.output_log s' = Threaded.output_log s.
Proof.
  induction fuel as [|fuel IH]; intros s cc s' cc' Hlm Hnv Hes H;
    cbn [Threaded.process] in H;
    destruct (Threaded.event_stack s) as [|ev es] eqn:Ee;
    destruct (Threaded.gate_stack s) as [|g gs] eqn:Eg; inv_ok; try done.
  - match goal with Hs : simulate _ _ _ = _ |- _ =>
      rewrite Hlm in Hs; apply simulate_binary in Hs; [|done] end.
    apply IH in H; [done..|]. simpl.
    destruct (negb _); [by apply Forall_singleton | constructor].
  - apply Forall_cons in Hes as [Hev Hes].
    match goal with Hc : commit _ _ _ _ = _ |- _ =>
      apply commit_binary in Hc; [|done..] end.
    apply IH in H; done.
  - apply Forall_cons in Hes as [Hev Hes].
    match goal with Hc : commit _ _ _ _ = _ |- _ =>
      apply commit_binary in Hc; [|done..] end.
    apply IH in H; done.
Qed.

Lemma threaded_call_binary fuel s vec s' hazards :
  threaded_binary s → binary_vector vec →
  Threaded.simulate_vector fuel s vec = Ok (s', hazards) →
  threaded_binary s'.
Proof.
  intros (Hlm & Hes & Hgs & Hnv & Hlog) Hvec H. unfold Threaded.simulate_vector in H.
  apply bind_Ok in H as ([s1 cc] & Hcore & H). inv_ok.
  unfold Threaded.simulate_core in Hcore. inv_ok.
  pose proof (threaded_process_frame _ _ _ _ _ Hcore) as (_ & _ & Hlm' & Hes' & Hgs').
  match goal with Hs : Threaded.scan_inputs _ _ _ _ = _ |- _ =>
    rewrite Hes in Hs; apply threaded_scan_binary in Hs; [|done|done|constructor] end.
  apply threaded_process_binary in Hcore as [Hnv' Hlog']; [|done..].
  split; [by rewrite Hlm'|]. split; [done|]. split; [done|]. split; [done|]. simpl.
  apply Forall_snoc; [by rewrite Hlog'|]. by eapply snapshot_binary.
Qed.

(** C10.  For each of the five simulators constructed with ['2val']: if
    every value of every supplied vector is 0 or 1, then after any
    sequence of returning [simulate_vector] calls every net value and
    every value of every output-log entry is 0 or 1.  (The
    Single-List-Gate simulator is taken as the method runs: a sequence
    with a call that ends in the [TypeError] of its queue test does not
    return.) *)
Theorem two_valued_stays_binary (fuel : nat) (c : Circuit)
    (vectors : list (gmap nat string)) :
  Forall binary_vector vectors →
  (∀ s hs,
     run_vectors (TwoList.simulate_vector fuel) (TwoList.init c "2val") vectors
       = Ok (s, hs) →
     Forall binary (TwoList.net_values s) ∧ binary_log (TwoList.output_log s))
  ∧ (∀ s hs,
     run_vectors (SingleListEvent.simulate_vector fuel)
                 (SingleListEvent.init c "2val") vectors = Ok (s, hs) →
     Forall binary (SingleListEvent.net_values s)
     ∧ binary_log (SingleListEvent.output_log s))
  ∧ (∀ s hs,
     SingleListGateSimulator.run_vectors fuel (SingleListGate.init c "2val") vectors
     = SingleListGateSimulator.Completed (Ok (s, hs)) →
     Forall binary (SingleListGate.net_values s)
     ∧ binary_log (SingleListGate.output_log s))
  ∧ (∀ fuel' s0 s hs,
     ZeroDelay.init fuel' c "2val" = Ok s0 →
     run_vectors (ZeroDelay.simulate_vector fuel) s0 vectors = Ok (s, hs) →
     Forall binary (ZeroDelay.net_values s) ∧ binary_log (ZeroDelay.output_log s))
  ∧ (∀ s hs,
     run_vectors (Threaded.simulate_vector fuel) (Threaded.init c "2val") vectors
       = Ok (s, hs) →
     Forall binary (Threaded.net_values s) ∧ binary_log (Threaded.output_log s)).
Proof.
  intros Hvs.
  assert (Forall binary (replicate (next_net_id c) "0")) as Hz.
  { apply Forall_replicate. by left. }
  split; [|split; [|split; [|split]]].
  - intros s hs H.
    eapply (run_vectors_invariant _ two_list_binary) in H as (_ & ? & ?); [done| |done|].
    + intros ????. apply two_list_call_binary.
    + split; [done|]. split; [done | constructor].
  - intros s hs H.
    eapply (run_vectors_invariant _ single_list_event_binary) in H as (_ & ? & ?);
      [done| |done|].
    + intros ????. apply single_list_event_call_binary.
    + split; [done|]. split; [done | constructor].
  - intros s hs H. apply single_list_gate_run_refines in H.
    eapply (run_vectors_invariant _ single_list_gate_binary) in H as (_ & ? & ?);
      [done| |done|].
    + intros ????. apply single_list_gate_call_binary.
    + split; [done|]. split; [done | constructor].
  - intros fuel' s0 s hs Hinit H.
    eapply (run_vectors_invariant _ zero_delay_binary) in H as (_ & ? & ?);
      [done| |done|].
    + intros ????. apply zero_delay_call_binary.
    + by eapply zero_delay_init_binary.
  - intros s hs H.
    eapply (run_vectors_invariant _ threaded_binary) in H as (_ & _ & _ & ? & ?);
      [done| |done|].
    + intros ????. apply threaded_call_binary.
    + split; [done|]. split; [done|]. split; [done|]. split; [done | constructor].
Qed.

(** ** The theorems at concrete runs *)

(** Zero-Delay on [AND(A) -> X], [NOT(X) -> Y], two vectors. *)
Lemma zero_delay_no_hazards_no_intermediate_log_witness :
  ∃ s0 s hs,
    ZeroDelay.init 2 chain_circuit "3val" = Ok s0
    ∧ run_vectors (ZeroDelay.simulate_vector 5) s0 [{[0 := "1"]}; {[0 := "0"]}]
      = Ok (s, hs)
    ∧ hs = [[]; []]
    ∧ ZeroDelay.intermediate_log s = [].
Proof.
  eexists _, _, _.
  split; [vm_compute; reflexivity|].
  split; [vm_compute; reflexivity|].
  split; [reflexivity|].
  eapply (zero_delay_no_hazards_no_intermediate_log 2 5 chain_circuit "3val"
            [{[0 := "1"]}; {[0 := "0"]}]).
  - vm_compute; reflexivity.
  - vm_compute; reflexivity.
Defined.

(** Two-List on [AND(A, NOT A)]: raising [A] makes [Y] change twice and
    return to 0, a static hazard. *)
Lemma hazards_flag_multiple_changes_witness :
  ∃ s0 s1 s' change_count,
    TwoList.simulate_vector 10 (TwoList.init hazard_circuit "2val") {[0 := "0"]}
      = Ok (s0, [])
    ∧ TwoList.simulate_vector 10 s0 {[0 := "1"]} = Ok (s', [(1, "static")])
    ∧ TwoList.simulate_core 10 s0 {[0 := "1"]} = Ok (s1, change_count)
    ∧ hazards_of 3 change_count (TwoList.net_values s0) (TwoList.net_values s')
                 [(1, "static")].
Proof.
  pose (s0 := match TwoList.simulate_vector 10 (TwoList.init hazard_circuit "2val")
                      {[0 := "0"]} with
              | Ok (s, _) => s
              | _ => TwoList.init hazard_circuit "2val"
              end).
  pose (s' := match TwoList.simulate_vector 10 s0 {[0 := "1"]} with
              | Ok (s, _) => s
              | _ => s0
              end).
  assert (TwoList.simulate_vector 10 s0 {[0 := "1"]} = Ok (s', [(1, "static")])) as H1.
  { vm_compute; reflexivity. }
  destruct (proj1 (hazards_flag_multiple_changes 10 {[0 := "1"]}) s0 s' _ H1)
    as (s1 & cc & Hcore & _ & Hhz).
  exists s0, s1, s', cc.
  split; [vm_compute; reflexivity|].
  split; [exact H1|].
  split; [exact Hcore | exact Hhz].
Defined.

Lemma hazard_vectors_binary : Forall binary_vector hazard_vectors.
Proof.
  apply Forall_cons. split; [|apply Forall_singleton].
  - unfold binary_vector. apply map_Forall_singleton. by left.
  - unfold binary_vector. apply map_Forall_singleton. by right.
Qed.

(** Single-List-Event on [AND(A, NOT A)], vectors [{A: 0}], [{A: 1}]. *)
Lemma two_valued_stays_binary_witness :
  ∃ s hs,
    single_list_event_hazard_run = Ok (s, hs)
    ∧ Forall binary (SingleListEvent.net_values s)
    ∧ binary_log (SingleListEvent.output_log s).
Proof.
  destruct single_list_event_hazard_run as [[s hs]| |] eqn:E; [|by vm_compute in E..].
  exists s, hs. split; [done|].
  exact (proj1 (proj2 (two_valued_stays_binary 10 hazard_circuit _
                         hazard_vectors_binary)) s hs E).
Defined.

(** * Properties of the builder, the calls and the runs *)

(** ** The logic primitives, input by input *)

Lemma and_stops_dec lm val :
  (if val =? LOGIC_ZERO then true else (lm =? "3val") && (val =? LOGIC_U)) = true
  ↔ and_stops lm val.
Proof.
  unfold and_stops.
  destruct (String.eqb_spec val LOGIC_ZERO), (String.eqb_spec lm "3val"),
    (String.eqb_spec val LOGIC_U); simpl; naive_solver.
Qed.

Lemma or_stops_dec lm val :
  (if val =? LOGIC_ONE then true else (lm =? "3val") && (val =? LOGIC_U)) = true
  ↔ or_stops lm val.
Proof.
  unfold or_stops.
  destruct (String.eqb_spec val LOGIC_ONE), (String.eqb_spec lm "3val"),
    (String.eqb_spec val LOGIC_U); simpl; naive_solver.
Qed.

Lemma logic_and_passes lm values : ∀ pre rest,
  (∀ j, j ∈ pre → ∃ v, values !! j = Some v ∧ ¬ and_stops lm v) →
  logic_and (pre ++ rest) values lm = logic_and rest values lm.
Proof.
  induction pre as [|j pre IH]; intros rest Hpre; [done|].
  destruct (Hpre j) as (v & Hv & Hns); [by left|].
  simpl. rewrite (proj2 (list_get_Ok values j v) Hv). simpl.
  pose proof (and_stops_dec lm v) as Hdec.
  destruct (String.eqb_spec v LOGIC_ZERO) as [->|_].
  { exfalso. apply Hns. by left. }
  destruct ((lm =? "3val") && (v =? LOGIC_U)).
  { exfalso. by apply Hns, Hdec. }
  apply IH. intros k Hk. apply Hpre. by right.
Qed.

Lemma logic_or_passes lm values : ∀ pre rest,
  (∀ j, j ∈ pre → ∃ v, values !! j = Some v ∧ ¬ or_stops lm v) →
  logic_or (pre ++ rest) values lm = logic_or rest values lm.
Proof.
  induction pre as [|j pre IH]; intros rest Hpre; [done|].
  destruct (Hpre j) as (v & Hv & Hns); [by left|].
  simpl. rewrite (proj2 (list_get_Ok values j v) Hv). simpl.
  pose proof (or_stops_dec lm v) as Hdec.
  destruct (String.eqb_spec v LOGIC_ONE) as [->|_].
  { exfalso. apply Hns. by left. }
  destruct ((lm =? "3val") && (v =? LOGIC_U)).
  { exfalso. by apply Hns, Hdec. }
  apply IH. intros k Hk. apply Hpre. by right.
Qed.

(** X1.  [logic_and] returns 1 when no input holds 0 (or, in 3-valued
    mode, U), and otherwise the value of the first input that does,
    without reading the inputs after it.  Any other value, X included,
    lets the loop pass. *)
Theorem logic_and_first_stop (lm : string) (values : list string) (pre : list nat) :
  (∀ j, j ∈ pre → ∃ w, values !! j = Some w ∧ ¬ and_stops lm w) →
  logic_and pre values lm = Ok LOGIC_ONE
  ∧ ∀ i v post, values !! i = Some v → and_stops lm v →
                logic_and (pre ++ i :: post) values lm = Ok v.
Proof.
  intros Hpre. split.
  - rewrite <- (app_nil_r pre). by rewrite logic_and_passes.
  - intros i v post Hv Hs. rewrite logic_and_passes by done.
    cbn [logic_and]. rewrite (proj2 (list_get_Ok values i v) Hv).
    cbn [mbind result_mbind result_bind].
    apply and_stops_dec in Hs.
    destruct (v =? LOGIC_ZERO) eqn:E; [by apply String.eqb_eq in E as ->|].
    rewrite Hs. apply andb_true_iff in Hs as [_ Hs].
    by apply String.eqb_eq in Hs as ->.
Qed.

Lemma logic_and_first_stop_witness :
  logic_and [0] ["X"; "U"; "0"] "3val" = Ok "1"
  ∧ logic_and [0; 1; 2; 7] ["X"; "U"; "0"] "3val" = Ok "U".
Proof.
  assert (∀ j, j ∈ [0] → ∃ w, ["X"; "U"; "0"] !! j = Some w ∧ ¬ and_stops "3val" w)
    as Hpre.
  { intros j ->%list_elem_of_singleton. exists "X". split; [done|].
    intros [?|[_ ?]]; discriminate. }
  destruct (logic_and_first_stop "3val" ["X"; "U"; "0"] [0] Hpre) as [H1 H2].
  split; [exact H1|].
  apply (H2 1 "U" [2; 7]); [reflexivity|]. right. by split.
Defined.

(** X2.  [logic_or] returns 0 when no input holds 1 (or, in 3-valued
    mode, U), and otherwise the value of the first input that does,
    without reading the inputs after it. *)
Theorem logic_or_first_stop (lm : string) (values : list string) (pre : list nat) :
  (∀ j, j ∈ pre → ∃ w, values !! j = Some w ∧ ¬ or_stops lm w) →
  logic_or pre values lm = Ok LOGIC_ZERO
  ∧ ∀ i v post, values !! i = Some v → or_stops lm v →
                logic_or (pre ++ i :: post) values lm = Ok v.
Proof.
  intros Hpre. split.
  - rewrite <- (app_nil_r pre). by rewrite logic_or_passes.
  - intros i v post Hv Hs. rewrite logic_or_passes by done.
    cbn [logic_or]. rewrite (proj2 (list_get_Ok values i v) Hv).
    cbn [mbind result_mbind result_bind].
    apply or_stops_dec in Hs.
    destruct (v =? LOGIC_ONE) eqn:E; [by apply String.eqb_eq in E as ->|].
    rewrite Hs. apply andb_true_iff in Hs as [_ Hs].
    by apply String.eqb_eq in Hs as ->.
Qed.

Lemma logic_or_first_stop_witness :
  logic_or [0] ["0"; "1"; "U"] "2val" = Ok "0"
  ∧ logic_or [0; 1; 2; 7] ["0"; "1"; "U"] "2val" = Ok "1".
Proof.
  assert (∀ j, j ∈ [0] → ∃ w, ["0"; "1"; "U"] !! j = Some w ∧ ¬ or_stops "2val" w)
    as Hpre.
  { intros j ->%list_elem_of_singleton. exists "0". split; [done|].
    intros [?|[? _]]; discriminate. }
  destruct (logic_or_first_stop "2val" ["0"; "1"; "U"] [0] Hpre) as [H1 H2].
  split; [exact H1|].
  apply (H2 1 "1" [2; 7]); [reflexivity|]. by left.
Defined.

Lemma logic_xor_loop_parity values : ∀ inputs ones,
  (∀ j, j ∈ inputs → ∃ w, values !! j = Some w ∧ w ≠ LOGIC_U) →
  logic_xor_loop inputs values ones
  = Ok (if Nat.odd (ones + ones_of inputs values) then LOGIC_ONE else LOGIC_ZERO).
Proof.
  induction inputs as [|j inputs IH]; intros ones Hin.
  - cbn [logic_xor_loop]. unfold ones_of. cbn [filter list_filter length].
    rewrite Nat.add_0_r. by rewrite <- Nat.bit0_eqb, Nat.bit0_odd.
  - destruct (Hin j) as (w & Hw & HU); [by left|].
    simpl. rewrite (proj2 (list_get_Ok values j w) Hw). simpl.
    destruct (String.eqb_spec w LOGIC_U) as [?|_]; [done|].
    assert (∀ k, k ∈ inputs → ∃ w, values !! k = Some w ∧ w ≠ LOGIC_U) as Hin'.
    { intros k Hk. apply Hin. by right. }
    unfold ones_of in *. rewrite filter_cons.
    destruct (String.eqb_spec w LOGIC_ONE) as [->|Hne].
    + rewrite decide_True by done. rewrite IH by done. simpl.
      by replace (ones + 1 + length (filter (λ i, values !! i = Some LOGIC_ONE) inputs))
        with (ones + S (length (filter (λ i, values !! i = Some LOGIC_ONE) inputs)))
        by lia.
    + rewrite decide_False by congruence. by rewrite IH.
Qed.

(** X3.  When no input holds U, [logic_xor] returns the parity of the
    number of inputs that hold 1, in either logic model: 1 for an odd
    count, 0 for an even one (values other than 0, 1 and U count as 0);
    and [logic_xnor] returns the opposite bit. *)
Theorem logic_xor_parity (lm : string) (values : list string) (inputs : list nat) :
  (∀ j, j ∈ inputs → ∃ w, values !! j = Some w ∧ w ≠ LOGIC_U) →
  logic_xor inputs values lm
  = Ok (if Nat.odd (ones_of inputs values) then LOGIC_ONE else LOGIC_ZERO)
  ∧ logic_xnor inputs values lm
    = Ok (if Nat.odd (ones_of inputs values) then LOGIC_ZERO else LOGIC_ONE).
Proof.
  intros Hin.
  assert (logic_xor inputs values lm
          = Ok (if Nat.odd (ones_of inputs values) then LOGIC_ONE else LOGIC_ZERO))
    as Hxor.
  { unfold logic_xor. by rewrite logic_xor_loop_parity. }
  split; [done|]. unfold logic_xnor. rewrite Hxor. simpl.
  destruct (Nat.odd _); simpl; unfold logic_not_single;
    by destruct (lm =? "3val").
Qed.

Lemma logic_xor_parity_witness :
  logic_xor [0; 1; 2; 0] ["1"; "X"; "1"] "3val" = Ok "1"
  ∧ logic_xnor [0; 1; 2; 0] ["1"; "X"; "1"] "3val" = Ok "0".
Proof.
  apply (logic_xor_parity "3val" ["1"; "X"; "1"] [0; 1; 2; 0]).
  intros j Hj.
  assert (j = 0 ∨ j = 1 ∨ j = 2) as Hcases.
  { repeat (apply elem_of_cons in Hj as [Hj|Hj]; [auto|]). by apply elem_of_nil in Hj. }
  destruct Hcases as [Hj'|[Hj'|Hj']]; rewrite Hj'.
  - by exists "1".
  - by exists "X".
  - by exists "1".
Defined.

(** X4.  In 3-valued mode the all-U state a constructor sets up is
    settled: every gate of a supported type with at least one input, all
    of them nets of the simulator, evaluates to U on it. *)
Theorem unknown_state_is_settled (g : Gate) (n : nat) :
  is_Some (GATE_FUNCS (gate_type g)) →
  gate_inputs g ≠ [] →
  Forall (λ i, i < n) (gate_inputs g) →
  simulate g (replicate n LOGIC_U) "3val" = Ok LOGIC_U.
Proof.
  intros [f Hf] Hne Hin.
  destruct (gate_inputs g) as [|i rest] eqn:Ei; [done|].
  apply Forall_cons in Hin as [Hi _].
  assert (list_get (replicate n LOGIC_U) i = Ok LOGIC_U) as Hget.
  { apply list_get_Ok. by apply lookup_replicate_2. }
  unfold simulate. rewrite Ei. revert Hf. unfold GATE_FUNCS.
  destruct (gate_type g =? "NOT").
  { intros _. simpl. unfold logic_not. by rewrite Hget. }
  destruct (gate_type g =? "AND"); [intros _; simpl; by rewrite Hget|].
  destruct (gate_type g =? "OR"); [intros _; simpl; by rewrite Hget|].
  destruct (gate_type g =? "NAND").
  { intros _. unfold logic_nand. simpl. by rewrite Hget. }
  destruct (gate_type g =? "NOR").
  { intros _. unfold logic_nor. simpl. by rewrite Hget. }
  destruct (gate_type g =? "XOR").
  { intros _. unfold logic_xor. simpl. by rewrite Hget. }
  destruct (gate_type g =? "XNOR"); [|done].
  intros _. unfold logic_xnor, logic_xor. simpl. by rewrite Hget.
Qed.

Lemma unknown_state_is_settled_witness :
  simulate (mkGate 0 "NOR" [2; 0] 1) ["U"; "U"; "U"] "3val" = Ok "U".
Proof.
  apply (unknown_state_is_settled (mkGate 0 "NOR" [2; 0] 1) 3).
  - by eexists.
  - done.
  - repeat constructor.
Defined.

(** ** The builder's tables *)

Lemma add_net_names_agree name c :
  names_agree c → names_agree (add_net name c).1.
Proof.
  intros [Hlen Hbij]. unfold add_net.
  destruct (net_id_map c !! name) as [id|] eqn:E; [done|].
  split; simpl.
  { rewrite length_app. simpl. lia. }
  intros n id. destruct (decide (n = name)) as [->|Hne].
  - rewrite lookup_insert_eq. split.
    + intros [= <-]. rewrite <- Hlen. by rewrite list_lookup_middle.
    + intros Hl. f_equal.
      destruct (decide (id < length (net_names c))) as [Hlt|Hge].
      * rewrite lookup_app_l in Hl by done. apply Hbij in Hl. congruence.
      * apply lookup_lt_Some in Hl. rewrite length_app in Hl. simpl in Hl. lia.
  - rewrite lookup_insert_ne by done. rewrite Hbij. split.
    + intros Hl. rewrite lookup_app_l; [done|]. by eapply lookup_lt_Some.
    + intros Hl.
      destruct (decide (id < length (net_names c))) as [Hlt|Hge].
      * by rewrite lookup_app_l in Hl.
      * assert (id = length (net_names c)) as ->.
        { apply lookup_lt_Some in Hl. rewrite length_app in Hl. simpl in Hl. lia. }
        rewrite list_lookup_middle in Hl by done. congruence.
Qed.

Lemma add_nets_names_agree names : ∀ c,
  names_agree c → names_agree (add_nets names c).1.
Proof.
  induction names as [|n names IH]; intros c Hc; simpl; [done|].
  pose proof (add_net_names_agree n c Hc) as H1.
  destruct (add_net n c) as [c1 id]. specialize (IH c1 H1).
  by destruct (add_nets names c1) as [c2 ids].
Qed.

(** The net tables after [add_gate] are those after its [add_net] calls,
    whether or not the gate is accepted. *)
Lemma add_gate_net_tables gtype input_names output_name c :
  let c2 := (add_net output_name (add_nets input_names c).1).1 in
  net_id_map (add_gate gtype input_names output_name c).1 = net_id_map c2
  ∧ net_names (add_gate gtype input_names output_name c).1 = net_names c2
  ∧ next_net_id (add_gate gtype input_names output_name c).1 = next_net_id c2
  ∧ primary_inputs (add_gate gtype input_names output_name c).1 = primary_inputs c
  ∧ primary_outputs (add_gate gtype input_names output_name c).1 = primary_outputs c.
Proof.
  cbv zeta. unfold add_gate.
  pose proof (add_nets_frame input_names c) as (_ & _ & Hi1 & Ho1).
  destruct (add_nets input_names c) as [c1 input_ids]. cbn [fst] in *.
  pose proof (add_net_frame output_name c1) as (_ & _ & Hi2 & Ho2).
  destruct (add_net output_name c1) as [c2 out_id]. simpl in *.
  destruct (Gate_init _ _ _ _); simpl; repeat split; congruence.
Qed.

Lemma built_names_agree c : built c → names_agree c.
Proof.
  induction 1 as [|name c _ IH|gtype ins out c _ IH|names c _ IH|names c _ IH].
  - split; [done|]. intros name id. simpl. by rewrite lookup_empty, lookup_nil.
  - by apply add_net_names_agree.
  - pose proof (add_gate_net_tables gtype ins out c) as (Hm & Hn & Hi & _).
    pose proof (add_net_names_agree out _ (add_nets_names_agree ins c IH)) as [Hlen Hbij].
    split; [congruence|]. intros name id. rewrite Hm, Hn. apply Hbij.
  - pose proof (add_nets_names_agree names c IH) as H.
    unfold set_primary_inputs. by destruct (add_nets names c).
  - pose proof (add_nets_names_agree names c IH) as H.
    unfold set_primary_outputs. by destruct (add_nets names c).
Qed.

(** X5.  In a circuit made with the builder the name table and the name
    list are inverse to each other: a name maps to an id exactly when
    [get_net_name] maps that id back to the name; and the ids in use are
    exactly those below [next_net_id]. *)
Theorem built_net_names_round_trip (c : Circuit) :
  built c →
  (∀ name id, net_id_map c !! name = Some id ↔ get_net_name c id = Ok name)
  ∧ (∀ id, id < next_net_id c ↔ ∃ name, get_net_name c id = Ok name).
Proof.
  intros [Hlen Hbij]%built_names_agree. unfold get_net_name. split.
  - intros name id. by rewrite Hbij, list_get_Ok.
  - intros id. rewrite <- Hlen. split.
    + intros [name Hn]%lookup_lt_is_Some_2. exists name. by apply list_get_Ok.
    + intros [name Hn%list_get_Ok]. by eapply lookup_lt_Some.
Qed.

Lemma built_net_names_round_trip_witness :
  (∀ name id, net_id_map hazard_circuit !! name = Some id
              ↔ get_net_name hazard_circuit id = Ok name)
  ∧ (∀ id, id < next_net_id hazard_circuit
           ↔ ∃ name, get_net_name hazard_circuit id = Ok name).
Proof.
  apply built_net_names_round_trip.
  unfold hazard_circuit. do 2 apply built_add_gate.
  apply built_set_primary_outputs, built_set_primary_inputs, built_init.
Defined.

(** X6.  On a circuit made with the builder, [add_net] returns an id
    that [get_net_name] maps back to the name, the id lies below the new
    [next_net_id], and every id that had a name keeps it. *)
Theorem add_net_round_trip (c : Circuit) (name : string) :
  built c →
  get_net_name (add_net name c).1 (add_net name c).2 = Ok name
  ∧ (add_net name c).2 < next_net_id (add_net name c).1
  ∧ ∀ id n, get_net_name c id = Ok n → get_net_name (add_net name c).1 id = Ok n.
Proof.
  intros Hc. pose proof (built_names_agree c Hc) as [Hlen Hbij].
  pose proof (add_net_names_agree name c (conj Hlen Hbij)) as [Hlen' Hbij'].
  unfold get_net_name.
  assert (net_id_map (add_net name c).1 !! name = Some (add_net name c).2) as Hid.
  { unfold add_net. destruct (net_id_map c !! name) eqn:E; simpl; [done|].
    by rewrite lookup_insert_eq. }
  split; [by apply list_get_Ok, Hbij'|]. split.
  - rewrite <- Hlen'. eapply lookup_lt_Some. by apply Hbij'.
  - intros id n Hn%list_get_Ok. apply list_get_Ok.
    unfold add_net. destruct (net_id_map c !! name); simpl; [done|].
    rewrite lookup_app_l; [done|]. by eapply lookup_lt_Some.
Qed.

Lemma add_net_round_trip_witness :
  get_net_name (add_net "Q" chain_circuit).1 (add_net "Q" chain_circuit).2 = Ok "Q"
  ∧ (add_net "Q" chain_circuit).2 < next_net_id (add_net "Q" chain_circuit).1
  ∧ ∀ id n, get_net_name chain_circuit id = Ok n →
            get_net_name (add_net "Q" chain_circuit).1 id = Ok n.
Proof.
  apply add_net_round_trip.
  unfold chain_circuit. do 2 apply built_add_gate.
  apply built_set_primary_outputs, built_set_primary_inputs, built_init.
Defined.

(** X7.  [add_net] is idempotent on every circuit: a second call with
    the same name returns the same id and leaves the circuit as the
    first call left it. *)
Theorem add_net_idempotent (c : Circuit) (name : string) :
  add_net name (add_net name c).1 = ((add_net name c).1, (add_net name c).2).
Proof.
  unfold add_net at 2 3 4.
  destruct (net_id_map c !! name) as [id|] eqn:E; simpl.
  - unfold add_net. by rewrite E.
  - unfold add_net. simpl. by rewrite lookup_insert_eq.
Qed.

(** ** The builder's gates *)

(** What [add_gate] does to the gate list and the fanout index: nothing
    when it raises, and otherwise one gate more, with the next gate id,
    the ids of the named nets and a supported type, entered in the
    fanout of each of its inputs. *)
Lemma add_gate_gates gtype input_names output_name c :
  (gates (add_gate gtype input_names output_name c).1 = gates c
   ∧ fanout (add_gate gtype input_names output_name c).1 = fanout c)
  ∨ ∃ g,
      (add_gate gtype input_names output_name c).2 = Ok g
      ∧ gates (add_gate gtype input_names output_name c).1 = gates c ++ [g]
      ∧ fanout (add_gate gtype input_names output_name c).1
        = fanout_append (gate_inputs g) g (fanout c)
      ∧ gate_id g = length (gates c)
      ∧ gate_inputs g = (add_nets input_names c).2
      ∧ gate_output g = (add_net output_name (add_nets input_names c).1).2
      ∧ is_Some (GATE_FUNCS (gate_type g)).
Proof.
  unfold add_gate.
  pose proof (add_nets_frame input_names c) as (Hg1 & Hf1 & _).
  destruct (add_nets input_names c) as [c1 input_ids]. cbn [fst snd] in *.
  pose proof (add_net_frame output_name c1) as (Hg2 & Hf2 & _).
  destruct (add_net output_name c1) as [c2 out_id]. cbn [fst snd] in *.
  unfold Gate_init. destruct (GATE_FUNCS (upper gtype)) as [f|] eqn:Ef; simpl.
  - right. eexists. split; [done|]. simpl. rewrite Hg2, Hg1, Hf2, Hf1.
    repeat split; try done.
  - left. split; congruence.
Qed.

Lemma add_net_next_le name c : (next_net_id c <= next_net_id (add_net name c).1)%nat.
Proof. unfold add_net. destruct (net_id_map c !! name); simpl; lia. Qed.

Lemma add_nets_next_le names : ∀ c,
  (next_net_id c <= next_net_id (add_nets names c).1)%nat.
Proof.
  induction names as [|n names IH]; intros c; simpl; [done|].
  pose proof (add_net_next_le n c) as H1.
  destruct (add_net n c) as [c1 id]. specialize (IH c1).
  destruct (add_nets names c1) as [c2 ids]. simpl in *. lia.
Qed.

Lemma add_net_id_lt name c :
  names_agree c → (add_net name c).2 < next_net_id (add_net name c).1.
Proof.
  intros [Hlen Hbij]. unfold add_net.
  destruct (net_id_map c !! name) as [id|] eqn:E; simpl; [|lia].
  rewrite <- Hlen. eapply lookup_lt_Some. by apply Hbij.
Qed.

Lemma add_nets_ids_lt names : ∀ c,
  names_agree c →
  Forall (λ id, id < next_net_id (add_nets names c).1) (add_nets names c).2.
Proof.
  induction names as [|n names IH]; intros c Hc; simpl; [constructor|].
  pose proof (add_net_id_lt n c Hc) as Hid.
  pose proof (add_net_names_agree n c Hc) as Hc1.
  destruct (add_net n c) as [c1 id]. specialize (IH c1 Hc1).
  pose proof (add_nets_next_le names c1) as Hle.
  destruct (add_nets names c1) as [c2 ids]. simpl in *.
  constructor; [lia | done].
Qed.

Lemma built_gate_id_index (c : Circuit) :
  built c → ∀ i g, gates c !! i = Some g → gate_id g = i.
Proof.
  induction 1 as [|name c _ IH|gtype ins out c _ IH|names c _ IH|names c _ IH];
    intros i g.
  - simpl. by rewrite lookup_nil.
  - rewrite (proj1 (add_net_frame name c)). apply IH.
  - destruct (add_gate_gates gtype ins out c)
      as [[-> _]|(g' & _ & -> & _ & Hid & _)]; [apply IH|].
    intros Hl. destruct (decide (i < length (gates c))) as [Hlt|Hge].
    + rewrite lookup_app_l in Hl by done. by apply IH.
    + assert (i = length (gates c)) as ->.
      { apply lookup_lt_Some in Hl. rewrite length_app in Hl. simpl in Hl. lia. }
      rewrite list_lookup_middle in Hl by done. congruence.
  - unfold set_primary_inputs.
    pose proof (add_nets_frame names c) as (Hg & _).
    destruct (add_nets names c) as [c1 ids]. simpl in *. rewrite Hg. apply IH.
  - unfold set_primary_outputs.
    pose proof (add_nets_frame names c) as (Hg & _).
    destruct (add_nets names c) as [c1 ids]. simpl in *. rewrite Hg. apply IH.
Qed.

Lemma built_gate_id_unique (c : Circuit) :
  built c → ∀ g h, g ∈ gates c → h ∈ gates c → gate_id g = gate_id h → g = h.
Proof.
  intros Hb g h [i Hi]%list_elem_of_lookup [j Hj]%list_elem_of_lookup Hid.
  pose proof (built_gate_id_index c Hb i g Hi) as Hgi.
  pose proof (built_gate_id_index c Hb j h Hj) as Hhj.
  assert (i = j) as -> by congruence. congruence.
Qed.

(** X8.  In a circuit made with the builder the id of a gate is its
    position in the gate list, so no two gates of the circuit share an
    id. *)
Theorem built_gate_ids (c : Circuit) :
  built c →
  (∀ i g, gates c !! i = Some g → gate_id g = i)
  ∧ (∀ g h, g ∈ gates c → h ∈ gates c → gate_id g = gate_id h → g = h).
Proof.
  intros Hb. split; [by apply built_gate_id_index | by apply built_gate_id_unique].
Qed.

Lemma built_gate_ids_witness :
  (∀ i g, gates hazard_circuit !! i = Some g → gate_id g = i)
  ∧ (∀ g h, g ∈ gates hazard_circuit → h ∈ gates hazard_circuit →
            gate_id g = gate_id h → g = h).
Proof.
  apply built_gate_ids.
  unfold hazard_circuit. do 2 apply built_add_gate.
  apply built_set_primary_outputs, built_set_primary_inputs, built_init.
Defined.

Lemma nets_in_range_mono c c' :
  (next_net_id c <= next_net_id c')%nat →
  primary_inputs c' = primary_inputs c →
  primary_outputs c' = primary_outputs c →
  gates c' = gates c →
  nets_in_range c → nets_in_range c'.
Proof.
  intros Hle Hi Ho Hg (H1 & H2 & H3). unfold nets_in_range. rewrite Hi, Ho, Hg.
  split; [|split].
  - eapply Forall_impl; [done|]. simpl. lia.
  - eapply Forall_impl; [done|]. simpl. lia.
  - eapply Forall_impl; [done|]. simpl. intros g (Ha & Hb & Hc).
    split; [|split; [lia|done]]. eapply Forall_impl; [done|]. simpl. lia.
Qed.

Lemma built_in_range (c : Circuit) : built c → nets_in_range c.
Proof.
  induction 1 as [|name c Hb IH|gtype ins out c Hb IH|names c Hb IH|names c Hb IH].
  - by repeat split.
  - pose proof (add_net_frame name c) as (Hg & _ & Hi & Ho).
    eapply nets_in_range_mono; [apply add_net_next_le|done..].
  - pose proof (built_names_agree c Hb) as Hc.
    pose proof (add_gate_net_tables gtype ins out c) as (_ & _ & Hn & Hi & Ho).
    cbv zeta in Hn.
    pose proof (add_nets_names_agree ins c Hc) as Hc1.
    pose proof (add_nets_ids_lt ins c Hc) as Hins.
    pose proof (add_net_id_lt out _ Hc1) as Hout.
    pose proof (add_net_next_le out (add_nets ins c).1) as Hle2.
    pose proof (add_nets_next_le ins c) as Hle1.
    destruct IH as (H1 & H2 & H3).
    assert (next_net_id c <= next_net_id (add_gate gtype ins out c).1)%nat as Hle by lia.
    unfold nets_in_range. rewrite Hi, Ho. split; [|split].
    + eapply Forall_impl; [done|]. simpl. lia.
    + eapply Forall_impl; [done|]. simpl. lia.
    + assert (Forall (λ g, Forall (λ net, net < next_net_id (add_gate gtype ins out c).1)
                                  (gate_inputs g)
                           ∧ gate_output g < next_net_id (add_gate gtype ins out c).1
                           ∧ is_Some (GATE_FUNCS (gate_type g))) (gates c)) as Hold.
      { eapply Forall_impl; [done|]. simpl. intros g (Ha & Hb' & Hc').
        split; [|split; [lia|done]]. eapply Forall_impl; [done|]. simpl. lia. }
      destruct (add_gate_gates gtype ins out c)
        as [[-> _]|(g' & _ & -> & _ & _ & Hgi & Hgo & Hty)]; [done|].
      apply Forall_app. split; [done|]. apply Forall_singleton.
      rewrite Hgi, Hgo, Hn. split; [|split; [lia|done]].
      eapply Forall_impl; [done|]. simpl. lia.
  - pose proof (built_names_agree c Hb) as Hc.
    pose proof (add_nets_ids_lt names c Hc) as Hids.
    pose proof (add_nets_next_le names c) as Hle.
    pose proof (add_nets_frame names c) as (Hg & _ & _ & Ho).
    unfold set_primary_inputs. destruct (add_nets names c) as [c1 ids].
    simpl in *. destruct IH as (H1 & H2 & H3).
    unfold nets_in_range. simpl. rewrite Ho, Hg. split; [done|]. split.
    + eapply Forall_impl; [done|]. simpl. lia.
    + eapply Forall_impl; [done|]. simpl. intros g (Ha & Hb' & Hc').
      split; [|split; [lia|done]]. eapply Forall_impl; [done|]. simpl. lia.
  - pose proof (built_names_agree c Hb) as Hc.
    pose proof (add_nets_ids_lt names c Hc) as Hids.
    pose proof (add_nets_next_le names c) as Hle.
    pose proof (add_nets_frame names c) as (Hg & _ & Hi & _).
    unfold set_primary_outputs. destruct (add_nets names c) as [c1 ids].
    simpl in *. destruct IH as (H1 & H2 & H3).
    unfold nets_in_range. simpl. rewrite Hi, Hg. split; [|split; [done|]].
    + eapply Forall_impl; [done|]. simpl. lia.
    + eapply Forall_impl; [done|]. simpl. intros g (Ha & Hb' & Hc').
      split; [|split; [lia|done]]. eapply Forall_impl; [done|]. simpl. lia.
Qed.

(** X9.  In a circuit made with the builder every net id the circuit
    mentions has a name: [get_net_name] returns on every primary input,
    every primary output and every input and output of every gate; and
    every gate has one of the seven supported types. *)
Theorem built_nets_in_range (c : Circuit) :
  built c →
  (∀ net, net ∈ primary_inputs c ++ primary_outputs c →
          ∃ name, get_net_name c net = Ok name)
  ∧ ∀ g, g ∈ gates c →
         is_Some (GATE_FUNCS (gate_type g))
         ∧ ∀ net, net ∈ gate_output g :: gate_inputs g →
                  ∃ name, get_net_name c net = Ok name.
Proof.
  intros Hb. destruct (built_in_range c Hb) as (Hpi & Hpo & Hg).
  destruct (built_names_agree c Hb) as [Hlen _].
  assert (∀ net, net < next_net_id c → ∃ name, get_net_name c net = Ok name) as Hname.
  { intros net Hnet. unfold get_net_name.
    destruct (lookup_lt_is_Some_2 (net_names c) net) as [name Hn]; [lia|].
    exists name. by apply list_get_Ok. }
  split.
  - intros net [Hin|Hin]%elem_of_app; apply Hname.
    + by eapply Forall_forall in Hpi.
    + by eapply Forall_forall in Hpo.
  - intros g Hin. eapply Forall_forall in Hg as (Hi & Ho & Hty); [|done].
    split; [done|]. intros net [->|Hnet]%elem_of_cons; apply Hname; [done|].
    by eapply Forall_forall in Hi.
Qed.

Lemma built_nets_in_range_witness :
  (∀ net, net ∈ primary_inputs loop_circuit ++ primary_outputs loop_circuit →
          ∃ name, get_net_name loop_circuit net = Ok name)
  ∧ ∀ g, g ∈ gates loop_circuit →
         is_Some (GATE_FUNCS (gate_type g))
         ∧ ∀ net, net ∈ gate_output g :: gate_inputs g →
                  ∃ name, get_net_name loop_circuit net = Ok name.
Proof.
  apply built_nets_in_range.
  unfold loop_circuit. do 2 apply built_add_gate.
  apply built_set_primary_outputs, built_set_primary_inputs, built_init.
Defined.

(** ** The fanout index *)

Lemma fanout_append_lookup gate net : ∀ input_ids fo,
  default [] (fanout_append input_ids gate fo !! net)
  = default [] (fo !! net) ++ ((λ _, gate) <$> filter (λ n, n = net) input_ids).
Proof.
  induction input_ids as [|a ids IH]; intros fo; simpl.
  - by rewrite app_nil_r.
  - rewrite IH, filter_cons. destruct (decide (a = net)) as [->|Hne].
    + rewrite lookup_insert_eq. simpl. by rewrite <- app_assoc.
    + by rewrite lookup_insert_ne.
Qed.

Lemma built_fanout_readers c : built c → ∀ net, fanout_of c net = readers c net.
Proof.
  intros Hb net.
  induction Hb as [|name c _ IH|gtype ins out c _ IH|names c _ IH|names c _ IH].
  - done.
  - pose proof (add_net_frame name c) as (Hg & Hf & _).
    unfold fanout_of, readers. by rewrite Hg, Hf.
  - unfold fanout_of, readers in *.
    destruct (add_gate_gates gtype ins out c)
      as [[-> ->]|(g' & _ & -> & -> & _)]; [done|].
    rewrite fanout_append_lookup, IH, flat_map_app. simpl.
    by rewrite app_nil_r.
  - pose proof (add_nets_frame names c) as (Hg & Hf & _).
    unfold set_primary_inputs, fanout_of, readers in *.
    destruct (add_nets names c) as [c1 ids]. simpl in *. by rewrite Hg, Hf.
  - pose proof (add_nets_frame names c) as (Hg & Hf & _).
    unfold set_primary_outputs, fanout_of, readers in *.
    destruct (add_nets names c) as [c1 ids]. simpl in *. by rewrite Hg, Hf.
Qed.

Lemma elem_of_readers c net g :
  g ∈ readers c net ↔ g ∈ gates c ∧ net ∈ gate_inputs g.
Proof.
  unfold readers. rewrite list_elem_of_In, in_flat_map. split.
  - intros (h & Hh%list_elem_of_In & Hin%list_elem_of_In).
    apply list_elem_of_fmap in Hin as (n & -> & Hn).
    apply list_elem_of_filter in Hn as [-> Hn]. done.
  - intros [Hg Hn]. exists g. split; [by apply list_elem_of_In|].
    apply list_elem_of_In, list_elem_of_fmap. exists net. split; [done|].
    by apply list_elem_of_filter.
Qed.

(** X10.  In a circuit made with the builder the fanout index agrees
    with the gate list: the fanout of a net lists the gates that read
    it, in gate order, once per occurrence of the net among a gate's
    inputs; so a gate is in the fanout of a net exactly when it is a gate
    of the circuit and the net is one of its inputs. *)
Theorem built_fanout_agrees (c : Circuit) :
  built c →
  ∀ net, fanout_of c net = readers c net
         ∧ ∀ g, g ∈ fanout_of c net ↔ g ∈ gates c ∧ net ∈ gate_inputs g.
Proof.
  intros Hb net. split; [by apply built_fanout_readers|].
  intros g. rewrite built_fanout_readers by done. apply elem_of_readers.
Qed.

Lemma built_fanout_agrees_witness :
  fanout_of hazard_circuit 0 = readers hazard_circuit 0
  ∧ ∀ g, g ∈ fanout_of hazard_circuit 0
         ↔ g ∈ gates hazard_circuit ∧ 0 ∈ gate_inputs g.
Proof.
  apply built_fanout_agrees.
  unfold hazard_circuit. do 2 apply built_add_gate.
  apply built_set_primary_outputs, built_set_primary_inputs, built_init.
Defined.

(** ** Gate types *)

Lemma upper_ascii_idempotent a : upper_ascii (upper_ascii a) = upper_ascii a.
Proof. destruct a as [[] [] [] [] [] [] [] []]; reflexivity. Qed.

Lemma upper_idempotent s : upper (upper s) = upper s.
Proof.
  induction s as [|a s IH]; simpl; [done|].
  by rewrite upper_ascii_idempotent, IH.
Qed.

(** X11.  [add_gate] reads the gate type without regard to case: a call
    with any spelling of a type has the outcome, and leaves the circuit,
    of the call with the upper-case spelling. *)
Theorem add_gate_case_insensitive (gtype : string) (input_names : list string)
    (output_name : string) (c : Circuit) :
  add_gate gtype input_names output_name c
  = add_gate (upper gtype) input_names output_name c.
Proof.
  unfold add_gate.
  destruct (add_nets input_names c) as [c1 input_ids].
  destruct (add_net output_name c1) as [c2 out_id].
  unfold Gate_init. by rewrite upper_idempotent.
Qed.

(** ** What a call leaves alone *)

Lemma commit_length net val nv cc nv' cc' :
  commit net val nv cc = Ok (nv', cc') → length nv' = length nv.
Proof.
  unfold commit. intros H. inv_ok. destruct (negb _); inv_ok; [|done].
  by rewrite length_insert.
Qed.

(** *** Two-List *)

Lemma two_list_drain_length c : ∀ evq nv cc gq nv' cc' gq',
  TwoList.drain_events c evq nv cc gq = Ok (nv', cc', gq') →
  length nv' = length nv.
Proof.
  induction evq as [|ev evq IH]; intros nv cc gq nv' cc' gq' H; simpl in H; inv_ok;
    [done|].
  match goal with Hc : commit _ _ _ _ = _ |- _ => apply commit_length in Hc end.
  apply IH in H. congruence.
Qed.

Lemma two_list_gate_phase_count lm : ∀ gq nv cnt evq cnt' evq',
  TwoList.gate_phase lm gq nv cnt evq = Ok (cnt', evq') → cnt' = cnt + length gq.
Proof.
  induction gq as [|g gq IH]; intros nv cnt evq cnt' evq' H; simpl in H; inv_ok;
    [simpl; lia|].
  apply IH in H. simpl. lia.
Qed.

Lemma two_list_settle_effects fuel : ∀ s evq cc t s' cc',
  TwoList.settle fuel s evq cc t = Ok (s', cc') →
  TwoList.output_log s' = TwoList.output_log s
  ∧ TwoList.gate_sim_count s <= TwoList.gate_sim_count s'
  ∧ length (TwoList.net_values s') = length (TwoList.net_values s)
  ∧ TwoList.net_mark s' = TwoList.net_mark s.
Proof.
  induction fuel as [|fuel IH]; intros s evq cc t s' cc' H;
    destruct evq as [|ev evq]; cbn [TwoList.settle] in H; inv_ok; try done.
  match goal with Hd : TwoList.drain_events _ _ _ _ _ = _ |- _ =>
    apply two_list_drain_length in Hd end.
  destruct l as [|g gq]; inv_ok.
  - apply IH in H as (? & ? & ? & ?). simpl in *. repeat split; congruence || lia.
  - match goal with Hg : TwoList.gate_phase _ _ _ _ _ = _ |- _ =>
      apply two_list_gate_phase_count in Hg end.
    apply IH in H as (? & ? & ? & ?). simpl in *. repeat split; congruence || lia.
Qed.

(** *** Single-List (event) *)

Lemma single_list_event_fanout_count lm : ∀ fo nv cnt evq cnt' evq',
  SingleListEvent.simulate_fanout lm fo nv cnt evq = Ok (cnt', evq') →
  cnt' = cnt + length fo.
Proof.
  induction fo as [|g fo IH]; intros nv cnt evq cnt' evq' H; simpl in H; inv_ok;
    [simpl; lia|].
  apply IH in H. simpl. lia.
Qed.

Lemma single_list_event_process_effects fuel : ∀ s evq cc t s' cc',
  SingleListEvent.process fuel s evq cc t = Ok (s', cc') →
  SingleListEvent.output_log s' = SingleListEvent.output_log s
  ∧ SingleListEvent.gate_sim_count s <= SingleListEvent.gate_sim_count s'
  ∧ length (SingleListEvent.net_values s') = length (SingleListEvent.net_values s)
  ∧ SingleListEvent.net_mark s' = SingleListEvent.net_mark s.
Proof.
  induction fuel as [|fuel IH]; intros s evq cc t s' cc' H;
    destruct evq as [|e evq]; cbn [SingleListEvent.process] in H; inv_ok; try done.
  destruct e as [ev|]; inv_ok.
  - match goal with Hc : commit _ _ _ _ = _ |- _ => apply commit_length in Hc end.
    match goal with Hf : SingleListEvent.simulate_fanout _ _ _ _ _ = _ |- _ =>
      apply single_list_event_fanout_count in Hf end.
    apply IH in H as (? & ? & ? & ?). simpl in *. repeat split; congruence || lia.
  - apply IH in H as (? & ? & ? & ?). simpl in *. repeat split; congruence || lia.
Qed.

(** *** Zero-Delay *)

Lemma zero_delay_scan_length c levels vec : ∀ pis nv lq nv' lq',
  ZeroDelay.scan_inputs c levels pis vec nv lq = Ok (nv', lq') →
  length nv' = length nv.
Proof.
  induction pis as [|net pis IH]; intros nv lq nv' lq' H; simpl in H; inv_ok; [done|].
  destruct (negb _); inv_ok; [|by eauto].
  apply IH in H. by rewrite length_insert in H.
Qed.

Lemma zero_delay_drain_effects fuel c lm levels lvl : ∀ st st',
  ZeroDelay.drain_level fuel c lm levels lvl st = Ok st' →
  ZeroDelay.sw_count st <= ZeroDelay.sw_count st'
  ∧ length (ZeroDelay.sw_values st') = length (ZeroDelay.sw_values st).
Proof.
  induction fuel as [|fuel IH]; intros st st' H;
    cbn [ZeroDelay.drain_level] in H; inv_ok.
  - match goal with q : list Gate |- _ => destruct q; inv_ok end. done.
  - match goal with q : list Gate |- _ => destruct q as [|g q]; inv_ok end; [done|].
    destruct (negb _); inv_ok.
    + apply IH in H as [? ?]. simpl in *. rewrite length_insert in *. split; lia.
    + apply IH in H as [? ?]. simpl in *. split; lia.
Qed.

Lemma zero_delay_sweep_effects fuel c lm levels : ∀ lvls st st',
  ZeroDelay.sweep_levels fuel c lm levels lvls st = Ok st' →
  ZeroDelay.sw_count st <= ZeroDelay.sw_count st'
  ∧ length (ZeroDelay.sw_values st') = length (ZeroDelay.sw_values st).
Proof.
  induction lvls as [|lvl lvls IH]; intros st st' H; simpl in H; inv_ok; [done|].
  match goal with Hd : ZeroDelay.drain_level _ _ _ _ _ _ = _ |- _ =>
    apply zero_delay_drain_effects in Hd as [? ?] end.
  apply IH in H as [? ?]. split; [lia | congruence].
Qed.

Lemma zero_delay_passes_effects fuel c lm levels max_level : ∀ remaining st st',
  ZeroDelay.passes remaining fuel c lm levels max_level st = Ok st' →
  ZeroDelay.sw_count st <= ZeroDelay.sw_count st'
  ∧ length (ZeroDelay.sw_values st') = length (ZeroDelay.sw_values st).
Proof.
  induction remaining as [|remaining IH]; intros st st' H;
    cbn [ZeroDelay.passes] in H; inv_ok; [done|].
  destruct (ZeroDelay.sw_iteration st); inv_ok; [|done].
  match goal with Hs : ZeroDelay.sweep_levels _ _ _ _ _ _ = _ |- _ =>
    apply zero_delay_sweep_effects in Hs as [? ?] end.
  apply IH in H as [? ?]. simpl in *. split; [lia | congruence].
Qed.

(** *** Threaded *)

Lemma threaded_process_effects fuel : ∀ s cc s' cc',
  Threaded.process fuel s cc = Ok (s', cc') →
  Threaded.output_log s' = Threaded.output_log s
  ∧ Threaded.gate_sim_count s <= Threaded.gate_sim_count s'
  ∧ length (Threaded.net_values s') = length (Threaded.net_values s).
Proof.
  induction fuel as [|fuel IH]; intros s cc s' cc' H; cbn [Threaded.process] in H;
    destruct (Threaded.event_stack s) as [|ev es] eqn:Ee;
    destruct (Threaded.gate_stack s) as [|g gs] eqn:Eg; inv_ok; try done.
  - apply IH in H as (? & ? & ?). simpl in *. repeat split; congruence || lia.
  - match goal with Hc : commit _ _ _ _ = _ |- _ => apply commit_length in Hc end.
    apply IH in H as (? & ? & ?). simpl in *. repeat split; congruence || lia.
  - match goal with Hc : commit _ _ _ _ = _ |- _ => apply commit_length in Hc end.
    apply IH in H as (? & ? & ?). simpl in *. repeat split; congruence || lia.
Qed.

(** ** What a returning call changes *)

Lemma two_list_call_effects fuel s vec s' hazards :
  TwoList.simulate_vector fuel s vec = Ok (s', hazards) →
  (∃ snap, snapshot (primary_outputs (TwoList.circuit s)) (TwoList.net_values s')
           = Ok snap
           ∧ TwoList.output_log s' = TwoList.output_log s ++ [snap])
  ∧ TwoList.gate_sim_count s <= TwoList.gate_sim_count s'
  ∧ length (TwoList.net_values s') = length (TwoList.net_values s)
  ∧ TwoList.num_nets s' = TwoList.num_nets s
  ∧ TwoList.circuit s' = TwoList.circuit s
  ∧ TwoList.logic_model s' = TwoList.logic_model s.
Proof.
  unfold TwoList.simulate_vector. intros H.
  apply bind_Ok in H as ([s1 cc] & Hcore & H). inv_ok.
  unfold TwoList.simulate_core in Hcore. inv_ok.
  pose proof (two_list_settle_frame _ _ _ _ _ _ _ Hcore) as (Hn & Hc & Hlm).
  pose proof (two_list_settle_effects _ _ _ _ _ _ _ Hcore) as (Hlog & Hcnt & Hlen & _).
  simpl in *. split; [|done].
  eexists. split; [by rewrite <- Hc|]. by rewrite Hlog.
Qed.

Lemma single_list_event_call_effects fuel s vec s' hazards :
  SingleListEvent.simulate_vector fuel s vec = Ok (s', hazards) →
  (∃ snap, snapshot (primary_outputs (SingleListEvent.circuit s))
                    (SingleListEvent.net_values s') = Ok snap
           ∧ SingleListEvent.output_log s' = SingleListEvent.output_log s ++ [snap])
  ∧ SingleListEvent.gate_sim_count s <= SingleListEvent.gate_sim_count s'
  ∧ length (SingleListEvent.net_values s') = length (SingleListEvent.net_values s)
  ∧ SingleListEvent.num_nets s' = SingleListEvent.num_nets s
  ∧ SingleListEvent.circuit s' = SingleListEvent.circuit s
  ∧ SingleListEvent.logic_model s' = SingleListEvent.logic_model s.
Proof.
  unfold SingleListEvent.simulate_vector. intros H.
  apply bind_Ok in H as ([s1 cc] & Hcore & H). inv_ok.
  unfold SingleListEvent.simulate_core in Hcore. inv_ok.
  pose proof (single_list_event_process_frame _ _ _ _ _ _ _ Hcore) as (Hn & Hc & Hlm).
  pose proof (single_list_event_process_effects _ _ _ _ _ _ _ Hcore)
    as (Hlog & Hcnt & Hlen & _).
  simpl in *. split; [|done].
  eexists. split; [by rewrite <- Hc|]. by rewrite Hlog.
Qed.

Lemma zero_delay_call_effects fuel s vec s' hazards :
  ZeroDelay.simulate_vector fuel s vec = Ok (s', hazards) →
  (∃ snap, snapshot (primary_outputs (ZeroDelay.circuit s)) (ZeroDelay.net_values s')
           = Ok snap
           ∧ ZeroDelay.output_log s' = ZeroDelay.output_log s ++ [snap])
  ∧ ZeroDelay.gate_sim_count s <= ZeroDelay.gate_sim_count s'
  ∧ length (ZeroDelay.net_values s') = length (ZeroDelay.net_values s)
  ∧ ZeroDelay.num_nets s' = ZeroDelay.num_nets s
  ∧ ZeroDelay.circuit s' = ZeroDelay.circuit s
  ∧ ZeroDelay.logic_model s' = ZeroDelay.logic_model s.
Proof.
  unfold ZeroDelay.simulate_vector. intros H. inv_ok.
  match goal with Hs : ZeroDelay.scan_inputs _ _ _ _ _ _ = _ |- _ =>
    apply zero_delay_scan_length in Hs end.
  match goal with Hp : ZeroDelay.passes _ _ _ _ _ _ _ = _ |- _ =>
    apply zero_delay_passes_effects in Hp as [? ?] end.
  simpl in *. split; [by eexists|]. repeat split; congruence || lia.
Qed.

Lemma threaded_call_effects fuel s vec s' hazards :
  Threaded.simulate_vector fuel s vec = Ok (s', hazards) →
  (∃ snap, snapshot (primary_outputs (Threaded.circuit s)) (Threaded.net_values s')
           = Ok snap
           ∧ Threaded.output_log s' = Threaded.output_log s ++ [snap])
  ∧ Threaded.gate_sim_count s <= Threaded.gate_sim_count s'
  ∧ length (Threaded.net_values s') = length (Threaded.net_values s)
  ∧ Threaded.num_nets s' = Threaded.num_nets s
  ∧ Threaded.circuit s' = Threaded.circuit s
  ∧ Threaded.logic_model s' = Threaded.logic_model s.
Proof.
  unfold Threaded.simulate_vector. intros H.
  apply bind_Ok in H as ([s1 cc] & Hcore & H). inv_ok.
  unfold Threaded.simulate_core in Hcore. inv_ok.
  pose proof (threaded_process_frame _ _ _ _ _ Hcore) as (Hn & Hc & Hlm & _).
  pose proof (threaded_process_effects _ _ _ _ _ Hcore) as (Hlog & Hcnt & Hlen).
  simpl in *. split; [|done].
  eexists. split; [by rewrite <- Hc|]. by rewrite Hlog.
Qed.

(** X12.  In the Two-List, Single-List-Event, Zero-Delay and Threaded
    simulators a returning [simulate_vector]
    call appends exactly one entry to [output_log] and keeps the earlier
    entries: the new entry maps the primary outputs to the net values
    the call ends with. *)
Theorem call_logs_final_outputs (fuel : nat) (vec : gmap nat string) :
  (∀ s s' hazards,
     TwoList.simulate_vector fuel s vec = Ok (s', hazards) →
     ∃ snap, snapshot (primary_outputs (TwoList.circuit s)) (TwoList.net_values s')
             = Ok snap
             ∧ TwoList.output_log s' = TwoList.output_log s ++ [snap])
  ∧ (∀ s s' hazards,
     SingleListEvent.simulate_vector fuel s vec = Ok (s', hazards) →
     ∃ snap, snapshot (primary_outputs (SingleListEvent.circuit s))
                      (SingleListEvent.net_values s') = Ok snap
             ∧ SingleListEvent.output_log s' = SingleListEvent.output_log s ++ [snap])
  ∧ (∀ s s' hazards,
     ZeroDelay.simulate_vector fuel s vec = Ok (s', hazards) →
     ∃ snap, snapshot (primary_outputs (ZeroDelay.circuit s)) (ZeroDelay.net_values s')
             = Ok snap
             ∧ ZeroDelay.output_log s' = ZeroDelay.output_log s ++ [snap])
  ∧ (∀ s s' hazards,
     Threaded.simulate_vector fuel s vec = Ok (s', hazards) →
     ∃ snap, snapshot (primary_outputs (Threaded.circuit s)) (Threaded.net_values s')
             = Ok snap
             ∧ Threaded.output_log s' = Threaded.output_log s ++ [snap]).
Proof.
  split; [|split; [|split]]; intros s s' hazards H.
  - by apply two_list_call_effects in H as [? _].
  - by apply single_list_event_call_effects in H as [? _].
  - by apply zero_delay_call_effects in H as [? _].
  - by apply threaded_call_effects in H as [? _].
Qed.

Lemma same_circuit_eq (c c' : Circuit) : c' = c → same_circuit c c'.
Proof. intros ->. by repeat split. Qed.

(** X13.  In the Two-List, Single-List-Event, Zero-Delay and Threaded
    simulators a returning [simulate_vector]
    call never lowers [gate_sim_count], keeps the length of
    [net_values], and leaves [num_nets] and the logic model as they
    were; of the circuit it leaves the nets, the gates, the primary
    inputs and outputs and the fanout read for every net as they
    were. *)
Theorem call_keeps_shape (fuel : nat) (vec : gmap nat string) :
  (∀ s s' hazards,
     TwoList.simulate_vector fuel s vec = Ok (s', hazards) →
     TwoList.gate_sim_count s <= TwoList.gate_sim_count s'
     ∧ length (TwoList.net_values s') = length (TwoList.net_values s)
     ∧ TwoList.num_nets s' = TwoList.num_nets s
     ∧ same_circuit (TwoList.circuit s) (TwoList.circuit s')
     ∧ TwoList.logic_model s' = TwoList.logic_model s)
  ∧ (∀ s s' hazards,
     SingleListEvent.simulate_vector fuel s vec = Ok (s', hazards) →
     SingleListEvent.gate_sim_count s <= SingleListEvent.gate_sim_count s'
     ∧ length (SingleListEvent.net_values s') = length (SingleListEvent.net_values s)
     ∧ SingleListEvent.num_nets s' = SingleListEvent.num_nets s
     ∧ same_circuit (SingleListEvent.circuit s) (SingleListEvent.circuit s')
     ∧ SingleListEvent.logic_model s' = SingleListEvent.logic_model s)
  ∧ (∀ s s' hazards,
     ZeroDelay.simulate_vector fuel s vec = Ok (s', hazards) →
     ZeroDelay.gate_sim_count s <= ZeroDelay.gate_sim_count s'
     ∧ length (ZeroDelay.net_values s') = length (ZeroDelay.net_values s)
     ∧ ZeroDelay.num_nets s' = ZeroDelay.num_nets s
     ∧ same_circuit (ZeroDelay.circuit s) (ZeroDelay.circuit s')
     ∧ ZeroDelay.logic_model s' = ZeroDelay.logic_model s)
  ∧ (∀ s s' hazards,
     Threaded.simulate_vector fuel s vec = Ok (s', hazards) →
     Threaded.gate_sim_count s <= Threaded.gate_sim_count s'
     ∧ length (Threaded.net_values s') = length (Threaded.net_values s)
     ∧ Threaded.num_nets s' = Threaded.num_nets s
     ∧ same_circuit (Threaded.circuit s) (Threaded.circuit s')
     ∧ Threaded.logic_model s' = Threaded.logic_model s).
Proof.
  split; [|split; [|split]]; intros s s' hazards H.
  - apply two_list_call_effects in H as [_ (? & ? & ? & ? & ?)].
    repeat (split; [done|]). split; [by apply same_circuit_eq | done].
  - apply single_list_event_call_effects in H as [_ (? & ? & ? & ? & ?)].
    repeat (split; [done|]). split; [by apply same_circuit_eq | done].
  - apply zero_delay_call_effects in H as [_ (? & ? & ? & ? & ?)].
    repeat (split; [done|]). split; [by apply same_circuit_eq | done].
  - apply threaded_call_effects in H as [_ (? & ? & ? & ? & ?)].
    repeat (split; [done|]). split; [by apply same_circuit_eq | done].
Qed.

(** ** Sequences of calls *)

Lemma run_vectors_effects {S : Type}
    (simulate_vector : S → gmap nat string → result (S * list (nat * string)))
    (log : S → list (gmap nat string)) (count : S → nat) :
  (∀ s vec s' hazards,
     simulate_vector s vec = Ok (s', hazards) →
     length (log s') = length (log s) + 1 ∧ count s <= count s') →
  ∀ vectors s s' hs,
    run_vectors simulate_vector s vectors = Ok (s', hs) →
    length (log s') = length (log s) + length vectors
    ∧ length hs = length vectors
    ∧ count s <= count s'.
Proof.
  intros Hstep. induction vectors as [|vec vectors IH]; intros s s' hs H;
    simpl in H; inv_ok; [simpl; repeat split; lia|].
  match goal with H1 : simulate_vector _ _ = _ |- _ =>
    apply Hstep in H1 as [? ?] end.
  match goal with H1 : run_vectors _ _ _ = _ |- _ =>
    apply IH in H1 as (? & ? & ?) end.
  simpl. repeat split; lia.
Qed.

(** X14.  In the Two-List, Single-List-Event, Zero-Delay and Threaded
    simulators, after a sequence of returning
    [simulate_vector] calls the output log has grown by one entry per
    call, one hazard list was returned per call, and [gate_sim_count] is
    not below its starting value. *)
Theorem run_grows_log_and_count (fuel : nat) (vectors : list (gmap nat string)) :
  (∀ s s' hs,
     run_vectors (TwoList.simulate_vector fuel) s vectors = Ok (s', hs) →
     length (TwoList.output_log s') = length (TwoList.output_log s) + length vectors
     ∧ length hs = length vectors
     ∧ TwoList.gate_sim_count s <= TwoList.gate_sim_count s')
  ∧ (∀ s s' hs,
     run_vectors (SingleListEvent.simulate_vector fuel) s vectors = Ok (s', hs) →
     length (SingleListEvent.output_log s')
       = length (SingleListEvent.output_log s) + length vectors
     ∧ length hs = length vectors
     ∧ SingleListEvent.gate_sim_count s <= SingleListEvent.gate_sim_count s')
  ∧ (∀ s s' hs,
     run_vectors (ZeroDelay.simulate_vector fuel) s vectors = Ok (s', hs) →
     length (ZeroDelay.output_log s') = length (ZeroDelay.output_log s) + length vectors
     ∧ length hs = length vectors
     ∧ ZeroDelay.gate_sim_count s <= ZeroDelay.gate_sim_count s')
  ∧ (∀ s s' hs,
     run_vectors (Threaded.simulate_vector fuel) s vectors = Ok (s', hs) →
     length (Threaded.output_log s') = length (Threaded.output_log s) + length vectors
     ∧ length hs = length vectors
     ∧ Threaded.gate_sim_count s <= Threaded.gate_sim_count s').
Proof.
  split; [|split; [|split]]; intros s s' hs H.
  - eapply (run_vectors_effects _ TwoList.output_log TwoList.gate_sim_count); [|done].
    intros s0 v s1 hz [(snap & _ & ->) (? & _)]%two_list_call_effects.
    by rewrite length_app.
  - eapply (run_vectors_effects _ SingleListEvent.output_log
              SingleListEvent.gate_sim_count); [|done].
    intros s0 v s1 hz [(snap & _ & ->) (? & _)]%single_list_event_call_effects.
    by rewrite length_app.
  - eapply (run_vectors_effects _ ZeroDelay.output_log ZeroDelay.gate_sim_count);
      [|done].
    intros s0 v s1 hz [(snap & _ & ->) (? & _)]%zero_delay_call_effects.
    by rewrite length_app.
  - eapply (run_vectors_effects _ Threaded.output_log Threaded.gate_sim_count);
      [|done].
    intros s0 v s1 hz [(snap & _ & ->) (? & _)]%threaded_call_effects.
    by rewrite length_app.
Qed.

(** ** Vectors that change no input *)

Lemma hazard_loop_unchanged n old new : ∀ nets,
  Forall (λ net, net < n) nets →
  hazard_loop nets (replicate n 0) old new = Ok [].
Proof.
  induction nets as [|net nets IH]; intros Hn; [done|].
  apply Forall_cons in Hn as [Hnet Hn]. cbn [hazard_loop].
  rewrite (proj2 (list_get_Ok (replicate n 0) net 0)) by by apply lookup_replicate_2.
  cbn [mbind result_mbind result_bind]. simpl. by apply IH.
Qed.

Lemma detect_hazards_unchanged n old new :
  detect_hazards n (replicate n 0) old new = Ok [].
Proof.
  unfold detect_hazards. apply hazard_loop_unchanged.
  apply Forall_forall. intros net Hin%elem_of_seq. lia.
Qed.

Lemma snapshot_total nv : ∀ outs,
  Forall (λ net, net < length nv) outs → ∃ snap, snapshot outs nv = Ok snap.
Proof.
  induction outs as [|nid outs IH]; intros Ho; [by eexists|].
  apply Forall_cons in Ho as [Hn Ho].
  destruct (lookup_lt_is_Some_2 nv nid Hn) as [v Hv].
  destruct (IH Ho) as [m Hm]. exists (<[nid := v]> m).
  cbn [snapshot]. rewrite (proj2 (list_get_Ok nv nid v) Hv), Hm. done.
Qed.

Lemma two_list_scan_quiet vec lm nv : ∀ pis evq nm,
  quiet pis vec nv →
  (lm = "2val" → Forall (λ net, nm !! net = Some false) pis) →
  TwoList.scan_inputs pis vec lm nv evq nm = Ok (evq, nm).
Proof.
  induction pis as [|net pis IH]; intros evq nm Hq Hm; [done|].
  apply Forall_cons in Hq as [(cur & Hcur & Hsame) Hq].
  cbn [TwoList.scan_inputs]. rewrite (proj2 (list_get_Ok nv net cur) Hcur).
  cbn [mbind result_mbind result_bind]. rewrite Hsame, String.eqb_refl. simpl.
  destruct (String.eqb_spec lm "2val") as [Hlm|_].
  - specialize (Hm Hlm). apply Forall_cons in Hm as [Hnet Hm].
    rewrite (proj2 (list_get_Ok nm net false) Hnet). simpl. by apply IH.
  - apply IH; [done|]. intros Hlm. specialize (Hm Hlm). by apply Forall_cons in Hm as [_ ?].
Qed.

Lemma single_list_event_scan_quiet vec lm nv : ∀ pis evq nm,
  quiet pis vec nv →
  (lm = "2val" → Forall (λ net, nm !! net = Some false) pis) →
  SingleListEvent.scan_inputs pis vec lm nv evq nm = Ok (evq, nm).
Proof.
  induction pis as [|net pis IH]; intros evq nm Hq Hm; [done|].
  apply Forall_cons in Hq as [(cur & Hcur & Hsame) Hq].
  cbn [SingleListEvent.scan_inputs]. rewrite (proj2 (list_get_Ok nv net cur) Hcur).
  cbn [mbind result_mbind result_bind]. rewrite Hsame, String.eqb_refl. simpl.
  destruct (String.eqb_spec lm "2val") as [Hlm|_].
  - specialize (Hm Hlm). apply Forall_cons in Hm as [Hnet Hm].
    rewrite (proj2 (list_get_Ok nm net false) Hnet). simpl. by apply IH.
  - apply IH; [done|]. intros Hlm. specialize (Hm Hlm). by apply Forall_cons in Hm as [_ ?].
Qed.

Lemma zero_delay_scan_quiet c levels vec nv lq : ∀ pis,
  quiet pis vec nv →
  ZeroDelay.scan_inputs c levels pis vec nv lq = Ok (nv, lq).
Proof.
  induction pis as [|net pis IH]; intros Hq; [done|].
  apply Forall_cons in Hq as [(cur & Hcur & Hsame) Hq].
  cbn [ZeroDelay.scan_inputs]. rewrite (proj2 (list_get_Ok nv net cur) Hcur).
  cbn [mbind result_mbind result_bind]. rewrite Hsame, String.eqb_refl. simpl.
  by apply IH.
Qed.

Lemma threaded_scan_quiet vec nv es : ∀ pis,
  quiet pis vec nv → Threaded.scan_inputs pis vec nv es = Ok es.
Proof.
  induction pis as [|net pis IH]; intros Hq; [done|].
  apply Forall_cons in Hq as [(cur & Hcur & Hsame) Hq].
  cbn [Threaded.scan_inputs]. rewrite (proj2 (list_get_Ok nv net cur) Hcur).
  cbn [mbind result_mbind result_bind]. rewrite Hsame, String.eqb_refl. simpl.
  by apply IH.
Qed.

Lemma zero_delay_sweep_empty fuel c lm levels n st : ∀ lvls,
  ZeroDelay.sw_queues st = replicate n [] →
  Forall (λ lvl, lvl < n) lvls →
  ZeroDelay.sweep_levels fuel c lm levels lvls st = Ok st.
Proof.
  intros lvls Hq. induction lvls as [|lvl lvls IH]; intros Hl; [done|].
  apply Forall_cons in Hl as [Hlvl Hl]. cbn [ZeroDelay.sweep_levels].
  assert (ZeroDelay.drain_level fuel c lm levels lvl st = Ok st) as ->.
  { destruct fuel; cbn [ZeroDelay.drain_level]; unfold ZeroDelay.bucket_get;
      rewrite Hq, lookup_replicate_2 by done; done. }
  cbn [mbind result_mbind result_bind]. by apply IH.
Qed.

(** X15.  In the Two-List, Single-List-Event, Zero-Delay and Threaded
    simulators a vector that changes no primary input makes the call a
    pure logging step: with the primary outputs in range, the call
    returns no hazards, evaluates no gate and leaves every net value as
    it was, appending only the snapshot of the primary outputs to the
    output log (and, in the Single-List-Event simulator, one entry to the
    intermediate log).  In the Two-List and Single-List-Event simulators
    in 2-valued mode this needs the marks of the primary inputs to be
    cleared; in the Threaded simulator the stacks are empty at entry. *)
Theorem quiet_call_only_logs (vec : gmap nat string) :
  (∀ s,
     quiet (primary_inputs (TwoList.circuit s)) vec (TwoList.net_values s) →
     (TwoList.logic_model s = "2val" →
      Forall (λ net, TwoList.net_mark s !! net = Some false)
             (primary_inputs (TwoList.circuit s))) →
     Forall (λ net, net < length (TwoList.net_values s))
            (primary_outputs (TwoList.circuit s)) →
     ∃ snap, snapshot (primary_outputs (TwoList.circuit s)) (TwoList.net_values s)
             = Ok snap
             ∧ ∀ fuel, TwoList.simulate_vector fuel s vec
                       = Ok (two_list_logged s snap, []))
  ∧ (∀ s,
     quiet (primary_inputs (SingleListEvent.circuit s)) vec
           (SingleListEvent.net_values s) →
     (SingleListEvent.logic_model s = "2val" →
      Forall (λ net, SingleListEvent.net_mark s !! net = Some false)
             (primary_inputs (SingleListEvent.circuit s))) →
     Forall (λ net, net < length (SingleListEvent.net_values s))
            (primary_outputs (SingleListEvent.circuit s)) →
     ∃ snap, snapshot (primary_outputs (SingleListEvent.circuit s))
                      (SingleListEvent.net_values s) = Ok snap
             ∧ ∀ fuel, SingleListEvent.simulate_vector (S fuel) s vec
                       = Ok (single_list_event_logged s snap, []))
  ∧ (∀ s,
     quiet (primary_inputs (ZeroDelay.circuit s)) vec (ZeroDelay.net_values s) →
     Forall (λ net, net < length (ZeroDelay.net_values s))
            (primary_outputs (ZeroDelay.circuit s)) →
     ∃ snap, snapshot (primary_outputs (ZeroDelay.circuit s)) (ZeroDelay.net_values s)
             = Ok snap
             ∧ ∀ fuel, ZeroDelay.simulate_vector fuel s vec
                       = Ok (zero_delay_logged s snap, []))
  ∧ (∀ s,
     Threaded.event_stack s = [] → Threaded.gate_stack s = [] →
     quiet (primary_inputs (Threaded.circuit s)) vec (Threaded.net_values s) →
     Forall (λ net, net < length (Threaded.net_values s))
            (primary_outputs (Threaded.circuit s)) →
     ∃ snap, snapshot (primary_outputs (Threaded.circuit s)) (Threaded.net_values s)
             = Ok snap
             ∧ ∀ fuel, Threaded.simulate_vector fuel s vec
                       = Ok (threaded_logged s snap, [])).
Proof.
  split; [|split; [|split]].
  - intros s Hq Hm Ho. destruct (snapshot_total _ _ Ho) as [snap Hsnap].
    exists snap. split; [done|]. intros fuel.
    unfold TwoList.simulate_vector, TwoList.simulate_core.
    rewrite two_list_scan_quiet by done. cbn [mbind result_mbind result_bind].
    destruct fuel; cbn [TwoList.settle mbind result_mbind result_bind];
      simpl; rewrite Hsnap; simpl; by rewrite detect_hazards_unchanged.
  - intros s Hq Hm Ho. destruct (snapshot_total _ _ Ho) as [snap Hsnap].
    exists snap. split; [done|]. intros fuel.
    unfold SingleListEvent.simulate_vector, SingleListEvent.simulate_core.
    rewrite single_list_event_scan_quiet by done.
    cbn [mbind result_mbind result_bind app SingleListEvent.process].
    simpl. rewrite Hsnap. simpl.
    destruct fuel; simpl; rewrite Hsnap; simpl; by rewrite detect_hazards_unchanged.
  - intros s Hq Ho. destruct (snapshot_total _ _ Ho) as [snap Hsnap].
    exists snap. split; [done|]. intros fuel.
    unfold ZeroDelay.simulate_vector.
    rewrite zero_delay_scan_quiet by done.
    cbn [mbind result_mbind result_bind ZeroDelay.passes ZeroDelay.sw_iteration].
    rewrite (zero_delay_sweep_empty fuel _ _ _ (ZeroDelay.max_level s + 1)).
    + cbn [mbind result_mbind result_bind ZeroDelay.passes ZeroDelay.sw_iteration
           ZeroDelay.sw_values ZeroDelay.sw_count].
      by rewrite Hsnap.
    + done.
    + apply Forall_forall. intros lvl Hin%elem_of_seq. lia.
  - intros s Hes Hgs Hq Ho. destruct (snapshot_total _ _ Ho) as [snap Hsnap].
    exists snap. split; [done|]. intros fuel.
    unfold Threaded.simulate_vector, Threaded.simulate_core.
    rewrite threaded_scan_quiet by done. rewrite Hes, Hgs.
    cbn [mbind result_mbind result_bind].
    destruct fuel; simpl; rewrite Hsnap; simpl; by rewrite detect_hazards_unchanged.
Qed.

(** ** The order of the hazard list *)

Lemma hazard_loop_sorted cc old new : ∀ len start hazards,
  hazard_loop (seq start len) cc old new = Ok hazards →
  Forall (λ h, start <= h.1) hazards ∧ StronglySorted lt (hazards.*1).
Proof.
  induction len as [|len IH]; intros start hazards H; simpl in H; inv_ok.
  { split; constructor. }
  assert (∀ hz, hazard_loop (seq (S start) len) cc old new = Ok hz →
                Forall (λ h, start <= h.1) hz ∧ Forall (λ h, start < h.1) hz
                ∧ StronglySorted lt (hz.*1)) as Hrest.
  { intros hz [Hge Hs]%IH. split; [|split; [|done]].
    - eapply Forall_impl; [done|]. simpl. lia.
    - eapply Forall_impl; [done|]. simpl. lia. }
  destruct (1 <? _)%nat; inv_ok.
  - match goal with H1 : hazard_loop _ _ _ _ = _ |- _ =>
      apply Hrest in H1 as (Hge & Hgt & Hs) end.
    split; [by constructor|]. simpl. constructor; [done|].
    by apply Forall_fmap.
  - apply Hrest in H as (Hge & _ & Hs). done.
Qed.

(** X16.  The hazard list of the Two-List, Single-List-Event and
    Threaded simulators is in strictly increasing order of net id, so
    each net is reported at most once. *)
Theorem hazards_in_net_order (fuel : nat) (vec : gmap nat string) :
  (∀ s s' hazards,
     TwoList.simulate_vector fuel s vec = Ok (s', hazards) →
     StronglySorted lt (hazards.*1))
  ∧ (∀ s s' hazards,
     SingleListEvent.simulate_vector fuel s vec = Ok (s', hazards) →
     StronglySorted lt (hazards.*1))
  ∧ (∀ s s' hazards,
     Threaded.simulate_vector fuel s vec = Ok (s', hazards) →
     StronglySorted lt (hazards.*1)).
Proof.
  split; [|split]; intros s s' hazards H.
  - unfold TwoList.simulate_vector in H.
    apply bind_Ok in H as ([s1 cc] & _ & H). inv_ok.
    match goal with H1 : detect_hazards _ _ _ _ = _ |- _ =>
      by apply hazard_loop_sorted in H1 as [_ ?] end.
  - unfold SingleListEvent.simulate_vector in H.
    apply bind_Ok in H as ([s1 cc] & _ & H). inv_ok.
    match goal with H1 : detect_hazards _ _ _ _ = _ |- _ =>
      by apply hazard_loop_sorted in H1 as [_ ?] end.
  - unfold Threaded.simulate_vector in H.
    apply bind_Ok in H as ([s1 cc] & _ & H). inv_ok.
    match goal with H1 : detect_hazards _ _ _ _ = _ |- _ =>
      by apply hazard_loop_sorted in H1 as [_ ?] end.
Qed.

(** ** Levelization *)

Lemma dict_get_Ok {V : Type} (d : gmap nat V) (k : nat) (v : V) :
  ZeroDelay.dict_get d k = Ok v ↔ d !! k = Some v.
Proof. unfold ZeroDelay.dict_get. destruct (d !! k); split; congruence. Qed.

Lemma levels_bounded_queue levels m queue queue' :
  (∀ g, g ∈ queue → g ∈ queue') →
  levels_bounded levels m queue → levels_bounded levels m queue'.
Proof.
  intros Hsub Hb id lvl Hl. destruct (Hb id lvl Hl) as [?|(g & Hg & Hid)]; [by left|].
  right. exists g. split; [by apply Hsub | done].
Qed.

Lemma levels_bounded_insert levels m queue h lvl :
  levels_bounded levels m queue →
  levels_bounded (<[gate_id h := lvl]> levels) m (queue ++ [h]).
Proof.
  intros Hb id l Hl. destruct (decide (id = gate_id h)) as [->|Hne].
  - right. exists h. split; [|done]. apply elem_of_app. right.
    by apply list_elem_of_singleton.
  - rewrite lookup_insert_ne in Hl by done.
    destruct (Hb id l Hl) as [?|(g & Hg & Hid)]; [by left|].
    right. exists g. split; [|done]. apply elem_of_app. by left.
Qed.

Lemma seed_bounded indeg : ∀ gs levels queue levels' queue',
  ZeroDelay.seed gs indeg levels queue = Ok (levels', queue') →
  levels_bounded levels 0 queue → levels_bounded levels' 0 queue'.
Proof.
  induction gs as [|g gs IH]; intros levels queue levels' queue' H Hb;
    simpl in H; inv_ok; [done|].
  destruct (_ =? 0)%Z; [|by eauto].
  eapply IH; [done|]. by apply levels_bounded_insert.
Qed.

Lemma relax_bounded lvl m : ∀ fo indeg levels queue indeg' levels' queue',
  ZeroDelay.relax fo lvl indeg levels queue = Ok (indeg', levels', queue') →
  levels_bounded levels m queue → levels_bounded levels' m queue'.
Proof.
  induction fo as [|h fo IH]; intros indeg levels queue indeg' levels' queue' H Hb;
    simpl in H; inv_ok; [done|].
  destruct (_ =? 0)%Z; [|by eauto].
  eapply IH; [done|]. by apply levels_bounded_insert.
Qed.

Lemma levelize_bounded c fuel : ∀ queue indeg levels m levels' m',
  ZeroDelay.levelize fuel c queue indeg levels m = Ok (levels', m') →
  levels_bounded levels m queue →
  ∀ id lvl, levels' !! id = Some lvl → lvl <= m'.
Proof.
  induction fuel as [|fuel IH]; intros queue indeg levels m levels' m' H Hb;
    destruct queue as [|g queue]; cbn [ZeroDelay.levelize] in H; inv_ok.
  - intros id lvl Hl. destruct (Hb id lvl Hl) as [?|(g & Hg & _)]; [done|].
    by apply elem_of_nil in Hg.
  - intros id lvl Hl. destruct (Hb id lvl Hl) as [?|(g & Hg & _)]; [done|].
    by apply elem_of_nil in Hg.
  - match goal with Hd : ZeroDelay.dict_get _ _ = Ok ?x |- _ =>
      apply dict_get_Ok in Hd; rename x into lvl_g; rename Hd into Hg end.
    eapply IH; [done|].
    eapply relax_bounded; [done|].
    intros id lvl Hl. destruct (Hb id lvl Hl) as [?|(g' & Hg' & Hid)]; [left; lia|].
    apply elem_of_cons in Hg' as [->|Hg'].
    + left. rewrite Hid in Hg. simplify_eq. lia.
    + right. by exists g'.
Qed.

Lemma zero_delay_init_level_le fuel c lm s :
  ZeroDelay.init fuel c lm = Ok s →
  ∀ g, ZeroDelay.level_of (ZeroDelay.levels s) g <= ZeroDelay.max_level s.
Proof.
  unfold ZeroDelay.init. intros H g.
  apply bind_Ok in H as ([levels0 queue] & Hseed & H).
  apply bind_Ok in H as ([levels m] & Hlev & H). injection H as <-. simpl.
  apply seed_bounded in Hseed; [|by intros ?? ?%lookup_empty_Some].
  pose proof (levelize_bounded _ _ _ _ _ _ _ _ Hlev Hseed) as Hb.
  unfold ZeroDelay.level_of. destruct (levels !! gate_id g) as [lvl|] eqn:E; simpl.
  - by eapply Hb.
  - lia.
Qed.

(** X17.  After [ZeroDelaySimulator.__init__] every recorded gate level
    is at most [max_level], so the level the simulator looks up for any
    gate (0 when none is recorded) names one of the buckets
    [0 .. max_level] that [simulate_vector] creates. *)
Theorem zero_delay_levels_bounded (fuel : nat) (c : Circuit) (lm : string)
    (s : ZeroDelay.Sim) :
  ZeroDelay.init fuel c lm = Ok s →
  ∀ g, ZeroDelay.level_of (ZeroDelay.levels s) g <= ZeroDelay.max_level s
       ∧ ∃ bucket : list Gate,
           ZeroDelay.bucket_get (replicate (ZeroDelay.max_level s + 1) [])
                                (ZeroDelay.level_of (ZeroDelay.levels s) g)
           = Ok bucket.
Proof.
  intros H g. pose proof (zero_delay_init_level_le _ _ _ _ H g) as Hle.
  split; [done|]. exists []. unfold ZeroDelay.bucket_get.
  rewrite lookup_replicate_2 by lia. done.
Qed.

(** ** The constructor of the Zero-Delay simulator returns *)

Lemma zeros_positives_le indeg gs : zeros indeg gs + positives indeg gs <= length gs.
Proof.
  induction gs as [|g gs IH]; simpl; [done|].
  repeat case_bool_decide; lia.
Qed.

Lemma indeg_fold_keys (f : Gate → Z) : ∀ gs (m : gmap nat Z) g,
  g ∈ gs ∨ is_Some (m !! gate_id g) →
  is_Some (fold_left (λ indeg h, <[gate_id h := f h]> indeg) gs m !! gate_id g).
Proof.
  induction gs as [|h gs IH]; intros m g Hg; simpl.
  - destruct Hg as [Hg|Hg]; [by apply elem_of_nil in Hg | done].
  - apply IH. destruct Hg as [[->|Hg]%elem_of_cons|Hg].
    + right. by rewrite lookup_insert_eq.
    + by left.
    + right. destruct (decide (gate_id h = gate_id g)) as [->|Hne].
      * by rewrite lookup_insert_eq.
      * by rewrite lookup_insert_ne.
Qed.

Lemma seed_total indeg : ∀ gs levels queue,
  (∀ g, g ∈ gs → is_Some (indeg !! gate_id g)) →
  (∀ g, g ∈ queue → is_Some (levels !! gate_id g)) →
  ∃ levels' queue',
    ZeroDelay.seed gs indeg levels queue = Ok (levels', queue')
    ∧ length queue' = length queue + zeros indeg gs
    ∧ ∀ g, g ∈ queue' → is_Some (levels' !! gate_id g).
Proof.
  induction gs as [|g gs IH]; intros levels queue Hk Hq.
  { exists levels, queue. simpl. split; [done|]. split; [lia | done]. }
  destruct (Hk g) as [n Hn]; [by left|].
  cbn [ZeroDelay.seed zeros]. rewrite (proj2 (dict_get_Ok indeg (gate_id g) n) Hn).
  cbn [mbind result_mbind result_bind]. rewrite Hn. simpl.
  assert (∀ h, h ∈ gs → is_Some (indeg !! gate_id h)) as Hk'.
  { intros h Hh. apply Hk. by right. }
  destruct (Z.eqb_spec n 0) as [->|Hne].
  - destruct (IH (<[gate_id g := 0]> levels) (queue ++ [g]) Hk')
      as (levels' & queue' & -> & Hlen & Hq').
    { intros h [Hh|Hh%list_elem_of_singleton]%elem_of_app.
      - destruct (decide (gate_id g = gate_id h)) as [->|?].
        + by rewrite lookup_insert_eq.
        + rewrite lookup_insert_ne by done. by apply Hq.
      - subst h. by rewrite lookup_insert_eq. }
    exists levels', queue'. split; [done|]. split; [|done].
    rewrite Hlen, length_app, bool_decide_eq_true_2 by done. simpl. lia.
  - destruct (IH levels queue Hk' Hq) as (levels' & queue' & -> & Hlen & Hq').
    exists levels', queue'. split; [done|]. split; [|done].
    rewrite Hlen, bool_decide_eq_false_2 by done. lia.
Qed.

(** Lowering one in-degree entry never adds a positive entry, and
    removes one when the entry drops from 1 to 0. *)
Lemma positives_lower indeg k n : ∀ gs,
  indeg !! k = Some n →
  positives (<[k := (n - 1)%Z]> indeg) gs <= positives indeg gs
  ∧ (n = 1%Z → (∃ h, h ∈ gs ∧ gate_id h = k) →
     positives (<[k := (n - 1)%Z]> indeg) gs + 1 <= positives indeg gs).
Proof.
  intros gs Hn. induction gs as [|g gs [IH1 IH2]]; simpl.
  { split; [done|]. intros _ (h & Hh & _). by apply elem_of_nil in Hh. }
  destruct (decide (gate_id g = k)) as [Hk|Hk].
  - rewrite Hk, lookup_insert_eq, Hn. simpl. split.
    + repeat case_bool_decide; lia.
    + intros -> _. rewrite bool_decide_eq_false_2 by lia.
      rewrite bool_decide_eq_true_2 by lia. lia.
  - rewrite lookup_insert_ne by done. split; [lia|].
    intros H1 (h & [->|Hh]%elem_of_cons & Hid); [done|].
    specialize (IH2 H1 (ex_intro _ h (conj Hh Hid))). lia.
Qed.

Lemma relax_total lvl gs : ∀ fo indeg levels queue,
  (∀ g, g ∈ gs → is_Some (indeg !! gate_id g)) →
  (∀ h, h ∈ fo → h ∈ gs) →
  (∀ g, g ∈ queue → is_Some (levels !! gate_id g)) →
  ∃ indeg' levels' queue',
    ZeroDelay.relax fo lvl indeg levels queue = Ok (indeg', levels', queue')
    ∧ (∀ g, g ∈ gs → is_Some (indeg' !! gate_id g))
    ∧ (∀ g, g ∈ queue' → is_Some (levels' !! gate_id g))
    ∧ positives indeg' gs + length queue' <= positives indeg gs + length queue.
Proof.
  induction fo as [|h fo IH]; intros indeg levels queue Hk Hfo Hq.
  { exists indeg, levels, queue. simpl. split; [done|]. split; [done|].
    split; [done | lia]. }
  assert (h ∈ gs) as Hh by (apply Hfo; by left).
  destruct (Hk h Hh) as [n Hn].
  cbn [ZeroDelay.relax]. rewrite (proj2 (dict_get_Ok indeg (gate_id h) n) Hn).
  cbn [mbind result_mbind result_bind].
  pose proof (positives_lower indeg (gate_id h) n gs Hn) as [Hle Hlt].
  assert (∀ g, g ∈ gs → is_Some (<[gate_id h := (n - 1)%Z]> indeg !! gate_id g))
    as Hk'.
  { intros g Hg. destruct (decide (gate_id h = gate_id g)) as [->|?].
    - by rewrite lookup_insert_eq.
    - rewrite lookup_insert_ne by done. by apply Hk. }
  assert (∀ g, g ∈ fo → g ∈ gs) as Hfo'.
  { intros g Hg. apply Hfo. by right. }
  destruct (Z.eqb_spec (n - 1) 0) as [H0|Hne].
  - destruct (IH (<[gate_id h := (n - 1)%Z]> indeg) (<[gate_id h := lvl + 1]> levels)
                (queue ++ [h]) Hk' Hfo')
      as (indeg' & levels' & queue' & -> & Hk'' & Hq' & Hm).
    { intros g [Hg|Hg%list_elem_of_singleton]%elem_of_app.
      - destruct (decide (gate_id h = gate_id g)) as [->|?].
        + by rewrite lookup_insert_eq.
        + rewrite lookup_insert_ne by done. by apply Hq.
      - subst g. by rewrite lookup_insert_eq. }
    exists indeg', levels', queue'. split; [done|]. split; [done|]. split; [done|].
    rewrite length_app in Hm. simpl in Hm.
    assert (n = 1%Z) as H1 by lia.
    specialize (Hlt H1 (ex_intro _ h (conj Hh eq_refl))). lia.
  - destruct (IH (<[gate_id h := (n - 1)%Z]> indeg) levels queue Hk' Hfo' Hq)
      as (indeg' & levels' & queue' & -> & Hk'' & Hq' & Hm).
    exists indeg', levels', queue'. split; [done|]. split; [done|]. split; [done|].
    lia.
Qed.

Lemma levelize_total c : ∀ fuel queue indeg levels m,
  (∀ net h, h ∈ fanout_of c net → h ∈ gates c) →
  (∀ g, g ∈ gates c → is_Some (indeg !! gate_id g)) →
  (∀ g, g ∈ queue → is_Some (levels !! gate_id g)) →
  positives indeg (gates c) + length queue <= fuel →
  ∃ r, ZeroDelay.levelize fuel c queue indeg levels m = Ok r.
Proof.
  induction fuel as [|fuel IH]; intros queue indeg levels m Hfo Hk Hq Hfuel;
    destruct queue as [|g queue]; cbn [ZeroDelay.levelize]; try by eexists.
  { simpl in Hfuel. lia. }
  destruct (Hq g) as [lvl Hlvl]; [by left|].
  rewrite (proj2 (dict_get_Ok levels (gate_id g) lvl) Hlvl).
  cbn [mbind result_mbind result_bind].
  destruct (relax_total lvl (gates c) (fanout_of c (gate_output g)) indeg levels queue)
    as (indeg' & levels' & queue' & -> & Hk' & Hq' & Hm); [done|by apply Hfo| |].
  { intros h Hh. apply Hq. by right. }
  cbn [mbind result_mbind result_bind].
  apply IH; [done..|]. simpl in Hfuel. lia.
Qed.

(** X18.  On a circuit made with the builder the levelization loop of
    [ZeroDelaySimulator.__init__] queues every gate at most once, so the
    constructor returns a simulator within as many iterations as the
    circuit has gates, cycles included. *)
Theorem zero_delay_init_returns (c : Circuit) (lm : string) (fuel : nat) :
  built c → length (gates c) <= fuel →
  ∃ s, ZeroDelay.init fuel c lm = Ok s.
Proof.
  intros Hb Hfuel. unfold ZeroDelay.init.
  assert (∀ g, g ∈ gates c → is_Some (ZeroDelay.indeg_init c !! gate_id g)) as Hk.
  { intros g Hg. unfold ZeroDelay.indeg_init. apply indeg_fold_keys. by left. }
  destruct (seed_total (ZeroDelay.indeg_init c) (gates c) ∅ [] Hk)
    as (levels0 & queue & -> & Hlen & Hq).
  { by intros g ?%elem_of_nil. }
  cbn [mbind result_mbind result_bind].
  destruct (levelize_total c fuel queue (ZeroDelay.indeg_init c) levels0 0)
    as [[levels m] ->]; [|done|done| |by eexists].
  - intros net h Hh. rewrite built_fanout_readers in Hh by done.
    by apply elem_of_readers in Hh as [? _].
  - pose proof (zeros_positives_le (ZeroDelay.indeg_init c) (gates c)).
    simpl in Hlen. lia.
Qed.

Lemma zero_delay_init_returns_witness :
  ∃ s, ZeroDelay.init 2 loop_circuit "3val" = Ok s.
Proof.
  apply zero_delay_init_returns.
  - unfold loop_circuit. do 2 apply built_add_gate.
    apply built_set_primary_outputs, built_set_primary_inputs, built_init.
  - vm_compute. lia.
Defined.

(** ** Calls that do not raise *)

Lemma no_raise_bind {A B : Type} (m : result A) (f : A → result B) :
  no_raise m → (∀ a, m = Ok a → no_raise (f a)) → no_raise (m ≫= f).
Proof. destruct m; simpl; auto. Qed.

Lemma no_raise_Ok {A : Type} (r : result A) (a : A) : r = Ok a → no_raise r.
Proof. by intros ->. Qed.

Lemma list_get_total {A : Type} (l : list A) i :
  i < length l → ∃ x, list_get l i = Ok x.
Proof.
  intros [x Hx]%lookup_lt_is_Some_2. exists x. by apply list_get_Ok.
Qed.

Lemma logic_and_total lm nv : ∀ inputs,
  Forall (λ i, i < length nv) inputs → ∃ v, logic_and inputs nv lm = Ok v.
Proof.
  induction inputs as [|i inputs IH]; intros Hin; [by eexists|].
  apply Forall_cons in Hin as [Hi Hin].
  destruct (list_get_total nv i Hi) as [v Hv]. cbn [logic_and]. rewrite Hv.
  cbn [mbind result_mbind result_bind].
  destruct (_ =? _); [by eexists|]. destruct (_ && _); [by eexists|]. by apply IH.
Qed.

Lemma logic_or_total lm nv : ∀ inputs,
  Forall (λ i, i < length nv) inputs → ∃ v, logic_or inputs nv lm = Ok v.
Proof.
  induction inputs as [|i inputs IH]; intros Hin; [by eexists|].
  apply Forall_cons in Hin as [Hi Hin].
  destruct (list_get_total nv i Hi) as [v Hv]. cbn [logic_or]. rewrite Hv.
  cbn [mbind result_mbind result_bind].
  destruct (_ =? _); [by eexists|]. destruct (_ && _); [by eexists|]. by apply IH.
Qed.

Lemma logic_xor_loop_total nv : ∀ inputs ones,
  Forall (λ i, i < length nv) inputs → ∃ v, logic_xor_loop inputs nv ones = Ok v.
Proof.
  induction inputs as [|i inputs IH]; intros ones Hin; [by eexists|].
  apply Forall_cons in Hin as [Hi Hin].
  destruct (list_get_total nv i Hi) as [v Hv]. cbn [logic_xor_loop]. rewrite Hv.
  cbn [mbind result_mbind result_bind].
  destruct (_ =? _); [by eexists|]. destruct (_ =? _); by apply IH.
Qed.

Lemma simulate_total g nv lm :
  gate_ok (length nv) g → ∃ v, simulate g nv lm = Ok v.
Proof.
  intros (Hin & _ & [f Hf] & Hnot). unfold simulate.
  destruct (String.eqb_spec (gate_type g) "NOT") as [Hty|Hty].
  { destruct (gate_inputs g) as [|i rest] eqn:Ei; [by destruct (Hnot Hty)|].
    apply Forall_cons in Hin as [Hi _]. simpl. unfold logic_not.
    destruct (list_get_total nv i Hi) as [v ->]. simpl.
    destruct (_ && _); [by eexists|].
    destruct (_ =? _); [by eexists|]. destruct (_ =? _); by eexists. }
  revert Hf. unfold GATE_FUNCS.
  destruct (gate_type g =? "AND"); [intros _; by apply logic_and_total|].
  destruct (gate_type g =? "OR"); [intros _; by apply logic_or_total|].
  destruct (String.eqb_spec (gate_type g) "NOT"); [done|].
  destruct (gate_type g =? "NAND").
  { intros _. unfold logic_nand.
    destruct (logic_and_total lm nv _ Hin) as [v ->]. simpl.
    destruct (_ =? _); by eexists. }
  destruct (gate_type g =? "NOR").
  { intros _. unfold logic_nor.
    destruct (logic_or_total lm nv _ Hin) as [v ->]. simpl.
    destruct (_ =? _); by eexists. }
  destruct (gate_type g =? "XOR"); [intros _; by apply logic_xor_loop_total|].
  destruct (gate_type g =? "XNOR"); [|done].
  intros _. unfold logic_xnor, logic_xor.
  destruct (logic_xor_loop_total nv _ 0 Hin) as [v ->]. simpl.
  destruct (_ =? _); by eexists.
Qed.


Lemma hazard_loop_total cc old new : ∀ nets,
  Forall (λ net, net < length cc ∧ net < length old ∧ net < length new) nets →
  ∃ hazards, hazard_loop nets cc old new = Ok hazards.
Proof.
  induction nets as [|net nets IH]; intros Hn; [by eexists|].
  apply Forall_cons in Hn as [(H1 & H2 & H3) Hn].
  destruct (list_get_total cc net H1) as [n Hcc].
  destruct (list_get_total old net H2) as [o Ho].
  destruct (list_get_total new net H3) as [v Hv].
  destruct (IH Hn) as [hz Hhz].
  cbn [hazard_loop]. rewrite Hcc. cbn [mbind result_mbind result_bind].
  destruct (1 <? n)%nat; [|by eexists].
  rewrite Ho, Hv, Hhz. by eexists.
Qed.

Lemma detect_hazards_total n cc old new :
  length cc = n → length old = n → length new = n →
  ∃ hazards, detect_hazards n cc old new = Ok hazards.
Proof.
  intros H1 H2 H3. apply hazard_loop_total.
  apply Forall_forall. intros net Hin%elem_of_seq. lia.
Qed.

(** *** Two-List *)

Lemma two_list_scan_total vec lm nv : ∀ pis evq nm,
  Forall (λ net, net < length nv) pis → length nm = length nv →
  Forall (λ ev, ev_net ev < length nv) evq →
  ∃ evq' nm', TwoList.scan_inputs pis vec lm nv evq nm = Ok (evq', nm')
              ∧ length nm' = length nv
              ∧ Forall (λ ev, ev_net ev < length nv) evq'.
Proof.
  induction pis as [|net pis IH]; intros evq nm Hpis Hlen Hevq; [by eauto|].
  apply Forall_cons in Hpis as [Hnet Hpis].
  destruct (list_get_total nv net Hnet) as [cur Hcur].
  assert (net < length nm) as Hnet' by lia.
  destruct (list_get_total nm net Hnet') as [m Hm].
  cbn [TwoList.scan_inputs]. rewrite Hcur. cbn [mbind result_mbind result_bind].
  set (val := default cur (vec !! net)).
  assert (Forall (λ ev, ev_net ev < length nv) (evq ++ [mkEv net val])) as Hevq'.
  { apply Forall_app. split; [done|]. by apply Forall_singleton. }
  destruct (lm =? "2val").
  - assert (∃ fire, (if negb (val =? cur) then Ok true else list_get nm net) = Ok fire)
      as [fire ->].
    { destruct (negb _); [by eexists|]. rewrite Hm. by eexists. }
    cbn [mbind result_mbind result_bind]. destruct fire; [|by apply IH].
    unfold list_set. rewrite decide_True by done.
    cbn [mbind result_mbind result_bind]. apply IH; [done| |done].
    by rewrite length_insert.
  - destruct (negb _); by apply IH.
Qed.

Lemma two_list_schedule_ok n fo : ∀ gq,
  Forall (gate_ok n) fo → Forall (gate_ok n) gq →
  Forall (gate_ok n) (TwoList.schedule_fanout fo gq).
Proof.
  induction fo as [|g fo IH]; intros gq Hfo Hgq; [done|].
  apply Forall_cons in Hfo as [Hg Hfo]. simpl. apply IH; [done|].
  destruct (gate_in g gq); [done|]. apply Forall_app. split; [done|].
  by apply Forall_singleton.
Qed.

Lemma two_list_drain_total c n : ∀ evq nv cc gq,
  (∀ net g, g ∈ fanout_of c net → gate_ok n g) →
  length nv = n → length cc = n →
  Forall (λ ev, ev_net ev < n) evq → Forall (gate_ok n) gq →
  ∃ nv' cc' gq',
    TwoList.drain_events c evq nv cc gq = Ok (nv', cc', gq')
    ∧ length nv' = n ∧ length cc' = n ∧ Forall (gate_ok n) gq'.
Proof.
  induction evq as [|ev evq IH]; intros nv cc gq Hc Hnv Hcc Hevq Hgq; [by eauto 10|].
  apply Forall_cons in Hevq as [Hev Hevq].
  destruct (commit_total (ev_net ev) (ev_value ev) nv cc) as (nv1 & cc1 & Hcm & H1 & H2);
    [lia..|].
  cbn [TwoList.drain_events]. rewrite Hcm. cbn [mbind result_mbind result_bind].
  apply IH; [done|lia|lia|done|]. apply two_list_schedule_ok; [|done].
  apply Forall_forall. intros g Hg. by eapply Hc.
Qed.

Lemma two_list_gate_phase_total lm n nv : ∀ gq cnt evq,
  length nv = n → Forall (gate_ok n) gq → Forall (λ ev, ev_net ev < n) evq →
  ∃ cnt' evq', TwoList.gate_phase lm gq nv cnt evq = Ok (cnt', evq')
               ∧ Forall (λ ev, ev_net ev < n) evq'.
Proof.
  induction gq as [|g gq IH]; intros cnt evq Hnv Hgq Hevq; [by eauto|].
  apply Forall_cons in Hgq as [Hg Hgq].
  destruct (simulate_total g nv lm) as [v Hv]; [by rewrite Hnv|].
  destruct Hg as (_ & Hout & _).
  destruct (list_get_total nv (gate_output g)) as [cur Hcur]; [lia|].
  cbn [TwoList.gate_phase]. rewrite Hv. cbn [mbind result_mbind result_bind].
  rewrite Hcur. cbn [mbind result_mbind result_bind].
  apply IH; [done..|]. destruct (negb _); [|done].
  apply Forall_app. split; [done|]. by apply Forall_singleton.
Qed.

Lemma two_list_settle_safe fuel : ∀ s evq cc t,
  two_list_ok s → length cc = TwoList.num_nets s →
  Forall (λ ev, ev_net ev < TwoList.num_nets s) evq →
  no_raise (TwoList.settle fuel s evq cc t)
  ∧ ∀ s' cc', TwoList.settle fuel s evq cc t = Ok (s', cc') →
              length cc' = TwoList.num_nets s.
Proof.
  induction fuel as [|fuel IH]; intros s evq cc t Hs Hcc Hevq;
    destruct evq as [|ev evq]; cbn [TwoList.settle].
  1-3: split; [done|]; intros s' cc' H; by inv_ok.
  destruct Hs as (Hnv & Hnm & Hpi & Hpo & Hfo).
  destruct (two_list_drain_total (TwoList.circuit s) (TwoList.num_nets s)
              (ev :: evq) (TwoList.net_values s) cc [])
    as (nv' & cc1 & gq & -> & Hnv' & Hcc1 & Hgq); [done..|constructor|].
  cbn [mbind result_mbind result_bind].
  destruct gq as [|g gq].
  - match goal with |- context [TwoList.settle fuel ?s2 _ _ _] =>
      apply (IH s2 [] cc1 t); [|done|constructor] end.
    unfold two_list_ok, circuit_ok; simpl; tauto.
  - destruct (snapshot_total nv' (primary_outputs (TwoList.circuit s))) as [snap ->];
      [by rewrite Hnv'|].
    cbn [mbind result_mbind result_bind].
    destruct (two_list_gate_phase_total (TwoList.logic_model s) (TwoList.num_nets s)
                nv' (g :: gq) (TwoList.gate_sim_count s) [])
      as (cnt & evq' & -> & Hevq'); [done|done|constructor|].
    cbn [mbind result_mbind result_bind].
    match goal with |- context [TwoList.settle fuel ?s2 _ _ _] =>
      apply (IH s2 evq' cc1 (t + 1)); [|done|done] end.
    unfold two_list_ok, circuit_ok; simpl; tauto.
Qed.

Lemma two_list_call_safe fuel s vec :
  two_list_ok s →
  no_raise (TwoList.simulate_vector fuel s vec)
  ∧ ∀ s' hazards, TwoList.simulate_vector fuel s vec = Ok (s', hazards) →
                  two_list_ok s'.
Proof.
  intros Hs. pose proof Hs as (Hnv & Hnm & Hpi & Hpo & Hfo).
  unfold TwoList.simulate_vector, TwoList.simulate_core.
  destruct (two_list_scan_total vec (TwoList.logic_model s) (TwoList.net_values s)
              (primary_inputs (TwoList.circuit s)) [] (TwoList.net_mark s))
    as (evq & nm & Hscan & Hnm' & Hevq);
    [by rewrite Hnv|lia|constructor|].
  rewrite Hscan. cbn [mbind result_mbind result_bind].
  set (s0 := TwoList.mkSim _ _ _ _ nm _ _ _).
  assert (two_list_ok s0) as Hs0.
  { unfold two_list_ok, circuit_ok, s0; simpl. rewrite Hnm', Hnv. tauto. }
  destruct (two_list_settle_safe fuel s0 evq (replicate (TwoList.num_nets s) 0) 0)
    as [Hsafe Hcc]; [done|by rewrite length_replicate|simpl; by rewrite <- Hnv|].
  destruct (TwoList.settle fuel s0 evq _ 0) as [[s1 cc]| |] eqn:Hsettle; try done.
  cbn [mbind result_mbind result_bind].
  pose proof (two_list_settle_frame _ _ _ _ _ _ _ Hsettle) as (Hn1 & Hc1 & _).
  pose proof (two_list_settle_effects _ _ _ _ _ _ _ Hsettle) as (_ & _ & Hl1 & Hm1).
  simpl in Hn1, Hc1, Hl1, Hm1. specialize (Hcc s1 cc eq_refl). simpl in Hcc.
  destruct (snapshot_total (TwoList.net_values s1)
              (primary_outputs (TwoList.circuit s1))) as [snap ->].
  { rewrite Hc1, Hl1, Hnv. done. }
  cbn [mbind result_mbind result_bind].
  destruct (detect_hazards_total (TwoList.num_nets s1) cc (TwoList.net_values s)
              (TwoList.net_values s1)) as [hz ->]; [lia..|].
  cbn [mbind result_mbind result_bind]. split; [done|].
  intros s' hazards [= <- <-]. unfold two_list_ok. simpl.
  rewrite Hn1, Hc1, Hm1, Hl1. split; [lia|]. split; [lia|]. by split.
Qed.

(** *** Single-List (event) *)

Lemma single_list_event_scan_total vec lm nv : ∀ pis evq nm,
  Forall (λ net, net < length nv) pis → length nm = length nv →
  Forall (event_item_ok (length nv)) evq →
  ∃ evq' nm', SingleListEvent.scan_inputs pis vec lm nv evq nm = Ok (evq', nm')
              ∧ length nm' = length nv
              ∧ Forall (event_item_ok (length nv)) evq'.
Proof.
  induction pis as [|net pis IH]; intros evq nm Hpis Hlen Hevq; [by eauto|].
  apply Forall_cons in Hpis as [Hnet Hpis].
  destruct (list_get_total nv net Hnet) as [cur Hcur].
  assert (net < length nm) as Hnet' by lia.
  destruct (list_get_total nm net Hnet') as [m Hm].
  cbn [SingleListEvent.scan_inputs]. rewrite Hcur. cbn [mbind result_mbind result_bind].
  set (val := default cur (vec !! net)).
  assert (Forall (event_item_ok (length nv))
            (evq ++ [SingleListEvent.Event (mkEv net val)])) as Hevq'.
  { apply Forall_app. split; [done|]. by apply Forall_singleton. }
  destruct (lm =? "2val").
  - assert (∃ fire, (if negb (val =? cur) then Ok true else list_get nm net) = Ok fire)
      as [fire ->].
    { destruct (negb _); [by eexists|]. rewrite Hm. by eexists. }
    cbn [mbind result_mbind result_bind]. destruct fire; [|by apply IH].
    unfold list_set. rewrite decide_True by done.
    cbn [mbind result_mbind result_bind]. apply IH; [done| |done].
    by rewrite length_insert.
  - destruct (negb _); by apply IH.
Qed.

Lemma single_list_event_fanout_total lm n nv : ∀ fo cnt evq,
  length nv = n → Forall (gate_ok n) fo → Forall (event_item_ok n) evq →
  ∃ cnt' evq', SingleListEvent.simulate_fanout lm fo nv cnt evq = Ok (cnt', evq')
               ∧ Forall (event_item_ok n) evq'.
Proof.
  induction fo as [|g fo IH]; intros cnt evq Hnv Hfo Hevq; [by eauto|].
  apply Forall_cons in Hfo as [Hg Hfo].
  destruct (simulate_total g nv lm) as [v Hv]; [by rewrite Hnv|].
  destruct Hg as (_ & Hout & _).
  destruct (list_get_total nv (gate_output g)) as [cur Hcur]; [lia|].
  cbn [SingleListEvent.simulate_fanout]. rewrite Hv.
  cbn [mbind result_mbind result_bind].
  rewrite Hcur. cbn [mbind result_mbind result_bind].
  apply IH; [done..|]. destruct (_ && _); [|done].
  apply Forall_app. split; [done|]. by apply Forall_singleton.
Qed.

Lemma single_list_event_process_safe fuel : ∀ s evq cc t,
  single_list_event_ok s → length cc = SingleListEvent.num_nets s →
  Forall (event_item_ok (SingleListEvent.num_nets s)) evq →
  no_raise (SingleListEvent.process fuel s evq cc t)
  ∧ ∀ s' cc', SingleListEvent.process fuel s evq cc t = Ok (s', cc') →
              length cc' = SingleListEvent.num_nets s.
Proof.
  induction fuel as [|fuel IH]; intros s evq cc t Hs Hcc Hevq;
    destruct evq as [|it evq]; cbn [SingleListEvent.process].
  1-3: split; [done|]; intros s' cc' H; by inv_ok.
  destruct Hs as (Hnv & Hnm & Hpi & Hpo & Hfo).
  apply Forall_cons in Hevq as [Hit Hevq].
  destruct it as [e|].
  - destruct (commit_total (ev_net e) (ev_value e) (SingleListEvent.net_values s) cc)
      as (nv1 & cc1 & -> & H1 & H2); [simpl in Hit; lia..|].
    cbn [mbind result_mbind result_bind].
    destruct (single_list_event_fanout_total (SingleListEvent.logic_model s)
                (SingleListEvent.num_nets s) nv1
                (fanout_of (SingleListEvent.circuit s) (ev_net e))
                (SingleListEvent.gate_sim_count s) evq)
      as (cnt & evq' & -> & Hevq'); [lia| |done|].
    { apply Forall_forall. intros g Hg. by eapply Hfo. }
    cbn [mbind result_mbind result_bind].
    match goal with |- context [SingleListEvent.process fuel ?s2 _ _ _] =>
      apply (IH s2 evq' cc1 t); [|simpl; lia|done] end.
    unfold single_list_event_ok, circuit_ok; simpl.
    split; [lia|]. split; [done|]. by split.
  - destruct (snapshot_total (SingleListEvent.net_values s)
                (primary_outputs (SingleListEvent.circuit s))) as [snap ->];
      [by rewrite Hnv|].
    cbn [mbind result_mbind result_bind].
    match goal with |- context [SingleListEvent.process fuel ?s2 ?q _ _] =>
      apply (IH s2 q cc (t + 1)); [|done|] end.
    + unfold single_list_event_ok, circuit_ok; simpl. by repeat (split; [done|]).
    + destruct evq; [done|]. apply Forall_app. split; [done|].
      by apply Forall_singleton.
Qed.

Lemma single_list_event_call_safe fuel s vec :
  single_list_event_ok s →
  no_raise (SingleListEvent.simulate_vector fuel s vec)
  ∧ ∀ s' hazards, SingleListEvent.simulate_vector fuel s vec = Ok (s', hazards) →
                  single_list_event_ok s'.
Proof.
  intros Hs. pose proof Hs as (Hnv & Hnm & Hpi & Hpo & Hfo).
  unfold SingleListEvent.simulate_vector, SingleListEvent.simulate_core.
  destruct (single_list_event_scan_total vec (SingleListEvent.logic_model s)
              (SingleListEvent.net_values s)
              (primary_inputs (SingleListEvent.circuit s)) []
              (SingleListEvent.net_mark s))
    as (evq & nm & Hscan & Hnm' & Hevq);
    [by rewrite Hnv|lia|constructor|].
  rewrite Hscan. cbn [mbind result_mbind result_bind].
  set (s0 := SingleListEvent.mkSim _ _ _ _ nm _ _ _).
  assert (single_list_event_ok s0) as Hs0.
  { unfold single_list_event_ok, circuit_ok, s0; simpl. rewrite Hnm', Hnv. tauto. }
  destruct (single_list_event_process_safe fuel s0
              (evq ++ [SingleListEvent.Marker])
              (replicate (SingleListEvent.num_nets s) 0) 0)
    as [Hsafe Hcc]; [done|by rewrite length_replicate| |].
  { simpl. rewrite <- Hnv. apply Forall_app. split; [done|].
    by apply Forall_singleton. }
  destruct (SingleListEvent.process fuel s0 _ _ 0) as [[s1 cc]| |] eqn:Hproc; try done.
  cbn [mbind result_mbind result_bind].
  pose proof (single_list_event_process_frame _ _ _ _ _ _ _ Hproc) as (Hn1 & Hc1 & _).
  pose proof (single_list_event_process_effects _ _ _ _ _ _ _ Hproc)
    as (_ & _ & Hl1 & Hm1).
  simpl in Hn1, Hc1, Hl1, Hm1. specialize (Hcc s1 cc eq_refl). simpl in Hcc.
  destruct (snapshot_total (SingleListEvent.net_values s1)
              (primary_outputs (SingleListEvent.circuit s1))) as [snap ->].
  { rewrite Hc1, Hl1, Hnv. done. }
  cbn [mbind result_mbind result_bind].
  destruct (detect_hazards_total (SingleListEvent.num_nets s1) cc
              (SingleListEvent.net_values s) (SingleListEvent.net_values s1))
    as [hz ->]; [lia..|].
  cbn [mbind result_mbind result_bind]. split; [done|].
  intros s' hazards [= <- <-]. unfold single_list_event_ok. simpl.
  rewrite Hn1, Hc1, Hm1, Hl1. split; [lia|]. split; [lia|]. by split.
Qed.

(** *** Threaded *)

Lemma threaded_scan_total vec n nv : ∀ pis es,
  length nv = n → Forall (λ net, net < n) pis → Forall (λ ev, ev_net ev < n) es →
  ∃ es', Threaded.scan_inputs pis vec nv es = Ok es'
         ∧ Forall (λ ev, ev_net ev < n) es'.
Proof.
  induction pis as [|net pis IH]; intros es Hnv Hpis Hes; [by eauto|].
  apply Forall_cons in Hpis as [Hnet Hpis].
  destruct (list_get_total nv net) as [cur Hcur]; [lia|].
  cbn [Threaded.scan_inputs]. rewrite Hcur. cbn [mbind result_mbind result_bind].
  apply IH; [done..|]. destruct (negb _); [|done]. by apply Forall_cons.
Qed.

Lemma push_fanout_ok n : ∀ fo gs,
  Forall (gate_ok n) fo → Forall (gate_ok n) gs →
  Forall (gate_ok n) (Threaded.push_fanout fo gs).
Proof.
  induction fo as [|g fo IH]; intros gs Hfo Hgs; [done|].
  apply Forall_cons in Hfo as [Hg Hfo]. simpl. apply IH; [done|].
  by apply Forall_cons.
Qed.

Lemma threaded_process_safe fuel : ∀ s cc,
  threaded_ok s → length cc = Threaded.num_nets s →
  no_raise (Threaded.process fuel s cc)
  ∧ ∀ s' cc', Threaded.process fuel s cc = Ok (s', cc') →
              length cc' = Threaded.num_nets s.
Proof.
  induction fuel as [|fuel IH]; intros s cc (Hnv & (Hpi & Hpo & Hfo) & Hes & Hgs) Hcc;
    cbn [Threaded.process];
    destruct (Threaded.event_stack s) as [|ev es] eqn:Ee;
    destruct (Threaded.gate_stack s) as [|g gs] eqn:Eg.
  1-5: split; [done|]; intros s' cc' H; by inv_ok.
  - apply Forall_cons in Hgs as [Hg Hgs].
    destruct (simulate_total g (Threaded.net_values s) (Threaded.logic_model s))
      as [v ->]; [by rewrite Hnv|].
    cbn [mbind result_mbind result_bind].
    pose proof Hg as (_ & Hout & _).
    destruct (list_get_total (Threaded.net_values s) (gate_output g)) as [cur ->]; [lia|].
    cbn [mbind result_mbind result_bind].
    match goal with |- context [Threaded.process fuel ?s2 ?c] =>
      apply (IH s2 c); [|done] end.
    unfold threaded_ok, circuit_ok; simpl. do 2 (split; [done|]). split; [|done].
    destruct (negb _); [|constructor]. by apply Forall_singleton.
  - apply Forall_cons in Hes as [Hev Hes].
    destruct (commit_total (ev_net ev) (ev_value ev) (Threaded.net_values s) cc)
      as (nv1 & cc1 & -> & H1 & H2); [lia..|].
    cbn [mbind result_mbind result_bind].
    match goal with |- context [Threaded.process fuel ?s2 ?c] =>
      apply (IH s2 c); [|simpl; lia] end.
    unfold threaded_ok, circuit_ok; simpl. split; [lia|]. do 2 (split; [done|]).
    apply push_fanout_ok; [|constructor]. apply Forall_forall. intros h Hh.
    by eapply Hfo.
  - apply Forall_cons in Hes as [Hev Hes].
    destruct (commit_total (ev_net ev) (ev_value ev) (Threaded.net_values s) cc)
      as (nv1 & cc1 & -> & H1 & H2); [lia..|].
    cbn [mbind result_mbind result_bind].
    match goal with |- context [Threaded.process fuel ?s2 ?c] =>
      apply (IH s2 c); [|simpl; lia] end.
    unfold threaded_ok, circuit_ok; simpl. split; [lia|]. do 2 (split; [done|]).
    apply push_fanout_ok; [|done]. apply Forall_forall. intros h Hh.
    by eapply Hfo.
Qed.

Lemma threaded_call_safe fuel s vec :
  threaded_ok s →
  no_raise (Threaded.simulate_vector fuel s vec)
  ∧ ∀ s' hazards, Threaded.simulate_vector fuel s vec = Ok (s', hazards) →
                  threaded_ok s'.
Proof.
  intros Hs. pose proof Hs as (Hnv & (Hpi & Hpo & Hfo) & Hes & Hgs).
  unfold Threaded.simulate_vector, Threaded.simulate_core.
  destruct (threaded_scan_total vec (Threaded.num_nets s) (Threaded.net_values s)
              (primary_inputs (Threaded.circuit s)) (Threaded.event_stack s))
    as (es & Hscan & Hes'); [done..|].
  rewrite Hscan. cbn [mbind result_mbind result_bind].
  set (s0 := Threaded.mkSim _ _ _ _ es _ _ _).
  assert (threaded_ok s0) as Hs0.
  { unfold threaded_ok, circuit_ok, s0; simpl. tauto. }
  destruct (threaded_process_safe fuel s0 (replicate (Threaded.num_nets s) 0))
    as [Hsafe Hcc]; [done|by rewrite length_replicate|].
  destruct (Threaded.process fuel s0 _) as [[s1 cc]| |] eqn:Hproc; try done.
  cbn [mbind result_mbind result_bind].
  pose proof (threaded_process_frame _ _ _ _ _ Hproc) as (Hn1 & Hc1 & _ & He1 & Hg1).
  pose proof (threaded_process_effects _ _ _ _ _ Hproc) as (_ & _ & Hl1).
  simpl in Hn1, Hc1, Hl1. specialize (Hcc s1 cc eq_refl). simpl in Hcc.
  destruct (snapshot_total (Threaded.net_values s1)
              (primary_outputs (Threaded.circuit s1))) as [snap ->].
  { rewrite Hc1, Hl1, Hnv. done. }
  cbn [mbind result_mbind result_bind].
  destruct (detect_hazards_total (Threaded.num_nets s1) cc
              (Threaded.net_values s) (Threaded.net_values s1))
    as [hz ->]; [lia..|].
  cbn [mbind result_mbind result_bind]. split; [done|].
  intros s' hazards [= <- <-]. unfold threaded_ok. simpl.
  rewrite Hn1, Hc1, Hl1, He1, Hg1. split; [lia|]. split; [by split|].
  split; constructor.
Qed.

(** *** Zero-Delay *)

Lemma bucket_add_total n m g lvl lq :
  lvl < m → length lq = m → gate_ok n g → Forall (Forall (gate_ok n)) lq →
  ∃ lq', ZeroDelay.bucket_add g lvl lq = Ok lq'
         ∧ length lq' = m ∧ Forall (Forall (gate_ok n)) lq'.
Proof.
  intros Hlvl Hlen Hg Hlq. unfold ZeroDelay.bucket_add, ZeroDelay.bucket_get.
  destruct (lq !! lvl) as [q|] eqn:Eq.
  - cbn [mbind result_mbind result_bind]. eexists. split; [done|].
    destruct (gate_in g q); [done|]. rewrite length_insert. split; [done|].
    apply Forall_insert; [done|]. apply Forall_app. split.
    + by eapply Forall_lookup_1.
    + by apply Forall_singleton.
  - apply lookup_ge_None in Eq. lia.
Qed.

Lemma zero_delay_schedule_total n m levels : ∀ fo lq,
  (∀ g, ZeroDelay.level_of levels g < m) → length lq = m →
  Forall (gate_ok n) fo → Forall (Forall (gate_ok n)) lq →
  ∃ lq', ZeroDelay.schedule levels fo lq = Ok lq'
         ∧ length lq' = m ∧ Forall (Forall (gate_ok n)) lq'.
Proof.
  induction fo as [|g fo IH]; intros lq Hlv Hlen Hfo Hlq; [by eauto|].
  apply Forall_cons in Hfo as [Hg Hfo].
  destruct (bucket_add_total n m g (ZeroDelay.level_of levels g) lq)
    as (lq1 & Hadd & Hlen1 & Hlq1); [done..|].
  cbn [ZeroDelay.schedule]. rewrite Hadd. cbn [mbind result_mbind result_bind].
  by apply IH.
Qed.

Lemma zero_delay_scan_total c n m levels vec : ∀ pis nv lq,
  (∀ net g, g ∈ fanout_of c net → gate_ok n g) →
  (∀ g, ZeroDelay.level_of levels g < m) →
  length nv = n → length lq = m →
  Forall (λ net, net < n) pis → Forall (Forall (gate_ok n)) lq →
  ∃ nv' lq', ZeroDelay.scan_inputs c levels pis vec nv lq = Ok (nv', lq')
             ∧ length nv' = n ∧ length lq' = m ∧ Forall (Forall (gate_ok n)) lq'.
Proof.
  induction pis as [|net pis IH]; intros nv lq Hfo Hlv Hnv Hlen Hpis Hlq; [by eauto 10|].
  apply Forall_cons in Hpis as [Hnet Hpis].
  destruct (list_get_total nv net) as [cur Hcur]; [lia|].
  cbn [ZeroDelay.scan_inputs]. rewrite Hcur. cbn [mbind result_mbind result_bind].
  destruct (negb _); [|by apply IH].
  unfold list_set. rewrite decide_True by lia. cbn [mbind result_mbind result_bind].
  destruct (zero_delay_schedule_total n m levels (fanout_of c net) lq)
    as (lq1 & Hsch & Hlen1 & Hlq1); [done..| |done|].
  { apply Forall_forall. intros g Hg. by eapply Hfo. }
  rewrite Hsch. cbn [mbind result_mbind result_bind].
  apply IH; [done|done|by rewrite length_insert|done..].
Qed.

Lemma zero_delay_propagate_total n m levels lvl : ∀ fo lq it,
  (∀ g, ZeroDelay.level_of levels g < m) → length lq = m →
  Forall (gate_ok n) fo → Forall (Forall (gate_ok n)) lq →
  ∃ lq' it', ZeroDelay.propagate levels fo lvl lq it = Ok (lq', it')
             ∧ length lq' = m ∧ Forall (Forall (gate_ok n)) lq'.
Proof.
  induction fo as [|h fo IH]; intros lq it Hlv Hlen Hfo Hlq; [by eauto|].
  apply Forall_cons in Hfo as [Hh Hfo].
  destruct (bucket_add_total n m h (ZeroDelay.level_of levels h) lq)
    as (lq1 & Hadd & Hlen1 & Hlq1); [done..|].
  cbn [ZeroDelay.propagate]. rewrite Hadd. cbn [mbind result_mbind result_bind].
  by apply IH.
Qed.

Lemma zero_delay_drain_safe c lm levels n m lvl fuel : ∀ st,
  (∀ net g, g ∈ fanout_of c net → gate_ok n g) →
  (∀ g, ZeroDelay.level_of levels g < m) →
  lvl < m → sweep_ok n m st →
  no_raise (ZeroDelay.drain_level fuel c lm levels lvl st)
  ∧ ∀ st', ZeroDelay.drain_level fuel c lm levels lvl st = Ok st' → sweep_ok n m st'.
Proof.
  induction fuel as [|fuel IH]; intros st Hfo Hlv Hlvl (Hnv & Hlen & Hlq);
    cbn [ZeroDelay.drain_level]; unfold ZeroDelay.bucket_get;
    (destruct (ZeroDelay.sw_queues st !! lvl) as [q|] eqn:Eq;
      [|apply lookup_ge_None in Eq; lia]);
    cbn [mbind result_mbind result_bind];
    (destruct q as [|g q]; [split; [done|]; by intros st' [= <-]|]).
  { split; [done|]. by intros st' [=]. }
  pose proof (Forall_lookup_1 _ _ _ _ Hlq Eq) as Hq.
  apply Forall_cons in Hq as [Hg Hq].
  destruct (simulate_total g (ZeroDelay.sw_values st) lm) as [v ->]; [by rewrite Hnv|].
  cbn [mbind result_mbind result_bind].
  pose proof Hg as (_ & Hout & _).
  destruct (list_get_total (ZeroDelay.sw_values st) (gate_output g)) as [cur ->]; [lia|].
  cbn [mbind result_mbind result_bind].
  assert (Forall (Forall (gate_ok n)) (<[lvl := q]> (ZeroDelay.sw_queues st))) as Hlq'.
  { by apply Forall_insert. }
  destruct (negb _).
  - unfold list_set. rewrite decide_True by lia. cbn [mbind result_mbind result_bind].
    destruct (zero_delay_propagate_total n m levels lvl
                (fanout_of c (gate_output g))
                (<[lvl := q]> (ZeroDelay.sw_queues st)) (ZeroDelay.sw_iteration st))
      as (lq1 & it1 & -> & Hlen1 & Hlq1); [done|by rewrite length_insert| |done|].
    { apply Forall_forall. intros h Hh. by eapply Hfo. }
    cbn [mbind result_mbind result_bind]. apply IH; [done..|].
    split; [simpl; by rewrite length_insert|]. by split.
  - apply IH; [done..|]. split; [done|]. split; [simpl; by rewrite length_insert|done].
Qed.

Lemma zero_delay_sweep_safe c lm levels n m fuel : ∀ lvls st,
  (∀ net g, g ∈ fanout_of c net → gate_ok n g) →
  (∀ g, ZeroDelay.level_of levels g < m) →
  Forall (λ lvl, lvl < m) lvls → sweep_ok n m st →
  no_raise (ZeroDelay.sweep_levels fuel c lm levels lvls st)
  ∧ ∀ st', ZeroDelay.sweep_levels fuel c lm levels lvls st = Ok st' → sweep_ok n m st'.
Proof.
  induction lvls as [|lvl lvls IH]; intros st Hfo Hlv Hlvls Hst;
    cbn [ZeroDelay.sweep_levels].
  { split; [done|]. by intros st' [= <-]. }
  apply Forall_cons in Hlvls as [Hlvl Hlvls].
  destruct (zero_delay_drain_safe c lm levels n m lvl fuel st) as [Hsafe Hok]; [done..|].
  destruct (ZeroDelay.drain_level fuel c lm levels lvl st) as [st1| |]; try done.
  cbn [mbind result_mbind result_bind]. apply IH; [done..|]. by apply Hok.
Qed.

Lemma zero_delay_passes_safe c lm levels n max_level fuel : ∀ remaining st,
  (∀ net g, g ∈ fanout_of c net → gate_ok n g) →
  (∀ g, ZeroDelay.level_of levels g < max_level + 1) →
  sweep_ok n (max_level + 1) st →
  no_raise (ZeroDelay.passes remaining fuel c lm levels max_level st)
  ∧ ∀ st', ZeroDelay.passes remaining fuel c lm levels max_level st = Ok st' →
           sweep_ok n (max_level + 1) st'.
Proof.
  induction remaining as [|remaining IH]; intros st Hfo Hlv Hst; cbn [ZeroDelay.passes].
  { split; [done|]. by intros st' [= <-]. }
  destruct (ZeroDelay.sw_iteration st); [|split; [done|]; by intros st' [= <-]].
  destruct (zero_delay_sweep_safe c lm levels n (max_level + 1) fuel
              (seq 0 (max_level + 1))
              (ZeroDelay.mkSweep (ZeroDelay.sw_values st) (ZeroDelay.sw_queues st)
                                 false (ZeroDelay.sw_count st)))
    as [Hsafe Hok]; [done|done| |done|].
  { apply Forall_forall. intros lvl Hin%elem_of_seq. lia. }
  destruct (ZeroDelay.sweep_levels _ _ _ _ _ _) as [st1| |]; try done.
  cbn [mbind result_mbind result_bind]. apply IH; [done..|]. by apply Hok.
Qed.

Lemma zero_delay_call_safe fuel s vec :
  zero_delay_ok s →
  no_raise (ZeroDelay.simulate_vector fuel s vec)
  ∧ ∀ s' hazards, ZeroDelay.simulate_vector fuel s vec = Ok (s', hazards) →
                  zero_delay_ok s'.
Proof.
  intros (Hnv & (Hpi & Hpo & Hfo) & Hlv).
  assert (∀ g, ZeroDelay.level_of (ZeroDelay.levels s) g < ZeroDelay.max_level s + 1)
    as Hlv'.
  { intros g. specialize (Hlv g). lia. }
  unfold ZeroDelay.simulate_vector.
  destruct (zero_delay_scan_total (ZeroDelay.circuit s) (ZeroDelay.num_nets s)
              (ZeroDelay.max_level s + 1) (ZeroDelay.levels s) vec
              (primary_inputs (ZeroDelay.circuit s)) (ZeroDelay.net_values s)
              (replicate (ZeroDelay.max_level s + 1) []))
    as (nv & lq & -> & Hnv' & Hlen & Hlq);
    [done|done|done|by rewrite length_replicate|done| |].
  { apply Forall_forall. intros q Hq%elem_of_replicate. destruct Hq as [-> _].
    constructor. }
  cbn [mbind result_mbind result_bind].
  destruct (zero_delay_passes_safe (ZeroDelay.circuit s) (ZeroDelay.logic_model s)
              (ZeroDelay.levels s) (ZeroDelay.num_nets s) (ZeroDelay.max_level s)
              fuel 2 (ZeroDelay.mkSweep nv lq true (ZeroDelay.gate_sim_count s)))
    as [Hsafe Hok]; [done|done|by split|].
  destruct (ZeroDelay.passes 2 _ _ _ _ _ _) as [st| |]; try done.
  cbn [mbind result_mbind result_bind].
  destruct (Hok st eq_refl) as (Hnv1 & _ & _).
  destruct (snapshot_total (ZeroDelay.sw_values st)
              (primary_outputs (ZeroDelay.circuit s))) as [snap ->];
    [by rewrite Hnv1|].
  cbn [mbind result_mbind result_bind]. split; [done|].
  intros s' hazards [= <- <-]. unfold zero_delay_ok. simpl.
  split; [done|]. split; [by split|done].
Qed.

(** *** Runs on circuits made with the builder *)

Lemma run_vectors_safe {S : Type}
    (simulate_vector : S → gmap nat string → result (S * list (nat * string)))
    (Inv : S → Prop) :
  (∀ s vec, Inv s →
     no_raise (simulate_vector s vec)
     ∧ ∀ s' hazards, simulate_vector s vec = Ok (s', hazards) → Inv s') →
  ∀ vectors s, Inv s → no_raise (run_vectors simulate_vector s vectors).
Proof.
  intros Hstep. induction vectors as [|vec vectors IH]; intros s Hs; [done|].
  cbn [run_vectors]. destruct (Hstep s vec Hs) as [Hsafe Hinv].
  destruct (simulate_vector s vec) as [[s1 hz]| |]; try done.
  cbn [mbind result_mbind result_bind].
  specialize (IH s1 (Hinv s1 hz eq_refl)).
  by destruct (run_vectors simulate_vector s1 vectors) as [[s2 hs]| |].
Qed.

Lemma built_circuit_ok c :
  built c → not_gates_have_input c → circuit_ok c (next_net_id c).
Proof.
  intros Hb Hnot. destruct (built_in_range c Hb) as (Hpi & Hpo & Hg).
  split; [done|]. split; [done|]. intros net g Hin.
  rewrite built_fanout_readers in Hin by done.
  apply elem_of_readers in Hin as [Hin _].
  eapply Forall_forall in Hg as (Hi & Ho & Hty); [|done].
  eapply Forall_forall in Hnot; [|done]. done.
Qed.

(** X19.  On a circuit made with the builder in which every NOT gate has
    an input, no sequence of [simulate_vector] calls on a fresh Two-List,
    Single-List-Event, Zero-Delay or Threaded simulator raises an
    exception, whatever the vectors hold: the simulator either returns
    from every call or keeps running. *)
Theorem built_circuit_never_raises (c : Circuit) (lm : string) (fuel : nat)
    (vectors : list (gmap nat string)) :
  built c → not_gates_have_input c →
  no_raise (run_vectors (TwoList.simulate_vector fuel) (TwoList.init c lm) vectors)
  ∧ no_raise (run_vectors (SingleListEvent.simulate_vector fuel)
                          (SingleListEvent.init c lm) vectors)
  ∧ (∀ fuel0 s, ZeroDelay.init fuel0 c lm = Ok s →
                no_raise (run_vectors (ZeroDelay.simulate_vector fuel) s vectors))
  ∧ no_raise (run_vectors (Threaded.simulate_vector fuel) (Threaded.init c lm) vectors).
Proof.
  intros Hb Hnot. pose proof (built_circuit_ok c Hb Hnot) as Hc.
  split; [|split; [|split]].
  - apply (run_vectors_safe _ two_list_ok); [intros; by apply two_list_call_safe|].
    unfold two_list_ok, TwoList.init. simpl.
    split; [by rewrite length_replicate|]. split; [|done].
    destruct (lm =? "2val"); by rewrite length_replicate.
  - apply (run_vectors_safe _ single_list_event_ok);
      [intros; by apply single_list_event_call_safe|].
    unfold single_list_event_ok, SingleListEvent.init. simpl.
    split; [by rewrite length_replicate|]. split; [|done].
    destruct (lm =? "2val"); by rewrite length_replicate.
  - intros fuel0 s Hinit.
    apply (run_vectors_safe _ zero_delay_ok); [intros; by apply zero_delay_call_safe|].
    pose proof (zero_delay_init_level_le _ _ _ _ Hinit) as Hlv.
    unfold ZeroDelay.init in Hinit.
    apply bind_Ok in Hinit as ([levels0 queue] & _ & Hinit).
    apply bind_Ok in Hinit as ([levels m] & _ & Hinit). injection Hinit as <-.
    unfold zero_delay_ok. simpl in *.
    split; [by rewrite length_replicate|done].
  - apply (run_vectors_safe _ threaded_ok); [intros; by apply threaded_call_safe|].
    unfold threaded_ok, Threaded.init. simpl.
    split; [by rewrite length_replicate|]. split; [done|]. split; constructor.
Qed.

Lemma built_circuit_never_raises_witness :
  no_raise (run_vectors (SingleListEvent.simulate_vector 10)
                        (SingleListEvent.init hazard_circuit "3val")
                        [{[0 := "1"]}; {[0 := "X"]}]).
Proof.
  refine (proj1 (proj2 (built_circuit_never_raises hazard_circuit "3val" 10
                          [{[0 := "1"]}; {[0 := "X"]}] _ _))).
  - unfold hazard_circuit. do 2 apply built_add_gate.
    apply built_set_primary_outputs, built_set_primary_inputs, built_init.
  - unfold not_gates_have_input. vm_compute gates.
    repeat constructor; simpl; intros _; discriminate.
Defined.

(** *** Zero-Delay on levelized circuits *)

Lemma drain_level_mono c lm levels lvl : ∀ fuel fuel' st st',
  (fuel <= fuel')%nat →
  ZeroDelay.drain_level fuel c lm levels lvl st = Ok st' →
  ZeroDelay.drain_level fuel' c lm levels lvl st = Ok st'.
Proof.
  induction fuel as [|fuel IH]; intros fuel' st st' Hle H.
  - cbn [ZeroDelay.drain_level] in H. apply bind_Ok in H as (q & Hq & H).
    destruct q; [|done]. destruct fuel'; cbn [ZeroDelay.drain_level]; by rewrite Hq.
  - destruct fuel' as [|fuel']; [lia|]. cbn [ZeroDelay.drain_level] in H |- *.
    destruct (ZeroDelay.bucket_get _ _) as [q| |]; try done.
    cbn [mbind result_mbind result_bind] in *. destruct q as [|g q]; [done|].
    destruct (simulate _ _ _) as [v| |]; try done.
    cbn [mbind result_mbind result_bind] in *.
    destruct (list_get _ _) as [cur| |]; try done.
    cbn [mbind result_mbind result_bind] in *.
    destruct (negb _); [|apply (IH fuel'); [lia|done]].
    destruct (list_set _ _ _) as [nv| |]; try done.
    cbn [mbind result_mbind result_bind] in *.
    destruct (ZeroDelay.propagate _ _ _ _ _) as [[lq it]| |]; try done.
    cbn [mbind result_mbind result_bind] in *. apply (IH fuel'); [lia|done].
Qed.

Lemma sweep_levels_mono c lm levels fuel fuel' : ∀ lvls st st',
  (fuel <= fuel')%nat →
  ZeroDelay.sweep_levels fuel c lm levels lvls st = Ok st' →
  ZeroDelay.sweep_levels fuel' c lm levels lvls st = Ok st'.
Proof.
  induction lvls as [|lvl lvls IH]; intros st st' Hle H; [done|].
  cbn [ZeroDelay.sweep_levels] in H |- *. apply bind_Ok in H as (st1 & Hd & H).
  rewrite (drain_level_mono _ _ _ _ _ _ _ _ Hle Hd).
  cbn [mbind result_mbind result_bind]. by apply IH.
Qed.

Lemma passes_mono c lm levels max_level fuel fuel' : ∀ remaining st st',
  (fuel <= fuel')%nat →
  ZeroDelay.passes remaining fuel c lm levels max_level st = Ok st' →
  ZeroDelay.passes remaining fuel' c lm levels max_level st = Ok st'.
Proof.
  induction remaining as [|remaining IH]; intros st st' Hle H; [done|].
  cbn [ZeroDelay.passes] in H |- *. destruct (ZeroDelay.sw_iteration st); [|done].
  apply bind_Ok in H as (st1 & Hs & H).
  rewrite (sweep_levels_mono _ _ _ _ _ _ _ _ Hle Hs).
  cbn [mbind result_mbind result_bind]. by apply IH.
Qed.

Lemma zero_delay_call_mono fuel fuel' s vec r :
  (fuel <= fuel')%nat →
  ZeroDelay.simulate_vector fuel s vec = Ok r →
  ZeroDelay.simulate_vector fuel' s vec = Ok r.
Proof.
  intros Hle H. unfold ZeroDelay.simulate_vector in H |- *.
  apply bind_Ok in H as ([nv lq] & -> & H). cbn [mbind result_mbind result_bind].
  apply bind_Ok in H as (st & Hp & H).
  rewrite (passes_mono _ _ _ _ _ _ _ _ _ Hle Hp). done.
Qed.

Lemma zero_delay_run_mono fuel fuel' : ∀ vectors s r,
  (fuel <= fuel')%nat →
  run_vectors (ZeroDelay.simulate_vector fuel) s vectors = Ok r →
  run_vectors (ZeroDelay.simulate_vector fuel') s vectors = Ok r.
Proof.
  induction vectors as [|vec vectors IH]; intros s r Hle H; [done|].
  cbn [run_vectors] in H |- *. apply bind_Ok in H as ([s1 hz] & Hc & H).
  rewrite (zero_delay_call_mono _ _ _ _ _ Hle Hc).
  cbn [mbind result_mbind result_bind].
  apply bind_Ok in H as ([s2 hs] & Hr & H).
  rewrite (IH _ _ Hle Hr). done.
Qed.

Section levelized.

Variables (c : Circuit) (lm : string) (levels : gmap nat nat) (n m : nat).
Hypothesis Hfo : ∀ net g, g ∈ fanout_of c net → gate_ok n g.
Hypothesis Hsub : ∀ net g, g ∈ fanout_of c net → g ∈ gates c.
Hypothesis Hlv : ∀ g, ZeroDelay.level_of levels g < m.
Hypothesis Hinc : levels_increase c levels.

Lemma bucket_add_levelled g lq lq' :
  ZeroDelay.bucket_add g (ZeroDelay.level_of levels g) lq = Ok lq' →
  g ∈ gates c → buckets_levelled c levels lq →
  buckets_levelled c levels lq'
  ∧ ∀ i, i ≠ ZeroDelay.level_of levels g → lq' !! i = lq !! i.
Proof.
  unfold ZeroDelay.bucket_add, ZeroDelay.bucket_get. intros H Hg Hb.
  destruct (lq !! ZeroDelay.level_of levels g) as [q|] eqn:Eq; [|done].
  cbn [mbind result_mbind result_bind] in H. injection H as <-.
  destruct (gate_in g q); [done|]. split.
  - intros i q' h Hq' Hh.
    destruct (decide (i = ZeroDelay.level_of levels g)) as [->|Hne].
    + rewrite list_lookup_insert_eq in Hq' by (by eapply lookup_lt_Some).
      injection Hq' as <-. apply elem_of_app in Hh as [Hh|Hh%list_elem_of_singleton].
      * by eapply Hb.
      * by subst.
    + rewrite list_lookup_insert_ne in Hq' by done. by eapply Hb.
  - intros i Hne. by rewrite list_lookup_insert_ne.
Qed.

Lemma zero_delay_schedule_levelled : ∀ fo lq lq',
  ZeroDelay.schedule levels fo lq = Ok lq' →
  Forall (λ g, g ∈ gates c) fo → buckets_levelled c levels lq →
  buckets_levelled c levels lq'.
Proof.
  induction fo as [|g fo IH]; intros lq lq' H Hfo' Hb; cbn [ZeroDelay.schedule] in H.
  - by injection H as <-.
  - apply Forall_cons in Hfo' as [Hg Hfo']. apply bind_Ok in H as (lq1 & Hadd & H).
    apply bucket_add_levelled in Hadd as [Hb1 _]; [|done..]. by eapply IH.
Qed.

Lemma zero_delay_scan_levelled vec : ∀ pis nv lq nv' lq',
  ZeroDelay.scan_inputs c levels pis vec nv lq = Ok (nv', lq') →
  buckets_levelled c levels lq → buckets_levelled c levels lq'.
Proof.
  induction pis as [|net pis IH]; intros nv lq nv' lq' H Hb;
    cbn [ZeroDelay.scan_inputs] in H.
  - by injection H as _ <-.
  - apply bind_Ok in H as (cur & _ & H). destruct (negb _); [|by eapply IH].
    apply bind_Ok in H as (nv1 & _ & H). apply bind_Ok in H as (lq1 & Hsch & H).
    eapply IH; [done|]. eapply zero_delay_schedule_levelled; [done| |done].
    apply Forall_forall. intros g Hg. by eapply Hsub.
Qed.

Lemma zero_delay_propagate_levelled lvl : ∀ fo lq it lq' it',
  ZeroDelay.propagate levels fo lvl lq it = Ok (lq', it') →
  Forall (λ h, h ∈ gates c ∧ lvl < ZeroDelay.level_of levels h) fo →
  buckets_levelled c levels lq →
  buckets_levelled c levels lq' ∧ lq' !! lvl = lq !! lvl ∧ it' = it.
Proof.
  induction fo as [|h fo IH]; intros lq it lq' it' H Hfo' Hb;
    cbn [ZeroDelay.propagate] in H.
  - by injection H as <- <-.
  - apply Forall_cons in Hfo' as [[Hh Hlt] Hfo']. apply bind_Ok in H as (lq1 & Hadd & H).
    apply bucket_add_levelled in Hadd as [Hb1 Hsame]; [|done..].
    apply IH in H as (Hb' & Hl & Hit); [|done..].
    split; [done|]. split.
    + rewrite Hl. apply Hsame. lia.
    + rewrite Hit. destruct (_ <? _)%nat eqn:E; [|done]. apply Nat.ltb_lt in E. lia.
Qed.

Lemma zero_delay_drain_returns lvl : ∀ k st q,
  ZeroDelay.sw_queues st !! lvl = Some q → length q = k →
  sweep_ok n m st → buckets_levelled c levels (ZeroDelay.sw_queues st) →
  ∃ st', ZeroDelay.drain_level k c lm levels lvl st = Ok st'
         ∧ sweep_ok n m st'
         ∧ buckets_levelled c levels (ZeroDelay.sw_queues st')
         ∧ ZeroDelay.sw_iteration st' = ZeroDelay.sw_iteration st.
Proof.
  induction k as [|k IH]; intros st q Hq Hlen Hst Hb;
    cbn [ZeroDelay.drain_level]; unfold ZeroDelay.bucket_get; rewrite Hq;
    cbn [mbind result_mbind result_bind]; destruct q as [|g q]; try done.
  { by exists st. }
  destruct Hst as (Hnv & Hm & Hlq).
  pose proof (lookup_lt_Some _ _ _ Hq) as Hlvl.
  destruct (Hb lvl (g :: q) g Hq) as [Hglv Hg]; [by left|].
  pose proof (Forall_lookup_1 _ _ _ _ Hlq Hq) as Hq'.
  apply Forall_cons in Hq' as [Hgok Hqok].
  destruct (simulate_total g (ZeroDelay.sw_values st) lm) as [v ->]; [by rewrite Hnv|].
  cbn [mbind result_mbind result_bind].
  pose proof Hgok as (_ & Hout & _).
  destruct (list_get_total (ZeroDelay.sw_values st) (gate_output g)) as [cur ->]; [lia|].
  cbn [mbind result_mbind result_bind].
  set (lq := <[lvl := q]> (ZeroDelay.sw_queues st)).
  assert (Forall (Forall (gate_ok n)) lq) as Hlq0 by by apply Forall_insert.
  assert (length lq = m) as Hm0 by (unfold lq; by rewrite length_insert).
  assert (lq !! lvl = Some q) as Hq0 by (unfold lq; by rewrite list_lookup_insert_eq).
  assert (buckets_levelled c levels lq) as Hb0.
  { intros i q' h Hq' Hh. destruct (decide (i = lvl)) as [->|Hne].
    - rewrite Hq0 in Hq'. injection Hq' as <-. eapply Hb; [done|by right].
    - unfold lq in Hq'. rewrite list_lookup_insert_ne in Hq' by done. by eapply Hb. }
  destruct (negb _).
  - unfold list_set. rewrite decide_True by lia. cbn [mbind result_mbind result_bind].
    destruct (zero_delay_propagate_total n m levels lvl (fanout_of c (gate_output g))
                lq (ZeroDelay.sw_iteration st))
      as (lq1 & it1 & Hprop & Hlen1 & Hlq1); [done|done| |done|].
    { apply Forall_forall. intros h Hh. by eapply Hfo. }
    rewrite Hprop. cbn [mbind result_mbind result_bind].
    apply zero_delay_propagate_levelled in Hprop as (Hb1 & Hl1 & ->); [|  |done].
    + rewrite Hq0 in Hl1.
      destruct (IH (ZeroDelay.mkSweep (<[gate_output g := v]> (ZeroDelay.sw_values st))
                      lq1 (ZeroDelay.sw_iteration st) (ZeroDelay.sw_count st + 1)) q)
        as (st' & -> & ? & ? & ?); [done|by injection Hlen| |done|by exists st'].
      split; [simpl; by rewrite length_insert|]. by split.
    + eapply Forall_forall in Hinc; [|exact Hg]. rewrite Hglv in Hinc.
      apply Forall_forall. intros h Hh. split; [by eapply Hsub|].
      by eapply Forall_forall in Hinc.
  - destruct (IH (ZeroDelay.mkSweep (ZeroDelay.sw_values st) lq
                    (ZeroDelay.sw_iteration st) (ZeroDelay.sw_count st + 1)) q)
      as (st' & -> & ? & ? & ?); [done|by injection Hlen|by split|done|by exists st'].
Qed.

Lemma zero_delay_sweep_returns : ∀ lvls st,
  Forall (λ lvl, lvl < m) lvls →
  sweep_ok n m st → buckets_levelled c levels (ZeroDelay.sw_queues st) →
  ∃ fuel st', ZeroDelay.sweep_levels fuel c lm levels lvls st = Ok st'
              ∧ sweep_ok n m st'
              ∧ buckets_levelled c levels (ZeroDelay.sw_queues st')
              ∧ ZeroDelay.sw_iteration st' = ZeroDelay.sw_iteration st.
Proof.
  induction lvls as [|lvl lvls IH]; intros st Hlvls Hst Hb.
  { by exists 0, st. }
  apply Forall_cons in Hlvls as [Hlvl Hlvls].
  destruct (lookup_lt_is_Some_2 (ZeroDelay.sw_queues st) lvl) as [q Hq].
  { destruct Hst as (_ & -> & _). done. }
  destruct (zero_delay_drain_returns lvl (length q) st q Hq eq_refl Hst Hb)
    as (st1 & Hd & Hst1 & Hb1 & Hit1).
  destruct (IH st1 Hlvls Hst1 Hb1) as (fuel2 & st2 & Hs & Hst2 & Hb2 & Hit2).
  exists (length q `max` fuel2), st2. split; [|split; [done|split; [done|congruence]]].
  cbn [ZeroDelay.sweep_levels].
  rewrite (drain_level_mono _ _ _ _ (length q) _ _ _ (Nat.le_max_l _ _) Hd).
  cbn [mbind result_mbind result_bind].
  by apply (sweep_levels_mono _ _ _ fuel2 _ _ _ _ (Nat.le_max_r _ _)).
Qed.

End levelized.

Lemma zero_delay_call_returns s vec :
  zero_delay_ok s →
  (∀ net g, g ∈ fanout_of (ZeroDelay.circuit s) net → g ∈ gates (ZeroDelay.circuit s)) →
  levels_increase (ZeroDelay.circuit s) (ZeroDelay.levels s) →
  ∃ fuel s', ZeroDelay.simulate_vector fuel s vec = Ok (s', [])
             ∧ zero_delay_ok s'
             ∧ ZeroDelay.circuit s' = ZeroDelay.circuit s
             ∧ ZeroDelay.levels s' = ZeroDelay.levels s.
Proof.
  intros (Hnv & (Hpi & Hpo & Hfo) & Hlv) Hsub Hinc.
  assert (∀ g, ZeroDelay.level_of (ZeroDelay.levels s) g < ZeroDelay.max_level s + 1)
    as Hlv'.
  { intros g. specialize (Hlv g). lia. }
  destruct (zero_delay_scan_total (ZeroDelay.circuit s) (ZeroDelay.num_nets s)
              (ZeroDelay.max_level s + 1) (ZeroDelay.levels s) vec
              (primary_inputs (ZeroDelay.circuit s)) (ZeroDelay.net_values s)
              (replicate (ZeroDelay.max_level s + 1) []))
    as (nv & lq & Hscan & Hnv' & Hlen & Hlq);
    [done|done|done|by rewrite length_replicate|done| |].
  { apply Forall_forall. intros q Hq%elem_of_replicate. destruct Hq as [-> _].
    constructor. }
  pose proof (zero_delay_scan_levelled _ _ Hsub _ _ _ _ _ _ Hscan) as Hb.
  destruct (zero_delay_sweep_returns (ZeroDelay.circuit s) (ZeroDelay.logic_model s)
              (ZeroDelay.levels s) (ZeroDelay.num_nets s) (ZeroDelay.max_level s + 1)
              Hfo Hsub Hlv' Hinc (seq 0 (ZeroDelay.max_level s + 1))
              (ZeroDelay.mkSweep nv lq false (ZeroDelay.gate_sim_count s)))
    as (fuel & st & Hsweep & (Hnv1 & Hst1) & _ & Hit).
  { apply Forall_forall. intros lvl Hin%elem_of_seq. lia. }
  { by split. }
  { apply Hb. intros i q g [-> _]%lookup_replicate Hg. by apply elem_of_nil in Hg. }
  destruct (snapshot_total (ZeroDelay.sw_values st)
              (primary_outputs (ZeroDelay.circuit s))) as [snap Hsnap];
    [by rewrite Hnv1|].
  exists fuel. eexists. unfold ZeroDelay.simulate_vector. rewrite Hscan.
  cbn [mbind result_mbind result_bind ZeroDelay.passes ZeroDelay.sw_iteration
       ZeroDelay.sw_values ZeroDelay.sw_queues ZeroDelay.sw_count].
  rewrite Hsweep. cbn [mbind result_mbind result_bind ZeroDelay.passes].
  simpl in Hit. rewrite Hit. cbn [mbind result_mbind result_bind].
  rewrite Hsnap. cbn [mbind result_mbind result_bind].
  split; [done|]. unfold zero_delay_ok, circuit_ok. simpl. tauto.
Qed.

Lemma zero_delay_run_returns : ∀ vectors s,
  zero_delay_ok s →
  (∀ net g, g ∈ fanout_of (ZeroDelay.circuit s) net → g ∈ gates (ZeroDelay.circuit s)) →
  levels_increase (ZeroDelay.circuit s) (ZeroDelay.levels s) →
  ∃ fuel s' hs, run_vectors (ZeroDelay.simulate_vector fuel) s vectors = Ok (s', hs).
Proof.
  induction vectors as [|vec vectors IH]; intros s Hs Hsub Hinc.
  { by exists 0, s, []. }
  destruct (zero_delay_call_returns s vec Hs Hsub Hinc)
    as (fuel1 & s1 & Hcall & Hs1 & Hc1 & Hl1).
  destruct (IH s1 Hs1) as (fuel2 & s2 & hs & Hrun).
  { by rewrite Hc1. }
  { by rewrite Hc1, Hl1. }
  exists (fuel1 `max` fuel2), s2, ([] :: hs). cbn [run_vectors].
  rewrite (zero_delay_call_mono fuel1 _ _ _ _ (Nat.le_max_l _ _) Hcall).
  cbn [mbind result_mbind result_bind].
  rewrite (zero_delay_run_mono fuel2 _ _ _ _ (Nat.le_max_r _ _) Hrun). done.
Qed.

(** X20.  On a circuit made with the builder in which every NOT gate has
    an input, if the levels computed by [ZeroDelaySimulator.__init__]
    strictly increase along every fanout edge, then every sequence of
    [simulate_vector] calls on the new simulator returns: no call raises
    and no level bucket is drained without end. *)
Theorem zero_delay_levelized_run_returns (c : Circuit) (lm : string) (fuel0 : nat)
    (s : ZeroDelay.Sim) (vectors : list (gmap nat string)) :
  built c → not_gates_have_input c →
  ZeroDelay.init fuel0 c lm = Ok s →
  levels_increase c (ZeroDelay.levels s) →
  ∃ fuel s' hs, run_vectors (ZeroDelay.simulate_vector fuel) s vectors = Ok (s', hs).
Proof.
  intros Hb Hnot Hinit Hinc.
  pose proof (built_circuit_ok c Hb Hnot) as Hc.
  pose proof (zero_delay_init_level_le _ _ _ _ Hinit) as Hlv.
  unfold ZeroDelay.init in Hinit.
  apply bind_Ok in Hinit as ([levels0 queue] & _ & Hinit).
  apply bind_Ok in Hinit as ([levels m] & _ & Hinit). injection Hinit as <-.
  simpl in *. apply zero_delay_run_returns; simpl; [|  |done].
  - split; [simpl; by rewrite length_replicate|]. by split.
  - intros net g Hg. rewrite built_fanout_readers in Hg by done.
    by apply elem_of_readers in Hg as [? _].
Qed.

Lemma zero_delay_levelized_run_returns_witness :
  ∃ s fuel s' hs,
    ZeroDelay.init 5 chain_circuit "2val" = Ok s
    ∧ run_vectors (ZeroDelay.simulate_vector fuel) s [{[0 := "1"]}; {[0 := "0"]}]
      = Ok (s', hs).
Proof.
  destruct (ZeroDelay.init 5 chain_circuit "2val") as [s| |] eqn:E;
    [|by vm_compute in E..].
  destruct (zero_delay_levelized_run_returns chain_circuit "2val" 5 s
              [{[0 := "1"]}; {[0 := "0"]}]) as (fuel & s' & hs & Hrun); [| |done| |].
  - unfold chain_circuit. do 2 apply built_add_gate.
    apply built_set_primary_outputs, built_set_primary_inputs, built_init.
  - unfold not_gates_have_input. vm_compute gates.
    repeat constructor; simpl; intros _; discriminate.
  - vm_compute in E. injection E as <-. unfold levels_increase.
    repeat (apply Forall_cons; split); try apply Forall_nil; vm_compute; lia.
  - by exists s, fuel, s', hs.
Defined.

(** ** Returning calls leave a stable state *)

Lemma list_get_ext {A : Type} (l l' : list A) i :
  l !! i = l' !! i → list_get l i = list_get l' i.
Proof. unfold list_get. by intros ->. Qed.

Lemma logic_and_ext lm nv nv' : ∀ inputs,
  (∀ i, i ∈ inputs → nv !! i = nv' !! i) →
  logic_and inputs nv lm = logic_and inputs nv' lm.
Proof.
  induction inputs as [|i inputs IH]; intros H; [done|].
  cbn [logic_and]. rewrite (list_get_ext nv nv' i) by (apply H; by left).
  destruct (list_get nv' i) as [v| |]; try done. cbn [mbind result_mbind result_bind].
  rewrite IH; [done|]. intros j Hj. apply H. by right.
Qed.

Lemma logic_or_ext lm nv nv' : ∀ inputs,
  (∀ i, i ∈ inputs → nv !! i = nv' !! i) →
  logic_or inputs nv lm = logic_or inputs nv' lm.
Proof.
  induction inputs as [|i inputs IH]; intros H; [done|].
  cbn [logic_or]. rewrite (list_get_ext nv nv' i) by (apply H; by left).
  destruct (list_get nv' i) as [v| |]; try done. cbn [mbind result_mbind result_bind].
  rewrite IH; [done|]. intros j Hj. apply H. by right.
Qed.

Lemma logic_xor_loop_ext nv nv' : ∀ inputs ones,
  (∀ i, i ∈ inputs → nv !! i = nv' !! i) →
  logic_xor_loop inputs nv ones = logic_xor_loop inputs nv' ones.
Proof.
  induction inputs as [|i inputs IH]; intros ones H; [done|].
  cbn [logic_xor_loop]. rewrite (list_get_ext nv nv' i) by (apply H; by left).
  destruct (list_get nv' i) as [v| |]; try done. cbn [mbind result_mbind result_bind].
  assert (∀ j, j ∈ inputs → nv !! j = nv' !! j) as H' by (intros j Hj; apply H; by right).
  by rewrite !IH.
Qed.

(** A gate reads its input nets only. *)
Lemma simulate_ext g nv nv' lm :
  (∀ i, i ∈ gate_inputs g → nv !! i = nv' !! i) →
  simulate g nv lm = simulate g nv' lm.
Proof.
  intros H. unfold simulate.
  assert (∀ i, list_get (gate_inputs g) 0 = Ok i →
               logic_not i nv lm = logic_not i nv' lm) as Hnot.
  { intros i Hi%list_get_Ok. unfold logic_not.
    rewrite (list_get_ext nv nv' i); [done|]. apply H. by eapply list_elem_of_lookup_2. }
  destruct (gate_type g =? "NOT").
  { destruct (list_get (gate_inputs g) 0) as [i| |] eqn:E; try done. by apply Hnot. }
  unfold GATE_FUNCS.
  destruct (gate_type g =? "AND"); [by apply logic_and_ext|].
  destruct (gate_type g =? "OR"); [by apply logic_or_ext|].
  destruct (gate_type g =? "NOT").
  { destruct (list_get (gate_inputs g) 0) as [i| |] eqn:E; try done. by apply Hnot. }
  destruct (gate_type g =? "NAND"); [unfold logic_nand; by rewrite (logic_and_ext lm nv nv')|].
  destruct (gate_type g =? "NOR"); [unfold logic_nor; by rewrite (logic_or_ext lm nv nv')|].
  destruct (gate_type g =? "XOR"); [by apply logic_xor_loop_ext|].
  destruct (gate_type g =? "XNOR"); [|done].
  unfold logic_xnor, logic_xor. by rewrite (logic_xor_loop_ext nv nv').
Qed.

Lemma pending_value_app evq1 : ∀ evq2 net x,
  pending_value (evq1 ++ evq2) net x = pending_value evq2 net (pending_value evq1 net x).
Proof. induction evq1 as [|ev evq1 IH]; intros evq2 net x; simpl; [done|]. apply IH. Qed.

Lemma pending_value_other evq net : ∀ x,
  Forall (λ ev, ev_net ev ≠ net) evq → pending_value evq net x = x.
Proof.
  induction evq as [|ev evq IH]; intros x H; simpl; [done|].
  apply Forall_cons in H as [Hev H]. rewrite decide_False by done. by apply IH.
Qed.

Lemma pending_value_const evq net v : ∀ x,
  (∀ ev, ev ∈ evq → ev_net ev = net → ev_value ev = v) →
  (∃ ev, ev ∈ evq ∧ ev_net ev = net) ∨ x = Some v →
  pending_value evq net x = Some v.
Proof.
  induction evq as [|ev evq IH]; intros x Hall Hx; simpl.
  { destruct Hx as [(ev & Hev & _)|Hx]; [by apply elem_of_nil in Hev|done]. }
  apply IH; [intros e He; apply Hall; by right|].
  case_decide as Hnet.
  - right. f_equal. apply Hall; [by left|done].
  - destruct Hx as [(e & [->|He]%elem_of_cons & Hn)|Hx]; [done| |by right].
    left. by exists e.
Qed.

Lemma commit_lookup net val nv cc nv' cc' :
  commit net val nv cc = Ok (nv', cc') →
  ∀ k, nv' !! k = if decide (net = k) then Some val else nv !! k.
Proof.
  unfold commit. intros H k. apply bind_Ok in H as (cur & Hcur%list_get_Ok & H).
  destruct (String.eqb_spec val cur) as [->|Hne]; simpl in H.
  - injection H as <- <-. case_decide; [by subst|done].
  - inv_ok. case_decide as Hk.
    + subst k. by rewrite list_lookup_insert_eq.
    + by rewrite list_lookup_insert_ne.
Qed.

Lemma gate_in_ids g q : gate_in g q = true ↔ gate_id g ∈ gate_id <$> q.
Proof.
  unfold gate_in. rewrite existsb_exists, list_elem_of_fmap. split.
  - intros (h & Hh%list_elem_of_In & Heq%Nat.eqb_eq). by exists h.
  - intros (h & Heq & Hh). exists h. split; [by apply list_elem_of_In|].
    by apply Nat.eqb_eq.
Qed.

Lemma gate_in_elem g q : g ∈ q → gate_in g q = true.
Proof. intros Hg. apply gate_in_ids, list_elem_of_fmap. by exists g. Qed.

(** *** Two-List *)

Lemma two_list_schedule_spec fo : ∀ gq,
  (∀ h, h ∈ TwoList.schedule_fanout fo gq → h ∈ gq ∨ h ∈ fo)
  ∧ (NoDup (gate_id <$> gq) → NoDup (gate_id <$> TwoList.schedule_fanout fo gq)).
Proof.
  induction fo as [|g fo IH]; intros gq; simpl.
  { split; [by left|done]. }
  destruct (IH (if gate_in g gq then gq else gq ++ [g])) as [IH1 IH2]. split.
  - intros h Hh. destruct (IH1 h Hh) as [Hq|Hf]; [|right; by right].
    destruct (gate_in g gq); [by left|].
    apply elem_of_app in Hq as [Hq|Hq%list_elem_of_singleton]; [by left|].
    right. subst. by left.
  - intros Hnd. apply IH2. destruct (gate_in g gq) eqn:E; [done|].
    rewrite fmap_app. apply NoDup_app. split; [done|]. split; [|apply NoDup_singleton].
    intros id Hid Hid'%list_elem_of_singleton. subst id.
    apply gate_in_ids in Hid. congruence.
Qed.

Lemma two_list_drain_spec c : ∀ evq nv cc gq nv' cc' gq',
  TwoList.drain_events c evq nv cc gq = Ok (nv', cc', gq') →
  (∀ k, nv' !! k = pending_value evq k (nv !! k))
  ∧ (∀ h, h ∈ gq' → h ∈ gq ∨ ∃ ev, ev ∈ evq ∧ h ∈ fanout_of c (ev_net ev))
  ∧ (∀ ev h, ev ∈ evq → h ∈ fanout_of c (ev_net ev) → gate_in h gq' = true)
  ∧ (∀ h, gate_in h gq = true → gate_in h gq' = true)
  ∧ (NoDup (gate_id <$> gq) → NoDup (gate_id <$> gq')).
Proof.
  induction evq as [|ev evq IH]; intros nv cc gq nv' cc' gq' H;
    cbn [TwoList.drain_events] in H.
  { injection H as <- <- <-. split; [done|]. split; [by left|].
    split; [by intros ev h ?%elem_of_nil|done]. }
  apply bind_Ok in H as ([nv1 cc1] & Hcm & H).
  apply IH in H as (Hv & Hel & Hfo & Hin & Hnd).
  destruct (two_list_schedule_spec (fanout_of c (ev_net ev)) gq) as [Hs1 Hs2].
  destruct (schedule_fanout_queued (fanout_of c (ev_net ev)) gq) as [Hk Hf].
  split; [|split; [|split; [|split]]].
  - intros k. rewrite Hv. simpl. by rewrite (commit_lookup _ _ _ _ _ _ Hcm k).
  - intros h Hh. destruct (Hel h Hh) as [Hq|(e & He & Hq)].
    + destruct (Hs1 h Hq) as [?|?]; [by left|]. right. exists ev. split; [by left|done].
    + right. exists e. split; [by right|done].
  - intros e h [->|He]%elem_of_cons Hh; [|by eapply Hfo]. by apply Hin, Hf.
  - intros h Hh. by apply Hin, Hk.
  - intros Hgq. by apply Hnd, Hs2.
Qed.

Lemma two_list_gate_phase_spec lm nv : ∀ gq cnt evq cnt' evq',
  TwoList.gate_phase lm gq nv cnt evq = Ok (cnt', evq') →
  NoDup (gate_output <$> gq) →
  (∀ k x, k ∉ gate_output <$> gq →
          pending_value evq' k x = pending_value evq k x)
  ∧ (∀ g, g ∈ gq →
          pending_value evq (gate_output g) (nv !! gate_output g)
          = nv !! gate_output g →
          ∃ v, simulate g nv lm = Ok v
               ∧ pending_value evq' (gate_output g) (nv !! gate_output g) = Some v).
Proof.
  induction gq as [|g gq IH]; intros cnt evq cnt' evq' H Hnd;
    cbn [TwoList.gate_phase] in H.
  { injection H as <- <-. split; [done|]. by intros g ?%elem_of_nil. }
  apply bind_Ok in H as (v & Hv & H). apply bind_Ok in H as (cur & Hcur%list_get_Ok & H).
  rewrite fmap_cons in Hnd. apply NoDup_cons in Hnd as [Hg Hnd].
  apply IH in H as [IH1 IH2]; [|done].
  set (evq1 := if negb (v =? cur) then evq ++ [mkEv (gate_output g) v] else evq) in *.
  assert (∀ k x, k ≠ gate_output g → pending_value evq1 k x = pending_value evq k x)
    as Hother.
  { intros k x Hk. unfold evq1. destruct (negb _); [|done].
    rewrite pending_value_app. simpl. by rewrite decide_False. }
  split.
  - intros k x Hk. rewrite fmap_cons in Hk. apply not_elem_of_cons in Hk as [Hk1 Hk2].
    rewrite IH1 by done. by apply Hother.
  - intros h [->|Hh]%elem_of_cons Hpend.
    + exists v. split; [done|]. rewrite IH1 by done. unfold evq1.
      destruct (String.eqb_spec v cur) as [->|Hne]; simpl.
      * by rewrite Hpend.
      * rewrite pending_value_app. simpl. by rewrite decide_True.
    + apply IH2; [done|]. rewrite Hother; [done|].
      intros Heq. apply Hg. rewrite <- Heq. apply list_elem_of_fmap. by exists h.
Qed.

Section stable_step.

Variables (c : Circuit) (lm : string).
Hypothesis Hids : ∀ g h, g ∈ gates c → h ∈ gates c → gate_id g = gate_id h → g = h.
Hypothesis Hfan : ∀ net g, g ∈ fanout_of c net ↔ g ∈ gates c ∧ net ∈ gate_inputs g.
Hypothesis Hdrv : ∀ g h, g ∈ gates c → h ∈ gates c → gate_output g = gate_output h → g = h.

Lemma queued_outputs_NoDup gq :
  (∀ h, h ∈ gq → h ∈ gates c) → NoDup (gate_id <$> gq) → NoDup (gate_output <$> gq).
Proof.
  intros Hsub Hnd. apply NoDup_fmap_2_strong; [|by eapply NoDup_fmap_1].
  intros g h Hg Hh. apply Hdrv; by apply Hsub.
Qed.

Lemma two_list_step nv evq cc nv1 cc1 gq cnt cnt' evq' :
  settling c lm nv evq →
  TwoList.drain_events c evq nv cc [] = Ok (nv1, cc1, gq) →
  TwoList.gate_phase lm gq nv1 cnt [] = Ok (cnt', evq') →
  settling c lm nv1 evq'
  ∧ ∀ k, (∀ g, g ∈ gates c → gate_output g ≠ k) →
         pending_value evq' k (nv1 !! k) = pending_value evq k (nv !! k).
Proof.
  intros Hinv Hdrain Hphase.
  apply two_list_drain_spec in Hdrain as (Hv & Hel & Hfo & _ & Hnd).
  assert (∀ h, h ∈ gq → h ∈ gates c) as Hsub.
  { intros h Hh. destruct (Hel h Hh) as [Hn|(ev & _ & Hq)]; [by apply elem_of_nil in Hn|].
    by apply Hfan in Hq as [? _]. }
  assert (NoDup (gate_output <$> gq)) as Hout.
  { apply queued_outputs_NoDup; [done|]. apply Hnd. constructor. }
  apply two_list_gate_phase_spec in Hphase as [Hp1 Hp2]; [|done].
  split.
  - intros g Hg. destruct (gate_in g gq) eqn:Hin.
    + apply gate_in_ids, list_elem_of_fmap in Hin as (h & Hid & Hh).
      assert (h = g) as -> by (apply Hids; [by apply Hsub|done|done]).
      by apply Hp2.
    + destruct (Hinv g Hg) as (v & Hsim & Hpend). exists v.
      assert (∀ i, i ∈ gate_inputs g → nv1 !! i = nv !! i) as Hsame.
      { intros i Hi. rewrite Hv. apply pending_value_other, Forall_forall.
        intros ev Hev Hnet. subst i.
        assert (gate_in g gq = true) as Hin'; [|congruence].
        eapply Hfo; [done|]. by apply Hfan. }
      split; [by rewrite (simulate_ext g nv1 nv lm Hsame)|].
      rewrite Hp1, Hv; [done|].
      intros (h & Heq & Hh)%list_elem_of_fmap.
      assert (g = h) as -> by (apply Hdrv; [done|by apply Hsub|done]).
      apply gate_in_elem in Hh. congruence.
  - intros k Hk. rewrite Hp1, Hv; [done|].
    intros (h & Heq & Hh)%list_elem_of_fmap. by eapply Hk; [apply Hsub|].
Qed.

Lemma two_list_settle_stable fuel : ∀ s evq cc t s' cc',
  TwoList.circuit s = c → TwoList.logic_model s = lm →
  TwoList.settle fuel s evq cc t = Ok (s', cc') →
  settling c lm (TwoList.net_values s) evq →
  settling c lm (TwoList.net_values s') []
  ∧ ∀ k, (∀ g, g ∈ gates c → gate_output g ≠ k) →
         TwoList.net_values s' !! k = pending_value evq k (TwoList.net_values s !! k).
Proof.
  induction fuel as [|fuel IH]; intros s evq cc t s' cc' Hc Hlm H Hinv;
    destruct evq as [|ev evq]; cbn [TwoList.settle] in H;
    try (injection H as <- <-; by split); [done|].
  apply bind_Ok in H as ([[nv1 cc1] gq] & Hdrain & H).
  destruct gq as [|g gq].
  - rewrite Hc in Hdrain.
    destruct (two_list_step _ _ _ _ _ _ 0 0 [] Hinv Hdrain eq_refl) as [Hinv1 Hk1].
    apply IH in H as [Hst Hk]; [|done..]. split; [done|].
    intros k Hk'. rewrite Hk by done. simpl. by apply (Hk1 k).
  - apply bind_Ok in H as (snap & _ & H).
    apply bind_Ok in H as ([cnt evq'] & Hphase & H).
    rewrite Hc in Hdrain. rewrite Hlm in Hphase.
    destruct (two_list_step _ _ _ _ _ _ _ _ _ Hinv Hdrain Hphase) as [Hinv1 Hk1].
    apply IH in H as [Hst Hk]; [|done..]. split; [done|].
    intros k Hk'. rewrite Hk by done. simpl. by apply Hk1.
Qed.

End stable_step.

Lemma two_list_scan_events vec lm nv : ∀ pis evq nm evq' nm',
  TwoList.scan_inputs pis vec lm nv evq nm = Ok (evq', nm') →
  (∀ ev, ev ∈ evq → ev ∈ evq')
  ∧ (∀ ev, ev ∈ evq' →
           ev ∈ evq
           ∨ (ev_net ev ∈ pis
              ∧ ∃ cur, nv !! ev_net ev = Some cur
                       ∧ ev_value ev = default cur (vec !! ev_net ev)))
  ∧ (∀ k cur, k ∈ pis → nv !! k = Some cur →
              (∃ ev, ev ∈ evq' ∧ ev_net ev = k) ∨ default cur (vec !! k) = cur).
Proof.
  induction pis as [|net pis IH]; intros evq nm evq' nm' H;
    cbn [TwoList.scan_inputs] in H.
  { injection H as <- <-. split; [done|]. split; [by left|]. by intros k cur ?%elem_of_nil. }
  apply bind_Ok in H as (cur & Hcur%list_get_Ok & H).
  set (val := default cur (vec !! net)) in *.
  assert (∀ evq1 nm1,
            TwoList.scan_inputs pis vec lm nv evq1 nm1 = Ok (evq', nm') →
            (evq1 = evq ∧ val = cur) ∨ evq1 = evq ++ [mkEv net val] →
            (∀ ev, ev ∈ evq → ev ∈ evq')
            ∧ (∀ ev, ev ∈ evq' →
                     ev ∈ evq
                     ∨ (ev_net ev ∈ net :: pis
                        ∧ ∃ cur, nv !! ev_net ev = Some cur
                                 ∧ ev_value ev = default cur (vec !! ev_net ev)))
            ∧ (∀ k cur, k ∈ net :: pis → nv !! k = Some cur →
                        (∃ ev, ev ∈ evq' ∧ ev_net ev = k) ∨ default cur (vec !! k) = cur))
    as Hgen.
  { intros evq1 nm1 H1 Hcase. apply IH in H1 as (Hkeep & Hfrom & Hcov).
    split; [|split].
    - intros ev Hev. apply Hkeep. destruct Hcase as [[-> _]| ->]; [done|].
      apply elem_of_app. by left.
    - intros ev Hev. destruct (Hfrom ev Hev) as [Hq|(Hin & Hval)].
      + destruct Hcase as [[-> _]| ->]; [by left|].
        apply elem_of_app in Hq as [Hq|Hq%list_elem_of_singleton]; [by left|].
        right. subst ev. simpl. split; [by left|]. by exists cur.
      + right. split; [by right|done].
    - intros k cur' [->|Hk]%elem_of_cons Hk'; [|by eapply Hcov].
      rewrite Hcur in Hk'. injection Hk' as <-.
      destruct Hcase as [[-> Hval]| ->]; [by right|].
      left. exists (mkEv net val). split; [|done]. apply Hkeep, elem_of_app. right.
      by apply list_elem_of_singleton. }
  destruct (lm =? "2val").
  - apply bind_Ok in H as (fire & Hfire & H). destruct fire.
    + apply bind_Ok in H as (nm1 & _ & H). eapply Hgen; [done|by right].
    + eapply Hgen; [done|]. left. split; [done|].
      destruct (String.eqb_spec val cur); [done|]. simpl in Hfire. discriminate.
  - destruct (String.eqb_spec val cur); simpl in H.
    + eapply Hgen; [done|]. by left.
    + eapply Hgen; [done|by right].
Qed.

Lemma single_driver_inj c :
  single_driver c →
  ∀ g h, g ∈ gates c → h ∈ gates c → gate_output g = gate_output h → g = h.
Proof.
  unfold single_driver. induction (gates c) as [|a l IH]; intros Hnd g h Hg Hh Heq.
  { by apply elem_of_nil in Hg. }
  rewrite fmap_cons in Hnd. apply NoDup_cons in Hnd as [Ha Hnd].
  apply elem_of_cons in Hg as [->|Hg]; apply elem_of_cons in Hh as [->|Hh].
  - done.
  - exfalso. apply Ha. rewrite Heq. apply list_elem_of_fmap. by exists h.
  - exfalso. apply Ha. rewrite <- Heq. apply list_elem_of_fmap. by exists g.
  - by apply IH.
Qed.

Lemma stable_settling c lm nv evq :
  stable c lm nv →
  (∀ ev g, ev ∈ evq → g ∈ gates c → gate_output g ≠ ev_net ev) →
  settling c lm nv evq.
Proof.
  intros Hst Hev g Hg. eapply Forall_forall in Hst as (v & Hsim & Hout); [|done].
  exists v. split; [done|]. rewrite pending_value_other; [done|].
  apply Forall_forall. intros ev He Heq. by eapply Hev.
Qed.

Lemma settling_stable c lm nv : settling c lm nv [] → stable c lm nv.
Proof. intros H. apply Forall_forall. intros g Hg. by apply H. Qed.

Lemma two_list_scan_in_range vec lm nv : ∀ pis evq nm evq' nm',
  TwoList.scan_inputs pis vec lm nv evq nm = Ok (evq', nm') →
  Forall (λ k, k < length nv) pis.
Proof.
  induction pis as [|net pis IH]; intros evq nm evq' nm' H; [constructor|].
  cbn [TwoList.scan_inputs] in H.
  apply bind_Ok in H as (cur & Hcur%list_get_Ok%lookup_lt_Some & H).
  constructor; [done|]. destruct (lm =? "2val").
  - apply bind_Ok in H as (fire & _ & H). destruct fire; [|by eapply IH].
    apply bind_Ok in H as (nm1 & _ & H). by eapply IH.
  - destruct (negb _); by eapply IH.
Qed.

Lemma two_list_call_stable fuel s s' vec hazards :
  built (TwoList.circuit s) →
  single_driver (TwoList.circuit s) →
  inputs_undriven (TwoList.circuit s) →
  stable (TwoList.circuit s) (TwoList.logic_model s) (TwoList.net_values s) →
  TwoList.simulate_vector fuel s vec = Ok (s', hazards) →
  stable (TwoList.circuit s) (TwoList.logic_model s) (TwoList.net_values s')
  ∧ (∀ k cur, k ∈ primary_inputs (TwoList.circuit s) →
              TwoList.net_values s !! k = Some cur →
              TwoList.net_values s' !! k = Some (default cur (vec !! k)))
  ∧ (∀ k, k ∉ primary_inputs (TwoList.circuit s) →
          (∀ g, g ∈ gates (TwoList.circuit s) → gate_output g ≠ k) →
          TwoList.net_values s' !! k = TwoList.net_values s !! k)
  ∧ Forall (λ k, k < length (TwoList.net_values s)) (primary_inputs (TwoList.circuit s)).
Proof.
  intros Hb Hdrv Hpi Hst H.
  unfold TwoList.simulate_vector, TwoList.simulate_core in H.
  apply bind_Ok in H as ([s1 cc] & H1 & H).
  apply bind_Ok in H1 as ([evq nm] & Hscan & Hsettle).
  apply bind_Ok in H as (snap & _ & H). apply bind_Ok in H as (hz & _ & H).
  injection H as <- <-. simpl.
  pose proof (two_list_scan_in_range _ _ _ _ _ _ _ _ Hscan) as Hrange.
  apply two_list_scan_events in Hscan as (_ & Hfrom & Hcov).
  assert (∀ k, k ∈ primary_inputs (TwoList.circuit s) →
               ∀ g, g ∈ gates (TwoList.circuit s) → gate_output g ≠ k) as Hund.
  { intros k Hk g Hg Heq. eapply Forall_forall in Hpi; [|done]. by rewrite Heq in Hpi. }
  eapply (two_list_settle_stable (TwoList.circuit s) (TwoList.logic_model s))
    in Hsettle as [Hstable Hvals]; [| | | |done|done|].
  - split; [by apply settling_stable|]. split; [|split; [|done]].
    + intros k cur Hk Hcur.
      rewrite Hvals by (by apply Hund). simpl. rewrite Hcur.
      apply pending_value_const.
      * intros ev Hev Hnet. destruct (Hfrom ev Hev) as [Hn|(_ & cur' & Hc' & ->)];
          [by apply elem_of_nil in Hn|]. rewrite Hnet in *. congruence.
      * destruct (Hcov k cur Hk Hcur) as [?|Heq]; [by left|]. right. by rewrite Heq.
    + intros k Hk Hk'. rewrite Hvals by done. simpl.
      apply pending_value_other, Forall_forall. intros ev Hev Hnet.
      destruct (Hfrom ev Hev) as [Hn|(Hin & _)]; [by apply elem_of_nil in Hn|].
      by rewrite Hnet in Hin.
  - by apply built_gate_id_unique.
  - intros net g. rewrite built_fanout_readers by done. apply elem_of_readers.
  - by apply single_driver_inj.
  - simpl. apply stable_settling; [done|]. intros ev g Hev Hg.
    destruct (Hfrom ev Hev) as [Hn|(Hin & _)]; [by apply elem_of_nil in Hn|].
    by apply Hund.
Qed.

(** X21.  On a circuit made with the builder in which no net has two
    drivers and no gate drives a primary input, a Two-List call that
    starts from a stable state and returns ends in a stable state: every
    gate's output net holds what the gate evaluates to, every primary
    input holds the value the vector supplies (its old value where the
    vector has no entry), and a net that is neither a primary input nor
    the output of a gate keeps its value. *)
Theorem two_list_returns_stable (fuel : nat) (s s' : TwoList.Sim)
    (vec : gmap nat string) (hazards : list (nat * string)) :
  built (TwoList.circuit s) →
  single_driver (TwoList.circuit s) →
  inputs_undriven (TwoList.circuit s) →
  stable (TwoList.circuit s) (TwoList.logic_model s) (TwoList.net_values s) →
  TwoList.simulate_vector fuel s vec = Ok (s', hazards) →
  stable (TwoList.circuit s) (TwoList.logic_model s) (TwoList.net_values s')
  ∧ (∀ k cur, k ∈ primary_inputs (TwoList.circuit s) →
              TwoList.net_values s !! k = Some cur →
              TwoList.net_values s' !! k = Some (default cur (vec !! k)))
  ∧ (∀ k, k ∉ primary_inputs (TwoList.circuit s) →
          (∀ g, g ∈ gates (TwoList.circuit s) → gate_output g ≠ k) →
          TwoList.net_values s' !! k = TwoList.net_values s !! k).
Proof.
  intros Hb Hdrv Hpi Hst H.
  destruct (two_list_call_stable _ _ _ _ _ Hb Hdrv Hpi Hst H) as (? & ? & ? & _).
  done.
Qed.

(** *** Threaded *)

Lemma threaded_scan_events vec nv : ∀ pis es es',
  Threaded.scan_inputs pis vec nv es = Ok es' →
  (∀ ev, ev ∈ es → ev ∈ es')
  ∧ (∀ ev, ev ∈ es' →
           ev ∈ es
           ∨ (ev_net ev ∈ pis
              ∧ ∃ cur, nv !! ev_net ev = Some cur
                       ∧ ev_value ev = default cur (vec !! ev_net ev)))
  ∧ (∀ k cur, k ∈ pis → nv !! k = Some cur →
              (∃ ev, ev ∈ es' ∧ ev_net ev = k) ∨ default cur (vec !! k) = cur).
Proof.
  induction pis as [|net pis IH]; intros es es' H; cbn [Threaded.scan_inputs] in H.
  { injection H as <-. split; [done|]. split; [by left|]. by intros k cur ?%elem_of_nil. }
  apply bind_Ok in H as (cur & Hcur%list_get_Ok & H).
  set (val := default cur (vec !! net)) in *.
  apply IH in H as (Hkeep & Hfrom & Hcov). split; [|split].
  - intros ev Hev. apply Hkeep. destruct (negb _); [by right|done].
  - intros ev Hev. destruct (Hfrom ev Hev) as [Hq|(Hin & Hval)].
    + destruct (negb _); [|by left].
      apply elem_of_cons in Hq as [->|Hq]; [|by left].
      right. simpl. split; [by left|]. by exists cur.
    + right. split; [by right|done].
  - intros k cur' [->|Hk]%elem_of_cons Hk'; [|by eapply Hcov].
    rewrite Hcur in Hk'. injection Hk' as <-.
    destruct (String.eqb_spec val cur) as [Heq|Hne]; simpl in *; [by right|].
    left. exists (mkEv net val). split; [|done]. apply Hkeep. by left.
Qed.

Lemma push_fanout_spec : ∀ fo gs,
  (∀ h, h ∈ Threaded.push_fanout fo gs ↔ h ∈ fo ∨ h ∈ gs).
Proof.
  induction fo as [|g fo IH]; intros gs h; simpl.
  { split; [by right|]. by intros [?%elem_of_nil|?]. }
  unfold Threaded.push_fanout in IH. rewrite IH, !elem_of_cons. tauto.
Qed.

Section threaded_stable.

Variables (c : Circuit) (lm : string).
Hypothesis Hids : ∀ g h, g ∈ gates c → h ∈ gates c → gate_id g = gate_id h → g = h.
Hypothesis Hfan : ∀ net g, g ∈ fanout_of c net ↔ g ∈ gates c ∧ net ∈ gate_inputs g.
Hypothesis Hdrv : ∀ g h, g ∈ gates c → h ∈ gates c → gate_output g = gate_output h → g = h.

Lemma threaded_process_stable fuel : ∀ s cc s' cc',
  Threaded.circuit s = c → Threaded.logic_model s = lm →
  Threaded.process fuel s cc = Ok (s', cc') →
  (∀ h, h ∈ Threaded.gate_stack s → h ∈ gates c) →
  threaded_settling c lm (Threaded.net_values s) (Threaded.event_stack s)
                    (Threaded.gate_stack s) →
  stable c lm (Threaded.net_values s')
  ∧ ∀ k, (∀ g, g ∈ gates c → gate_output g ≠ k) →
         Threaded.net_values s' !! k
         = pending_value (Threaded.event_stack s) k (Threaded.net_values s !! k).
Proof.
  induction fuel as [|fuel IH]; intros s cc s' cc' Hc Hlm H Hsub Hinv;
    cbn [Threaded.process] in H;
    destruct (Threaded.event_stack s) as [|ev es] eqn:Ees;
    destruct (Threaded.gate_stack s) as [|g gs] eqn:Egs; rewrite ?Hc, ?Hlm in H;
    try done.
  1,2: injection H as <- <-; split; [|done]; apply Forall_forall; intros g Hg;
       by destruct (Hinv g Hg) as [?|?].
  - (* a gate task *)
    apply bind_Ok in H as (v & Hv & H). apply bind_Ok in H as (cur & Hcur%list_get_Ok & H).
    assert (g ∈ gates c) as Hg by (apply Hsub; by left).
    apply IH in H as [Hst Hk]; [|done|done| |]; simpl in *.
    + split; [done|]. intros k Hk'. rewrite Hk by done.
      destruct (negb _); [|done]. simpl. rewrite decide_False; [done|]. by apply Hk'.
    + intros h Hh. apply Hsub. by right.
    + intros h Hh. destruct (decide (h = g)) as [->|Hne].
      * right. exists v. split; [done|]. rewrite Hcur.
        destruct (String.eqb_spec v cur) as [->|?]; simpl; [done|].
        by rewrite decide_True.
      * destruct (Hinv h Hh) as [Hin|(w & Hw & Hout)].
        -- left. unfold gate_in in *. simpl in Hin.
           apply orb_true_iff in Hin as [Heq%Nat.eqb_eq|Hin]; [|done].
           exfalso. apply Hne. by apply Hids.
        -- right. exists w. split; [done|]. simpl in Hout. rewrite Hout.
           destruct (negb _); [|done]. simpl. rewrite decide_False; [done|].
           intros Heq. apply Hne. by apply Hdrv.
  - (* an event task, empty gate stack *)
    apply bind_Ok in H as ([nv1 cc1] & Hcm & H).
    pose proof (commit_lookup _ _ _ _ _ _ Hcm) as Hlook.
    apply IH in H as [Hst Hk]; [|done|done| |]; simpl in *.
    + split; [done|]. intros k Hk'. by rewrite Hk, Hlook.
    + intros h [Hh|Hh]%push_fanout_spec; [by apply Hfan in Hh as [? _]|by apply Hsub].
    + intros h Hh. destruct (decide (ev_net ev ∈ gate_inputs h)) as [Hin|Hnin].
      * left. apply gate_in_elem, push_fanout_spec. left. by apply Hfan.
      * destruct (Hinv h Hh) as [Hq|(w & Hw & Hout)]; [done|].
        right. exists w. split.
        -- rewrite <- Hw. apply simulate_ext. intros i Hi. rewrite Hlook.
           rewrite decide_False; [done|]. intros Heq. apply Hnin. by rewrite Heq.
        -- by rewrite Hlook.
  - (* an event task *)
    apply bind_Ok in H as ([nv1 cc1] & Hcm & H).
    pose proof (commit_lookup _ _ _ _ _ _ Hcm) as Hlook.
    apply IH in H as [Hst Hk]; [|done|done| |]; simpl in *.
    + split; [done|]. intros k Hk'. by rewrite Hk, Hlook.
    + intros h [Hh|Hh]%push_fanout_spec; [by apply Hfan in Hh as [? _]|by apply Hsub].
    + intros h Hh. destruct (decide (ev_net ev ∈ gate_inputs h)) as [Hin|Hnin].
      * left. apply gate_in_elem, push_fanout_spec. left. by apply Hfan.
      * destruct (Hinv h Hh) as [Hq|(w & Hw & Hout)].
        -- left. apply gate_in_ids in Hq. apply gate_in_ids.
           apply list_elem_of_fmap in Hq as (h' & Hid & Hh').
           apply list_elem_of_fmap. exists h'. split; [done|].
           apply push_fanout_spec. by right.
        -- right. exists w. split.
           ++ rewrite <- Hw. apply simulate_ext. intros i Hi. rewrite Hlook.
              rewrite decide_False; [done|]. intros Heq. apply Hnin. by rewrite Heq.
           ++ by rewrite Hlook.
Qed.

End threaded_stable.

Lemma threaded_scan_in_range vec nv : ∀ pis es es',
  Threaded.scan_inputs pis vec nv es = Ok es' → Forall (λ k, k < length nv) pis.
Proof.
  induction pis as [|net pis IH]; intros es es' H; [constructor|].
  cbn [Threaded.scan_inputs] in H.
  apply bind_Ok in H as (cur & Hcur%list_get_Ok%lookup_lt_Some & H).
  constructor; [done|]. by eapply IH.
Qed.

Lemma threaded_call_stable fuel s s' vec hazards :
  built (Threaded.circuit s) →
  single_driver (Threaded.circuit s) →
  inputs_undriven (Threaded.circuit s) →
  Threaded.event_stack s = [] → Threaded.gate_stack s = [] →
  stable (Threaded.circuit s) (Threaded.logic_model s) (Threaded.net_values s) →
  Threaded.simulate_vector fuel s vec = Ok (s', hazards) →
  stable (Threaded.circuit s) (Threaded.logic_model s) (Threaded.net_values s')
  ∧ (∀ k cur, k ∈ primary_inputs (Threaded.circuit s) →
              Threaded.net_values s !! k = Some cur →
              Threaded.net_values s' !! k = Some (default cur (vec !! k)))
  ∧ (∀ k, k ∉ primary_inputs (Threaded.circuit s) →
          (∀ g, g ∈ gates (Threaded.circuit s) → gate_output g ≠ k) →
          Threaded.net_values s' !! k = Threaded.net_values s !! k)
  ∧ Forall (λ k, k < length (Threaded.net_values s))
           (primary_inputs (Threaded.circuit s)).
Proof.
  intros Hb Hdrv Hpi Hes Hgs Hst H.
  unfold Threaded.simulate_vector, Threaded.simulate_core in H.
  apply bind_Ok in H as ([s1 cc] & H1 & H).
  apply bind_Ok in H1 as (es & Hscan & Hproc).
  apply bind_Ok in H as (snap & _ & H). apply bind_Ok in H as (hz & _ & H).
  injection H as <- <-. simpl. rewrite Hes in Hscan. rewrite Hgs in Hproc.
  pose proof (threaded_scan_in_range _ _ _ _ _ Hscan) as Hrange.
  apply threaded_scan_events in Hscan as (_ & Hfrom & Hcov).
  assert (∀ k, k ∈ primary_inputs (Threaded.circuit s) →
               ∀ g, g ∈ gates (Threaded.circuit s) → gate_output g ≠ k) as Hund.
  { intros k Hk g Hg Heq. eapply Forall_forall in Hpi; [|done]. by rewrite Heq in Hpi. }
  eapply (threaded_process_stable (Threaded.circuit s) (Threaded.logic_model s))
    in Hproc as [Hstable Hvals]; [| | | |done|done| |].
  - split; [done|]. split; [|split; [|done]].
    + intros k cur Hk Hcur.
      rewrite Hvals by (by apply Hund). simpl. rewrite Hcur.
      apply pending_value_const.
      * intros ev Hev Hnet. destruct (Hfrom ev Hev) as [Hn|(_ & cur' & Hc' & ->)];
          [by apply elem_of_nil in Hn|]. rewrite Hnet in *. congruence.
      * destruct (Hcov k cur Hk Hcur) as [?|Heq]; [by left|]. right. by rewrite Heq.
    + intros k Hk Hk'. rewrite Hvals by done. simpl.
      apply pending_value_other, Forall_forall. intros ev Hev Hnet.
      destruct (Hfrom ev Hev) as [Hn|(Hin & _)]; [by apply elem_of_nil in Hn|].
      by rewrite Hnet in Hin.
  - by apply built_gate_id_unique.
  - intros net g. rewrite built_fanout_readers by done. apply elem_of_readers.
  - by apply single_driver_inj.
  - simpl. by intros h ?%elem_of_nil.
  - simpl. intros g Hg. right.
    destruct (stable_settling _ _ _ es Hst) with (g := g) as (v & Hv & Hout); [|done|by exists v].
    intros ev h Hev Hh. destruct (Hfrom ev Hev) as [Hn|(Hin & _)];
      [by apply elem_of_nil in Hn|]. by apply Hund.
Qed.

(** X22.  On a circuit made with the builder in which no net has two
    drivers and no gate drives a primary input, a Threaded call that
    starts with empty stacks from a stable state and returns ends in a
    stable state in which every primary input holds the value the vector
    supplies (its old value where the vector has no entry) and a net
    that is neither a primary input nor the output of a gate keeps its
    value. *)
Theorem threaded_returns_stable (fuel : nat) (s s' : Threaded.Sim)
    (vec : gmap nat string) (hazards : list (nat * string)) :
  built (Threaded.circuit s) →
  single_driver (Threaded.circuit s) →
  inputs_undriven (Threaded.circuit s) →
  Threaded.event_stack s = [] → Threaded.gate_stack s = [] →
  stable (Threaded.circuit s) (Threaded.logic_model s) (Threaded.net_values s) →
  Threaded.simulate_vector fuel s vec = Ok (s', hazards) →
  stable (Threaded.circuit s) (Threaded.logic_model s) (Threaded.net_values s')
  ∧ (∀ k cur, k ∈ primary_inputs (Threaded.circuit s) →
              Threaded.net_values s !! k = Some cur →
              Threaded.net_values s' !! k = Some (default cur (vec !! k)))
  ∧ (∀ k, k ∉ primary_inputs (Threaded.circuit s) →
          (∀ g, g ∈ gates (Threaded.circuit s) → gate_output g ≠ k) →
          Threaded.net_values s' !! k = Threaded.net_values s !! k).
Proof.
  intros Hb Hdrv Hpi Hes Hgs Hst H.
  destruct (threaded_call_stable _ _ _ _ _ Hb Hdrv Hpi Hes Hgs Hst H) as (? & ? & ? & _).
  done.
Qed.

(** *** Zero-Delay *)

Lemma default_default {A : Type} (x : A) (o : option A) :
  default (default x o) o = default x o.
Proof. by destruct o. Qed.

Section zero_delay_stable.

Variables (c : Circuit) (lm : string) (levels : gmap nat nat).
Hypothesis Hids : ∀ g h, g ∈ gates c → h ∈ gates c → gate_id g = gate_id h → g = h.
Hypothesis Hfan : ∀ net g, g ∈ fanout_of c net ↔ g ∈ gates c ∧ net ∈ gate_inputs g.
Hypothesis Hdrv : ∀ g h, g ∈ gates c → h ∈ gates c → gate_output g = gate_output h → g = h.
Hypothesis Hinc : levels_increase c levels.

Lemma bucket_add_queued g lq lq' :
  ZeroDelay.bucket_add g (ZeroDelay.level_of levels g) lq = Ok lq' →
  g ∈ gates c → buckets_levelled c levels lq →
  buckets_levelled c levels lq'
  ∧ queued lq' g
  ∧ (∀ h, queued lq h → queued lq' h)
  ∧ (∀ i, i ≠ ZeroDelay.level_of levels g → lq' !! i = lq !! i)
  ∧ length lq' = length lq.
Proof.
  intros H Hg Hb.
  destruct (bucket_add_levelled c levels g lq lq' H Hg Hb) as [Hb' Hsame].
  split; [done|]. revert H. unfold ZeroDelay.bucket_add, ZeroDelay.bucket_get.
  destruct (lq !! ZeroDelay.level_of levels g) as [q|] eqn:Eq; [|done].
  cbn [mbind result_mbind result_bind]. intros [= <-].
  destruct (gate_in g q) eqn:Ein.
  - split; [|done]. exists (ZeroDelay.level_of levels g), q. split; [done|].
    apply gate_in_ids, list_elem_of_fmap in Ein as (h & Hid & Hh).
    destruct (Hb _ _ _ Eq Hh) as [_ Hh']. by rewrite (Hids g h Hg Hh' Hid).
  - pose proof (lookup_lt_Some _ _ _ Eq) as Hlt.
    split; [|split; [|split; [done|by rewrite length_insert]]].
    + exists (ZeroDelay.level_of levels g), (q ++ [g]).
      split; [by rewrite list_lookup_insert_eq|]. apply elem_of_app. right.
      by apply list_elem_of_singleton.
    + intros h (i & q0 & Hq0 & Hh).
      destruct (decide (i = ZeroDelay.level_of levels g)) as [->|Hne].
      * exists (ZeroDelay.level_of levels g), (q ++ [g]).
        split; [by rewrite list_lookup_insert_eq|].
        rewrite Eq in Hq0. injection Hq0 as <-. apply elem_of_app. by left.
      * exists i, q0. split; [by rewrite list_lookup_insert_ne|done].
Qed.

Lemma zero_delay_schedule_queued : ∀ fo lq lq',
  ZeroDelay.schedule levels fo lq = Ok lq' →
  Forall (λ g, g ∈ gates c) fo → buckets_levelled c levels lq →
  buckets_levelled c levels lq'
  ∧ (∀ h, h ∈ fo → queued lq' h)
  ∧ (∀ h, queued lq h → queued lq' h)
  ∧ length lq' = length lq.
Proof.
  induction fo as [|g fo IH]; intros lq lq' H Hfo Hb; cbn [ZeroDelay.schedule] in H.
  { injection H as <-. split; [done|]. split; [by intros h ?%elem_of_nil|done]. }
  apply Forall_cons in Hfo as [Hg Hfo]. apply bind_Ok in H as (lq1 & Hadd & H).
  apply bucket_add_queued in Hadd as (Hb1 & Hq1 & Hk1 & _ & Hl1); [|done..].
  apply IH in H as (Hb' & Hq' & Hk' & Hl'); [|done..].
  split; [done|]. split; [|split; [by auto|congruence]].
  intros h [->|Hh]%elem_of_cons; [by apply Hk'|by apply Hq'].
Qed.

Lemma zero_delay_propagate_queued lvl : ∀ fo lq it lq' it',
  ZeroDelay.propagate levels fo lvl lq it = Ok (lq', it') →
  Forall (λ g, g ∈ gates c) fo → buckets_levelled c levels lq →
  buckets_levelled c levels lq'
  ∧ (∀ h, h ∈ fo → queued lq' h)
  ∧ (∀ h, queued lq h → queued lq' h)
  ∧ (∀ i, Forall (λ h, ZeroDelay.level_of levels h ≠ i) fo → lq' !! i = lq !! i)
  ∧ length lq' = length lq.
Proof.
  induction fo as [|g fo IH]; intros lq it lq' it' H Hfo Hb; cbn [ZeroDelay.propagate] in H.
  { injection H as <- <-. split; [done|]. split; [by intros h ?%elem_of_nil|done]. }
  apply Forall_cons in Hfo as [Hg Hfo]. apply bind_Ok in H as (lq1 & Hadd & H).
  apply bucket_add_queued in Hadd as (Hb1 & Hq1 & Hk1 & Hs1 & Hl1); [|done..].
  apply IH in H as (Hb' & Hq' & Hk' & Hs' & Hl'); [|done..].
  split; [done|]. split; [|split; [by auto|split; [|congruence]]].
  - intros h [->|Hh]%elem_of_cons; [by apply Hk'|by apply Hq'].
  - intros i [Hi Hrest]%Forall_cons. rewrite Hs' by done. apply Hs1. congruence.
Qed.

Lemma zero_delay_scan_stable vec : ∀ pis nv lq nv' lq',
  ZeroDelay.scan_inputs c levels pis vec nv lq = Ok (nv', lq') →
  (∀ k g, k ∈ pis → g ∈ gates c → gate_output g ≠ k) →
  buckets_levelled c levels lq → zero_delay_settling c lm nv lq →
  buckets_levelled c levels lq'
  ∧ zero_delay_settling c lm nv' lq'
  ∧ length lq' = length lq
  ∧ (∀ k, k ∉ pis → nv' !! k = nv !! k)
  ∧ (∀ k cur, k ∈ pis → nv !! k = Some cur → nv' !! k = Some (default cur (vec !! k))).
Proof.
  induction pis as [|net pis IH]; intros nv lq nv' lq' H Hund Hb Hinv;
    cbn [ZeroDelay.scan_inputs] in H.
  { injection H as <- <-. repeat (split; [done|]). by intros k cur ?%elem_of_nil. }
  apply bind_Ok in H as (cur & Hcur%list_get_Ok & H).
  set (val := default cur (vec !! net)) in *.
  assert (∀ k g, k ∈ pis → g ∈ gates c → gate_output g ≠ k) as Hund'.
  { intros k g Hk. apply Hund. by right. }
  assert (∀ nv1 lq1,
            ZeroDelay.scan_inputs c levels pis vec nv1 lq1 = Ok (nv', lq') →
            buckets_levelled c levels lq1 → zero_delay_settling c lm nv1 lq1 →
            length lq1 = length lq →
            (∀ k, nv1 !! k = if decide (net = k) then Some val else nv !! k) →
            buckets_levelled c levels lq'
            ∧ zero_delay_settling c lm nv' lq'
            ∧ length lq' = length lq
            ∧ (∀ k, k ∉ net :: pis → nv' !! k = nv !! k)
            ∧ (∀ k cur, k ∈ net :: pis → nv !! k = Some cur →
                        nv' !! k = Some (default cur (vec !! k)))) as Hgen.
  { intros nv1 lq1 H1 Hb1 Hinv1 Hl1 Hlook.
    apply IH in H1 as (Hb' & Hinv' & Hl' & Hout & Hin); [|done..].
    split; [done|]. split; [done|]. split; [congruence|]. split.
    - intros k [Hk1 Hk2]%not_elem_of_cons. rewrite Hout by done. rewrite Hlook.
      by rewrite decide_False.
    - intros k cur0 Hk Hk0. destruct (decide (k ∈ pis)) as [Hkin|Hknin].
      + specialize (Hlook k). destruct (decide (net = k)) as [<-|Hne].
        * rewrite (Hin net val Hkin Hlook). rewrite Hcur in Hk0. injection Hk0 as <-.
          unfold val. by rewrite default_default.
        * apply Hin; [done|congruence].
      + apply elem_of_cons in Hk as [->|Hk]; [|done].
        rewrite Hout by done. rewrite Hlook, decide_True by done.
        rewrite Hcur in Hk0. by injection Hk0 as <-. }
  destruct (String.eqb_spec val cur) as [Heq|Hne]; simpl in H.
  - eapply Hgen; [done..|]. intros k. case_decide; [subst k; by rewrite Heq|done].
  - apply bind_Ok in H as (nv1 & Hset & H). apply bind_Ok in H as (lq1 & Hsch & H).
    apply list_set_Ok in Hset as [Hnet ->].
    apply zero_delay_schedule_queued in Hsch as (Hb1 & Hq1 & Hk1 & Hl1); [| |done].
    2: { apply Forall_forall. intros g Hg. by apply Hfan in Hg as [? _]. }
    eapply Hgen; [done|done| |done|].
    + intros g Hg. destruct (decide (net ∈ gate_inputs g)) as [Hin|Hnin].
      * left. apply Hq1. by apply Hfan.
      * destruct (Hinv g Hg) as [Hq|(v & Hv & Hout)]; [left; by apply Hk1|].
        right. exists v. split.
        -- rewrite <- Hv. apply simulate_ext. intros i Hi.
           rewrite list_lookup_insert_ne; [done|]. intros Heq'. apply Hnin. by rewrite Heq'.
        -- rewrite list_lookup_insert_ne; [done|]. intros Heq.
           eapply (Hund net g); [by left|done|done].
    + intros k. case_decide as Hk.
      * subst k. by rewrite list_lookup_insert_eq.
      * by rewrite list_lookup_insert_ne.
Qed.

Lemma zero_delay_drain_stable lvl fuel : ∀ st st',
  ZeroDelay.drain_level fuel c lm levels lvl st = Ok st' →
  buckets_levelled c levels (ZeroDelay.sw_queues st) →
  zero_delay_settling c lm (ZeroDelay.sw_values st) (ZeroDelay.sw_queues st) →
  buckets_levelled c levels (ZeroDelay.sw_queues st')
  ∧ zero_delay_settling c lm (ZeroDelay.sw_values st') (ZeroDelay.sw_queues st')
  ∧ ZeroDelay.sw_queues st' !! lvl = Some []
  ∧ (∀ i, i < lvl → ZeroDelay.sw_queues st' !! i = ZeroDelay.sw_queues st !! i)
  ∧ length (ZeroDelay.sw_queues st') = length (ZeroDelay.sw_queues st)
  ∧ (∀ k, (∀ g, g ∈ gates c → gate_output g ≠ k) →
          ZeroDelay.sw_values st' !! k = ZeroDelay.sw_values st !! k).
Proof.
  induction fuel as [|fuel IH]; intros st st' H Hb Hinv;
    cbn [ZeroDelay.drain_level] in H; apply bind_Ok in H as (q & Hq & H);
    unfold ZeroDelay.bucket_get in Hq;
    (destruct (ZeroDelay.sw_queues st !! lvl) as [q0|] eqn:Eq; [|done]);
    injection Hq as ->; (destruct q as [|g q]; [by injection H as <-|]); [done|].
  apply bind_Ok in H as (v & Hv & H). apply bind_Ok in H as (cur & Hcur%list_get_Ok & H).
  destruct (Hb lvl (g :: q) g Eq) as [Hglv Hg]; [by left|].
  pose proof (lookup_lt_Some _ _ _ Eq) as Hlvl.
  set (lq0 := <[lvl := q]> (ZeroDelay.sw_queues st)) in *.
  assert (lq0 !! lvl = Some q) as Hq0 by (unfold lq0; by rewrite list_lookup_insert_eq).
  assert (∀ i, i ≠ lvl → lq0 !! i = ZeroDelay.sw_queues st !! i) as Hq0'.
  { intros i Hi. unfold lq0. by rewrite list_lookup_insert_ne. }
  assert (buckets_levelled c levels lq0) as Hb0.
  { intros i q' h Hq' Hh. destruct (decide (i = lvl)) as [->|Hne].
    - rewrite Hq0 in Hq'. injection Hq' as <-. eapply Hb; [done|by right].
    - rewrite Hq0' in Hq' by done. by eapply Hb. }
  assert (∀ h, h ≠ g → queued (ZeroDelay.sw_queues st) h → queued lq0 h) as Hkeep.
  { intros h Hne (i & q' & Hq' & Hh). destruct (decide (i = lvl)) as [->|Hne'].
    - exists lvl, q. split; [done|]. rewrite Eq in Hq'. injection Hq' as <-.
      by apply elem_of_cons in Hh as [?|?].
    - exists i, q'. split; [by rewrite Hq0'|done]. }
  assert (length lq0 = length (ZeroDelay.sw_queues st)) as Hl0.
  { unfold lq0. by rewrite length_insert. }
  destruct (String.eqb_spec v cur) as [Heq|Hne]; simpl in H.
  - apply IH in H as (Hb' & Hinv' & He' & Hlow' & Hl' & Hund'); simpl in *; [|done|].
    + split; [done|]. split; [done|]. split; [done|].
      split; [|split; [congruence|done]].
      intros i Hi. rewrite Hlow' by done. apply Hq0'. lia.
    + intros h Hh. destruct (decide (h = g)) as [->|Hhg].
      * right. exists v. split; [done|]. by rewrite Hcur, Heq.
      * destruct (Hinv h Hh) as [?|?]; [left; by apply Hkeep|by right].
  - apply bind_Ok in H as (nv1 & Hset & H). apply list_set_Ok in Hset as [Hout ->].
    apply bind_Ok in H as ([lq1 it1] & Hprop & H).
    assert (Forall (λ h, ZeroDelay.level_of levels g < ZeroDelay.level_of levels h)
                   (fanout_of c (gate_output g))) as Hup.
    { eapply Forall_forall in Hinc; [|exact Hg]. done. }
    apply zero_delay_propagate_queued in Hprop as (Hb1 & Hq1 & Hk1 & Hs1 & Hl1);
      [| |done].
    2: { apply Forall_forall. intros h Hh. by apply Hfan in Hh as [? _]. }
    assert (∀ i, i <= lvl → lq1 !! i = lq0 !! i) as Hlow1.
    { intros i Hi. apply Hs1. eapply Forall_impl; [exact Hup|]. simpl. intros h Hh. lia. }
    apply IH in H as (Hb' & Hinv' & He' & Hlow' & Hl' & Hund'); simpl in *; [|done|].
    + split; [done|]. split; [done|]. split; [done|].
      split; [|split; [congruence|]].
      * intros i Hi. rewrite Hlow' by done. rewrite Hlow1 by lia. apply Hq0'. lia.
      * intros k Hk. rewrite Hund' by done. rewrite list_lookup_insert_ne; [done|].
        by apply Hk.
    + intros h Hh. destruct (decide (gate_output g ∈ gate_inputs h)) as [Hin|Hnin].
      { left. apply Hq1. by apply Hfan. }
      destruct (decide (h = g)) as [->|Hhg].
      * right. exists v. split.
        -- rewrite <- Hv. apply simulate_ext. intros i Hi.
           rewrite list_lookup_insert_ne; [done|]. intros Heq'. apply Hnin. by rewrite Heq'.
        -- by rewrite list_lookup_insert_eq.
      * destruct (Hinv h Hh) as [Hq|(w & Hw & Hwo)]; [left; by apply Hk1, Hkeep|].
        right. exists w. split.
        -- rewrite <- Hw. apply simulate_ext. intros i Hi.
           rewrite list_lookup_insert_ne; [done|]. intros Heq'. apply Hnin. by rewrite Heq'.
        -- rewrite list_lookup_insert_ne; [done|]. intros Heq. apply Hhg.
           by apply Hdrv.
Qed.

Lemma zero_delay_sweep_stable fuel : ∀ n a st st',
  ZeroDelay.sweep_levels fuel c lm levels (seq a n) st = Ok st' →
  buckets_levelled c levels (ZeroDelay.sw_queues st) →
  zero_delay_settling c lm (ZeroDelay.sw_values st) (ZeroDelay.sw_queues st) →
  (∀ i, i < a → ZeroDelay.sw_queues st !! i = Some []) →
  buckets_levelled c levels (ZeroDelay.sw_queues st')
  ∧ zero_delay_settling c lm (ZeroDelay.sw_values st') (ZeroDelay.sw_queues st')
  ∧ (∀ i, i < a + n → ZeroDelay.sw_queues st' !! i = Some [])
  ∧ length (ZeroDelay.sw_queues st') = length (ZeroDelay.sw_queues st)
  ∧ (∀ k, (∀ g, g ∈ gates c → gate_output g ≠ k) →
          ZeroDelay.sw_values st' !! k = ZeroDelay.sw_values st !! k).
Proof.
  induction n as [|n IH]; intros a st st' H Hb Hinv Hlow; cbn [seq ZeroDelay.sweep_levels] in H.
  { injection H as <-. repeat (split; [done|]). split; [|done].
    intros i Hi. apply Hlow. lia. }
  apply bind_Ok in H as (st1 & Hd & H).
  apply zero_delay_drain_stable in Hd as (Hb1 & Hinv1 & He1 & Hlow1 & Hl1 & Hund1);
    [|done..].
  apply IH in H as (Hb' & Hinv' & Hlow' & Hl' & Hund'); [|done..|].
  - split; [done|]. split; [done|]. split; [|split; [congruence|]].
    + intros i Hi. apply Hlow'. lia.
    + intros k Hk. by rewrite Hund', Hund1.
  - intros i Hi. destruct (decide (i = a)) as [->|Hne]; [done|].
    rewrite Hlow1 by lia. apply Hlow. lia.
Qed.

Lemma zero_delay_passes_stable fuel max_level : ∀ remaining st st',
  ZeroDelay.passes remaining fuel c lm levels max_level st = Ok st' →
  buckets_levelled c levels (ZeroDelay.sw_queues st) →
  zero_delay_settling c lm (ZeroDelay.sw_values st) (ZeroDelay.sw_queues st) →
  (ZeroDelay.sw_iteration st = true ∧ 0 < remaining
   ∨ ∀ i, i < max_level + 1 → ZeroDelay.sw_queues st !! i = Some []) →
  zero_delay_settling c lm (ZeroDelay.sw_values st') (ZeroDelay.sw_queues st')
  ∧ (∀ i, i < max_level + 1 → ZeroDelay.sw_queues st' !! i = Some [])
  ∧ length (ZeroDelay.sw_queues st') = length (ZeroDelay.sw_queues st)
  ∧ (∀ k, (∀ g, g ∈ gates c → gate_output g ≠ k) →
          ZeroDelay.sw_values st' !! k = ZeroDelay.sw_values st !! k).
Proof.
  induction remaining as [|remaining IH]; intros st st' H Hb Hinv Hcase;
    cbn [ZeroDelay.passes] in H.
  { injection H as <-. destruct Hcase as [[_ ?]|Hempty]; [lia|done]. }
  destruct (ZeroDelay.sw_iteration st) eqn:Eit.
  - apply bind_Ok in H as (st1 & Hs & H).
    apply zero_delay_sweep_stable in Hs as (Hb1 & Hinv1 & Hlow1 & Hl1 & Hund1);
      [|done|done|intros i Hi; lia].
    simpl in *. apply IH in H as (Hinv' & Hlow' & Hl' & Hund'); [|done|done|by right].
    split; [done|]. split; [done|]. split; [congruence|].
    intros k Hk. by rewrite Hund', Hund1.
  - injection H as <-. destruct Hcase as [[? _]|Hempty]; [done|done].
Qed.

End zero_delay_stable.

Lemma zero_delay_scan_in_range c levels vec : ∀ pis nv lq nv' lq',
  ZeroDelay.scan_inputs c levels pis vec nv lq = Ok (nv', lq') →
  Forall (λ k, k < length nv) pis.
Proof.
  induction pis as [|net pis IH]; intros nv lq nv' lq' H; [constructor|].
  cbn [ZeroDelay.scan_inputs] in H.
  apply bind_Ok in H as (cur & Hcur%list_get_Ok%lookup_lt_Some & H).
  constructor; [done|]. destruct (negb _); [|by eapply IH].
  apply bind_Ok in H as (nv1 & [_ ->]%list_set_Ok & H).
  apply bind_Ok in H as (lq1 & _ & H). apply IH in H.
  by rewrite length_insert in H.
Qed.

Lemma zero_delay_call_stable fuel s s' vec hazards :
  built (ZeroDelay.circuit s) →
  single_driver (ZeroDelay.circuit s) →
  inputs_undriven (ZeroDelay.circuit s) →
  levels_increase (ZeroDelay.circuit s) (ZeroDelay.levels s) →
  stable (ZeroDelay.circuit s) (ZeroDelay.logic_model s) (ZeroDelay.net_values s) →
  ZeroDelay.simulate_vector fuel s vec = Ok (s', hazards) →
  stable (ZeroDelay.circuit s) (ZeroDelay.logic_model s) (ZeroDelay.net_values s')
  ∧ (∀ k cur, k ∈ primary_inputs (ZeroDelay.circuit s) →
              ZeroDelay.net_values s !! k = Some cur →
              ZeroDelay.net_values s' !! k = Some (default cur (vec !! k)))
  ∧ (∀ k, k ∉ primary_inputs (ZeroDelay.circuit s) →
          (∀ g, g ∈ gates (ZeroDelay.circuit s) → gate_output g ≠ k) →
          ZeroDelay.net_values s' !! k = ZeroDelay.net_values s !! k)
  ∧ Forall (λ k, k < length (ZeroDelay.net_values s))
           (primary_inputs (ZeroDelay.circuit s)).
Proof.
  intros Hb Hdrv Hpi Hinc Hst H. unfold ZeroDelay.simulate_vector in H.
  apply bind_Ok in H as ([nv lq] & Hscan & H). apply bind_Ok in H as (st & Hpass & H).
  apply bind_Ok in H as (snap & _ & H). injection H as <- <-. simpl.
  pose proof (zero_delay_scan_in_range _ _ _ _ _ _ _ _ Hscan) as Hrange.
  assert (∀ k, k ∈ primary_inputs (ZeroDelay.circuit s) →
               ∀ g, g ∈ gates (ZeroDelay.circuit s) → gate_output g ≠ k) as Hund.
  { intros k Hk g Hg Heq. eapply Forall_forall in Hpi; [|done]. by rewrite Heq in Hpi. }
  pose proof (built_gate_id_unique _ Hb) as Hids.
  assert (∀ net g, g ∈ fanout_of (ZeroDelay.circuit s) net
                   ↔ g ∈ gates (ZeroDelay.circuit s) ∧ net ∈ gate_inputs g) as Hfan.
  { intros net g. rewrite built_fanout_readers by done. apply elem_of_readers. }
  pose proof (single_driver_inj _ Hdrv) as Hinj.
  eapply (zero_delay_scan_stable _ (ZeroDelay.logic_model s)) in Hscan
    as (Hb1 & Hinv1 & Hl1 & Hrest & Hvals); [|done|done| | |].
  - eapply zero_delay_passes_stable in Hpass as (Hinv' & Hempty & Hl' & Hund');
      [|done..|left; simpl; split; [done|lia]].
    simpl in *. rewrite length_replicate in Hl1. split; [|split; [|split; [|done]]].
    + apply Forall_forall. intros g Hg.
      destruct (Hinv' g Hg) as [(i & q & Hq & Hin)|?]; [|done].
      assert (i < ZeroDelay.max_level s + 1) as Hi.
      { apply lookup_lt_Some in Hq. lia. }
      rewrite Hempty in Hq by done. injection Hq as <-. by apply elem_of_nil in Hin.
    + intros k cur Hk Hcur. rewrite Hund' by (by apply Hund). by apply Hvals.
    + intros k Hk Hk'. rewrite Hund' by done. by apply Hrest.
  - intros k g Hk. by apply Hund.
  - intros i q g [-> _]%lookup_replicate Hg. by apply elem_of_nil in Hg.
  - intros g Hg. right. by eapply Forall_forall in Hst.
Qed.

(** X23.  On a circuit made with the builder in which no net has two
    drivers, no gate drives a primary input and the levels strictly
    increase along every fanout edge, a Zero-Delay call that starts from
    a stable state and returns ends in a stable state in which every
    primary input holds the value the vector supplies (its old value
    where the vector has no entry) and a net that is neither a primary
    input nor the output of a gate keeps its value. *)
Theorem zero_delay_returns_stable (fuel : nat) (s s' : ZeroDelay.Sim)
    (vec : gmap nat string) (hazards : list (nat * string)) :
  built (ZeroDelay.circuit s) →
  single_driver (ZeroDelay.circuit s) →
  inputs_undriven (ZeroDelay.circuit s) →
  levels_increase (ZeroDelay.circuit s) (ZeroDelay.levels s) →
  stable (ZeroDelay.circuit s) (ZeroDelay.logic_model s) (ZeroDelay.net_values s) →
  ZeroDelay.simulate_vector fuel s vec = Ok (s', hazards) →
  stable (ZeroDelay.circuit s) (ZeroDelay.logic_model s) (ZeroDelay.net_values s')
  ∧ (∀ k cur, k ∈ primary_inputs (ZeroDelay.circuit s) →
              ZeroDelay.net_values s !! k = Some cur →
              ZeroDelay.net_values s' !! k = Some (default cur (vec !! k)))
  ∧ (∀ k, k ∉ primary_inputs (ZeroDelay.circuit s) →
          (∀ g, g ∈ gates (ZeroDelay.circuit s) → gate_output g ≠ k) →
          ZeroDelay.net_values s' !! k = ZeroDelay.net_values s !! k).
Proof.
  intros Hb Hdrv Hpi Hinc Hst H.
  destruct (zero_delay_call_stable _ _ _ _ _ Hb Hdrv Hpi Hinc Hst H) as (? & ? & ? & _).
  done.
Qed.

(** ** Stable states and function-level evaluation *)

Lemma reference_inputs_spec vec : ∀ pis nv,
  Forall (λ k, k < length nv) pis →
  ∃ nv1, reference_inputs pis vec nv = Ok nv1
         ∧ length nv1 = length nv
         ∧ (∀ k, k ∉ pis → nv1 !! k = nv !! k)
         ∧ (∀ k cur, k ∈ pis → nv !! k = Some cur →
                     nv1 !! k = Some (default cur (vec !! k))).
Proof.
  induction pis as [|net pis IH]; intros nv Hr.
  { exists nv. repeat (split; [done|]). by intros k cur ?%elem_of_nil. }
  apply Forall_cons in Hr as [Hnet Hr].
  destruct (lookup_lt_is_Some_2 nv net Hnet) as [cur Hcur].
  cbn [reference_inputs]. rewrite (proj2 (list_get_Ok nv net cur) Hcur).
  cbn [mbind result_mbind result_bind]. unfold list_set. rewrite decide_True by done.
  cbn [mbind result_mbind result_bind].
  set (val := default cur (vec !! net)).
  destruct (IH (<[net := val]> nv)) as (nv1 & -> & Hlen & Hout & Hin).
  { by rewrite length_insert. }
  exists nv1. split; [done|]. rewrite length_insert in Hlen. split; [done|]. split.
  - intros k [Hk1 Hk2]%not_elem_of_cons. rewrite Hout by done.
    by rewrite list_lookup_insert_ne.
  - intros k cur0 Hk Hk0. destruct (decide (k ∈ pis)) as [Hkin|Hknin].
    + destruct (decide (net = k)) as [<-|Hne].
      * rewrite (Hin net val Hkin) by (by rewrite list_lookup_insert_eq).
        rewrite Hcur in Hk0. injection Hk0 as <-. unfold val. by rewrite default_default.
      * apply Hin; [done|]. by rewrite list_lookup_insert_ne.
    + apply elem_of_cons in Hk as [->|Hk]; [|done].
      rewrite Hout by done. rewrite list_lookup_insert_eq by done.
      rewrite Hcur in Hk0. by injection Hk0 as <-.
Qed.

Section reference.

Variables (c : Circuit) (lm : string).
Hypothesis Hids : ∀ g h, g ∈ gates c → h ∈ gates c → gate_id g = gate_id h → g = h.

Lemma gate_in_seen seen d :
  (∀ h, h ∈ seen → h ∈ gates c) → d ∈ gates c → gate_in d seen = true → d ∈ seen.
Proof.
  intros Hsub Hd Hin. apply gate_in_ids, list_elem_of_fmap in Hin as (h & Hid & Hh).
  by rewrite (Hids d h Hd (Hsub h Hh) Hid).
Qed.

Lemma drivers_seen_elem seen g :
  (∀ h, h ∈ seen → h ∈ gates c) →
  drivers_seen c seen g = true →
  ∀ i d, i ∈ gate_inputs g → d ∈ gates c → gate_output d = i → d ∈ seen.
Proof.
  unfold drivers_seen. intros Hsub Hall i d Hi Hd Hout.
  rewrite forallb_forall in Hall. apply list_elem_of_In, Hall in Hi.
  rewrite forallb_forall in Hi. apply gate_in_seen; [done..|].
  apply Hi, list_elem_of_In. unfold get_gate_by_output. by apply list_elem_of_filter.
Qed.

(** Evaluating the gates, drivers first, over values that agree with a
    stable state wherever all drivers have been evaluated. *)
Lemma reference_gates_stable nv' :
  stable c lm nv' →
  ∀ order seen nvk,
    Forall (λ g, g ∈ gates c) order →
    (∀ h, h ∈ seen → h ∈ gates c) →
    drivers_first c seen order = true →
    length nvk = length nv' →
    (∀ k, (∀ d, d ∈ gates c → gate_output d = k → d ∈ seen) → nvk !! k = nv' !! k) →
    ∃ nvr, reference_gates order nvk lm = Ok nvr
           ∧ length nvr = length nv'
           ∧ ∀ k, (∀ d, d ∈ gates c → gate_output d = k → d ∈ seen ++ order) →
                  nvr !! k = nv' !! k.
Proof.
  intros Hst. induction order as [|g order IH]; intros seen nvk Hord Hsub Hfirst Hlen Hag.
  { exists nvk. split; [done|]. split; [done|]. intros k Hk. apply Hag.
    intros d Hd Hout. specialize (Hk d Hd Hout). by rewrite app_nil_r in Hk. }
  apply Forall_cons in Hord as [Hg Hord]. cbn [drivers_first] in Hfirst.
  apply andb_true_iff in Hfirst as [Hseen Hfirst].
  eapply Forall_forall in Hst as Hgst; [|exact Hg]. destruct Hgst as (v & Hv & Hout).
  assert (simulate g nvk lm = Ok v) as Hv'.
  { rewrite <- Hv. apply simulate_ext. intros i Hi. apply Hag. intros d Hd Hdo.
    by eapply drivers_seen_elem. }
  cbn [reference_gates]. rewrite Hv'. cbn [mbind result_mbind result_bind].
  unfold list_set. rewrite decide_True by (apply lookup_lt_Some in Hout; lia).
  cbn [mbind result_mbind result_bind].
  destruct (IH (seen ++ [g]) (<[gate_output g := v]> nvk)) as (nvr & -> & Hlr & Hagr).
  - done.
  - intros h [Hh|Hh%list_elem_of_singleton]%elem_of_app; [by apply Hsub|by subst].
  - done.
  - by rewrite length_insert.
  - intros k Hk. destruct (decide (gate_output g = k)) as [<-|Hne].
    + rewrite list_lookup_insert_eq; [done|]. apply lookup_lt_Some in Hout. lia.
    + rewrite list_lookup_insert_ne by done. apply Hag. intros d Hd Hdo.
      pose proof (Hk d Hd Hdo) as Hd'.
      apply elem_of_app in Hd' as [?|Heq%list_elem_of_singleton]; [done|].
      subst d. done.
  - exists nvr. split; [done|]. split; [done|]. intros k Hk. apply Hagr.
    intros d Hd Hdo. specialize (Hk d Hd Hdo). by rewrite <- app_assoc.
Qed.

(** Function-level evaluation from [nv0] gives the outputs of the stable
    state [nv'] that holds the vector on the primary inputs and agrees
    with [nv0] on the nets nothing drives. *)
Lemma function_level_stable order nv0 nv' vec :
  topological_order c order = true →
  Forall (λ g, g ∈ gates c) order →
  Forall (λ k, k < length nv0) (primary_inputs c) →
  length nv' = length nv0 →
  stable c lm nv' →
  (∀ k cur, k ∈ primary_inputs c → nv0 !! k = Some cur →
            nv' !! k = Some (default cur (vec !! k))) →
  (∀ k, k ∉ primary_inputs c → (∀ g, g ∈ gates c → gate_output g ≠ k) →
        nv' !! k = nv0 !! k) →
  (∀ k g, k ∈ primary_inputs c → g ∈ gates c → gate_output g ≠ k) →
  function_level c order lm nv0 vec = snapshot (primary_outputs c) nv'.
Proof.
  intros Htop Hord Hrange Hlen Hst Hin Hrest Hund.
  unfold topological_order in Htop.
  apply andb_true_iff in Htop as [Htop Hfirst].
  apply andb_true_iff in Htop as [_ Hall].
  destruct (reference_inputs_spec vec _ _ Hrange) as (nv1 & Hri & Hl1 & Ho1 & Hi1).
  unfold function_level. rewrite Hri. cbn [mbind result_mbind result_bind].
  destruct (reference_gates_stable nv' Hst order [] nv1) as (nvr & -> & Hlr & Hagr).
  - done.
  - by intros h ?%elem_of_nil.
  - done.
  - lia.
  - intros k Hk. destruct (decide (k ∈ primary_inputs c)) as [Hpi|Hnpi].
    + destruct (lookup_lt_is_Some_2 nv0 k) as [cur Hcur].
      { by eapply Forall_forall in Hrange. }
      by rewrite (Hi1 k cur Hpi Hcur), (Hin k cur Hpi Hcur).
    + rewrite Ho1 by done. symmetry. apply Hrest; [done|].
      intros g Hg Hout. by apply Hk, elem_of_nil in Hout.
  - cbn [mbind result_mbind result_bind]. f_equal. apply list_eq. intros k.
    apply Hagr. intros d Hd _. simpl. apply gate_in_seen; [|done|].
    + intros h Hh. by eapply Forall_forall in Hord.
    + rewrite forallb_forall in Hall. by apply Hall, list_elem_of_In.
Qed.

End reference.

(** X26.  On a circuit made with the builder in which no net has two
    drivers and no gate drives a primary input, a Two-List, a Threaded
    (with empty stacks) and, where the levels strictly increase along
    the fanout edges, a Zero-Delay call that starts from a stable state
    and returns logs the function-level outputs: the entry it appends to
    [output_log] is what evaluating the gates once, in any topological
    order of the circuit's gates, gives on the state before the call
    with the vector written to the primary inputs. *)
Theorem stable_call_logs_function_level (fuel : nat) (vec : gmap nat string)
    (order : list Gate) :
  (∀ s s' hazards,
     built (TwoList.circuit s) →
     single_driver (TwoList.circuit s) →
     inputs_undriven (TwoList.circuit s) →
     topological_order (TwoList.circuit s) order = true →
     Forall (λ g, g ∈ gates (TwoList.circuit s)) order →
     stable (TwoList.circuit s) (TwoList.logic_model s) (TwoList.net_values s) →
     TwoList.simulate_vector fuel s vec = Ok (s', hazards) →
     ∃ snap,
       function_level (TwoList.circuit s) order (TwoList.logic_model s)
                      (TwoList.net_values s) vec = Ok snap
       ∧ TwoList.output_log s' = TwoList.output_log s ++ [snap])
  ∧ (∀ s s' hazards,
     built (Threaded.circuit s) →
     single_driver (Threaded.circuit s) →
     inputs_undriven (Threaded.circuit s) →
     topological_order (Threaded.circuit s) order = true →
     Forall (λ g, g ∈ gates (Threaded.circuit s)) order →
     Threaded.event_stack s = [] → Threaded.gate_stack s = [] →
     stable (Threaded.circuit s) (Threaded.logic_model s) (Threaded.net_values s) →
     Threaded.simulate_vector fuel s vec = Ok (s', hazards) →
     ∃ snap,
       function_level (Threaded.circuit s) order (Threaded.logic_model s)
                      (Threaded.net_values s) vec = Ok snap
       ∧ Threaded.output_log s' = Threaded.output_log s ++ [snap])
  ∧ (∀ s s' hazards,
     built (ZeroDelay.circuit s) →
     single_driver (ZeroDelay.circuit s) →
     inputs_undriven (ZeroDelay.circuit s) →
     levels_increase (ZeroDelay.circuit s) (ZeroDelay.levels s) →
     topological_order (ZeroDelay.circuit s) order = true →
     Forall (λ g, g ∈ gates (ZeroDelay.circuit s)) order →
     stable (ZeroDelay.circuit s) (ZeroDelay.logic_model s) (ZeroDelay.net_values s) →
     ZeroDelay.simulate_vector fuel s vec = Ok (s', hazards) →
     ∃ snap,
       function_level (ZeroDelay.circuit s) order (ZeroDelay.logic_model s)
                      (ZeroDelay.net_values s) vec = Ok snap
       ∧ ZeroDelay.output_log s' = ZeroDelay.output_log s ++ [snap]).
Proof.
  split; [|split].
  - intros s s' hazards Hb Hdrv Hpi Htop Hord Hst H.
    destruct (two_list_call_stable _ _ _ _ _ Hb Hdrv Hpi Hst H)
      as (Hst' & Hin & Hrest & Hrange).
    destruct (two_list_call_effects _ _ _ _ _ H) as ((snap & Hsnap & Hlog) & _ & Hlen & _).
    exists snap. split; [|done]. rewrite <- Hsnap.
    apply function_level_stable; try done; [by apply built_gate_id_unique|].
    intros k g Hk Hg Heq. eapply Forall_forall in Hpi; [|done]. by rewrite Heq in Hpi.
  - intros s s' hazards Hb Hdrv Hpi Htop Hord Hes Hgs Hst H.
    destruct (threaded_call_stable _ _ _ _ _ Hb Hdrv Hpi Hes Hgs Hst H)
      as (Hst' & Hin & Hrest & Hrange).
    destruct (threaded_call_effects _ _ _ _ _ H) as ((snap & Hsnap & Hlog) & _ & Hlen & _).
    exists snap. split; [|done]. rewrite <- Hsnap.
    apply function_level_stable; try done; [by apply built_gate_id_unique|].
    intros k g Hk Hg Heq. eapply Forall_forall in Hpi; [|done]. by rewrite Heq in Hpi.
  - intros s s' hazards Hb Hdrv Hpi Hinc Htop Hord Hst H.
    destruct (zero_delay_call_stable _ _ _ _ _ Hb Hdrv Hpi Hinc Hst H)
      as (Hst' & Hin & Hrest & Hrange).
    destruct (zero_delay_call_effects _ _ _ _ _ H) as ((snap & Hsnap & Hlog) & _ & Hlen & _).
    exists snap. split; [|done]. rewrite <- Hsnap.
    apply function_level_stable; try done; [by apply built_gate_id_unique|].
    intros k g Hk Hg Heq. eapply Forall_forall in Hpi; [|done]. by rewrite Heq in Hpi.
Qed.

Lemma stable_call_logs_function_level_witness :
  ∃ s' hazards snap,
    TwoList.simulate_vector 10 two_list_settled {[0 := "1"]} = Ok (s', hazards)
    ∧ function_level (TwoList.circuit two_list_settled) (gates hazard_circuit)
                     (TwoList.logic_model two_list_settled)
                     (TwoList.net_values two_list_settled) {[0 := "1"]} = Ok snap
    ∧ TwoList.output_log s' = TwoList.output_log two_list_settled ++ [snap].
Proof.
  destruct (TwoList.simulate_vector 10 two_list_settled {[0 := "1"]})
    as [[s' hazards]| |] eqn:E; [|by vm_compute in E..].
  destruct (proj1 (stable_call_logs_function_level 10 {[0 := "1"]} (gates hazard_circuit))
              two_list_settled s' hazards) as (snap & Hfl & Hlog); [| | | | | |exact E|].
  - change (built hazard_circuit). unfold hazard_circuit. do 2 apply built_add_gate.
    apply built_set_primary_outputs, built_set_primary_inputs, built_init.
  - unfold single_driver. compute_done.
  - unfold inputs_undriven. compute_done.
  - vm_compute. reflexivity.
  - apply Forall_forall. by intros g Hg.
  - unfold stable. repeat (apply Forall_cons; split); try apply Forall_nil;
      eexists; split; vm_compute; reflexivity.
  - by exists s', hazards, snap.
Defined.

(** ** The Single-List (gate) simulator evaluates no gate *)

Lemma single_list_gate_scan_total vec n : ∀ pis nv changed,
  length nv = n → Forall (λ net, net < n) pis →
  ∃ nv' changed', SingleListGate.scan_inputs pis vec nv changed = Ok (nv', changed')
                  ∧ length nv' = n.
Proof.
  induction pis as [|net pis IH]; intros nv changed Hnv Hpis; [by eauto|].
  apply Forall_cons in Hpis as [Hnet Hpis].
  destruct (list_get_total nv net) as [cur Hcur]; [lia|].
  cbn [SingleListGate.scan_inputs]. rewrite Hcur. cbn [mbind result_mbind result_bind].
  destruct (negb _); [|by apply IH].
  unfold list_set. rewrite decide_True by lia. cbn [mbind result_mbind result_bind].
  apply IH; [by rewrite length_insert|done].
Qed.

Lemma single_list_gate_scan_changed vec : ∀ pis nv changed nv' changed',
  SingleListGate.scan_inputs pis vec nv changed = Ok (nv', changed') →
  (∀ k, k ∈ changed → k ∈ changed')
  ∧ (∀ net cur, net ∈ pis → nv !! net = Some cur →
                default cur (vec !! net) ≠ cur → net ∈ changed').
Proof.
  induction pis as [|net0 pis IH]; intros nv changed nv' changed' H;
    cbn [SingleListGate.scan_inputs] in H.
  { injection H as <- <-. split; [done|]. by intros net cur ?%elem_of_nil. }
  apply bind_Ok in H as (cur0 & Hcur0%list_get_Ok & H).
  destruct (String.eqb_spec (default cur0 (vec !! net0)) cur0) as [Heq|Hne]; simpl in H.
  - apply IH in H as [Hkeep Hin]. split; [done|].
    intros net cur [->|Hnet]%elem_of_cons Hcur Hch; [congruence|by eapply Hin].
  - apply bind_Ok in H as (nv1 & [Hlt ->]%list_set_Ok & H).
    apply IH in H as [Hkeep Hin]. split.
    + intros k Hk. apply Hkeep, elem_of_app. by left.
    + intros net cur Hnet Hcur Hch. destruct (decide (net = net0)) as [->|Hneq].
      * apply Hkeep, elem_of_app. right. by apply list_elem_of_singleton.
      * apply elem_of_cons in Hnet as [?|Hnet]; [done|].
        eapply Hin; [done| |done]. by rewrite list_lookup_insert_ne.
Qed.

Lemma initial_queue_nil c changed :
  SingleListGate.initial_queue c changed = [] ↔ ∀ net, net ∈ changed → fanout_of c net = [].
Proof.
  unfold SingleListGate.initial_queue. induction changed as [|net changed IH]; simpl.
  { split; [by intros _ net ?%elem_of_nil|done]. }
  split.
  - intros [Hm Hrest]%app_eq_nil net' [->|Hin]%elem_of_cons.
    + by apply map_eq_nil in Hm.
    + by apply IH.
  - intros H. rewrite (H net) by (by left). simpl. apply IH. intros net' Hin.
    apply H. by right.
Qed.

Lemma initial_queue_head c changed :
  SingleListGate.initial_queue c changed ≠ [] →
  ∃ g rest, SingleListGate.initial_queue c changed = SingleListGate.QGate g :: rest.
Proof.
  unfold SingleListGate.initial_queue. induction changed as [|net changed IH]; simpl; [done|].
  destruct (fanout_of c net) as [|g fo]; simpl; [done|]. intros _. by eauto.
Qed.

(** X24.  [SingleListGateSimulator.simulate_vector] raises [TypeError]
    whenever the vector changes a primary input that some gate reads:
    the first element taken from the queue is then a gate, and the test
    ['marker' in elem] is not defined on a [Gate] object.  (The primary
    inputs are nets of the simulator, so that the scan of the inputs
    returns.) *)
Theorem single_list_gate_raises_type_error (fuel : nat) (s : SingleListGate.Sim)
    (vec : gmap nat string) (net : nat) (cur : string) (g : Gate) :
  Forall (λ k, k < length (SingleListGate.net_values s))
         (primary_inputs (SingleListGate.circuit s)) →
  net ∈ primary_inputs (SingleListGate.circuit s) →
  SingleListGate.net_values s !! net = Some cur →
  default cur (vec !! net) ≠ cur →
  g ∈ fanout_of (SingleListGate.circuit s) net →
  SingleListGateSimulator.simulate_vector (S fuel) s vec
  = SingleListGateSimulator.TypeError.
Proof.
  intros Hpis Hnet Hcur Hch Hg. unfold SingleListGateSimulator.simulate_vector.
  destruct (single_list_gate_scan_total vec _ _ (SingleListGate.net_values s) [] eq_refl Hpis)
    as (nv & changed & Hscan & _).
  rewrite Hscan. cbn [SingleListGateSimulator.and_then].
  apply single_list_gate_scan_changed in Hscan as [_ Hin].
  specialize (Hin net cur Hnet Hcur Hch).
  destruct (initial_queue_head (SingleListGate.circuit s) changed) as (h & rest & ->).
  { intros Hnil. rewrite initial_queue_nil in Hnil. rewrite (Hnil net Hin) in Hg.
    by apply elem_of_nil in Hg. }
  done.
Qed.

Lemma single_list_gate_raises_type_error_witness :
  SingleListGateSimulator.simulate_vector 1 (SingleListGate.init not_circuit "2val")
                                          {[0 := "1"]}
  = SingleListGateSimulator.TypeError.
Proof.
  apply (single_list_gate_raises_type_error 0 (SingleListGate.init not_circuit "2val")
           {[0 := "1"]} 0 "0" (mkGate 0 "NOT" [0] 1)).
  - apply Forall_singleton. vm_compute. lia.
  - apply list_elem_of_singleton. reflexivity.
  - reflexivity.
  - discriminate.
  - apply list_elem_of_singleton. reflexivity.
Defined.

(** X25.  A [SingleListGateSimulator.simulate_vector] call that returns
    has evaluated no gate: no input it changed has a gate in its fanout,
    the net values are those the scan of the inputs left, one snapshot of
    the primary outputs is appended to the output log and, at time 0, to
    the intermediate log, [gate_sim_count] is unchanged and no hazard is
    reported. *)
Theorem single_list_gate_returns_without_gates (fuel : nat) (s s' : SingleListGate.Sim)
    (vec : gmap nat string) (hazards : list (nat * string)) :
  SingleListGateSimulator.simulate_vector fuel s vec
  = SingleListGateSimulator.Completed (Ok (s', hazards)) →
  ∃ nv changed snap,
    SingleListGate.scan_inputs (primary_inputs (SingleListGate.circuit s)) vec
                               (SingleListGate.net_values s) [] = Ok (nv, changed)
    ∧ (∀ net, net ∈ changed → fanout_of (SingleListGate.circuit s) net = [])
    ∧ snapshot (primary_outputs (SingleListGate.circuit s)) nv = Ok snap
    ∧ s' = SingleListGate.mkSim
             (SingleListGate.circuit s) (SingleListGate.logic_model s)
             (SingleListGate.num_nets s) nv (SingleListGate.gate_sim_count s)
             (SingleListGate.output_log s ++ [snap])
             (SingleListGate.intermediate_log s ++ [(0, snap)])
    ∧ hazards = [].
Proof.
  unfold SingleListGateSimulator.simulate_vector. intros H.
  destruct (SingleListGate.scan_inputs _ _ _ _) as [[nv changed]| |] eqn:Hscan;
    cbn [SingleListGateSimulator.and_then] in H; try done.
  exists nv, changed.
  destruct (SingleListGate.initial_queue (SingleListGate.circuit s) changed)
    as [|[g|] rest] eqn:Hq.
  - pose proof (proj1 (initial_queue_nil _ _) Hq) as Hq'.
    destruct fuel as [|fuel]; cbn [app SingleListGateSimulator.process
      SingleListGateSimulator.marker_in SingleListGate.commit_all
      SingleListGateSimulator.and_then SingleListGate.net_values
      SingleListGate.circuit] in H; [done|].
    destruct (snapshot (primary_outputs (SingleListGate.circuit s)) nv) as [snap| |]
      eqn:Hsnap; cbn [SingleListGateSimulator.and_then] in H; try done.
    exists snap. split; [done|]. split; [done|]. split; [done|].
    destruct fuel; cbn [SingleListGateSimulator.process] in H;
      injection H as H; simpl in H; rewrite Hsnap in H; simpl in H;
      rewrite detect_hazards_unchanged in H; simpl in H; by injection H as <- <-.
  - destruct fuel; cbn [app SingleListGateSimulator.process
      SingleListGateSimulator.marker_in] in H; done.
  - exfalso. unfold SingleListGate.initial_queue in Hq.
    assert (SingleListGate.Marker ∈ flat_map
              (λ net, map SingleListGate.QGate (fanout_of (SingleListGate.circuit s) net))
              changed) as Hin by (rewrite Hq; by left).
    apply list_elem_of_In, in_flat_map in Hin as (net & _ & Hin).
    by apply in_map_iff in Hin as (g & Hg & _).
Qed.

Lemma single_list_gate_returns_without_gates_witness :
  ∃ s' hazards nv changed snap,
    SingleListGateSimulator.simulate_vector 1 (SingleListGate.init not_circuit "2val")
                                            {[0 := "0"]}
    = SingleListGateSimulator.Completed (Ok (s', hazards))
    ∧ SingleListGate.scan_inputs
        (primary_inputs (SingleListGate.circuit (SingleListGate.init not_circuit "2val")))
        {[0 := "0"]} (SingleListGate.net_values (SingleListGate.init not_circuit "2val"))
        [] = Ok (nv, changed)
    ∧ (∀ net, net ∈ changed →
              fanout_of (SingleListGate.circuit (SingleListGate.init not_circuit "2val"))
                        net = [])
    ∧ snapshot (primary_outputs
                  (SingleListGate.circuit (SingleListGate.init not_circuit "2val")))
               nv = Ok snap
    ∧ s' = SingleListGate.mkSim
             (SingleListGate.circuit (SingleListGate.init not_circuit "2val"))
             (SingleListGate.logic_model (SingleListGate.init not_circuit "2val"))
             (SingleListGate.num_nets (SingleListGate.init not_circuit "2val")) nv
             (SingleListGate.gate_sim_count (SingleListGate.init not_circuit "2val"))
             (SingleListGate.output_log (SingleListGate.init not_circuit "2val") ++ [snap])
             (SingleListGate.intermediate_log (SingleListGate.init not_circuit "2val")
              ++ [(0, snap)])
    ∧ hazards = [].
Proof.
  destruct (SingleListGateSimulator.simulate_vector 1
              (SingleListGate.init not_circuit "2val") {[0 := "0"]})
    as [[[s' hazards]| |]|] eqn:E; [|by vm_compute in E..].
  destruct (single_list_gate_returns_without_gates _ _ _ _ _ E)
    as (nv & changed & snap & H).
  by exists s', hazards, nv, changed, snap.
Defined.

(** ** The gates the first call evaluates *)





(** ** The properties at concrete runs *)

Lemma call_logs_final_outputs_witness :
  ∃ s' hazards snap,
    SingleListEvent.simulate_vector 10 (SingleListEvent.init chain_circuit "2val")
                                    {[0 := "1"]} = Ok (s', hazards)
    ∧ snapshot (primary_outputs
                  (SingleListEvent.circuit (SingleListEvent.init chain_circuit "2val")))
               (SingleListEvent.net_values s') = Ok snap
    ∧ SingleListEvent.output_log s'
      = SingleListEvent.output_log (SingleListEvent.init chain_circuit "2val") ++ [snap].
Proof.
  destruct (SingleListEvent.simulate_vector 10
              (SingleListEvent.init chain_circuit "2val") {[0 := "1"]})
    as [[s' hazards]| |] eqn:E; [|by vm_compute in E..].
  destruct (proj1 (proj2 (call_logs_final_outputs 10 {[0 := "1"]})) _ _ _ E)
    as (snap & Hsnap & Hlog).
  by exists s', hazards, snap.
Defined.

Lemma call_keeps_shape_witness :
  ∃ s' hazards,
    Threaded.simulate_vector 10 (Threaded.init chain_circuit "3val") {[0 := "1"]}
      = Ok (s', hazards)
    ∧ Threaded.gate_sim_count (Threaded.init chain_circuit "3val")
      <= Threaded.gate_sim_count s'
    ∧ length (Threaded.net_values s')
      = length (Threaded.net_values (Threaded.init chain_circuit "3val"))
    ∧ Threaded.num_nets s' = Threaded.num_nets (Threaded.init chain_circuit "3val")
    ∧ same_circuit (Threaded.circuit (Threaded.init chain_circuit "3val"))
                   (Threaded.circuit s')
    ∧ Threaded.logic_model s'
      = Threaded.logic_model (Threaded.init chain_circuit "3val").
Proof.
  destruct (Threaded.simulate_vector 10 (Threaded.init chain_circuit "3val")
              {[0 := "1"]}) as [[s' hazards]| |] eqn:E; [|by vm_compute in E..].
  exists s', hazards. split; [done|].
  exact (proj2 (proj2 (proj2 (call_keeps_shape 10 {[0 := "1"]}))) _ _ _ E).
Defined.

Lemma run_grows_log_and_count_witness :
  ∃ s' hs,
    run_vectors (TwoList.simulate_vector 10) (TwoList.init hazard_circuit "2val")
                hazard_vectors = Ok (s', hs)
    ∧ length (TwoList.output_log s')
      = length (TwoList.output_log (TwoList.init hazard_circuit "2val"))
        + length hazard_vectors
    ∧ length hs = length hazard_vectors
    ∧ TwoList.gate_sim_count (TwoList.init hazard_circuit "2val")
      <= TwoList.gate_sim_count s'.
Proof.
  destruct (run_vectors (TwoList.simulate_vector 10)
              (TwoList.init hazard_circuit "2val") hazard_vectors)
    as [[s' hs]| |] eqn:E; [|by vm_compute in E..].
  exists s', hs. split; [done|].
  exact (proj1 (run_grows_log_and_count 10 hazard_vectors) _ _ _ E).
Defined.

Lemma quiet_call_only_logs_witness :
  ∃ snap,
    snapshot (primary_outputs (Threaded.circuit (Threaded.init not_circuit "2val")))
             (Threaded.net_values (Threaded.init not_circuit "2val"))
      = Ok snap
    ∧ ∀ fuel,
        Threaded.simulate_vector fuel (Threaded.init not_circuit "2val") {[0 := "0"]}
        = Ok (threaded_logged (Threaded.init not_circuit "2val") snap, []).
Proof.
  apply (proj2 (proj2 (proj2 (quiet_call_only_logs {[0 := "0"]})))).
  - reflexivity.
  - reflexivity.
  - apply Forall_singleton. exists "0". split; reflexivity.
  - apply Forall_singleton. vm_compute. lia.
Defined.

(** Two-List on [two_hazard_circuit]: after [{A: 0}], raising [A] makes
    [Y] and [Z] change twice each and return to 0; both are reported,
    [Y] (net 1) before [Z] (net 2). *)
Lemma hazards_in_net_order_witness :
  ∃ s0 s',
    TwoList.simulate_vector 10 (TwoList.init two_hazard_circuit "2val") {[0 := "0"]}
      = Ok (s0, [])
    ∧ TwoList.simulate_vector 10 s0 {[0 := "1"]}
      = Ok (s', [(1, "static"); (2, "static")])
    ∧ StronglySorted lt ([(1, "static"); (2, "static")].*1).
Proof.
  pose (s0 := match TwoList.simulate_vector 10 (TwoList.init two_hazard_circuit "2val")
                      {[0 := "0"]} with
              | Ok (s, _) => s
              | _ => TwoList.init two_hazard_circuit "2val"
              end).
  pose (s' := match TwoList.simulate_vector 10 s0 {[0 := "1"]} with
              | Ok (s, _) => s
              | _ => s0
              end).
  assert (TwoList.simulate_vector 10 s0 {[0 := "1"]}
          = Ok (s', [(1, "static"); (2, "static")])) as H1.
  { vm_compute; reflexivity. }
  exists s0, s'.
  split; [vm_compute; reflexivity|].
  split; [exact H1|].
  exact (proj1 (hazards_in_net_order 10 {[0 := "1"]}) s0 s' _ H1).
Defined.

Lemma zero_delay_levels_bounded_witness :
  ∃ s, ZeroDelay.init 5 chain_circuit "2val" = Ok s
       ∧ ∀ g, ZeroDelay.level_of (ZeroDelay.levels s) g <= ZeroDelay.max_level s
              ∧ ∃ bucket : list Gate,
                  ZeroDelay.bucket_get (replicate (ZeroDelay.max_level s + 1) [])
                                       (ZeroDelay.level_of (ZeroDelay.levels s) g)
                  = Ok bucket.
Proof.
  destruct (ZeroDelay.init 5 chain_circuit "2val") as [s| |] eqn:E;
    [|by vm_compute in E..].
  exists s. split; [done|].
  exact (zero_delay_levels_bounded _ _ _ _ E).
Defined.

Lemma two_list_returns_stable_witness :
  ∃ s' hazards,
    TwoList.simulate_vector 10 two_list_settled {[0 := "1"]} = Ok (s', hazards)
    ∧ stable (TwoList.circuit two_list_settled) (TwoList.logic_model two_list_settled)
             (TwoList.net_values s')
    ∧ (∀ k cur, k ∈ primary_inputs (TwoList.circuit two_list_settled) →
                TwoList.net_values two_list_settled !! k = Some cur →
                TwoList.net_values s' !! k
                = Some (default cur (({[0 := "1"]} : gmap nat string) !! k)))
    ∧ (∀ k, k ∉ primary_inputs (TwoList.circuit two_list_settled) →
            (∀ g, g ∈ gates (TwoList.circuit two_list_settled) → gate_output g ≠ k) →
            TwoList.net_values s' !! k = TwoList.net_values two_list_settled !! k).
Proof.
  destruct (TwoList.simulate_vector 10 two_list_settled {[0 := "1"]})
    as [[s' hazards]| |] eqn:E; [|by vm_compute in E..].
  exists s', hazards. split; [done|].
  apply (two_list_returns_stable 10 two_list_settled s' {[0 := "1"]} hazards);
    [| | | |exact E].
  - change (built hazard_circuit). unfold hazard_circuit. do 2 apply built_add_gate.
    apply built_set_primary_outputs, built_set_primary_inputs, built_init.
  - unfold single_driver. compute_done.
  - unfold inputs_undriven. compute_done.
  - unfold stable. repeat (apply Forall_cons; split); try apply Forall_nil;
      eexists; split; vm_compute; reflexivity.
Defined.

Lemma threaded_returns_stable_witness :
  ∃ s' hazards,
    Threaded.simulate_vector 10 threaded_settled {[0 := "1"]} = Ok (s', hazards)
    ∧ stable (Threaded.circuit threaded_settled) (Threaded.logic_model threaded_settled)
             (Threaded.net_values s')
    ∧ (∀ k cur, k ∈ primary_inputs (Threaded.circuit threaded_settled) →
                Threaded.net_values threaded_settled !! k = Some cur →
                Threaded.net_values s' !! k
                = Some (default cur (({[0 := "1"]} : gmap nat string) !! k)))
    ∧ (∀ k, k ∉ primary_inputs (Threaded.circuit threaded_settled) →
            (∀ g, g ∈ gates (Threaded.circuit threaded_settled) → gate_output g ≠ k) →
            Threaded.net_values s' !! k = Threaded.net_values threaded_settled !! k).
Proof.
  destruct (Threaded.simulate_vector 10 threaded_settled {[0 := "1"]})
    as [[s' hazards]| |] eqn:E; [|by vm_compute in E..].
  exists s', hazards. split; [done|].
  apply (threaded_returns_stable 10 threaded_settled s' {[0 := "1"]} hazards);
    [| | | | | |exact E].
  - change (built hazard_circuit). unfold hazard_circuit. do 2 apply built_add_gate.
    apply built_set_primary_outputs, built_set_primary_inputs, built_init.
  - unfold single_driver. compute_done.
  - unfold inputs_undriven. compute_done.
  - reflexivity.
  - reflexivity.
  - unfold stable. repeat (apply Forall_cons; split); try apply Forall_nil;
      eexists; split; vm_compute; reflexivity.
Defined.

Lemma zero_delay_returns_stable_witness :
  ∃ s' hazards,
    ZeroDelay.simulate_vector 10 zero_delay_settled {[0 := "1"]} = Ok (s', hazards)
    ∧ stable (ZeroDelay.circuit zero_delay_settled)
             (ZeroDelay.logic_model zero_delay_settled) (ZeroDelay.net_values s')
    ∧ (∀ k cur, k ∈ primary_inputs (ZeroDelay.circuit zero_delay_settled) →
                ZeroDelay.net_values zero_delay_settled !! k = Some cur →
                ZeroDelay.net_values s' !! k
                = Some (default cur (({[0 := "1"]} : gmap nat string) !! k)))
    ∧ (∀ k, k ∉ primary_inputs (ZeroDelay.circuit zero_delay_settled) →
            (∀ g, g ∈ gates (ZeroDelay.circuit zero_delay_settled) → gate_output g ≠ k) →
            ZeroDelay.net_values s' !! k = ZeroDelay.net_values zero_delay_settled !! k).
Proof.
  destruct (ZeroDelay.simulate_vector 10 zero_delay_settled {[0 := "1"]})
    as [[s' hazards]| |] eqn:E; [|by vm_compute in E..].
  exists s', hazards. split; [done|].
  apply (zero_delay_returns_stable 10 zero_delay_settled s' {[0 := "1"]} hazards);
    [| | | | |exact E].
  - change (built chain_circuit). unfold chain_circuit. do 2 apply built_add_gate.
    apply built_set_primary_outputs, built_set_primary_inputs, built_init.
  - unfold single_driver. compute_done.
  - unfold inputs_undriven. compute_done.
  - unfold levels_increase.
    repeat (apply Forall_cons; split); try apply Forall_nil; vm_compute; lia.
  - unfold stable. repeat (apply Forall_cons; split); try apply Forall_nil;
      eexists; split; vm_compute; reflexivity.
Defined.

